(** * Redis 3.0 storage core: snapshot codec, sets, hashes, byte strings and
      memory accounting

    A shallow embedding of [rdb.c], [t_set.c], [t_hash.c], [sds.c],
    [zmalloc.c] and [rio.h], with the properties the specification states
    about them and further properties read off the code.

    Part I holds the model; Part II holds the theorems about what the
    specification states, Part III further properties of the code. *)

From Stdlib Require Import ZArith List Bool Lia.
From stdpp Require Import base gmap sets list sorting.

Local Open Scope Z_scope.

(* ===================================================================== *)
(** * Part I: the model                                                   *)
(* ===================================================================== *)

(** ** Bytes and the memory image of integers *)

Module Mem.

(** A byte is an integer in [0, 256); an [sds] is a binary-safe byte string. *)
Definition is_byte (b : Z) : Prop := 0 <= b < 256.
Definition all_bytes (bs : list Z) : Prop := Forall is_byte bs.

(** The [n] low-order bytes of [x], least significant first. *)
Fixpoint le_encode (n : nat) (x : Z) : list Z :=
  match n with
  | O => []
  | S n' => Z.land x 255 :: le_encode n' (Z.shiftr x 8)
  end.

Fixpoint le_decode (bs : list Z) : Z :=
  match bs with
  | [] => 0
  | b :: rest => b + 256 * le_decode rest
  end.

(** What [&x] points at for an [n]-byte unsigned [x], on a host that is
    big-endian ([be = true]) or little-endian. *)
Definition mem_of_uint (be : bool) (n : nat) (x : Z) : list Z :=
  if be then rev (le_encode n x) else le_encode n x.

(** The unsigned value of the bytes an integer variable occupies. *)
Definition uint_of_mem (be : bool) (bs : list Z) : Z :=
  if be then le_decode (rev bs) else le_decode bs.

(** [htonl]/[ntohl] of <arpa/inet.h>: identity on a big-endian host, a swap
    of the four bytes on a little-endian one. *)
Definition htonl (be : bool) (x : Z) : Z :=
  if be then x else le_decode (rev (le_encode 4 x)).
Definition ntohl (be : bool) (x : Z) : Z := htonl be x.

(** [memrev64ifbe(p)]: reverses the eight bytes at [p] on a big-endian host. *)
Definition memrev64ifbe (be : bool) (bs : list Z) : list Z :=
  if be then rev bs else bs.

End Mem.

(** ** Decimal rendering and parsing of integers *)

Module Util.

Definition LLONG_MAX : Z := 9223372036854775807.
Definition LLONG_MIN : Z := -9223372036854775808.
Definition is_int64 (v : Z) : Prop := LLONG_MIN <= v <= LLONG_MAX.

(** The [do { *p++ = '0'+(v%10); v /= 10; } while(v)] loop of [sdsll2str]:
    the digits of [v], least significant first.  An unsigned 64-bit [v] has
    at most twenty digits (the buffer is [SDS_LLSTR_SIZE] = 21 bytes). *)
Fixpoint rev_digits (fuel : nat) (v : Z) : list Z :=
  match fuel with
  | O => []
  | S fuel' =>
      (48 + v mod 10) ::
      (if v / 10 =? 0 then [] else rev_digits fuel' (v / 10))
  end.

(** [sdsll2str] (sds.c): the digits are produced reversed, a ['-'] is
    appended for a negative value, and the buffer is reversed in place. *)
Definition sdsll2str (value : Z) : list Z :=
  let v := if value <? 0 then - value else value in
  let p := rev_digits 20 v ++ (if value <? 0 then [45] else []) in
  rev p.

(** Modelled from the spec: util.c is not part of the sources; [ll2string]
    writes the same decimal representation as [sdsll2str]. *)
Definition ll2string (value : Z) : list Z := sdsll2str value.

(** <ctype.h> in the C locale. *)
Definition isspace (c : Z) : bool := (c =? 32) || ((9 <=? c) && (c <=? 13)).
Definition isdigit (c : Z) : bool := (48 <=? c) && (c <=? 57).

Fixpoint skip_space (s : list Z) : list Z :=
  match s with
  | c :: rest => if isspace c then skip_space rest else s
  | [] => []
  end.

(** The digit run at the head of [s], accumulated in base 10, and what
    follows it. *)
Fixpoint digits_val (acc : Z) (s : list Z) : Z * list Z :=
  match s with
  | c :: rest =>
      if isdigit c then digits_val (acc * 10 + (c - 48)) rest else (acc, s)
  | [] => (acc, [])
  end.

Definition clamp_ll (v : Z) : Z :=
  if v <? LLONG_MIN then LLONG_MIN
  else if LLONG_MAX <? v then LLONG_MAX else v.

(** [strtoll(s,&endptr,10)] of the C library on the bytes at [s] (which end
    with the terminating NUL): leading white space, an optional sign, a run
    of digits; the value saturates at [LLONG_MIN]/[LLONG_MAX]; without any
    digit the value is 0 and [endptr] is [s].  Returns the value and the
    bytes at [endptr]. *)
Definition strtoll (s : list Z) : Z * list Z :=
  let s1 := skip_space s in
  let '(neg, s2) :=
    match s1 with
    | c :: rest =>
        if c =? 45 then (true, rest)
        else if c =? 43 then (false, rest) else (false, s1)
    | [] => (false, s1)
    end in
  match s2 with
  | c :: _ =>
      if isdigit c then
        let '(v, endptr) := digits_val 0 s2 in
        (clamp_ll (if neg then - v else v), endptr)
      else (0, s)
  | [] => (0, s)
  end.

(** Modelled from the spec: object.c and util.c are not part of the sources.
    [isObjectRepresentableAsLongLong] accepts exactly the strings that parse
    as a 64-bit signed integer whose decimal rendering is the string itself
    (section 4.6 of the spec), and yields that integer. *)
Definition isObjectRepresentableAsLongLong (s : list Z) : option Z :=
  let v := fst (strtoll (s ++ [0])) in
  if bool_decide (ll2string v = s) then Some v else None.

(** [atoi(s)] of the C library, [(int)strtol(s,NULL,10)], on the bytes of
    [s] followed by the terminating NUL; it is used on four characters, whose
    value fits an [int]. *)
Definition atoi (s : list Z) : Z := fst (strtoll (s ++ [0])).

End Util.

(** ** rio.h: the stream abstraction *)

Module Rio.

(** The [update_cksum] method: a null pointer, [rioGenericUpdateChecksum]
    (installed by [rdbSave] when checksums are on), or
    [rdbLoadProgressCallback] (installed by [rdbLoad]; it reads
    [server.rdb_checksum], carried here). *)
Inductive cksum_cb : Type :=
| CB_NULL
| CB_rioGenericUpdateChecksum
| CB_rdbLoadProgressCallback (rdb_checksum : bool).

(** [struct _rio].  The backend is the in-memory buffer of rio.h
    ([io.buffer.ptr], [io.buffer.pos]) or a file, seen as its contents and
    offset; [io_room] is the number of bytes the device still accepts
    ([None]: no limit), so that a write can fail as [fwrite] can. *)
Record rio : Type := mkRio {
  io_ptr : list Z;
  io_pos : nat;
  io_room : option nat;
  update_cksum : cksum_cb;
  cksum : Z;
  processed_bytes : nat;
  max_processing_chunk : nat
}.

Section Checksum.

(** Modelled from the spec: crc64.c is not part of the sources.  The running
    CRC64 is advanced one byte at a time from the current value; the table
    step for one byte is [crc64_byte]. *)
Variable crc64_byte : Z -> Z -> Z.

Definition crc64 (crc : Z) (buf : list Z) : Z := fold_left crc64_byte buf crc.

(** [rioGenericUpdateChecksum]: [r->cksum = crc64(r->cksum,buf,len)]. *)
Definition rioGenericUpdateChecksum (r : rio) (buf : list Z) : rio :=
  mkRio (io_ptr r) (io_pos r) (io_room r) (update_cksum r)
        (crc64 (cksum r) buf) (processed_bytes r) (max_processing_chunk r).

(** [if (r->update_cksum) r->update_cksum(r,buf,len)]; of
    [rdbLoadProgressCallback] only the checksum update changes the stream. *)
Definition call_update_cksum (r : rio) (buf : list Z) : rio :=
  match update_cksum r with
  | CB_NULL => r
  | CB_rioGenericUpdateChecksum => rioGenericUpdateChecksum r buf
  | CB_rdbLoadProgressCallback rdb_checksum =>
      if rdb_checksum then rioGenericUpdateChecksum r buf else r
  end.

(** [r->read(r,buf,len)]: all [len] bytes or failure. *)
Definition backend_read (r : rio) (len : nat) : option (list Z * rio) :=
  if (len <=? length (io_ptr r) - io_pos r)%nat
  then Some (take len (drop (io_pos r) (io_ptr r)),
             mkRio (io_ptr r) (io_pos r + len) (io_room r) (update_cksum r)
                   (cksum r) (processed_bytes r) (max_processing_chunk r))
  else None.

(** [r->write(r,buf,len)]: appends, or fails when the device is full. *)
Definition backend_write (r : rio) (buf : list Z) : option rio :=
  match io_room r with
  | Some room =>
      if (length buf <=? room)%nat
      then Some (mkRio (io_ptr r ++ buf) (io_pos r + length buf)
                       (Some (room - length buf)%nat) (update_cksum r)
                       (cksum r) (processed_bytes r) (max_processing_chunk r))
      else None
  | None =>
      Some (mkRio (io_ptr r ++ buf) (io_pos r + length buf) None
                  (update_cksum r) (cksum r) (processed_bytes r)
                  (max_processing_chunk r))
  end.

Definition add_processed (r : rio) (n : nat) : rio :=
  mkRio (io_ptr r) (io_pos r) (io_room r) (update_cksum r) (cksum r)
        (processed_bytes r + n) (max_processing_chunk r).

(** The size of the next chunk of a request of [len] bytes. *)
Definition chunk_of (r : rio) (len : nat) : nat :=
  if (0 <? max_processing_chunk r)%nat && (max_processing_chunk r <? len)%nat
  then max_processing_chunk r else len.

(** [rioRead]: the [while (len)] loop; each turn moves at least one byte, so
    [len] turns are enough.  [None] is the return value 0. *)
Fixpoint rioRead_loop (fuel : nat) (r : rio) (len : nat) (acc : list Z)
  : option (list Z * rio) :=
  match len with
  | O => Some (acc, r)
  | S _ =>
      match fuel with
      | O => None
      | S fuel' =>
          let bytes_to_read := chunk_of r len in
          match backend_read r bytes_to_read with
          | None => None
          | Some (buf, r1) =>
              let r2 := call_update_cksum r1 buf in
              rioRead_loop fuel' (add_processed r2 bytes_to_read)
                           (len - bytes_to_read) (acc ++ buf)
          end
      end
  end.

Definition rioRead (r : rio) (len : nat) : option (list Z * rio) :=
  rioRead_loop len r len [].

(** [rioWrite]: the checksum is updated before the backend is called, so a
    failed write leaves it advanced; the failed stream is not used again. *)
Fixpoint rioWrite_loop (fuel : nat) (r : rio) (buf : list Z) : option rio :=
  match buf with
  | [] => Some r
  | _ :: _ =>
      match fuel with
      | O => None
      | S fuel' =>
          let bytes_to_write := chunk_of r (length buf) in
          let r1 := call_update_cksum r (take bytes_to_write buf) in
          match backend_write r1 (take bytes_to_write buf) with
          | None => None
          | Some r2 =>
              rioWrite_loop fuel' (add_processed r2 bytes_to_write)
                            (drop bytes_to_write buf)
          end
      end
  end.

Definition rioWrite (r : rio) (buf : list Z) : option rio :=
  rioWrite_loop (length buf) r buf.

(** The checksum after the method has seen [buf]. *)
Definition next_cksum (r : rio) (buf : list Z) : Z :=
  cksum (call_update_cksum r buf).

(** The same, from the method and the current value alone. *)
Definition cksum_after (cb : cksum_cb) (c : Z) (buf : list Z) : Z :=
  match cb with
  | CB_NULL => c
  | CB_rioGenericUpdateChecksum => crc64 c buf
  | CB_rdbLoadProgressCallback rdb_checksum =>
      if rdb_checksum then crc64 c buf else c
  end.

(** What a successful [rioRead] of [len] bytes amounts to once its chunks
    are put together, stated without the loop. *)
Definition read_all (r : rio) (len : nat) : option (list Z * rio) :=
  if (len <=? length (io_ptr r) - io_pos r)%nat then
    let buf := take len (drop (io_pos r) (io_ptr r)) in
    Some (buf, mkRio (io_ptr r) (io_pos r + len) (io_room r) (update_cksum r)
                     (next_cksum r buf) (processed_bytes r + len)
                     (max_processing_chunk r))
  else None.

(** The same for [rioWrite]. *)
Definition write_all (r : rio) (buf : list Z) : option rio :=
  match io_room r with
  | Some room =>
      if (length buf <=? room)%nat
      then Some (mkRio (io_ptr r ++ buf) (io_pos r + length buf)
                       (Some (room - length buf)%nat) (update_cksum r)
                       (next_cksum r buf) (processed_bytes r + length buf)
                       (max_processing_chunk r))
      else None
  | None =>
      Some (mkRio (io_ptr r ++ buf) (io_pos r + length buf) None
                  (update_cksum r) (next_cksum r buf)
                  (processed_bytes r + length buf) (max_processing_chunk r))
  end.

End Checksum.

(** [rioInitWithBuffer]/[rioInitWithFile]: a fresh stream at offset 0, with
    no checksum method and no chunk limit. *)
Definition rioInitWithBuffer (s : list Z) : rio :=
  mkRio s 0 None CB_NULL 0 0 0.

Definition rioInitWithFile (contents : list Z) : rio :=
  mkRio contents 0 None CB_NULL 0 0 0.

(** The bytes not read yet. *)
Definition unread (r : rio) : list Z := drop (io_pos r) (io_ptr r).

End Rio.

(** ** Values, databases and the server state (redis.h) *)

Module Redis.

(** A set value: [REDIS_ENCODING_INTSET] holds a sorted integer array,
    [REDIS_ENCODING_HT] a hash table whose keys are the members.

    Modelled from the spec: intset.c and dict.c are not part of the sources.
    The sorted integer array is an ascending duplicate-free list of 64-bit
    integers; the hash table of a set is the finite set of its keys. *)
Inductive setobj : Type :=
| Intset_enc (ints : list Z)
| HT_enc (d : gset (list Z)).

(** [robj]: string objects are identified with their bytes (the INT, EMBSTR
    and RAW encodings of one string compare equal as dictionary keys); the
    list, sorted set and hash types are not interpreted here. *)
Inductive robj : Type :=
| String_obj (s : list Z)
| Set_obj (s : setobj)
| Other_obj (type : Z).

(** [redisDb]: the keyspace and the expirations (absolute ms deadlines). *)
Record redisDb : Type := mkDb {
  dict : gmap (list Z) robj;
  expires : gmap (list Z) Z
}.

Inductive status : Type := REDIS_OK | REDIS_ERR.

(** The fields of [struct redisServer] that rdb.c and t_set.c read or write. *)
Record redisServer : Type := mkServer {
  db : list redisDb;
  dbnum : Z;
  masterhost : option (list Z);
  rdb_compression : bool;
  rdb_checksum : bool;
  set_max_intset_entries : Z;
  loading_process_events_interval_bytes : nat;
  dirty : Z;
  dirty_before_bgsave : Z;
  lastsave : Z;
  lastbgsave_try : Z;
  lastbgsave_status : status;
  rdb_child_pid : Z;
  rdb_save_time_start : Z;
  rdb_save_time_last : Z;
  stat_fork_time : Z
}.

Definition set_db (s : redisServer) (v : list redisDb) : redisServer :=
  mkServer v (dbnum s) (masterhost s) (rdb_compression s) (rdb_checksum s)
    (set_max_intset_entries s) (loading_process_events_interval_bytes s)
    (dirty s) (dirty_before_bgsave s) (lastsave s) (lastbgsave_try s)
    (lastbgsave_status s) (rdb_child_pid s) (rdb_save_time_start s)
    (rdb_save_time_last s) (stat_fork_time s).

Definition set_dirty (s : redisServer) (v : Z) : redisServer :=
  mkServer (db s) (dbnum s) (masterhost s) (rdb_compression s) (rdb_checksum s)
    (set_max_intset_entries s) (loading_process_events_interval_bytes s)
    v (dirty_before_bgsave s) (lastsave s) (lastbgsave_try s)
    (lastbgsave_status s) (rdb_child_pid s) (rdb_save_time_start s)
    (rdb_save_time_last s) (stat_fork_time s).

Definition set_dirty_before_bgsave (s : redisServer) (v : Z) : redisServer :=
  mkServer (db s) (dbnum s) (masterhost s) (rdb_compression s) (rdb_checksum s)
    (set_max_intset_entries s) (loading_process_events_interval_bytes s)
    (dirty s) v (lastsave s) (lastbgsave_try s)
    (lastbgsave_status s) (rdb_child_pid s) (rdb_save_time_start s)
    (rdb_save_time_last s) (stat_fork_time s).

Definition set_lastsave (s : redisServer) (v : Z) : redisServer :=
  mkServer (db s) (dbnum s) (masterhost s) (rdb_compression s) (rdb_checksum s)
    (set_max_intset_entries s) (loading_process_events_interval_bytes s)
    (dirty s) (dirty_before_bgsave s) v (lastbgsave_try s)
    (lastbgsave_status s) (rdb_child_pid s) (rdb_save_time_start s)
    (rdb_save_time_last s) (stat_fork_time s).

Definition set_lastbgsave_try (s : redisServer) (v : Z) : redisServer :=
  mkServer (db s) (dbnum s) (masterhost s) (rdb_compression s) (rdb_checksum s)
    (set_max_intset_entries s) (loading_process_events_interval_bytes s)
    (dirty s) (dirty_before_bgsave s) (lastsave s) v
    (lastbgsave_status s) (rdb_child_pid s) (rdb_save_time_start s)
    (rdb_save_time_last s) (stat_fork_time s).

Definition set_lastbgsave_status (s : redisServer) (v : status) : redisServer :=
  mkServer (db s) (dbnum s) (masterhost s) (rdb_compression s) (rdb_checksum s)
    (set_max_intset_entries s) (loading_process_events_interval_bytes s)
    (dirty s) (dirty_before_bgsave s) (lastsave s) (lastbgsave_try s)
    v (rdb_child_pid s) (rdb_save_time_start s)
    (rdb_save_time_last s) (stat_fork_time s).

Definition set_rdb_child_pid (s : redisServer) (v : Z) : redisServer :=
  mkServer (db s) (dbnum s) (masterhost s) (rdb_compression s) (rdb_checksum s)
    (set_max_intset_entries s) (loading_process_events_interval_bytes s)
    (dirty s) (dirty_before_bgsave s) (lastsave s) (lastbgsave_try s)
    (lastbgsave_status s) v (rdb_save_time_start s)
    (rdb_save_time_last s) (stat_fork_time s).

Definition set_rdb_save_time_start (s : redisServer) (v : Z) : redisServer :=
  mkServer (db s) (dbnum s) (masterhost s) (rdb_compression s) (rdb_checksum s)
    (set_max_intset_entries s) (loading_process_events_interval_bytes s)
    (dirty s) (dirty_before_bgsave s) (lastsave s) (lastbgsave_try s)
    (lastbgsave_status s) (rdb_child_pid s) v
    (rdb_save_time_last s) (stat_fork_time s).

Definition set_rdb_save_time_last (s : redisServer) (v : Z) : redisServer :=
  mkServer (db s) (dbnum s) (masterhost s) (rdb_compression s) (rdb_checksum s)
    (set_max_intset_entries s) (loading_process_events_interval_bytes s)
    (dirty s) (dirty_before_bgsave s) (lastsave s) (lastbgsave_try s)
    (lastbgsave_status s) (rdb_child_pid s) (rdb_save_time_start s)
    v (stat_fork_time s).

Definition set_stat_fork_time (s : redisServer) (v : Z) : redisServer :=
  mkServer (db s) (dbnum s) (masterhost s) (rdb_compression s) (rdb_checksum s)
    (set_max_intset_entries s) (loading_process_events_interval_bytes s)
    (dirty s) (dirty_before_bgsave s) (lastsave s) (lastbgsave_try s)
    (lastbgsave_status s) (rdb_child_pid s) (rdb_save_time_start s)
    (rdb_save_time_last s) v.

End Redis.

(** ** The keyspace interface (db.c) *)

Module Db.
Import Redis.

(** Modelled from the spec: db.c is not part of the sources.  Section 6
    gives the interface: lookup, add-if-absent, delete and set-expiry; by
    section 3 a key that leaves the keyspace leaves the expirations too, and
    only keys of the keyspace carry a deadline.  Lazy expiration is the
    deletion of a key whose deadline has passed, done before a command
    looks the key up: the commands below see the database after it. *)
Definition lookupKey (db : redisDb) (key : list Z) : option robj :=
  dict db !! key.
Definition lookupKeyRead (db : redisDb) (key : list Z) : option robj :=
  lookupKey db key.
Definition lookupKeyWrite (db : redisDb) (key : list Z) : option robj :=
  lookupKey db key.

Definition dbAdd (db : redisDb) (key : list Z) (val : robj) : redisDb :=
  match dict db !! key with
  | Some _ => db
  | None => mkDb (<[key := val]> (dict db)) (expires db)
  end.

Definition dbDelete (db : redisDb) (key : list Z) : bool * redisDb :=
  (bool_decide (is_Some (dict db !! key)),
   mkDb (delete key (dict db)) (delete key (expires db))).

Definition setExpire (db : redisDb) (key : list Z) (when : Z) : redisDb :=
  match dict db !! key with
  | Some _ => mkDb (dict db) (<[key := when]> (expires db))
  | None => db
  end.

(** A value object reached through the keyspace is modified in place; the
    keyspace then holds the modified object under the same key. *)
Definition modified_in_place (db : redisDb) (key : list Z) (val : robj)
  : redisDb :=
  mkDb (<[key := val]> (dict db)) (expires db).

End Db.

(** ** rdb.c: the snapshot codec *)

Module Rdb.
Import Mem Util Rio Redis.

(** Modelled from the spec: rdb.h is not part of the sources.  Section 4.10
    fixes the two-bit length forms, the special encoding tags and the
    record opcodes; [REDIS_RDB_LENERR] is the [uint32_t] error value
    [UINT_MAX] that [rdbLoadLen] returns in band. *)
Definition REDIS_RDB_6BITLEN : Z := 0.
Definition REDIS_RDB_14BITLEN : Z := 1.
Definition REDIS_RDB_32BITLEN : Z := 2.
Definition REDIS_RDB_ENCVAL : Z := 3.
Definition REDIS_RDB_LENERR : Z := 4294967295.
Definition REDIS_RDB_ENC_INT8 : Z := 0.
Definition REDIS_RDB_ENC_INT16 : Z := 1.
Definition REDIS_RDB_ENC_INT32 : Z := 2.
Definition REDIS_RDB_ENC_LZF : Z := 3.
Definition REDIS_RDB_OPCODE_EXPIRETIME_MS : Z := 252.
Definition REDIS_RDB_OPCODE_EXPIRETIME : Z := 253.
Definition REDIS_RDB_OPCODE_SELECTDB : Z := 254.
Definition REDIS_RDB_OPCODE_EOF : Z := 255.

(** The length encoding as section 4.10 of the spec words it: the top two
    bits of the first byte select a 6-bit length, a 14-bit length continued
    in the next byte, or a 32-bit length in the next four big-endian bytes. *)
Definition length_encoding (n : Z) : list Z :=
  if n <? 64 then [n]
  else if n <? 16384 then [64 + n / 256; n mod 256]
  else [128; n / 16777216 mod 256; n / 65536 mod 256; n / 256 mod 256;
        n mod 256].

(** Conversions to the C types of the code.  An [int] has 32 bits: a
    [size_t] converted to [int], and a sum of [int]s, keep the low 32 bits,
    read in two's complement. *)
Definition to_uchar (x : Z) : Z := x mod 256.
Definition to_uint32 (x : Z) : Z := x mod 4294967296.
Definition to_int (x : Z) : Z :=
  (x + 2147483648) mod 4294967296 - 2147483648.

(** The arithmetic of the one-byte form and of the first byte of the
    two-byte form, as boolean checks that can be run over their 64 values. *)
Definition check_6bit (n : Z) : bool :=
  let buf0 := to_uchar (Z.lor (Z.land n 255) (Z.shiftl REDIS_RDB_6BITLEN 6)) in
  (buf0 =? n) && (Z.shiftr (Z.land buf0 192) 6 =? REDIS_RDB_6BITLEN)
  && (Z.land buf0 63 =? n).

Definition check_14bit_hi (h : Z) : bool :=
  let buf0 := 64 + h in
  (Z.shiftr (Z.land buf0 192) 6 =? REDIS_RDB_14BITLEN)
  && (Z.land buf0 63 =? h).

Section Codec.

Variable be : bool.
Variable crc64_byte : Z -> Z -> Z.

(** The writers return the number of bytes written, an [int], or -1;
    [None] stands for the return value -1, whether it reports a failed write
    or is a count that reads as -1: the callers compare with -1 and cannot
    tell the two apart.  [rdb] may be a null pointer, in which case nothing
    is written and only the length is computed. *)
Definition int_result (n : Z) (rdb : option rio) : option (Z * option rio) :=
  if n =? -1 then None else Some (n, rdb).

(** [rdbWriteRaw(rdb,p,len)]: [return len] converts the [size_t] to
    [int]. *)
Definition rdbWriteRaw (rdb : option rio) (p : list Z)
  : option (Z * option rio) :=
  match rdb with
  | Some r =>
      match rioWrite crc64_byte r p with
      | None => None
      | Some r' => int_result (to_int (Z.of_nat (length p))) (Some r')
      end
  | None => int_result (to_int (Z.of_nat (length p))) None
  end.

Definition rdbSaveType (rdb : option rio) (type : Z)
  : option (Z * option rio) :=
  rdbWriteRaw rdb [to_uchar type].

(** [rdbSaveLen(rdb,len)], [len] a [uint32_t]. *)
Definition rdbSaveLen (rdb : option rio) (len : Z)
  : option (Z * option rio) :=
  if len <? Z.shiftl 1 6 then
    let buf0 := to_uchar (Z.lor (Z.land len 255)
                                (Z.shiftl REDIS_RDB_6BITLEN 6)) in
    match rdbWriteRaw rdb [buf0] with
    | None => None
    | Some (_, rdb1) => Some (1, rdb1)
    end
  else if len <? Z.shiftl 1 14 then
    let buf0 := to_uchar (Z.lor (Z.land (Z.shiftr len 8) 255)
                                (Z.shiftl REDIS_RDB_14BITLEN 6)) in
    let buf1 := to_uchar (Z.land len 255) in
    match rdbWriteRaw rdb [buf0; buf1] with
    | None => None
    | Some (_, rdb1) => Some (2, rdb1)
    end
  else
    let buf0 := to_uchar (Z.shiftl REDIS_RDB_32BITLEN 6) in
    match rdbWriteRaw rdb [buf0] with
    | None => None
    | Some (_, rdb1) =>
        let len' := htonl be len in
        match rdbWriteRaw rdb1 (mem_of_uint be 4 len') with
        | None => None
        | Some (_, rdb2) => Some (1 + 4, rdb2)
        end
    end.

(** [rdbLoadLen(rdb,&isencoded)]: the value returned, the flag stored
    through [isencoded], and the stream.  A short read returns
    [REDIS_RDB_LENERR] and leaves the stream where the failed read found it. *)
Definition rdbLoadLen (r : rio) : Z * bool * rio :=
  match rioRead crc64_byte r 1 with
  | Some ([buf0], r1) =>
      let type := Z.shiftr (Z.land buf0 192) 6 in
      if type =? REDIS_RDB_ENCVAL then
        (Z.land buf0 63, true, r1)
      else if type =? REDIS_RDB_6BITLEN then
        (Z.land buf0 63, false, r1)
      else if type =? REDIS_RDB_14BITLEN then
        match rioRead crc64_byte r1 1 with
        | Some ([buf1], r2) =>
            (Z.lor (Z.shiftl (Z.land buf0 63) 8) buf1, false, r2)
        | _ => (REDIS_RDB_LENERR, false, r1)
        end
      else
        match rioRead crc64_byte r1 4 with
        | Some (len, r2) => (ntohl be (uint_of_mem be len), false, r2)
        | None => (REDIS_RDB_LENERR, false, r1)
        end
  | _ => (REDIS_RDB_LENERR, false, r)
  end.

(** [lzf_compress(in,in_len,out,out_len)] (lzf_c.c, not part of the
    sources): the compressed bytes; none when the input does not compress
    into [out_len] bytes (the return value 0). *)
Variable lzf_compress : list Z -> nat -> list Z.

(** [rdbEncodeInteger(value,enc)]: the bytes stored in [enc] and the length
    returned (0: the value does not fit 32 bits). *)
Definition rdbEncodeInteger (value : Z) : Z * list Z :=
  if (- Z.shiftl 1 7 <=? value) && (value <=? Z.shiftl 1 7 - 1) then
    (2, [to_uchar (Z.lor (Z.shiftl REDIS_RDB_ENCVAL 6) REDIS_RDB_ENC_INT8);
         to_uchar (Z.land value 255)])
  else if (- Z.shiftl 1 15 <=? value) && (value <=? Z.shiftl 1 15 - 1) then
    (3, [to_uchar (Z.lor (Z.shiftl REDIS_RDB_ENCVAL 6) REDIS_RDB_ENC_INT16);
         to_uchar (Z.land value 255);
         to_uchar (Z.land (Z.shiftr value 8) 255)])
  else if (- Z.shiftl 1 31 <=? value) && (value <=? Z.shiftl 1 31 - 1) then
    (5, [to_uchar (Z.lor (Z.shiftl REDIS_RDB_ENCVAL 6) REDIS_RDB_ENC_INT32);
         to_uchar (Z.land value 255);
         to_uchar (Z.land (Z.shiftr value 8) 255);
         to_uchar (Z.land (Z.shiftr value 16) 255);
         to_uchar (Z.land (Z.shiftr value 24) 255)])
  else (0, []).

(** [rdbTryIntegerEncoding(s,len,enc)]: [s] is followed in memory by its
    terminating NUL; [endptr[0]] is the first byte [strtoll] left. *)
Definition rdbTryIntegerEncoding (s : list Z) : Z * list Z :=
  let '(value, endptr) := strtoll (s ++ [0]) in
  if negb (hd 0 endptr =? 0) then (0, [])
  else
    let buf := ll2string value in
    if negb (length buf =? length s)%nat || negb (bool_decide (buf = s))
    then (0, [])
    else rdbEncodeInteger value.

(** [rdbSaveLzfStringObject(rdb,s,len)]: 0 when the string is not
    compressed; [nwritten] is an [int], and so is each [n] added to it. *)
Definition rdbSaveLzfStringObject (rdb : option rio) (s : list Z)
  : option (Z * option rio) :=
  let len := length s in
  if (len <=? 4)%nat then Some (0, rdb)
  else
    let outlen := (len - 4)%nat in
    let out := lzf_compress s outlen in
    let comprlen := length out in
    if (comprlen =? 0)%nat then Some (0, rdb)
    else
      let byte := to_uchar (Z.lor (Z.shiftl REDIS_RDB_ENCVAL 6)
                                  REDIS_RDB_ENC_LZF) in
      match rdbWriteRaw rdb [byte] with
      | None => None
      | Some (n1, rdb1) =>
          match rdbSaveLen rdb1 (to_uint32 (Z.of_nat comprlen)) with
          | None => None
          | Some (n2, rdb2) =>
              match rdbSaveLen rdb2 (to_uint32 (Z.of_nat len)) with
              | None => None
              | Some (n3, rdb3) =>
                  match rdbWriteRaw rdb3 out with
                  | None => None
                  | Some (n4, rdb4) =>
                      int_result (to_int (n1 + n2 + n3 + n4)) rdb4
                  end
              end
          end
      end.

(** [rdbSaveRawString(rdb,s,len)]: [n] and [nwritten] are [int]s;
    [nwritten += len] adds the [size_t] and converts the sum back. *)
Definition rdbSaveRawString (server : redisServer) (rdb : option rio)
    (s : list Z) : option (Z * option rio) :=
  let len := length s in
  let try_int :=
    if (len <=? 11)%nat then
      let '(enclen, buf) := rdbTryIntegerEncoding s in
      if 0 <? enclen then Some (enclen, buf) else None
    else None in
  match try_int with
  | Some (enclen, buf) =>
      match rdbWriteRaw rdb buf with
      | None => None
      | Some (_, rdb1) => Some (enclen, rdb1)
      end
  | None =>
      let verbatim (rdb0 : option rio) :=
        match rdbSaveLen rdb0 (to_uint32 (Z.of_nat len)) with
        | None => None
        | Some (n, rdb1) =>
            if (0 <? len)%nat then
              match rdbWriteRaw rdb1 s with
              | None => None
              | Some (_, rdb2) => int_result (to_int (n + Z.of_nat len)) rdb2
              end
            else Some (n, rdb1)
        end in
      if rdb_compression server && (20 <? len)%nat then
        match rdbSaveLzfStringObject rdb s with
        | None => None
        | Some (n, rdb1) => if 0 <? n then Some (n, rdb1) else verbatim rdb1
        end
      else verbatim rdb
  end.

(** The string encoding as section 4.10 of the spec words it.

    The integer special form: the tag byte 11|000000, 11|000001 or
    11|000010 and the value in 1, 2 or 4 little-endian bytes, for a value
    that fits int8, int16 or int32. *)
Definition integer_encoding (v : Z) : option (list Z) :=
  if (-128 <=? v) && (v <=? 127) then Some (192 :: le_encode 1 v)
  else if (-32768 <=? v) && (v <=? 32767) then Some (193 :: le_encode 2 v)
  else if (-2147483648 <=? v) && (v <=? 2147483647)
  then Some (194 :: le_encode 4 v)
  else None.

(** "First attempting integer encoding (if the string round-trips to a value
    fitting int8/16/32 and length <= 11); else, if enabled and length > 20,
    attempt LZF compression and keep if profitable; else write as length,
    bytes."  The LZF form is the tag 11|000011, the compressed length, the
    uncompressed length (both length-encoded) and the compressed bytes. *)
Definition string_encoding (compression : bool) (s : list Z) : list Z :=
  let len := length s in
  let as_integer :=
    if (len <=? 11)%nat then
      match isObjectRepresentableAsLongLong s with
      | Some v => integer_encoding v
      | None => None
      end
    else None in
  match as_integer with
  | Some bytes => bytes
  | None =>
      let out := lzf_compress s (len - 4) in
      if compression && (20 <? len)%nat && negb (length out =? 0)%nat
      then [195] ++ length_encoding (Z.of_nat (length out))
                 ++ length_encoding (Z.of_nat len) ++ out
      else length_encoding (Z.of_nat len) ++ s
  end.

End Codec.

(** *** Background saving *)

(** <signal.h> on Linux. *)
Definition SIGUSR1 : Z := 10.

(** The last statements of a successful [rdbSave]: the dataset is clean. *)
Definition rdbSave_done (server : redisServer) (now : Z) : redisServer :=
  set_lastbgsave_status (set_lastsave (set_dirty server 0) now) REDIS_OK.

(** [rdbSaveBackground] as the parent process runs it.  [now] is
    [time(NULL)], [fork_usec] the microseconds [fork()] took and [childpid]
    what it returned to the parent (-1: the fork failed).  The child works
    on its own copy of the state. *)
Definition rdbSaveBackground (server : redisServer) (now fork_usec : Z)
    (childpid : Z) : status * redisServer :=
  if negb (rdb_child_pid server =? -1) then (REDIS_ERR, server)
  else
    let server1 := set_dirty_before_bgsave server (dirty server) in
    let server2 := set_lastbgsave_try server1 now in
    let server3 := set_stat_fork_time server2 fork_usec in
    if childpid =? -1
    then (REDIS_ERR, set_lastbgsave_status server3 REDIS_ERR)
    else
      let server4 := set_rdb_save_time_start server3 now in
      (REDIS_OK, set_rdb_child_pid server4 childpid).

(** [backgroundSaveDoneHandler(exitcode,bysignal)]; [now] is [time(NULL)].
    The removal of the temporary file and the notification of waiting
    replicas are outside the model. *)
Definition backgroundSaveDoneHandler (server : redisServer)
    (exitcode bysignal : Z) (now : Z) : redisServer :=
  let server1 :=
    if (bysignal =? 0) && (exitcode =? 0) then
      let s1 := set_dirty server (dirty server - dirty_before_bgsave server) in
      let s2 := set_lastsave s1 now in
      set_lastbgsave_status s2 REDIS_OK
    else if (bysignal =? 0) && negb (exitcode =? 0) then
      set_lastbgsave_status server REDIS_ERR
    else if negb (bysignal =? SIGUSR1) then
      set_lastbgsave_status server REDIS_ERR
    else server in
  let server2 := set_rdb_child_pid server1 (-1) in
  let server3 :=
    set_rdb_save_time_last server2 (now - rdb_save_time_start server2) in
  set_rdb_save_time_start server3 (-1).

(** *** Loading *)

(** A two's complement reading of an unsigned value of [bits] bits: the
    casts [(signed char)], [(int16_t)], [(int32_t)] and the reads into
    [int32_t] and [int64_t] variables. *)
Definition to_signed (bits : Z) (x : Z) : Z :=
  if x <? 2 ^ (bits - 1) then x else x - 2 ^ bits.

(** How the loop of [rdbLoad] is left: by [break] at the EOF opcode, with
    the server and the stream as they then are, by [goto eoferr], or by the
    [exit(1)] of the SELECTDB check. *)
Inductive load_stop : Type :=
| at_EOF (server : redisServer) (rdb : rio)
| at_eoferr
| at_exit.

(** One turn of the loop: [continue] (or the end of the body) with the
    server, the selected database and the stream, or one of the above. *)
Inductive record_result : Type :=
| REC_continue (server : redisServer) (dbid : nat) (rdb : rio)
| REC_break (rdb : rio)
| REC_eoferr
| REC_exit.

(** What [rdbLoad] does: it returns [REDIS_OK] with the server loaded, it
    returns [REDIS_ERR], or the process is ended ([exit(1)], or the panic of
    a parser) and no state is returned. *)
Inductive load_result : Type :=
| LOAD_OK (server : redisServer)
| LOAD_ERR
| LOAD_FATAL.

Section Load.

Variable be : bool.
Variable crc64_byte : Z -> Z -> Z.

(** [REDIS_RDB_VERSION] of rdb.h, which is not part of the sources. *)
Variable REDIS_RDB_VERSION : Z.

(** [lzf_decompress(in,in_len,out,out_len)] (lzf_d.c, not part of the
    sources): the bytes restored, none for the return value 0. *)
Variable lzf_decompress : list Z -> nat -> option (list Z).

(** [rdbLoadObject(type,rdb)]: the parser of a value of the given type, with
    the stream it leaves; none for a NULL result.  Of the value only its
    passage into the keyspace matters below; the parser reads the list, set,
    sorted set and hash encodings, whose modules are not among the sources. *)
Variable rdbLoadObject : Z -> rio -> option (robj * rio).

(** [rdbLoadType]: the byte read, or -1. *)
Definition rdbLoadType (rdb : rio) : Z * rio :=
  match rioRead crc64_byte rdb 1 with
  | Some ([type], rdb') => (type, rdb')
  | _ => (-1, rdb)
  end.

(** [rdbLoadTime]: the [int32_t] found in the file in host order, or -1. *)
Definition rdbLoadTime (rdb : rio) : Z * rio :=
  match rioRead crc64_byte rdb 4 with
  | Some (t32, rdb') => (to_signed 32 (uint_of_mem be t32), rdb')
  | None => (-1, rdb)
  end.

(** [rdbLoadMillisecondTime]: the [int64_t] found in the file, or -1. *)
Definition rdbLoadMillisecondTime (rdb : rio) : Z * rio :=
  match rioRead crc64_byte rdb 8 with
  | Some (t64, rdb') => (to_signed 64 (uint_of_mem be t64), rdb')
  | None => (-1, rdb)
  end.

(** [rdbLoadIntegerObject(rdb,enctype,0)]: the string of the integer; none
    for NULL and for the panic on an unknown encoding. *)
Definition rdbLoadIntegerObject (rdb : rio) (enctype : Z)
  : option (list Z * rio) :=
  if enctype =? REDIS_RDB_ENC_INT8 then
    match rioRead crc64_byte rdb 1 with
    | Some ([e0], rdb') => Some (sdsll2str (to_signed 8 e0), rdb')
    | _ => None
    end
  else if enctype =? REDIS_RDB_ENC_INT16 then
    match rioRead crc64_byte rdb 2 with
    | Some ([e0; e1], rdb') =>
        let v := Z.lor e0 (Z.shiftl e1 8) mod 2 ^ 16 in
        Some (sdsll2str (to_signed 16 v), rdb')
    | _ => None
    end
  else if enctype =? REDIS_RDB_ENC_INT32 then
    match rioRead crc64_byte rdb 4 with
    | Some ([e0; e1; e2; e3], rdb') =>
        let v := to_uint32 (Z.lor (Z.lor (Z.lor e0 (Z.shiftl e1 8))
                                      (Z.shiftl e2 16)) (Z.shiftl e3 24)) in
        Some (sdsll2str (to_signed 32 v), rdb')
    | _ => None
    end
  else None.

(** [rdbLoadLzfStringObject]. *)
Definition rdbLoadLzfStringObject (rdb : rio) : option (list Z * rio) :=
  let '(clen, _, rdb) := rdbLoadLen be crc64_byte rdb in
  if clen =? REDIS_RDB_LENERR then None else
  let '(len, _, rdb) := rdbLoadLen be crc64_byte rdb in
  if len =? REDIS_RDB_LENERR then None else
  match rioRead crc64_byte rdb (Z.to_nat clen) with
  | None => None
  | Some (c, rdb) =>
      match lzf_decompress c (Z.to_nat len) with
      | None => None
      | Some val => Some (val, rdb)
      end
  end.

(** [rdbLoadStringObject], that is [rdbGenericLoadStringObject(rdb,0)]: the
    bytes of the string; none for NULL and for the panic. *)
Definition rdbLoadStringObject (rdb : rio) : option (list Z * rio) :=
  let '(len, isencoded, rdb) := rdbLoadLen be crc64_byte rdb in
  if isencoded then
    if (len =? REDIS_RDB_ENC_INT8) || (len =? REDIS_RDB_ENC_INT16)
       || (len =? REDIS_RDB_ENC_INT32)
    then rdbLoadIntegerObject rdb len
    else if len =? REDIS_RDB_ENC_LZF then rdbLoadLzfStringObject rdb
    else None
  else if len =? REDIS_RDB_LENERR then None
  else if negb (len =? 0) then
    match rioRead crc64_byte rdb (Z.to_nat len) with
    | None => None
    | Some (val, rdb) => Some (val, rdb)
    end
  else Some ([], rdb).

(** [rdbLoadObject] on [REDIS_RDB_TYPE_STRING] (0): a string object read by
    [rdbLoadEncodedStringObject], which differs from [rdbLoadStringObject]
    in the encoding of the object only, not in its bytes.  The other types
    are not read here. *)
Definition rdbLoadObject_string (type : Z) (rdb : rio)
  : option (robj * rio) :=
  if type =? 0 then
    match rdbLoadStringObject rdb with
    | Some (o, rdb) => Some (String_obj o, rdb)
    | None => None
    end
  else None.

(** The start of the loop body: the type byte and, behind an expiry
    opcode, the deadline in milliseconds and the type byte after it.
    [expiretime] is -1 where the record has no deadline; none stands for
    [goto eoferr]. *)
Definition rdbLoad_expire (rdb : rio) : option (Z * Z * rio) :=
  let expiretime := -1 in
  let '(type, rdb) := rdbLoadType rdb in
  if type =? -1 then None
  else if type =? REDIS_RDB_OPCODE_EXPIRETIME then
    let '(expiretime, rdb) := rdbLoadTime rdb in
    if expiretime =? -1 then None else
    let '(type, rdb) := rdbLoadType rdb in
    if type =? -1 then None else Some (type, expiretime * 1000, rdb)
  else if type =? REDIS_RDB_OPCODE_EXPIRETIME_MS then
    let '(expiretime, rdb) := rdbLoadMillisecondTime rdb in
    if expiretime =? -1 then None else
    let '(type, rdb) := rdbLoadType rdb in
    if type =? -1 then None else Some (type, expiretime, rdb)
  else Some (type, expiretime, rdb).

(** [db = server.db+dbid] is written through: the database at [dbid]. *)
Definition in_db (server : redisServer) (dbid : nat)
    (f : redisDb -> redisDb) : redisServer :=
  set_db server (alter f dbid (db server)).

(** The body of the [while(1)] loop of [rdbLoad]. *)
Definition rdbLoad_record (server : redisServer) (dbid : nat) (now : Z)
    (rdb : rio) : record_result :=
  match rdbLoad_expire rdb with
  | None => REC_eoferr
  | Some (type, expiretime, rdb) =>
      if type =? REDIS_RDB_OPCODE_EOF then REC_break rdb
      else if type =? REDIS_RDB_OPCODE_SELECTDB then
        let '(dbid', _, rdb) := rdbLoadLen be crc64_byte rdb in
        if dbid' =? REDIS_RDB_LENERR then REC_eoferr
        else if to_uint32 (dbnum server) <=? dbid' then REC_exit
        else REC_continue server (Z.to_nat dbid') rdb
      else
        match rdbLoadStringObject rdb with
        | None => REC_eoferr
        | Some (key, rdb) =>
            match rdbLoadObject type rdb with
            | None => REC_eoferr
            | Some (val, rdb) =>
                if bool_decide (masterhost server = None)
                   && negb (expiretime =? -1) && (expiretime <? now)
                then REC_continue server dbid rdb
                else
                  let server :=
                    in_db server dbid (λ d, Db.dbAdd d key val) in
                  let server :=
                    if negb (expiretime =? -1)
                    then in_db server dbid (λ d, Db.setExpire d key expiretime)
                    else server in
                  REC_continue server dbid rdb
            end
        end
  end.

(** The loop; [fuel] bounds the number of turns, none is fuel used up. *)
Fixpoint rdbLoad_loop (fuel : nat) (server : redisServer) (dbid : nat)
    (now : Z) (rdb : rio) : option load_stop :=
  match fuel with
  | O => None
  | S fuel =>
      match rdbLoad_record server dbid now rdb with
      | REC_continue server dbid rdb => rdbLoad_loop fuel server dbid now rdb
      | REC_break rdb => Some (at_EOF server rdb)
      | REC_eoferr => Some at_eoferr
      | REC_exit => Some at_exit
      end
  end.

(** The stream [rdbLoad] reads from. *)
Definition rdbLoad_stream (server : redisServer) (contents : list Z) : rio :=
  let rdb := rioInitWithFile contents in
  mkRio (io_ptr rdb) (io_pos rdb) (io_room rdb)
        (CB_rdbLoadProgressCallback (rdb_checksum server)) (cksum rdb)
        (processed_bytes rdb) (loading_process_events_interval_bytes server).

(** [memcmp(buf,"REDIS",5) != 0]. *)
Definition wrong_signature (buf : list Z) : bool :=
  negb (bool_decide (take 5 buf = [82; 69; 68; 73; 83])).

(** The checksum stage after the loop. *)
Definition rdbLoad_verify (rdbver : Z) (server : redisServer) (rdb : rio)
  : load_result :=
  if (5 <=? rdbver) && rdb_checksum server then
    let expected := cksum rdb in
    match rioRead crc64_byte rdb 8 with
    | None => LOAD_FATAL
    | Some (buf, rdb) =>
        let cksum := uint_of_mem be (memrev64ifbe be buf) in
        if cksum =? 0 then LOAD_OK server
        else if negb (cksum =? expected) then LOAD_FATAL
        else LOAD_OK server
    end
  else LOAD_OK server.

(** [rdbLoad]: [file] is what [fopen] finds (none: no such file), [now] is
    [mstime()].  Each turn of the loop reads at least the type byte, so one
    turn per byte of the file and one more are enough; none is returned if
    they are not. *)
Definition rdbLoad (server : redisServer) (now : Z) (file : option (list Z))
  : option load_result :=
  match file with
  | None => Some LOAD_ERR
  | Some contents =>
      let rdb := rdbLoad_stream server contents in
      match rioRead crc64_byte rdb 9 with
      | None => Some LOAD_FATAL
      | Some (buf, rdb) =>
          if wrong_signature buf then Some LOAD_ERR
          else
            let rdbver := atoi (drop 5 buf) in
            if (rdbver <? 1) || (REDIS_RDB_VERSION <? rdbver)
            then Some LOAD_ERR
            else
              match rdbLoad_loop (S (length contents)) server 0 now rdb with
              | None => None
              | Some (at_EOF server rdb) =>
                  Some (rdbLoad_verify rdbver server rdb)
              | Some at_eoferr => Some LOAD_FATAL
              | Some at_exit => Some LOAD_FATAL
              end
      end
  end.

(** The stream [rdb'] is [rdb] after some bytes were read through
    [rioRead]. *)
Definition advances (rdb rdb' : rio) : Prop :=
  ∃ n buf, read_all crc64_byte rdb n = Some (buf, rdb').

(** The stream reads the file [contents], at an offset inside it, and its
    checksum is the one [rdbLoadProgressCallback] has computed over the
    bytes before the offset. *)
Definition tracks (contents : list Z) (rdb_checksum : bool) (rdb : rio)
  : Prop :=
  io_ptr rdb = contents
  ∧ update_cksum rdb = CB_rdbLoadProgressCallback rdb_checksum
  ∧ (io_pos rdb ≤ length contents)%nat
  ∧ cksum rdb
    = cksum_after crc64_byte (CB_rdbLoadProgressCallback rdb_checksum) 0
        (take (io_pos rdb) contents).

End Load.

End Rdb.

(** ** t_set.c: the set type and its commands *)

Module TSet.
Import Util Redis.

(** *** The containers under a set

    Modelled from the spec: intset.c and dict.c are not part of the sources.
    Sections 3 and 4.3 describe the sorted integer array (insert reports
    whether the value is new and keeps the order, remove, find, random
    element, access by index) and section 4.4 the hash table (add-if-absent,
    delete, find, size, random entry).  A random pick consumes one draw of
    the C library's [random()] and selects the element at that index modulo
    the size. *)

Definition intsetFind (ints : list Z) (v : Z) : bool := bool_decide (v ∈ ints).

Fixpoint intset_insert (v : Z) (ints : list Z) : list Z :=
  match ints with
  | [] => [v]
  | x :: rest => if v <? x then v :: ints else x :: intset_insert v rest
  end.

(** [intsetAdd(is,value,&success)]. *)
Definition intsetAdd (ints : list Z) (v : Z) : list Z * bool :=
  if intsetFind ints v then (ints, false) else (intset_insert v ints, true).

(** [intsetRemove(is,value,&success)]. *)
Definition intsetRemove (ints : list Z) (v : Z) : list Z * bool :=
  if intsetFind ints v then (filter (λ x, x ≠ v) ints, true)
  else (ints, false).

Definition intsetLen (ints : list Z) : Z := Z.of_nat (length ints).

(** [intsetRandom(is)]; the array must not be empty. *)
Definition intsetRandom (ints : list Z) (draw : nat) : option Z :=
  ints !! (draw mod length ints)%nat.

Inductive dict_status : Type := DICT_OK | DICT_ERR.

Definition dictAdd (d : gset (list Z)) (key : list Z)
  : dict_status * gset (list Z) :=
  if bool_decide (key ∈ d) then (DICT_ERR, d) else (DICT_OK, {[key]} ∪ d).

Definition dictDelete (d : gset (list Z)) (key : list Z)
  : dict_status * gset (list Z) :=
  if bool_decide (key ∈ d) then (DICT_OK, d ∖ {[key]}) else (DICT_ERR, d).

Definition dictFind (d : gset (list Z)) (key : list Z) : bool :=
  bool_decide (key ∈ d).

Definition dictSize (d : gset (list Z)) : Z := Z.of_nat (size d).

(** [dictGetRandomKey(d)]: a null pointer for an empty table. *)
Definition dictGetRandomKey (d : gset (list Z)) (draw : nat)
  : option (list Z) :=
  elements d !! (draw mod size d)%nat.

(** Modelled from the spec: object.c is not part of the sources.
    [createStringObjectFromLongLong] makes the string object whose bytes are
    the decimal rendering of the value. *)
Definition createStringObjectFromLongLong (v : Z) : list Z := ll2string v.

Definition createIntsetObject : setobj := Intset_enc [].
Definition createSetObject : setobj := HT_enc ∅.

(** *** The set type API

    [None] stands for a failed [redisAssert] or a [redisPanic]: the server
    aborts. *)

Inductive encoding : Type := REDIS_ENCODING_INTSET | REDIS_ENCODING_HT.

Definition encoding_of (s : setobj) : encoding :=
  match s with
  | Intset_enc _ => REDIS_ENCODING_INTSET
  | HT_enc _ => REDIS_ENCODING_HT
  end.

(** [setTypeCreate(value)]. *)
Definition setTypeCreate (value : list Z) : setobj :=
  match isObjectRepresentableAsLongLong value with
  | Some _ => createIntsetObject
  | None => createSetObject
  end.

(** The [while (setTypeNext(si,NULL,&intele) != -1)] loop of
    [setTypeConvert]: every integer is added to the new table as a string
    object, and the addition is asserted to succeed. *)
Fixpoint setTypeConvert_loop (ints : list Z) (d : gset (list Z))
  : option (gset (list Z)) :=
  match ints with
  | [] => Some d
  | intele :: rest =>
      let element := createStringObjectFromLongLong intele in
      match dictAdd d element with
      | (DICT_OK, d') => setTypeConvert_loop rest d'
      | (DICT_ERR, _) => None
      end
  end.

(** [setTypeConvert(setobj,enc)]: asserts that the set is an intset, and
    panics on a target encoding other than the hash table. *)
Definition setTypeConvert (s : setobj) (enc : encoding) : option setobj :=
  match s with
  | Intset_enc ints =>
      match enc with
      | REDIS_ENCODING_HT =>
          match setTypeConvert_loop ints ∅ with
          | Some d => Some (HT_enc d)
          | None => None
          end
      | REDIS_ENCODING_INTSET => None
      end
  | HT_enc _ => None
  end.

(** [setTypeAdd(subject,value)]: 1 when the element was added, 0 when it
    was already a member; the set after the call. *)
Definition setTypeAdd (server : redisServer) (subject : setobj)
    (value : list Z) : option (Z * setobj) :=
  match subject with
  | HT_enc d =>
      match dictAdd d value with
      | (DICT_OK, d') => Some (1, HT_enc d')
      | (DICT_ERR, _) => Some (0, subject)
      end
  | Intset_enc ints =>
      match isObjectRepresentableAsLongLong value with
      | Some llval =>
          let '(ints', success) := intsetAdd ints llval in
          if success then
            if set_max_intset_entries server <? intsetLen ints' then
              match setTypeConvert (Intset_enc ints') REDIS_ENCODING_HT with
              | Some s' => Some (1, s')
              | None => None
              end
            else Some (1, Intset_enc ints')
          else Some (0, Intset_enc ints')
      | None =>
          match setTypeConvert subject REDIS_ENCODING_HT with
          | Some (HT_enc d) =>
              match dictAdd d value with
              | (DICT_OK, d') => Some (1, HT_enc d')
              | (DICT_ERR, _) => None
              end
          | _ => None
          end
      end
  end.

(** [setTypeRemove(setobj,value)]. *)
Definition setTypeRemove (s : setobj) (value : list Z) : Z * setobj :=
  match s with
  | HT_enc d =>
      match dictDelete d value with
      | (DICT_OK, d') => (1, HT_enc d')
      | (DICT_ERR, _) => (0, s)
      end
  | Intset_enc ints =>
      match isObjectRepresentableAsLongLong value with
      | Some llval =>
          let '(ints', success) := intsetRemove ints llval in
          if success then (1, Intset_enc ints') else (0, Intset_enc ints')
      | None => (0, s)
      end
  end.

(** [setTypeIsMember(subject,value)]. *)
Definition setTypeIsMember (subject : setobj) (value : list Z) : bool :=
  match subject with
  | HT_enc d => dictFind d value
  | Intset_enc ints =>
      match isObjectRepresentableAsLongLong value with
      | Some llval => intsetFind ints llval
      | None => false
      end
  end.

(** [setTypeSize(subject)]. *)
Definition setTypeSize (subject : setobj) : Z :=
  match subject with
  | HT_enc d => dictSize d
  | Intset_enc ints => intsetLen ints
  end.

(** What an iterator over [subject] hands out, in order.  [setTypeNext]
    yields an integer for an intset and the key object for a hash table;
    [setTypeNextObject] always yields a string object.  The set under an
    iterator is never modified while the iterator is live. *)
Definition setTypeNext_all (subject : setobj) : list (Z + list Z) :=
  match subject with
  | Intset_enc ints => inl <$> ints
  | HT_enc d => inr <$> elements d
  end.

Definition setTypeNextObject_all (subject : setobj) : list (list Z) :=
  match subject with
  | Intset_enc ints => createStringObjectFromLongLong <$> ints
  | HT_enc d => elements d
  end.

(** [setTypeRandomElement(setobj,&objele,&llele)] on a set that is not
    empty; on an empty set the C code dereferences a null entry or divides
    by zero. *)
Definition setTypeRandomElement (s : setobj) (draw : nat)
  : option (Z + list Z) :=
  match s with
  | HT_enc d => inr <$> dictGetRandomKey d draw
  | Intset_enc ints => inl <$> intsetRandom ints draw
  end.

(** *** The members of a set, as the commands see them *)

Definition members (s : setobj) : gset (list Z) :=
  match s with
  | Intset_enc ints => list_to_set (ll2string <$> ints)
  | HT_enc d => d
  end.

(** The invariant of the integer array the theorems rely on: 64-bit values in
    strictly ascending order. *)
Definition intset_wf (ints : list Z) : Prop :=
  Forall is_int64 ints ∧ StronglySorted Z.lt ints.

Definition set_wf (s : setobj) : Prop :=
  match s with
  | Intset_enc ints => intset_wf ints
  | HT_enc _ => True
  end.

(** *** Replies

    What a command appends to the client's output buffer.
    [addReplyBulkLongLong] sends the decimal rendering as a bulk string. *)
Inductive reply : Type :=
| shared_czero
| shared_cone
| shared_nullbulk
| shared_emptymultibulk
| shared_wrongtypeerr
| ReplyLongLong (n : Z)
| ReplyMultiBulkLen (n : Z)
| ReplyBulk (s : list Z).

Definition addReplyBulkLongLong (v : Z) : reply := ReplyBulk (ll2string v).

(** The outcome of a command: the server state, the database the client has
    selected ([c->db]) and the reply.  Keyspace notifications, the
    invalidation of watched keys and the rewriting of the command for
    propagation are outside the model. *)
Definition outcome : Type := redisServer * redisDb * list reply.

(** *** SADD *)

(** The [for (j = 2; j < c->argc; j++)] loop. *)
Fixpoint sadd_loop (server : redisServer) (set : setobj)
    (argv : list (list Z)) (added : Z) : option (setobj * Z) :=
  match argv with
  | [] => Some (set, added)
  | ele :: rest =>
      match setTypeAdd server set ele with
      | Some (r, set') =>
          sadd_loop server set' rest (if r =? 0 then added else added + 1)
      | None => None
      end
  end.

(** [saddCommand]: [SADD key ele more...]; the arity check of the command
    table guarantees the first element. *)
Definition saddCommand (server : redisServer) (db : redisDb)
    (key ele : list Z) (more : list (list Z)) : option outcome :=
  let run (set : setobj) (db1 : redisDb) :=
    match sadd_loop server set (ele :: more) 0 with
    | Some (set', added) =>
        Some (set_dirty server (dirty server + added),
              Db.modified_in_place db1 key (Set_obj set'),
              [ReplyLongLong added])
    | None => None
    end in
  match Db.lookupKeyWrite db key with
  | None =>
      let set := setTypeCreate ele in
      run set (Db.dbAdd db key (Set_obj set))
  | Some (Set_obj set) => run set db
  | Some _ => Some (server, db, [shared_wrongtypeerr])
  end.

(** *** SREM *)

(** The removal loop: it stops at the element whose removal empties the
    set.  Returns the set, [deleted] and [keyremoved]. *)
Fixpoint srem_loop (set : setobj) (argv : list (list Z)) (deleted : Z)
  : setobj * Z * bool :=
  match argv with
  | [] => (set, deleted, false)
  | ele :: rest =>
      let '(r, set') := setTypeRemove set ele in
      if r =? 0 then srem_loop set' rest deleted
      else if setTypeSize set' =? 0 then (set', deleted + 1, true)
      else srem_loop set' rest (deleted + 1)
  end.

Definition sremCommand (server : redisServer) (db : redisDb)
    (key : list Z) (argv : list (list Z)) : option outcome :=
  match Db.lookupKeyWrite db key with
  | None => Some (server, db, [shared_czero])
  | Some (Set_obj set) =>
      let '(set', deleted, keyremoved) := srem_loop set argv 0 in
      let db1 := if keyremoved then snd (Db.dbDelete db key)
                 else Db.modified_in_place db key (Set_obj set') in
      let server1 := if deleted =? 0 then server
                     else set_dirty server (dirty server + deleted) in
      Some (server1, db1, [ReplyLongLong deleted])
  | Some _ => Some (server, db, [shared_wrongtypeerr])
  end.

(** *** SMOVE *)

Definition is_set (o : robj) : bool :=
  match o with Set_obj _ => true | _ => false end.

Definition smoveCommand (server : redisServer) (db : redisDb)
    (src dst ele : list Z) : option outcome :=
  let srcset := Db.lookupKeyWrite db src in
  let dstset := Db.lookupKeyWrite db dst in
  match srcset with
  | None => Some (server, db, [shared_czero])
  | Some (Set_obj sset) =>
      if match dstset with Some o => negb (is_set o) | None => false end
      then Some (server, db, [shared_wrongtypeerr])
      else if bool_decide (src = dst)
      then Some (server, db, [shared_cone])
      else
        let '(r, sset') := setTypeRemove sset ele in
        if r =? 0 then Some (server, db, [shared_czero])
        else
          let db1 := if setTypeSize sset' =? 0 then snd (Db.dbDelete db src)
                     else Db.modified_in_place db src (Set_obj sset') in
          let server1 := set_dirty server (dirty server + 1) in
          let '(dset, db2) :=
            match dstset with
            | Some (Set_obj d) => (d, db1)
            | _ => let d := setTypeCreate ele in
                   (d, Db.dbAdd db1 dst (Set_obj d))
            end in
          match setTypeAdd server1 dset ele with
          | Some (a, dset') =>
              Some (if a =? 0 then server1
                    else set_dirty server1 (dirty server1 + 1),
                    Db.modified_in_place db2 dst (Set_obj dset'),
                    [shared_cone])
          | None => None
          end
  | Some _ => Some (server, db, [shared_wrongtypeerr])
  end.

(** *** SPOP *)

Definition spopCommand (server : redisServer) (db : redisDb)
    (key : list Z) (draw : nat) : option outcome :=
  match Db.lookupKeyWrite db key with
  | None => Some (server, db, [shared_nullbulk])
  | Some (Set_obj set) =>
      match setTypeRandomElement set draw with
      | None => None
      | Some picked =>
          let '(ele, set') :=
            match picked, set with
            | inl llele, Intset_enc ints =>
                (createStringObjectFromLongLong llele,
                 Intset_enc (fst (intsetRemove ints llele)))
            | inl llele, HT_enc _ =>
                (* does not arise: an integer is only picked from an
                   intset *)
                (createStringObjectFromLongLong llele, set)
            | inr ele, _ => (ele, snd (setTypeRemove set ele))
            end in
          let db1 := if setTypeSize set' =? 0 then snd (Db.dbDelete db key)
                     else Db.modified_in_place db key (Set_obj set') in
          Some (set_dirty server (dirty server + 1), db1, [ReplyBulk ele])
      end
  | Some _ => Some (server, db, [shared_wrongtypeerr])
  end.

(** *** Sorting the input sets

    [qsort] of the C library under a comparison function.  C leaves the
    order of elements that compare equal unspecified; here it is the order
    an insertion sort gives. *)
Fixpoint insert_by {A : Type} (cmp : A → A → Z) (x : A) (l : list A)
  : list A :=
  match l with
  | [] => [x]
  | y :: rest => if cmp x y <=? 0 then x :: l else y :: insert_by cmp x rest
  end.

Definition qsort {A : Type} (cmp : A → A → Z) (l : list A) : list A :=
  foldr (insert_by cmp) [] l.

(** The entries of the [sets] array are kept with the key they were looked
    up under: two entries point to the same object exactly when their keys
    are equal. *)
Definition qsortCompareSetsByCardinality (s1 s2 : list Z * setobj) : Z :=
  setTypeSize (snd s1) - setTypeSize (snd s2).

Definition qsortCompareSetsByRevCardinality
    (s1 s2 : list Z * option setobj) : Z :=
  match snd s2 with Some o2 => setTypeSize o2 | None => 0 end
  - match snd s1 with Some o1 => setTypeSize o1 | None => 0 end.

(** *** SINTER and SINTERSTORE *)

Inductive sinter_sets : Type :=
| AllFound (sets : list (list Z * setobj))
| KeyMissing
| WrongType.

(** The first loop of [sinterGenericCommand]: it returns at the first key
    that is missing or holds a value that is not a set. *)
Fixpoint sinter_lookup (db : redisDb) (setkeys : list (list Z))
  : sinter_sets :=
  match setkeys with
  | [] => AllFound []
  | k :: rest =>
      match Db.lookupKey db k with
      | None => KeyMissing
      | Some (Set_obj s) =>
          match sinter_lookup db rest with
          | AllFound l => AllFound ((k, s) :: l)
          | r => r
          end
      | Some _ => WrongType
      end
  end.

(** The [for (j = 1; j < setnum; j++)] loop for one element of the first
    set: [true] when it ran to [j == setnum].  An element of a hash table
    that is an INT-encoded string is looked up in an intset by its integer,
    which is what [setTypeIsMember] computes from its bytes. *)
Fixpoint sinter_scan (key0 : list Z) (others : list (list Z * setobj))
    (ele : Z + list Z) : bool :=
  match others with
  | [] => true
  | (k, s) :: rest =>
      if bool_decide (k = key0) then sinter_scan key0 rest ele
      else
        match ele with
        | inl intobj =>
            match s with
            | Intset_enc ints =>
                if negb (intsetFind ints intobj) then false
                else sinter_scan key0 rest ele
            | HT_enc _ =>
                if negb (setTypeIsMember s
                           (createStringObjectFromLongLong intobj))
                then false
                else sinter_scan key0 rest ele
            end
        | inr eleobj =>
            if negb (setTypeIsMember s eleobj) then false
            else sinter_scan key0 rest ele
        end
  end.

Definition object_of (ele : Z + list Z) : list Z :=
  match ele with
  | inl intobj => createStringObjectFromLongLong intobj
  | inr eleobj => eleobj
  end.

(** The iteration over the first (smallest) set: the bulk replies and
    [cardinality] without a destination, [dstset] with one. *)
Fixpoint sinter_loop (server : redisServer) (key0 : list Z)
    (others : list (list Z * setobj)) (store : bool)
    (eles : list (Z + list Z)) (bulks : list reply) (cardinality : Z)
    (dstset : setobj) : option (list reply * Z * setobj) :=
  match eles with
  | [] => Some (bulks, cardinality, dstset)
  | ele :: rest =>
      if sinter_scan key0 others ele then
        if store then
          match setTypeAdd server dstset (object_of ele) with
          | Some (_, dstset') =>
              sinter_loop server key0 others store rest bulks cardinality
                          dstset'
          | None => None
          end
        else
          sinter_loop server key0 others store rest
                      (bulks ++ [ReplyBulk (object_of ele)])
                      (cardinality + 1) dstset
      else sinter_loop server key0 others store rest bulks cardinality dstset
  end.

(** The end of the store forms: the old value of the destination is
    deleted, and the result is stored only if it is not empty. *)
Definition store_result (server : redisServer) (db : redisDb)
    (dstkey : list Z) (dstset : setobj) : outcome :=
  let '(deleted, db1) := Db.dbDelete db dstkey in
  let server1 := set_dirty server (dirty server + 1) in
  if 0 <? setTypeSize dstset
  then (server1, Db.dbAdd db1 dstkey (Set_obj dstset),
        [ReplyLongLong (setTypeSize dstset)])
  else (server1, db1, [shared_czero]).

Definition sinterGenericCommand (server : redisServer) (db : redisDb)
    (setkeys : list (list Z)) (dstkey : option (list Z)) : option outcome :=
  match sinter_lookup db setkeys with
  | KeyMissing =>
      match dstkey with
      | Some dk =>
          let '(deleted, db1) := Db.dbDelete db dk in
          Some (if deleted then set_dirty server (dirty server + 1)
                else server,
                db1, [shared_czero])
      | None => Some (server, db, [shared_emptymultibulk])
      end
  | WrongType => Some (server, db, [shared_wrongtypeerr])
  | AllFound sets =>
      match qsort qsortCompareSetsByCardinality sets with
      | [] => None
      | (key0, set0) :: others =>
          match sinter_loop server key0 others
                  (bool_decide (is_Some dstkey)) (setTypeNext_all set0) [] 0
                  createIntsetObject with
          | None => None
          | Some (bulks, cardinality, dstset) =>
              match dstkey with
              | Some dk => Some (store_result server db dk dstset)
              | None =>
                  Some (server, db, ReplyMultiBulkLen cardinality :: bulks)
              end
          end
      end
  end.

Definition sinterCommand (server : redisServer) (db : redisDb)
    (setkeys : list (list Z)) : option outcome :=
  sinterGenericCommand server db setkeys None.

Definition sinterstoreCommand (server : redisServer) (db : redisDb)
    (dstkey : list Z) (setkeys : list (list Z)) : option outcome :=
  sinterGenericCommand server db setkeys (Some dstkey).

(** *** SUNION, SDIFF and their store forms *)

Inductive set_op : Type := REDIS_OP_UNION | REDIS_OP_DIFF | REDIS_OP_INTER.

(** The first loop of [sunionDiffGenericCommand]: a missing key is a null
    entry; [None] when a key holds a value that is not a set. *)
Fixpoint sunion_lookup (db : redisDb) (setkeys : list (list Z))
  : option (list (list Z * option setobj)) :=
  match setkeys with
  | [] => Some []
  | k :: rest =>
      match Db.lookupKey db k with
      | None => (λ l, (k, None) :: l) <$> sunion_lookup db rest
      | Some (Set_obj s) => (λ l, (k, Some s) :: l) <$> sunion_lookup db rest
      | Some _ => None
      end
  end.

(** The cost estimate: [algo_one_work] adds the size of the first set once
    per set that exists and is halved; [algo_two_work] adds the sizes of
    the sets that exist. *)
Fixpoint diff_work (set0 : setobj) (sets : list (list Z * option setobj))
    (algo_one_work algo_two_work : Z) : Z * Z :=
  match sets with
  | [] => (algo_one_work, algo_two_work)
  | (_, None) :: rest => diff_work set0 rest algo_one_work algo_two_work
  | (_, Some s) :: rest =>
      diff_work set0 rest (algo_one_work + setTypeSize set0)
                (algo_two_work + setTypeSize s)
  end.

Definition diff_algo_select (set0 : setobj)
    (sets : list (list Z * option setobj)) : Z :=
  let '(algo_one_work, algo_two_work) := diff_work set0 sets 0 0 in
  if Z.quot algo_one_work 2 <=? algo_two_work then 1 else 2.

(** Adding every element an iterator yields: the inner loop of the union
    and of the first round of difference algorithm 2. *)
Fixpoint add_all (server : redisServer) (eles : list (list Z))
    (dstset : setobj) (cardinality : Z) : option (setobj * Z) :=
  match eles with
  | [] => Some (dstset, cardinality)
  | ele :: rest =>
      match setTypeAdd server dstset ele with
      | Some (r, dstset') =>
          add_all server rest dstset'
                  (if r =? 0 then cardinality else cardinality + 1)
      | None => None
      end
  end.

Fixpoint union_loop (server : redisServer)
    (sets : list (list Z * option setobj)) (dstset : setobj)
    (cardinality : Z) : option (setobj * Z) :=
  match sets with
  | [] => Some (dstset, cardinality)
  | (_, None) :: rest => union_loop server rest dstset cardinality
  | (_, Some s) :: rest =>
      match add_all server (setTypeNextObject_all s) dstset cardinality with
      | Some (dstset', cardinality') =>
          union_loop server rest dstset' cardinality'
      | None => None
      end
  end.

(** Difference algorithm 1, the [for (j = 1; j < setnum; j++)] loop for one
    element of the first set: [true] when it ran to [j == setnum]. *)
Fixpoint diff1_scan (key0 : list Z) (others : list (list Z * option setobj))
    (ele : list Z) : bool :=
  match others with
  | [] => true
  | (_, None) :: rest => diff1_scan key0 rest ele
  | (k, Some s) :: rest =>
      if bool_decide (k = key0) then false
      else if setTypeIsMember s ele then false
      else diff1_scan key0 rest ele
  end.

Fixpoint diff1_loop (server : redisServer) (key0 : list Z)
    (others : list (list Z * option setobj)) (eles : list (list Z))
    (dstset : setobj) (cardinality : Z) : option (setobj * Z) :=
  match eles with
  | [] => Some (dstset, cardinality)
  | ele :: rest =>
      if diff1_scan key0 others ele then
        match setTypeAdd server dstset ele with
        | Some (_, dstset') =>
            diff1_loop server key0 others rest dstset' (cardinality + 1)
        | None => None
        end
      else diff1_loop server key0 others rest dstset cardinality
  end.

(** Difference algorithm 2: removing every element an iterator yields. *)
Fixpoint remove_all (eles : list (list Z)) (dstset : setobj)
    (cardinality : Z) : setobj * Z :=
  match eles with
  | [] => (dstset, cardinality)
  | ele :: rest =>
      let '(r, dstset') := setTypeRemove dstset ele in
      remove_all rest dstset'
                 (if r =? 0 then cardinality else cardinality - 1)
  end.

(** The rounds [j >= 1]: a null entry is skipped, and the loop is left once
    the result is empty. *)
Fixpoint diff2_rounds (others : list (list Z * option setobj))
    (dstset : setobj) (cardinality : Z) : setobj * Z :=
  match others with
  | [] => (dstset, cardinality)
  | (_, None) :: rest => diff2_rounds rest dstset cardinality
  | (_, Some s) :: rest =>
      let '(dstset', cardinality') :=
        remove_all (setTypeNextObject_all s) dstset cardinality in
      if cardinality' =? 0 then (dstset', cardinality')
      else diff2_rounds rest dstset' cardinality'
  end.

Definition diff2 (server : redisServer) (set0 : setobj)
    (others : list (list Z * option setobj)) (dstset : setobj)
    (cardinality : Z) : option (setobj * Z) :=
  match add_all server (setTypeNextObject_all set0) dstset cardinality with
  | Some (dstset', cardinality') =>
      if cardinality' =? 0 then Some (dstset', cardinality')
      else Some (diff2_rounds others dstset' cardinality')
  | None => None
  end.

(** The computation of [dstset] and [cardinality], with the algorithm of a
    difference given. *)
Definition sunionDiff_compute (server : redisServer) (op : set_op)
    (sets : list (list Z * option setobj)) (diff_algo : Z)
  : option (setobj * Z) :=
  let dstset := createIntsetObject in
  match op, sets with
  | REDIS_OP_UNION, _ => union_loop server sets dstset 0
  | REDIS_OP_DIFF, (key0, Some set0) :: others =>
      if diff_algo =? 1 then
        let others1 :=
          if 1 <? Z.of_nat (length sets)
          then qsort qsortCompareSetsByRevCardinality others else others in
        diff1_loop server key0 others1 (setTypeNextObject_all set0) dstset 0
      else if diff_algo =? 2 then diff2 server set0 others dstset 0
      else Some (dstset, 0)
  | _, _ => Some (dstset, 0)
  end.

Definition sunionDiffGenericCommand (server : redisServer) (db : redisDb)
    (setkeys : list (list Z)) (dstkey : option (list Z)) (op : set_op)
  : option outcome :=
  match sunion_lookup db setkeys with
  | None => Some (server, db, [shared_wrongtypeerr])
  | Some sets =>
      let diff_algo :=
        match op, sets with
        | REDIS_OP_DIFF, (_, Some set0) :: _ => diff_algo_select set0 sets
        | _, _ => 1
        end in
      match sunionDiff_compute server op sets diff_algo with
      | None => None
      | Some (dstset, cardinality) =>
          match dstkey with
          | None =>
              Some (server, db,
                    ReplyMultiBulkLen cardinality
                    :: (ReplyBulk <$> setTypeNextObject_all dstset))
          | Some dk => Some (store_result server db dk dstset)
          end
      end
  end.

Definition sunionCommand (server : redisServer) (db : redisDb)
    (setkeys : list (list Z)) : option outcome :=
  sunionDiffGenericCommand server db setkeys None REDIS_OP_UNION.

Definition sunionstoreCommand (server : redisServer) (db : redisDb)
    (dstkey : list Z) (setkeys : list (list Z)) : option outcome :=
  sunionDiffGenericCommand server db setkeys (Some dstkey) REDIS_OP_UNION.

Definition sdiffCommand (server : redisServer) (db : redisDb)
    (setkeys : list (list Z)) : option outcome :=
  sunionDiffGenericCommand server db setkeys None REDIS_OP_DIFF.

Definition sdiffstoreCommand (server : redisServer) (db : redisDb)
    (dstkey : list Z) (setkeys : list (list Z)) : option outcome :=
  sunionDiffGenericCommand server db setkeys (Some dstkey) REDIS_OP_DIFF.

(** *** SRANDMEMBER with a count *)

Definition SRANDMEMBER_SUB_STRATEGY_MUL : Z := 3.

(** Conversions to [unsigned] and [unsigned long] (LP64). *)
Definition to_unsigned (x : Z) : Z := x mod 4294967296.
Definition to_ulong (x : Z) : Z := x mod 18446744073709551616.

(** The draws of [random()] a command consumes are given as a list, in the
    order they are made; a loop that needs a draw when none is left has not
    finished, and the command has no outcome ([None]). *)

(** CASE 1, [while(count--)]: [count] picks with repetition. *)
Fixpoint srandmember_repeat (set : setobj) (count : nat) (draws : list nat)
  : option (list reply) :=
  match count with
  | O => Some []
  | S count' =>
      match draws with
      | [] => None
      | draw :: draws' =>
          match setTypeRandomElement set draw with
          | None => None
          | Some ele =>
              match srandmember_repeat set count' draws' with
              | Some bulks => Some (ReplyBulk (object_of ele) :: bulks)
              | None => None
              end
          end
      end
  end.

(** CASE 3, first loop: every element of the set is added to the auxiliary
    dictionary, and the addition is asserted to succeed. *)
Fixpoint srandmember_fill (eles : list (list Z)) (d : gset (list Z))
  : option (gset (list Z)) :=
  match eles with
  | [] => Some d
  | ele :: rest =>
      match dictAdd d ele with
      | (DICT_OK, d') => srandmember_fill rest d'
      | (DICT_ERR, _) => None
      end
  end.

(** CASE 3, [while(size > count)]: one random key is deleted per turn;
    [excess] is [size - count]. *)
Fixpoint srandmember_subtract (d : gset (list Z)) (excess : nat)
    (draws : list nat) : option (gset (list Z)) :=
  match excess with
  | O => Some d
  | S excess' =>
      match draws with
      | [] => None
      | draw :: draws' =>
          match dictGetRandomKey d draw with
          | None => None
          | Some key =>
              srandmember_subtract (snd (dictDelete d key)) excess' draws'
          end
      end
  end.

(** CASE 4, [while(added < count)]: a pick that is already in the
    dictionary is dropped. *)
Fixpoint srandmember_insert (set : setobj) (d : gset (list Z))
    (added count : Z) (draws : list nat) : option (gset (list Z)) :=
  if count <=? added then Some d
  else
    match draws with
    | [] => None
    | draw :: draws' =>
        match setTypeRandomElement set draw with
        | None => None
        | Some ele =>
            match dictAdd d (object_of ele) with
            | (DICT_OK, d') =>
                srandmember_insert set d' (added + 1) count draws'
            | (DICT_ERR, _) => srandmember_insert set d added count draws'
            end
        end
    end.

(** [srandmemberWithCountCommand], from the point where
    [getLongFromObjectOrReply] (object.c, not part of the sources) has
    stored the count argument in the [long l]. *)
Definition srandmemberWithCountCommand (server : redisServer) (db : redisDb)
    (key : list Z) (l : Z) (draws : list nat) : option outcome :=
  let '(count, uniq) :=
    if 0 <=? l then (to_ulong (to_unsigned l), true)
    else (to_ulong (- l), false) in
  match Db.lookupKeyRead db key with
  | None => Some (server, db, [shared_emptymultibulk])
  | Some (Set_obj set) =>
      let size := setTypeSize set in
      if count =? 0 then Some (server, db, [shared_emptymultibulk])
      else if negb uniq then
        match srandmember_repeat set (Z.to_nat count) draws with
        | Some bulks => Some (server, db, ReplyMultiBulkLen count :: bulks)
        | None => None
        end
      else if size <=? count then
        sunionDiffGenericCommand server db [key] None REDIS_OP_UNION
      else
        let result :=
          if size <? to_ulong (count * SRANDMEMBER_SUB_STRATEGY_MUL) then
            match srandmember_fill (setTypeNextObject_all set) ∅ with
            | Some d =>
                if dictSize d =? size
                then srandmember_subtract d (Z.to_nat (size - count)) draws
                else None
            | None => None
            end
          else srandmember_insert set ∅ 0 count draws in
        match result with
        | Some d =>
            Some (server, db,
                  ReplyMultiBulkLen count :: (ReplyBulk <$> elements d))
        | None => None
        end
  | Some _ => Some (server, db, [shared_wrongtypeerr])
  end.

(** *** What the theorems are stated with *)

(** The union of the sets of an array of looked-up sets; a missing key
    counts as the empty set. *)
Fixpoint members_of_all (sets : list (list Z * option setobj))
  : gset (list Z) :=
  match sets with
  | [] => ∅
  | (_, None) :: rest => members_of_all rest
  | (_, Some s) :: rest => members s ∪ members_of_all rest
  end.

(** The sets of an array are well formed. *)
Definition sets_wf (sets : list (list Z * option setobj)) : Prop :=
  Forall (λ p, match snd p with Some s => set_wf s | None => True end) sets.

(** Every set of the keyspace is well formed. *)
Definition db_wf (db : redisDb) : Prop :=
  map_Forall (λ _ o, match o with Set_obj s => set_wf s | _ => True end)
             (dict db).

(** No key of the keyspace is bound to an empty set. *)
Definition no_empty_set (db : redisDb) : Prop :=
  map_Forall (λ _ o, match o with
                     | Set_obj s => 0 < setTypeSize s
                     | _ => True
                     end) (dict db).

(** The commands of t_set.c that write to the keyspace. *)
Inductive set_write_command : Type :=
| SADD (key ele : list Z) (more : list (list Z))
| SREM (key : list Z) (eles : list (list Z))
| SMOVE (src dst ele : list Z)
| SPOP (key : list Z) (draw : nat)
| SINTERSTORE (dstkey : list Z) (setkeys : list (list Z))
| SUNIONSTORE (dstkey : list Z) (setkeys : list (list Z))
| SDIFFSTORE (dstkey : list Z) (setkeys : list (list Z)).

Definition run_set_write (server : redisServer) (db : redisDb)
    (cmd : set_write_command) : option outcome :=
  match cmd with
  | SADD key ele more => saddCommand server db key ele more
  | SREM key eles => sremCommand server db key eles
  | SMOVE src dst ele => smoveCommand server db src dst ele
  | SPOP key draw => spopCommand server db key draw
  | SINTERSTORE dstkey setkeys => sinterstoreCommand server db dstkey setkeys
  | SUNIONSTORE dstkey setkeys => sunionstoreCommand server db dstkey setkeys
  | SDIFFSTORE dstkey setkeys => sdiffstoreCommand server db dstkey setkeys
  end.





(** The bulk strings of a reply. *)
Definition bulks_of (r : list reply) : list (list Z) :=
  omap (λ x, match x with ReplyBulk s => Some s | _ => None end) r.

(** *** SISMEMBER, SCARD and SRANDMEMBER without a count

    Commands that only read: the server and the database stay as they
    are, so only the reply is given. *)

Definition sismemberCommand (db : redisDb) (key ele : list Z) : list reply :=
  match Db.lookupKeyRead db key with
  | None => [shared_czero]
  | Some (Set_obj set) =>
      if setTypeIsMember set ele then [shared_cone] else [shared_czero]
  | Some _ => [shared_wrongtypeerr]
  end.

Definition scardCommand (db : redisDb) (key : list Z) : list reply :=
  match Db.lookupKeyRead db key with
  | None => [shared_czero]
  | Some (Set_obj o) => [ReplyLongLong (setTypeSize o)]
  | Some _ => [shared_wrongtypeerr]
  end.

(** [srandmemberCommand] with [c->argc == 2]; no reply ([None]) where
    [setTypeRandomElement] has no result. *)
Definition srandmemberCommand (db : redisDb) (key : list Z) (draw : nat)
  : option (list reply) :=
  match Db.lookupKeyRead db key with
  | None => Some [shared_nullbulk]
  | Some (Set_obj set) =>
      match setTypeRandomElement set draw with
      | Some (inl llele) => Some [addReplyBulkLongLong llele]
      | Some (inr ele) => Some [ReplyBulk ele]
      | None => None
      end
  | Some _ => Some [shared_wrongtypeerr]
  end.

(** The intersection of the sets of an array. *)
Definition members_of_each (sets : list (list Z * setobj)) (x : list Z)
  : Prop :=
  ∀ k s, (k, s) ∈ sets → x ∈ members s.

End TSet.

(** ** The dirty counter between two saves *)

Module Persistence.
Import Redis TSet.

(** The commands of t_hash.c that write [server.dirty], with what decides
    the amount: HSETNX counts only when it set the field, HDEL counts the
    fields it deleted. *)
Inductive hash_write_command : Type :=
| HSET
| HSETNX (field_set : bool)
| HMSET
| HINCRBY
| HINCRBYFLOAT
| HDEL (deleted : nat).

Definition hash_write_dirty (server : redisServer) (cmd : hash_write_command)
  : redisServer :=
  match cmd with
  | HSET | HMSET | HINCRBY | HINCRBYFLOAT =>
      set_dirty server (dirty server + 1)
  | HSETNX field_set =>
      if field_set then set_dirty server (dirty server + 1) else server
  | HDEL deleted =>
      if (0 <? deleted)%nat
      then set_dirty server (dirty server + Z.of_nat deleted) else server
  end.

(** One command that writes the dirty counter and is not a save: the places
    of the sources that assign [server.dirty], apart from [rdbSave] and
    [backgroundSaveDoneHandler]. *)
Inductive write_step : redisServer → redisServer → Prop :=
| step_set_command (server server' : redisServer) (db db' : redisDb)
    (cmd : set_write_command) (reply : list reply) :
    run_set_write server db cmd = Some (server', db', reply) →
    write_step server server'
| step_hash_command (server : redisServer) (cmd : hash_write_command) :
    write_step server (hash_write_dirty server cmd).

(** What such a command may do to the counters: [dirty] does not decrease
    and the value recorded at the last fork stays. *)
Definition grows (server server' : redisServer) : Prop :=
  dirty server <= dirty server'
  ∧ dirty_before_bgsave server' = dirty_before_bgsave server.

End Persistence.

(* --------------------------------------------------------------------- *)
(** ** zmalloc.c: the allocator wrapper and its live-bytes counter        *)
(* --------------------------------------------------------------------- *)

Module Zmalloc.

(** The process state the wrapper works on: the two statics of zmalloc.c,
    the blocks the underlying allocator has handed out (block address to
    the size [malloc_size] reports for it), and the [size_t] words the
    wrapper has stored at the start of blocks. *)
Record zstate : Type := mkZstate {
  used_memory : Z;
  zmalloc_thread_safe : bool;
  blocks : gmap Z Z;
  words : gmap Z Z
}.

Definition set_used_memory (st : zstate) (v : Z) : zstate :=
  mkZstate v (zmalloc_thread_safe st) (blocks st) (words st).

Definition set_blocks (st : zstate) (b : gmap Z Z) : zstate :=
  mkZstate (used_memory st) (zmalloc_thread_safe st) b (words st).

Definition set_words (st : zstate) (w : gmap Z Z) : zstate :=
  mkZstate (used_memory st) (zmalloc_thread_safe st) (blocks st) w.

(** The underlying allocator.  What it answers to a request is not decided
    by zmalloc.c: an answer is the address of the block and the size the
    allocator will report for it, or nothing for a NULL result. *)
Definition answer : Type := option (Z * Z).

Definition malloc (st : zstate) (a : Z * Z) : zstate :=
  set_blocks st (<[a.1 := a.2]> (blocks st)).

(** [realloc] gives the old block back and carries its contents over. *)
Definition realloc (st : zstate) (p : Z) (a : Z * Z) : zstate :=
  let st := set_blocks st (<[a.1 := a.2]> (delete p (blocks st))) in
  match words st !! p with
  | Some w => set_words st (<[a.1 := w]> (delete p (words st)))
  | None => set_words st (delete a.1 (delete p (words st)))
  end.

Definition free (st : zstate) (p : Z) : zstate :=
  set_words (set_blocks st (delete p (blocks st))) (delete p (words st)).

Definition malloc_size (st : zstate) (p : Z) : option Z := blocks st !! p.

Section Platform.

(** Whether config.h defines HAVE_MALLOC_SIZE, whether one of __sun,
    __sparc, __sparc__ is defined, and the sizes of the integer types. *)
Variable HAVE_MALLOC_SIZE : bool.
Variable sun : bool.
Variable sizeof_long : Z.
Variable sizeof_size_t : Z.
Variable sizeof_long_long : Z.

Definition PREFIX_SIZE : Z :=
  if HAVE_MALLOC_SIZE then 0
  else if sun then sizeof_long_long else sizeof_size_t.

(** Arithmetic on [size_t] wraps. *)
Definition to_size_t (x : Z) : Z := x mod 2 ^ (8 * sizeof_size_t).

(** [if (_n&(sizeof(long)-1)) _n += sizeof(long)-(_n&(sizeof(long)-1));] *)
Definition round_to_long (_n : Z) : Z :=
  if negb (Z.land _n (sizeof_long - 1) =? 0)
  then to_size_t (_n + to_size_t (sizeof_long - Z.land _n (sizeof_long - 1)))
  else _n.

(** The rounding as the spec words it, "rounds the caller-requested size up
    to machine word alignment": the least multiple of [sizeof(long)] that
    is not below [n]. *)
Definition word_aligned (n : Z) : Z :=
  sizeof_long * ((n + sizeof_long - 1) / sizeof_long).

Definition update_zmalloc_stat_add (st : zstate) (__n : Z) : zstate :=
  set_used_memory st (to_size_t (used_memory st + __n)).

Definition update_zmalloc_stat_sub (st : zstate) (__n : Z) : zstate :=
  set_used_memory st (to_size_t (used_memory st - __n)).

Definition update_zmalloc_stat_alloc (st : zstate) (__n : Z) : zstate :=
  let _n := round_to_long __n in
  if zmalloc_thread_safe st then update_zmalloc_stat_add st _n
  else set_used_memory st (to_size_t (used_memory st + _n)).

Definition update_zmalloc_stat_free (st : zstate) (__n : Z) : zstate :=
  let _n := round_to_long __n in
  if zmalloc_thread_safe st then update_zmalloc_stat_sub st _n
  else set_used_memory st (to_size_t (used_memory st - _n)).

(** [zmalloc_size]: the allocator's own report where there is one, else
    the stored size rounded up, plus the prefix.  [None] where the pointer
    is not a block of the wrapper. *)
Definition zmalloc_size (st : zstate) (ptr : Z) : option Z :=
  if HAVE_MALLOC_SIZE then malloc_size st ptr
  else
    match words st !! (ptr - PREFIX_SIZE) with
    | Some size => Some (to_size_t (round_to_long size + PREFIX_SIZE))
    | None => None
    end.

(** [zmalloc]: [None] is the abort of the out-of-memory handler. *)
Definition zmalloc (st : zstate) (size : Z) (a : answer)
  : option (Z * zstate) :=
  match a with
  | None => None
  | Some (ptr, u) =>
      let st := malloc st (ptr, u) in
      if HAVE_MALLOC_SIZE then
        match zmalloc_size st ptr with
        | Some n => Some (ptr, update_zmalloc_stat_alloc st n)
        | None => None
        end
      else
        let st := set_words st (<[ptr := size]> (words st)) in
        let st := update_zmalloc_stat_alloc st (to_size_t (size + PREFIX_SIZE)) in
        Some (ptr + PREFIX_SIZE, st)
  end.

(** [zrealloc]: a NULL pointer is [None]. *)
Definition zrealloc (st : zstate) (ptr : option Z) (size : Z) (a : answer)
  : option (Z * zstate) :=
  match ptr with
  | None => zmalloc st size a
  | Some ptr =>
      if HAVE_MALLOC_SIZE then
        match zmalloc_size st ptr with
        | Some oldsize =>
            match a with
            | None => None
            | Some (newptr, u) =>
                let st := realloc st ptr (newptr, u) in
                let st := update_zmalloc_stat_free st oldsize in
                match zmalloc_size st newptr with
                | Some n => Some (newptr, update_zmalloc_stat_alloc st n)
                | None => None
                end
            end
        | None => None
        end
      else
        let realptr := ptr - PREFIX_SIZE in
        match words st !! realptr with
        | Some oldsize =>
            match a with
            | None => None
            | Some (newptr, u) =>
                let st := realloc st realptr (newptr, u) in
                let st := set_words st (<[newptr := size]> (words st)) in
                let st := update_zmalloc_stat_free st oldsize in
                let st := update_zmalloc_stat_alloc st size in
                Some (newptr + PREFIX_SIZE, st)
            end
        | None => None
        end
  end.

Definition zfree (st : zstate) (ptr : option Z) : option zstate :=
  match ptr with
  | None => Some st
  | Some ptr =>
      if HAVE_MALLOC_SIZE then
        match zmalloc_size st ptr with
        | Some n => Some (free (update_zmalloc_stat_free st n) ptr)
        | None => None
        end
      else
        let realptr := ptr - PREFIX_SIZE in
        match words st !! realptr with
        | Some oldsize =>
            Some (free (update_zmalloc_stat_free st
                          (to_size_t (oldsize + PREFIX_SIZE))) realptr)
        | None => None
        end
  end.

(** The bytes the counter holds for a block: what [zfree] will subtract
    for it. *)
Definition accounted (st : zstate) (ptr : Z) : option Z :=
  if HAVE_MALLOC_SIZE then
    match zmalloc_size st ptr with
    | Some n => Some (round_to_long n)
    | None => None
    end
  else
    match words st !! (ptr - PREFIX_SIZE) with
    | Some oldsize => Some (round_to_long (to_size_t (oldsize + PREFIX_SIZE)))
    | None => None
    end.

(** The counter stands at [used0] plus the bytes held for the block at
    [ptr]; in the prefix configuration the stored size is a [size_t]. *)
Definition counts_block (used0 : Z) (st : zstate) (ptr : Z) : Prop :=
  ∃ n, accounted st ptr = Some n
       ∧ used_memory st = to_size_t (used0 + n)
       ∧ (HAVE_MALLOC_SIZE = false →
          ∃ h, words st !! (ptr - PREFIX_SIZE) = Some h
               ∧ 0 <= h < 2 ^ (8 * sizeof_size_t)).

(** A block taken through a series of [zrealloc] calls, each with the new
    size and the allocator's answer. *)
Fixpoint zrealloc_all (st : zstate) (ptr : Z) (steps : list (Z * (Z * Z)))
  : option (Z * zstate) :=
  match steps with
  | [] => Some (ptr, st)
  | (size, a) :: steps =>
      match zrealloc st (Some ptr) size (Some a) with
      | Some (ptr', st') => zrealloc_all st' ptr' steps
      | None => None
      end
  end.

End Platform.

End Zmalloc.

(* --------------------------------------------------------------------- *)
(** ** rdb.c: the rest of the writers, and whole snapshots               *)
(* --------------------------------------------------------------------- *)

Module Snapshot.
Import Mem Util Rio Redis Rdb.

(** A string object as [rdbSaveStringObject] sees it: [REDIS_ENCODING_INT]
    holds a [long] in the pointer field, the other encodings hold an
    [sds]. *)
Inductive strobj : Type :=
| Int_encoded (value : Z)
| Sds_encoded (s : list Z).

(** The bytes a string object stands for ([getDecodedObject]). *)
Definition decoded (o : strobj) : list Z :=
  match o with
  | Int_encoded value => ll2string value
  | Sds_encoded s => s
  end.

Section Writers.

Variable be : bool.
Variable crc64_byte : Z -> Z -> Z.
Variable lzf_compress : list Z -> nat -> list Z.


(** [rdbSaveLongLongAsStringObject(rdb,value)]: [redisAssert(enclen < 32)]
    holds for every 64-bit value. *)
Definition rdbSaveLongLongAsStringObject (rdb : option rio) (value : Z)
  : option (Z * option rio) :=
  let '(enclen, buf) := rdbEncodeInteger value in
  if 0 <? enclen then rdbWriteRaw crc64_byte rdb buf
  else
    let buf := ll2string value in
    let enclen := Z.of_nat (length buf) in
    match rdbSaveLen be crc64_byte rdb enclen with
    | None => None
    | Some (n1, rdb1) =>
        match rdbWriteRaw crc64_byte rdb1 buf with
        | None => None
        | Some (n2, rdb2) => Some (n1 + n2, rdb2)
        end
    end.

(** [rdbSaveStringObject(rdb,obj)]. *)
Definition rdbSaveStringObject (server : redisServer) (rdb : option rio)
    (obj : strobj) : option (Z * option rio) :=
  match obj with
  | Int_encoded value => rdbSaveLongLongAsStringObject rdb value
  | Sds_encoded s =>
      rdbSaveRawString be crc64_byte lzf_compress server rdb s
  end.

End Writers.

End Snapshot.

(** ** Dynamic byte strings (sds.c) *)

Module Sds.
Import Util.

(** Modelled from the spec: sds.h is not part of the sources.  By section
    4.1 an [sds] is a byte buffer behind a header; sds.c reads and writes
    the two header fields, the length in use [len] and the free space
    [free], as C [int]s ([sdsIncrLen] compares [free] with a signed
    increment and asserts that it is not negative), and reads them through
    [sdslen] and [sdsavail] into [size_t] variables.  [buf] is the memory
    after the header: [len] bytes of content, the terminating NUL and
    [free] more bytes. *)
Record sdshdr : Type := mkSds { len : Z; free : Z; buf : list Z }.

Definition sizeof_sdshdr : Z := 8.

(** The conversions of the C assignments: to [int] and to [size_t]
    (LP64). *)
Definition to_int (x : Z) : Z := (x + 2147483648) mod 4294967296 - 2147483648.
Definition to_size_t (x : Z) : Z := x mod 18446744073709551616.

Definition sdslen (s : sdshdr) : Z := to_size_t (len s).
Definition sdsavail (s : sdshdr) : Z := to_size_t (free s).

(** *** Memory

    A store or a copy that stays inside the allocation keeps the length of
    the buffer; one that leaves it is undefined in C and is not modelled:
    the invariant [sds_wf] below shows where it does not happen. *)

(** [b[i] = v]. *)
Definition store (b : list Z) (i : Z) (v : Z) : list Z :=
  <[Z.to_nat i := v]> b.

(** [memcpy(b+at,src,n)] with [src] the [n] bytes copied. *)
Definition memcpy (b : list Z) (at_ : Z) (src : list Z) : list Z :=
  take (Z.to_nat at_) b ++ src
  ++ drop (Z.to_nat at_ + length src) b.

(** [memmove(b+at,b+from,n)]. *)
Definition memmove (b : list Z) (at_ from n : Z) : list Z :=
  memcpy b at_ (take (Z.to_nat n) (drop (Z.to_nat from) b)).

(** [memset(b+at,c,n)]. *)
Definition memset (b : list Z) (at_ c n : Z) : list Z :=
  memcpy b at_ (replicate (Z.to_nat n) c).

(** [strlen(s)]: the bytes before the first NUL; a string is given as bytes
    that hold its terminator, or as the bytes before it. *)
Fixpoint strlen (s : list Z) : Z :=
  match s with
  | [] => 0
  | c :: rest => if c =? 0 then 0 else 1 + strlen rest
  end.

(** The bytes of a C string. *)
Definition cstring (s : list Z) : list Z := take (Z.to_nat (strlen s)) s.

(** [memcmp(a,b,n)] of the C library on the first [n] bytes.  The C
    standard fixes the sign of the result, that of the difference of the
    first two bytes that differ, read as [unsigned char]; this one returns
    that difference. *)
Fixpoint memcmp (a b : list Z) (n : nat) {struct n} : Z :=
  match n with
  | O => 0
  | S n' =>
      match a, b with
      | x :: a', y :: b' => if x =? y then memcmp a' b' n' else x - y
      | _, _ => 0
      end
  end.

(** <ctype.h> in the C locale. *)
Definition isprint (c : Z) : bool := (32 <=? c) && (c <=? 126).
Definition tolower (c : Z) : Z :=
  if (65 <=? c) && (c <=? 90) then c + 32 else c.
Definition toupper (c : Z) : Z :=
  if (97 <=? c) && (c <=? 122) then c - 32 else c.

Section Alloc.

(** [SDS_MAX_PREALLOC] of sds.h. *)
Variable SDS_MAX_PREALLOC : Z.

(** The byte that fresh memory holds at each offset: what [zmalloc] and the
    grown part of [zrealloc] hand out is not initialised.  Allocation
    failure ends the server in zmalloc.c, so the allocations below
    succeed. *)
Variable fresh : nat -> Z.

Definition zmalloc_bytes (n : Z) : list Z := fresh <$> seq 0 (Z.to_nat n).
Definition zcalloc_bytes (n : Z) : list Z := replicate (Z.to_nat n) 0.
Definition zrealloc_bytes (b : list Z) (n : Z) : list Z :=
  take (Z.to_nat n) b
  ++ (fresh <$> seq (length b) (Z.to_nat n - length b)).

(** The bytes of the buffer in an allocation for [n] bytes of string. *)
Definition buf_size (n : Z) : Z :=
  to_size_t (sizeof_sdshdr + n + 1) - sizeof_sdshdr.

(** [sdsnewlen(init,initlen)]; [init] is the null pointer or the bytes at
    it. *)
Definition sdsnewlen (init : option (list Z)) (initlen : Z) : sdshdr :=
  let b :=
    match init with
    | Some _ => zmalloc_bytes (buf_size initlen)
    | None => zcalloc_bytes (buf_size initlen)
    end in
  let b :=
    match init with
    | Some t =>
        if initlen =? 0 then b else memcpy b 0 (take (Z.to_nat initlen) t)
    | None => b
    end in
  mkSds (to_int initlen) 0 (store b initlen 0).

Definition sdsempty : sdshdr := sdsnewlen (Some [0]) 0.

Definition sdsnew (init : option (list Z)) : sdshdr :=
  let initlen := match init with None => 0 | Some t => strlen t end in
  sdsnewlen init initlen.

Definition sdsdup (s : sdshdr) : sdshdr := sdsnewlen (Some (buf s)) (sdslen s).

(** [sdsupdatelen(s)]. *)
Definition sdsupdatelen (s : sdshdr) : sdshdr :=
  let reallen := to_int (strlen (buf s)) in
  mkSds reallen (to_int (free s + to_int (len s - reallen))) (buf s).

(** [sdsclear(s)]. *)
Definition sdsclear (s : sdshdr) : sdshdr :=
  mkSds 0 (to_int (free s + len s)) (store (buf s) 0 0).

(** [sdsMakeRoomFor(s,addlen)]. *)
Definition sdsMakeRoomFor (s : sdshdr) (addlen : Z) : sdshdr :=
  let free_ := sdsavail s in
  if addlen <=? free_ then s
  else
    let len_ := sdslen s in
    let newlen := to_size_t (len_ + addlen) in
    let newlen :=
      if newlen <? SDS_MAX_PREALLOC then to_size_t (newlen * 2)
      else to_size_t (newlen + SDS_MAX_PREALLOC) in
    mkSds (len s) (to_int (newlen - len_))
          (zrealloc_bytes (buf s) (buf_size newlen)).

(** [sdsRemoveFreeSpace(s)]. *)
Definition sdsRemoveFreeSpace (s : sdshdr) : sdshdr :=
  mkSds (len s) 0 (zrealloc_bytes (buf s) (buf_size (len s))).

(** [sdsAllocSize(s)]. *)
Definition sdsAllocSize (s : sdshdr) : Z :=
  to_size_t (sizeof_sdshdr + len s + free s + 1).

(** [sdsIncrLen(s,incr)]; [None] is a failed [assert]. *)
Definition sdsIncrLen (s : sdshdr) (incr : Z) : option sdshdr :=
  if free s <? incr then None
  else
    let len' := to_int (len s + incr) in
    let free' := to_int (free s - incr) in
    if free' <? 0 then None
    else Some (mkSds len' free' (store (buf s) len' 0)).

(** [sdsgrowzero(s,len)]. *)
Definition sdsgrowzero (s : sdshdr) (len_ : Z) : sdshdr :=
  let curlen := to_size_t (len s) in
  if len_ <=? curlen then s
  else
    let s := sdsMakeRoomFor s (to_size_t (len_ - curlen)) in
    let b := memset (buf s) curlen 0 (to_size_t (len_ - curlen + 1)) in
    let totlen := to_size_t (len s + free s) in
    let len' := to_int len_ in
    mkSds len' (to_int (totlen - len')) b.

(** [sdscatlen(s,t,len)], with [t] the [len] bytes appended. *)
Definition sdscatlen (s : sdshdr) (t : list Z) : sdshdr :=
  let len_ := Z.of_nat (length t) in
  let curlen := sdslen s in
  let s := sdsMakeRoomFor s len_ in
  let b := memcpy (buf s) curlen t in
  mkSds (to_int (curlen + len_)) (to_int (free s - len_))
        (store b (curlen + len_) 0).

Definition sdscat (s : sdshdr) (t : list Z) : sdshdr :=
  sdscatlen s (cstring t).

Definition sdscatsds (s t : sdshdr) : sdshdr :=
  sdscatlen s (take (Z.to_nat (sdslen t)) (buf t)).

(** [sdscpylen(s,t,len)], with [t] the [len] bytes copied. *)
Definition sdscpylen (s : sdshdr) (t : list Z) : sdshdr :=
  let len_ := Z.of_nat (length t) in
  let totlen := to_size_t (free s + len s) in
  let '(s, totlen) :=
    if totlen <? len_ then
      let s := sdsMakeRoomFor s (to_size_t (len_ - len s)) in
      (s, to_size_t (free s + len s))
    else (s, totlen) in
  let b := store (memcpy (buf s) 0 t) len_ 0 in
  mkSds (to_int len_) (to_int (totlen - len_)) b.

Definition sdscpy (s : sdshdr) (t : list Z) : sdshdr :=
  sdscpylen s (cstring t).

(** [sdsfromlonglong(value)]. *)
Definition sdsfromlonglong (value : Z) : sdshdr :=
  let b := sdsll2str value in
  sdsnewlen (Some b) (Z.of_nat (length b)).

(** [sdscatvprintf(s,fmt,ap)]: the buffer is doubled until vsnprintf(3)
    has room, and what it rendered is appended as a C string;
    [rendered] is the rendering of the format with its arguments. *)
Definition sdscatvprintf (s : sdshdr) (rendered : list Z) : sdshdr :=
  sdscat s (rendered ++ [0]).

Definition sdscatprintf (s : sdshdr) (rendered : list Z) : sdshdr :=
  sdscatvprintf s rendered.

(** *** Trimming and ranges *)

(** [strchr(cset,c) != NULL]: the terminator of [cset] is part of the
    string that is searched. *)
Definition strchr (cset : list Z) (c : Z) : bool :=
  bool_decide (c ∈ cstring cset) || (c =? 0).

(** [while(sp <= end && strchr(cset, *sp)) sp++], on the bytes from [sp] to
    [end]. *)
Fixpoint trim_sp (cset : list Z) (bytes : list Z) (sp : Z) : Z :=
  match bytes with
  | [] => sp
  | c :: rest => if strchr cset c then trim_sp cset rest (sp + 1) else sp
  end.

(** [while(ep > start && strchr(cset, *ep)) ep--], on the bytes from [ep]
    down to [start]. *)
Fixpoint trim_ep (cset : list Z) (bytes : list Z) (ep : Z) : Z :=
  match bytes with
  | [] => ep
  | c :: rest =>
      if (0 <? ep) && strchr cset c then trim_ep cset rest (ep - 1) else ep
  end.

(** [sdstrim(s,cset)]; the pointers are offsets from [s]. *)
Definition sdstrim (s : sdshdr) (cset : list Z) : sdshdr :=
  let bytes := take (Z.to_nat (sdslen s)) (buf s) in
  let end_ := sdslen s - 1 in
  let sp := trim_sp cset bytes 0 in
  let ep := trim_ep cset (reverse bytes) end_ in
  let len_ := if ep <? sp then 0 else to_size_t (ep - sp + 1) in
  let b := if sp =? 0 then buf s else memmove (buf s) 0 sp len_ in
  mkSds (to_int len_) (to_int (free s + to_int (len s - len_)))
        (store b len_ 0).

(** [sdsrange(s,start,end)]. *)
Definition sdsrange (s : sdshdr) (start end_ : Z) : sdshdr :=
  let len_ := sdslen s in
  if len_ =? 0 then s
  else
    let start :=
      if start <? 0 then
        let start := to_int (to_size_t (len_ + start)) in
        if start <? 0 then 0 else start
      else start in
    let end_ :=
      if end_ <? 0 then
        let end_ := to_int (to_size_t (len_ + end_)) in
        if end_ <? 0 then 0 else end_
      else end_ in
    let newlen :=
      if end_ <? start then 0 else to_size_t (to_int (to_int (end_ - start) + 1)) in
    let '(start, end_, newlen) :=
      if negb (newlen =? 0) then
        if to_int len_ <=? start then (start, end_, 0)
        else if to_int len_ <=? end_ then
          let end_ := to_int (len_ - 1) in
          (start, end_,
           if end_ <? start then 0
           else to_size_t (to_int (to_int (end_ - start) + 1)))
        else (start, end_, newlen)
      else (0, end_, newlen) in
    let b :=
      if negb (start =? 0) && negb (newlen =? 0)
      then memmove (buf s) 0 start newlen else buf s in
    mkSds (to_int newlen) (to_int (free s + to_int (len s - newlen)))
          (store b newlen 0).

(** [sdstolower(s)] and [sdstoupper(s)]. *)
Definition sdstolower (s : sdshdr) : sdshdr :=
  let n := Z.to_nat (to_int (sdslen s)) in
  mkSds (len s) (free s) ((tolower <$> take n (buf s)) ++ drop n (buf s)).

Definition sdstoupper (s : sdshdr) : sdshdr :=
  let n := Z.to_nat (to_int (sdslen s)) in
  mkSds (len s) (free s) ((toupper <$> take n (buf s)) ++ drop n (buf s)).

(** [sdscmp(s1,s2)]. *)
Definition sdscmp (s1 s2 : sdshdr) : Z :=
  let l1 := sdslen s1 in
  let l2 := sdslen s2 in
  let minlen := if l1 <? l2 then l1 else l2 in
  let cmp := memcmp (buf s1) (buf s2) (Z.to_nat minlen) in
  if cmp =? 0 then to_int (to_size_t (l1 - l2)) else cmp.

(** *** Splitting and joining *)






(** *** Quoted representations *)

(** The digit printf(3) writes for a value below 16 under [%x]. *)
Definition hex_char (d : Z) : Z := if d <? 10 then 48 + d else 87 + d.

(** One turn of the [while(len--)] loop of [sdscatrepr]; the renderings are
    those of the formats ["\\%c"], ["%c"] and ["\\x%02x"]. *)
Definition sdscatrepr_char (s : sdshdr) (c : Z) : sdshdr :=
  if (c =? 92) || (c =? 34) then sdscatprintf s [92; c]
  else if c =? 10 then sdscatlen s [92; 110]
  else if c =? 13 then sdscatlen s [92; 114]
  else if c =? 9 then sdscatlen s [92; 116]
  else if c =? 7 then sdscatlen s [92; 97]
  else if c =? 8 then sdscatlen s [92; 98]
  else if isprint c then sdscatprintf s [c]
  else sdscatprintf s [92; 120; hex_char (c / 16); hex_char (c mod 16)].

(** [sdscatrepr(s,p,len)], with [p] the [len] bytes represented. *)
Definition sdscatrepr (s : sdshdr) (p : list Z) : sdshdr :=
  sdscatlen (fold_left sdscatrepr_char p (sdscatlen s [34])) [34].

Definition is_hex_digit (c : Z) : bool :=
  ((48 <=? c) && (c <=? 57)) || ((97 <=? c) && (c <=? 102))
  || ((65 <=? c) && (c <=? 70)).

Definition hex_digit_to_int (c : Z) : Z :=
  if (48 <=? c) && (c <=? 57) then c - 48
  else if (97 <=? c) && (c <=? 102) then c - 87
  else if (65 <=? c) && (c <=? 70) then c - 55
  else 0.

(** The byte at [p+i] of a line; the line ends with a NUL, which is what
    is read at its end. *)
Definition peek (p : list Z) (i : nat) : Z := nth i p 0.

(** [if ( *p) p++]. *)
Definition advance (p : list Z) : list Z :=
  if peek p 0 =? 0 then p else drop 1 p.

(** The result of the [while(!done)] loop of [sdssplitargs]: the token and
    the rest of the line, [goto err], or no result with the fuel given. *)
Inductive token_result : Type :=
| Token (current : sdshdr) (p : list Z)
| TokenErr
| TokenFuel.

Fixpoint sdssplitargs_token (fuel : nat) (p : list Z) (inq insq : bool)
    (current : sdshdr) : token_result :=
  match fuel with
  | O => TokenFuel
  | S fuel' =>
      if inq then
        if (peek p 0 =? 92) && (peek p 1 =? 120)
           && is_hex_digit (peek p 2) && is_hex_digit (peek p 3)
        then
          let byte :=
            (hex_digit_to_int (peek p 2) * 16 + hex_digit_to_int (peek p 3))
            mod 256 in
          let current := sdscatlen current [byte] in
          sdssplitargs_token fuel' (advance (drop 3 p)) inq insq current
        else if (peek p 0 =? 92) && negb (peek p 1 =? 0) then
          let p := drop 1 p in
          let c :=
            if peek p 0 =? 110 then 10
            else if peek p 0 =? 114 then 13
            else if peek p 0 =? 116 then 9
            else if peek p 0 =? 98 then 8
            else if peek p 0 =? 97 then 7
            else peek p 0 in
          let current := sdscatlen current [c] in
          sdssplitargs_token fuel' (advance p) inq insq current
        else if peek p 0 =? 34 then
          if negb (peek p 1 =? 0) && negb (isspace (peek p 1)) then TokenErr
          else Token current (advance p)
        else if peek p 0 =? 0 then TokenErr
        else
          let current := sdscatlen current [peek p 0] in
          sdssplitargs_token fuel' (advance p) inq insq current
      else if insq then
        if (peek p 0 =? 92) && (peek p 1 =? 39) then
          let p := drop 1 p in
          let current := sdscatlen current [39] in
          sdssplitargs_token fuel' (advance p) inq insq current
        else if peek p 0 =? 39 then
          if negb (peek p 1 =? 0) && negb (isspace (peek p 1)) then TokenErr
          else Token current (advance p)
        else if peek p 0 =? 0 then TokenErr
        else
          let current := sdscatlen current [peek p 0] in
          sdssplitargs_token fuel' (advance p) inq insq current
      else
        let c := peek p 0 in
        if (c =? 32) || (c =? 10) || (c =? 13) || (c =? 9) || (c =? 0)
        then Token current (advance p)
        else if c =? 34 then
          sdssplitargs_token fuel' (advance p) true insq current
        else if c =? 39 then
          sdssplitargs_token fuel' (advance p) inq true current
        else
          let current := sdscatlen current [c] in
          sdssplitargs_token fuel' (advance p) inq insq current
  end.

(** [while( *p && isspace( *p)) p++]. *)
Fixpoint skip_blanks (p : list Z) : list Z :=
  match p with
  | c :: rest => if negb (c =? 0) && isspace c then skip_blanks rest else p
  | [] => []
  end.

(** The result of [sdssplitargs]: the vector, the null pointer, or no
    result with the fuel given. *)
Inductive args_result : Type :=
| Args (vector : list sdshdr)
| ArgsNull
| ArgsFuel.

(** The [while(1)] loop of [sdssplitargs]. *)
Fixpoint sdssplitargs_loop (fuel : nat) (p : list Z) (vector : list sdshdr)
  : args_result :=
  match fuel with
  | O => ArgsFuel
  | S fuel' =>
      let p := skip_blanks p in
      if negb (peek p 0 =? 0) then
        match sdssplitargs_token (S (length p)) p false false sdsempty with
        | Token current p' => sdssplitargs_loop fuel' p' (vector ++ [current])
        | TokenErr => ArgsNull
        | TokenFuel => ArgsFuel
        end
      else Args vector
  end.

(** [sdssplitargs(line,&argc)]; [argc] is the length of the vector. *)
Definition sdssplitargs (line : list Z) : args_result :=
  sdssplitargs_loop (S (length line)) line [].

(** [sdsmapchars(s,from,to,setlen)]: the inner loop, for one byte. *)
Fixpoint sdsmapchars_byte (c : Z) (from to : list Z) (setlen : nat) : Z :=
  match setlen, from, to with
  | S n, f :: from', t :: to' =>
      if c =? f then t else sdsmapchars_byte c from' to' n
  | _, _, _ => c
  end.

Definition sdsmapchars (s : sdshdr) (from to : list Z) (setlen : Z)
  : sdshdr :=
  let l := Z.to_nat (sdslen s) in
  mkSds (len s) (free s)
        (((λ c, sdsmapchars_byte c from to (Z.to_nat setlen))
          <$> take l (buf s)) ++ drop l (buf s)).

End Alloc.

(** *** What the theorems are stated with *)

(** The string an [sds] holds. *)
Definition content (s : sdshdr) : list Z := take (Z.to_nat (len s)) (buf s).

(** The header describes the buffer: [len] bytes of content, the
    terminating NUL, [free] more bytes. *)
Definition sds_wf (s : sdshdr) : Prop :=
  0 <= len s ∧ 0 <= free s
  ∧ Z.of_nat (length (buf s)) = len s + free s + 1
  ∧ buf s !! Z.to_nat (len s) = Some 0.

(** The index an argument of [sdsrange] stands for in a string of [n]
    bytes: a negative one counts from the end and stops at the first
    byte. *)
Definition range_index (n i : Z) : Z :=
  if i <? 0 then Z.max 0 (n + i) else i.

(** The order of byte strings: [a] is a proper prefix of [b], or at the
    first place where they differ [a] has the smaller byte. *)
Definition bytes_lt (a b : list Z) : Prop :=
  ∃ p, (∃ y b', a = p ∧ b = p ++ y :: b')
       ∨ (∃ x y a' b', a = p ++ x :: a' ∧ b = p ++ y :: b' ∧ x < y).


End Sds.

(** ** Hashes (t_hash.c) *)

Module THash.
Import Util Redis.

(** *** The containers under a hash

    Modelled from the spec: ziplist.c and dict.c are not part of the
    sources.  By section 4.2 a packed entry list is a sequence of entries
    with push at the tail, insert before a cursor, delete at a cursor, find
    by byte-equal match with a stride, fetch of an entry as bytes or
    integer, and entry count; an entry is held here by the bytes it stands
    for, and a cursor by its index.  By section 4.4 the hash table of a hash
    is a finite map from field to value with set-or-replace, add-if-absent,
    find, delete and size. *)

Definition ziplistLen (zl : list (list Z)) : Z := Z.of_nat (length zl).

(** [ziplistPush(zl,s,slen,ZIPLIST_TAIL)]. *)
Definition ziplistPush (zl : list (list Z)) (s : list Z) : list (list Z) :=
  zl ++ [s].

(** [ziplistDelete(zl,&p)]: afterwards [p] designates the entry that
    followed. *)
Definition ziplistDelete (zl : list (list Z)) (p : nat) : list (list Z) :=
  delete p zl.

(** [ziplistInsert(zl,p,s,slen)]: before the entry at [p], at the tail
    when [p] is the end. *)
Definition ziplistInsert (zl : list (list Z)) (p : nat) (s : list Z)
  : list (list Z) :=
  take p zl ++ s :: drop p zl.

(** [ziplistNext(zl,p)]: the null pointer after the last entry. *)
Definition ziplistNext (zl : list (list Z)) (p : nat) : option nat :=
  if bool_decide (S p < length zl)%nat then Some (S p) else None.

(** [ziplistGet(p,&sstr,&slen,&sval)]: an entry that was written from the
    decimal form of a 64-bit integer is held, and handed out, as that
    integer. *)
Definition ziplistGet (zl : list (list Z)) (p : nat) : option (Z + list Z) :=
  match zl !! p with
  | Some e =>
      Some (match isObjectRepresentableAsLongLong e with
            | Some v => inl v
            | None => inr e
            end)
  | None => None
  end.

(** [ziplistFind(p,vstr,vlen,skip)] from the entries at the cursor on: an
    entry is compared when [skipcnt] is 0, and [skip] entries are passed
    over after each comparison. *)
Fixpoint ziplistFind (entries : list (list Z)) (p : nat) (vstr : list Z)
    (skip skipcnt : nat) : option nat :=
  match entries with
  | [] => None
  | e :: rest =>
      match skipcnt with
      | O =>
          if bool_decide (e = vstr) then Some p
          else ziplistFind rest (S p) vstr skip skip
      | S n => ziplistFind rest (S p) vstr skip n
      end
  end.

Inductive dict_status : Type := DICT_OK | DICT_ERR.

Definition dictFind (d : gmap (list Z) (list Z)) (key : list Z)
  : option (list Z) := d !! key.

(** [dictReplace(d,key,val)]: 1 when the key was added, 0 when its value
    was replaced. *)
Definition dictReplace (d : gmap (list Z) (list Z)) (key val : list Z)
  : Z * gmap (list Z) (list Z) :=
  (match d !! key with Some _ => 0 | None => 1 end, <[key := val]> d).

Definition dictAdd (d : gmap (list Z) (list Z)) (key val : list Z)
  : dict_status * gmap (list Z) (list Z) :=
  match d !! key with
  | Some _ => (DICT_ERR, d)
  | None => (DICT_OK, <[key := val]> d)
  end.

Definition dictDelete (d : gmap (list Z) (list Z)) (key : list Z)
  : dict_status * gmap (list Z) (list Z) :=
  match d !! key with
  | Some _ => (DICT_OK, delete key d)
  | None => (DICT_ERR, d)
  end.

Definition dictSize (d : gmap (list Z) (list Z)) : Z := Z.of_nat (size d).

(** *** The hash type API

    A hash value: [REDIS_ENCODING_ZIPLIST] holds fields and values as
    alternating entries, [REDIS_ENCODING_HT] a hash table.  String objects
    are identified with their bytes.  [None] stands for a failed
    [redisAssert] or a [redisPanic]: the server aborts. *)
Inductive hashobj : Type :=
| Hash_ziplist (zl : list (list Z))
| Hash_ht (d : gmap (list Z) (list Z)).

(** Modelled from the spec: object.c is not part of the sources;
    [createHashObject] makes an empty hash in the compact encoding (section
    4.7: the narrowest admissible encoding). *)
Definition createHashObject : hashobj := Hash_ziplist [].

(** The pairs an iterator over a ziplist hands out, in order
    ([hashTypeNext]); [None] when a field has no value after it, where
    [redisAssert(vptr != NULL)] fails. *)
Fixpoint ziplist_pairs (zl : list (list Z))
  : option (list (list Z * list Z)) :=
  match zl with
  | [] => Some []
  | f :: rest =>
      match rest with
      | [] => None
      | v :: rest' =>
          match ziplist_pairs rest' with
          | Some l => Some ((f, v) :: l)
          | None => None
          end
      end
  end.

(** The [while (hashTypeNext(hi) != REDIS_ERR)] loop of
    [hashTypeConvertZiplist]: every pair is added to the new table, and
    the addition is asserted to succeed. *)
Fixpoint convert_loop (pairs : list (list Z * list Z))
    (d : gmap (list Z) (list Z)) : option (gmap (list Z) (list Z)) :=
  match pairs with
  | [] => Some d
  | (field, value) :: rest =>
      match dictAdd d field value with
      | (DICT_OK, d') => convert_loop rest d'
      | (DICT_ERR, _) => None
      end
  end.

(** [hashTypeConvert(o,REDIS_ENCODING_HT)]: a hash table cannot be
    converted ("Not implemented"). *)
Definition hashTypeConvert (o : hashobj) : option hashobj :=
  match o with
  | Hash_ziplist zl =>
      match ziplist_pairs zl with
      | Some pairs =>
          match convert_loop pairs ∅ with
          | Some d => Some (Hash_ht d)
          | None => None
          end
      | None => None
      end
  | Hash_ht _ => None
  end.

(** [hashTypeLength(o)]. *)
Definition hashTypeLength (o : hashobj) : Z :=
  match o with
  | Hash_ziplist zl => ziplistLen zl / 2
  | Hash_ht d => dictSize d
  end.

(** [hashTypeGetFromZiplist]: the outer [None] is a failed assertion, the
    inner one the result -1. *)
Definition hashTypeGetFromZiplist (zl : list (list Z)) (field : list Z)
  : option (option (Z + list Z)) :=
  match zl with
  | [] => Some None
  | _ :: _ =>
      match ziplistFind zl 0 field 1 0 with
      | None => Some None
      | Some fptr =>
          match ziplistNext zl fptr with
          | None => None
          | Some vptr =>
              match ziplistGet zl vptr with
              | Some v => Some (Some v)
              | None => None
              end
          end
      end
  end.

(** [hashTypeGetObject(o,field)]: the inner [None] is the null pointer. *)
Definition hashTypeGetObject (o : hashobj) (field : list Z)
  : option (option (list Z)) :=
  match o with
  | Hash_ziplist zl =>
      match hashTypeGetFromZiplist zl field with
      | None => None
      | Some None => Some None
      | Some (Some (inr vstr)) => Some (Some vstr)
      | Some (Some (inl vll)) => Some (Some (ll2string vll))
      end
  | Hash_ht d => Some (dictFind d field)
  end.

(** [hashTypeExists(o,field)]. *)
Definition hashTypeExists (o : hashobj) (field : list Z) : option Z :=
  match o with
  | Hash_ziplist zl =>
      match hashTypeGetFromZiplist zl field with
      | None => None
      | Some None => Some 0
      | Some (Some _) => Some 1
      end
  | Hash_ht d =>
      Some (match dictFind d field with Some _ => 1 | None => 0 end)
  end.

(** [hashTypeDelete(o,field)]: 1 when the field was deleted. *)
Definition hashTypeDelete (o : hashobj) (field : list Z) : Z * hashobj :=
  match o with
  | Hash_ziplist zl =>
      match zl with
      | [] => (0, o)
      | _ :: _ =>
          match ziplistFind zl 0 field 1 0 with
          | None => (0, o)
          | Some fptr =>
              (1, Hash_ziplist (ziplistDelete (ziplistDelete zl fptr) fptr))
          end
      end
  | Hash_ht d =>
      match dictDelete d field with
      | (DICT_OK, d') => (1, Hash_ht d')
      | (DICT_ERR, _) => (0, o)
      end
  end.

Section Config.

(** [server.hash_max_ziplist_entries] and [server.hash_max_ziplist_value]. *)
Variable hash_max_ziplist_entries : Z.
Variable hash_max_ziplist_value : Z.

(** Modelled from the spec: object.c is not part of the sources.
    [getLongLongFromObject] parses the bytes of a string object as a 64-bit
    signed integer, or fails (section 6: "numeric parse failed or
    overflowed"). *)
Variable getLongLongFromObject : list Z -> option Z.

(** [hashTypeTryConversion(o,argv,start,end)], with [argv] the arguments
    from [start] to [end]; they are [sds] encoded, as the client sent
    them. *)
Definition hashTypeTryConversion (o : hashobj) (argv : list (list Z))
  : option hashobj :=
  match o with
  | Hash_ziplist _ =>
      if existsb (λ a, hash_max_ziplist_value <? Z.of_nat (length a)) argv
      then hashTypeConvert o
      else Some o
  | Hash_ht _ => Some o
  end.

(** [hashTypeSet(o,field,value)]: 1 on update, 0 on insert; the hash after
    the call. *)
Definition hashTypeSet (o : hashobj) (field value : list Z)
  : option (Z * hashobj) :=
  match o with
  | Hash_ziplist zl =>
      let found :=
        match zl with
        | [] => Some None
        | _ :: _ =>
            match ziplistFind zl 0 field 1 0 with
            | None => Some None
            | Some fptr =>
                match ziplistNext zl fptr with
                | None => None
                | Some vptr => Some (Some vptr)
                end
            end
        end in
      match found with
      | None => None
      | Some found =>
          let '(update, zl) :=
            match found with
            | Some vptr =>
                (1, ziplistInsert (ziplistDelete zl vptr) vptr value)
            | None => (0, ziplistPush (ziplistPush zl field) value)
            end in
          let o := Hash_ziplist zl in
          if hash_max_ziplist_entries <? hashTypeLength o then
            match hashTypeConvert o with
            | Some o' => Some (update, o')
            | None => None
            end
          else Some (update, o)
      end
  | Hash_ht d =>
      let '(added, d') := dictReplace d field value in
      Some (if added =? 0 then 1 else 0, Hash_ht d')
  end.

(** *** The commands

    What a command appends to the client's output buffer. *)
Inductive reply : Type :=
| shared_czero
| shared_cone
| shared_ok
| shared_nullbulk
| shared_emptymultibulk
| shared_wrongtypeerr
| ReplyError_hmset_arguments
| ReplyError_not_an_integer
| ReplyError_overflow
| ReplyLongLong (n : Z)
| ReplyMultiBulkLen (n : Z)
| ReplyBulk (s : list Z).

(** The outcome of a command that writes: the server state, what the key
    holds afterwards and the reply.  A command is given what the key holds:
    nothing, a hash, or a value of another type ([NotHash]). *)
Inductive keyval : Type :=
| Hash_val (o : hashobj)
| NotHash.

Definition outcome : Type := redisServer * option keyval * list reply.

(** [hashTypeLookupWriteOrCreate(c,key)]: [None] with the wrong type. *)
Definition hashTypeLookupWriteOrCreate (held : option keyval)
  : option hashobj :=
  match held with
  | None => Some createHashObject
  | Some (Hash_val o) => Some o
  | Some NotHash => None
  end.

(** [hsetCommand]: [HSET key field value]. *)
Definition hsetCommand (server : redisServer) (held : option keyval)
    (field value : list Z) : option outcome :=
  match hashTypeLookupWriteOrCreate held with
  | None => Some (server, held, [shared_wrongtypeerr])
  | Some o =>
      match hashTypeTryConversion o [field; value] with
      | None => None
      | Some o1 =>
          match hashTypeSet o1 field value with
          | None => None
          | Some (update, o2) =>
              Some (set_dirty server (dirty server + 1), Some (Hash_val o2),
                    [if update =? 0 then shared_cone else shared_czero])
          end
      end
  end.

(** [hsetnxCommand]: [HSETNX key field value]. *)
Definition hsetnxCommand (server : redisServer) (held : option keyval)
    (field value : list Z) : option outcome :=
  match hashTypeLookupWriteOrCreate held with
  | None => Some (server, held, [shared_wrongtypeerr])
  | Some o =>
      match hashTypeTryConversion o [field; value] with
      | None => None
      | Some o1 =>
          match hashTypeExists o1 field with
          | None => None
          | Some e =>
              if negb (e =? 0)
              then Some (server, Some (Hash_val o1), [shared_czero])
              else
                match hashTypeSet o1 field value with
                | None => None
                | Some (_, o2) =>
                    Some (set_dirty server (dirty server + 1),
                          Some (Hash_val o2), [shared_cone])
                end
          end
      end
  end.

(** The [for (i = 2; i < c->argc; i += 2)] loop of [hmsetCommand]. *)
Fixpoint hmset_loop (o : hashobj) (argv : list (list Z)) : option hashobj :=
  match argv with
  | field :: value :: rest =>
      match hashTypeSet o field value with
      | Some (_, o') => hmset_loop o' rest
      | None => None
      end
  | _ => Some o
  end.

(** [hmsetCommand]: [HMSET key field value ...], with [argv] the arguments
    after the key; [c->argc] is their number plus 2. *)
Definition hmsetCommand (server : redisServer) (held : option keyval)
    (argv : list (list Z)) : option outcome :=
  if (Z.of_nat (length argv) + 2) mod 2 =? 1
  then Some (server, held, [ReplyError_hmset_arguments])
  else
    match hashTypeLookupWriteOrCreate held with
    | None => Some (server, held, [shared_wrongtypeerr])
    | Some o =>
        match hashTypeTryConversion o argv with
        | None => None
        | Some o1 =>
            match hmset_loop o1 argv with
            | None => None
            | Some o2 =>
                Some (set_dirty server (dirty server + 1),
                      Some (Hash_val o2), [shared_ok])
            end
        end
    end.

(** [hincrbyCommand]: [HINCRBY key field incr], from the point where the
    increment has been parsed into the [long long incr]; [value += incr]
    is an addition of [long long]. *)
Definition hincrbyCommand (server : redisServer) (held : option keyval)
    (field : list Z) (incr : Z) : option outcome :=
  match hashTypeLookupWriteOrCreate held with
  | None => Some (server, held, [shared_wrongtypeerr])
  | Some o =>
      match hashTypeGetObject o field with
      | None => None
      | Some current =>
          let parsed :=
            match current with
            | Some bytes => getLongLongFromObject bytes
            | None => Some 0
            end in
          match parsed with
          | None =>
              Some (server, Some (Hash_val o), [ReplyError_not_an_integer])
          | Some oldvalue =>
              if ((incr <? 0) && (oldvalue <? 0)
                  && (incr <? LLONG_MIN - oldvalue))
                 || ((0 <? incr) && (0 <? oldvalue)
                     && (LLONG_MAX - oldvalue <? incr))
              then Some (server, Some (Hash_val o), [ReplyError_overflow])
              else
                let value :=
                  Rdb.to_signed 64
                    ((oldvalue + incr) mod 18446744073709551616) in
                let new := ll2string value in
                match hashTypeSet o field new with
                | None => None
                | Some (_, o') =>
                    Some (set_dirty server (dirty server + 1),
                          Some (Hash_val o'), [ReplyLongLong value])
                end
          end
      end
  end.

(** [addHashFieldToReply(c,o,field)]; [o] may be the null pointer. *)
Definition addHashFieldToReply (o : option hashobj) (field : list Z)
  : option reply :=
  match o with
  | None => Some shared_nullbulk
  | Some (Hash_ziplist zl) =>
      match hashTypeGetFromZiplist zl field with
      | None => None
      | Some None => Some shared_nullbulk
      | Some (Some (inr vstr)) => Some (ReplyBulk vstr)
      | Some (Some (inl vll)) => Some (ReplyBulk (ll2string vll))
      end
  | Some (Hash_ht d) =>
      Some (match dictFind d field with
            | Some value => ReplyBulk value
            | None => shared_nullbulk
            end)
  end.

(** [hgetCommand]: [HGET key field].  The commands that only read leave
    server and keyspace as they are, so only the reply is given. *)
Definition hgetCommand (held : option keyval) (field : list Z)
  : option (list reply) :=
  match held with
  | None => Some [shared_nullbulk]
  | Some NotHash => Some [shared_wrongtypeerr]
  | Some (Hash_val o) =>
      match addHashFieldToReply (Some o) field with
      | Some r => Some [r]
      | None => None
      end
  end.

(** [hmgetCommand]: [HMGET key field ...]. *)
Definition hmgetCommand (held : option keyval) (fields : list (list Z))
  : option (list reply) :=
  match held with
  | Some NotHash => Some [shared_wrongtypeerr]
  | _ =>
      let o := match held with Some (Hash_val o) => Some o | _ => None end in
      match mapM (addHashFieldToReply o) fields with
      | Some rs => Some (ReplyMultiBulkLen (Z.of_nat (length fields)) :: rs)
      | None => None
      end
  end.

(** The loop of [hdelCommand]: it stops at the field whose deletion empties
    the hash.  Returns the hash, [deleted] and [keyremoved]. *)
Fixpoint hdel_loop (o : hashobj) (fields : list (list Z)) (deleted : Z)
  : hashobj * Z * bool :=
  match fields with
  | [] => (o, deleted, false)
  | field :: rest =>
      let '(r, o') := hashTypeDelete o field in
      if r =? 0 then hdel_loop o' rest deleted
      else if hashTypeLength o' =? 0 then (o', deleted + 1, true)
      else hdel_loop o' rest (deleted + 1)
  end.

(** [hdelCommand]: [HDEL key field ...]. *)
Definition hdelCommand (server : redisServer) (held : option keyval)
    (fields : list (list Z)) : outcome :=
  match held with
  | None => (server, held, [shared_czero])
  | Some NotHash => (server, held, [shared_wrongtypeerr])
  | Some (Hash_val o) =>
      let '(o', deleted, keyremoved) := hdel_loop o fields 0 in
      (if deleted =? 0 then server
       else set_dirty server (dirty server + deleted),
       if keyremoved then None else Some (Hash_val o'),
       [ReplyLongLong deleted])
  end.

(** [hlenCommand] and [hexistsCommand]. *)
Definition hlenCommand (held : option keyval) : list reply :=
  match held with
  | None => [shared_czero]
  | Some NotHash => [shared_wrongtypeerr]
  | Some (Hash_val o) => [ReplyLongLong (hashTypeLength o)]
  end.

Definition hexistsCommand (held : option keyval) (field : list Z)
  : option (list reply) :=
  match held with
  | None => Some [shared_czero]
  | Some NotHash => Some [shared_wrongtypeerr]
  | Some (Hash_val o) =>
      match hashTypeExists o field with
      | Some e => Some [if negb (e =? 0) then shared_cone else shared_czero]
      | None => None
      end
  end.

End Config.

(** *** What the theorems are stated with *)

(** The fields of a hash with their values. *)
Definition fields (o : hashobj) : gmap (list Z) (list Z) :=
  match o with
  | Hash_ziplist zl =>
      match ziplist_pairs zl with
      | Some pairs => list_to_map pairs
      | None => ∅
      end
  | Hash_ht d => d
  end.

(** The invariant of the compact encoding: every field has its value, and
    no field occurs twice. *)
Definition hash_wf (o : hashobj) : Prop :=
  match o with
  | Hash_ziplist zl =>
      ∃ pairs, ziplist_pairs zl = Some pairs ∧ NoDup (fst <$> pairs)
  | Hash_ht _ => True
  end.

Definition is_ziplist (o : hashobj) : bool :=
  match o with Hash_ziplist _ => true | Hash_ht _ => false end.

End THash.

(* ===================================================================== *)
(** * Part II: the theorems                                               *)
(* ===================================================================== *)

(** ** The stream: loops against their one-shot descriptions *)

Module RioFacts.
Import Rio.

Section Checksum.

Variable crc64_byte : Z -> Z -> Z.

Lemma crc64_app (c : Z) (a b : list Z) :
  crc64 crc64_byte c (a ++ b) = crc64 crc64_byte (crc64 crc64_byte c a) b.
Proof. unfold crc64. apply fold_left_app. Qed.

Lemma next_cksum_eq (r : rio) (buf : list Z) :
  next_cksum crc64_byte r buf =
  cksum_after crc64_byte (update_cksum r) (cksum r) buf.
Proof.
  unfold next_cksum, call_update_cksum, cksum_after.
  destruct (update_cksum r) as [| |[]]; reflexivity.
Qed.

Lemma call_update_cksum_eq (r : rio) (buf : list Z) :
  call_update_cksum crc64_byte r buf =
  mkRio (io_ptr r) (io_pos r) (io_room r) (update_cksum r)
        (cksum_after crc64_byte (update_cksum r) (cksum r) buf)
        (processed_bytes r) (max_processing_chunk r).
Proof.
  unfold call_update_cksum, cksum_after.
  destruct r as [p q o cb c pb m]; destruct cb as [| |[]]; reflexivity.
Qed.

Lemma cksum_after_nil (cb : cksum_cb) (c : Z) :
  cksum_after crc64_byte cb c [] = c.
Proof. destruct cb as [| |[]]; reflexivity. Qed.

(** The checksum seen after two buffers is the one seen after their
    concatenation, whatever the method. *)
Lemma cksum_after_app (cb : cksum_cb) (c : Z) (a b : list Z) :
  cksum_after crc64_byte cb (cksum_after crc64_byte cb c a) b
  = cksum_after crc64_byte cb c (a ++ b).
Proof. destruct cb as [| |[]]; simpl; rewrite ?crc64_app; reflexivity. Qed.

Lemma chunk_of_bounds (r : rio) (len : nat) :
  (0 < len → 0 < chunk_of r len ≤ len)%nat.
Proof.
  intros Hlen. unfold chunk_of.
  destruct (0 <? max_processing_chunk r)%nat eqn:H0;
    destruct (max_processing_chunk r <? len)%nat eqn:H1; simpl;
    try apply Nat.ltb_lt in H0; try apply Nat.ltb_lt in H1; lia.
Qed.

Lemma take_drop_split (p : list Z) (q n k : nat) :
  (n ≤ k)%nat →
  take n (drop q p) ++ take (k - n) (drop (q + n) p) = take k (drop q p).
Proof.
  intros Hnk. rewrite <- drop_drop.
  rewrite <- (take_drop n (take k (drop q p))).
  rewrite take_take, skipn_firstn_comm.
  f_equal. f_equal. lia.
Qed.

Lemma rioRead_loop_read_all (fuel : nat) :
  ∀ (r : rio) (len : nat) (acc : list Z),
    (len ≤ fuel)%nat →
    rioRead_loop crc64_byte fuel r len acc =
    match read_all crc64_byte r len with
    | Some (buf, r') => Some (acc ++ buf, r')
    | None => None
    end.
Proof.
  induction fuel as [|fuel IH]; intros r len acc Hle.
  - assert (len = 0%nat) as -> by lia. simpl.
    unfold read_all. simpl.
    rewrite take_0, app_nil_r, next_cksum_eq, cksum_after_nil.
    destruct r; simpl. rewrite !Nat.add_0_r. reflexivity.
  - destruct len as [|len'].
    + simpl. unfold read_all. simpl.
      rewrite take_0, app_nil_r, next_cksum_eq, cksum_after_nil.
      destruct r; simpl. rewrite !Nat.add_0_r. reflexivity.
    + cbn [rioRead_loop].
      pose proof (chunk_of_bounds r (S len') ltac:(lia)) as Hc.
      set (n := chunk_of r (S len')) in *.
      destruct r as [p q o cb c pb m]. unfold backend_read, read_all.
      cbn [io_ptr io_pos io_room update_cksum cksum processed_bytes
           max_processing_chunk].
      destruct (n <=? length p - q)%nat eqn:Hn.
      * apply Nat.leb_le in Hn.
        rewrite IH by lia. unfold read_all, add_processed.
        rewrite !next_cksum_eq, call_update_cksum_eq.
        cbn [io_ptr io_pos io_room update_cksum cksum processed_bytes
             max_processing_chunk].
        destruct (S len' <=? length p - q)%nat eqn:Hs.
        -- apply Nat.leb_le in Hs.
           replace (S len' - n <=? length p - (q + n))%nat with true
             by (symmetry; apply Nat.leb_le; lia).
           rewrite cksum_after_app, <- app_assoc.
           rewrite (take_drop_split p q n (S len')) by lia.
           replace (q + n + (S len' - n))%nat with (q + S len')%nat by lia.
           replace (pb + n + (S len' - n))%nat with (pb + S len')%nat by lia.
           reflexivity.
        -- apply Nat.leb_gt in Hs.
           replace (S len' - n <=? length p - (q + n))%nat with false
             by (symmetry; apply Nat.leb_gt; lia).
           reflexivity.
      * apply Nat.leb_gt in Hn.
        replace (S len' <=? length p - q)%nat with false
          by (symmetry; apply Nat.leb_gt; lia).
        reflexivity.
Qed.

(** [rioRead] delivers [len] bytes and advances the checksum over exactly
    those bytes, or fails, however the request is cut into chunks. *)
Lemma rioRead_read_all (r : rio) (len : nat) :
  rioRead crc64_byte r len = read_all crc64_byte r len.
Proof.
  unfold rioRead. rewrite rioRead_loop_read_all by lia.
  destruct (read_all crc64_byte r len) as [[buf r']|]; reflexivity.
Qed.

Lemma rioWrite_loop_write_all (fuel : nat) :
  ∀ (r : rio) (buf : list Z),
    (length buf ≤ fuel)%nat →
    rioWrite_loop crc64_byte fuel r buf = write_all crc64_byte r buf.
Proof.
  induction fuel as [|fuel IH]; intros r buf Hle.
  - destruct buf as [|b buf]; [|simpl in Hle; lia]. simpl.
    unfold write_all. rewrite next_cksum_eq, cksum_after_nil.
    destruct r as [p q o cb c pb m]; simpl.
    rewrite app_nil_r, !Nat.add_0_r.
    destruct o as [room|]; simpl; rewrite ?Nat.sub_0_r; reflexivity.
  - destruct buf as [|b buf].
    + simpl. unfold write_all. rewrite next_cksum_eq, cksum_after_nil.
      destruct r as [p q o cb c pb m]; simpl.
      rewrite app_nil_r, !Nat.add_0_r.
      destruct o as [room|]; simpl; rewrite ?Nat.sub_0_r; reflexivity.
    + cbn [rioWrite_loop].
      pose proof (chunk_of_bounds r (length (b :: buf))
                    ltac:(simpl; lia)) as Hc.
      set (n := chunk_of r (length (b :: buf))) in *.
      set (l := b :: buf) in *.
      assert (length (take n l) = n) as Htl by (rewrite length_take; lia).
      assert (length (drop n l) = (length l - n)%nat) as Hdl
        by apply length_drop.
      rewrite call_update_cksum_eq.
      destruct r as [p q o cb c pb m]. unfold backend_write, write_all.
      cbn [io_ptr io_pos io_room update_cksum cksum processed_bytes
           max_processing_chunk].
      rewrite next_cksum_eq.
      cbn [io_ptr io_pos io_room update_cksum cksum processed_bytes
           max_processing_chunk].
      destruct o as [room|].
      * rewrite Htl.
        destruct (n <=? room)%nat eqn:Hn.
        -- apply Nat.leb_le in Hn.
           rewrite IH by (rewrite Hdl; simpl in Hle; subst l; simpl in *; lia).
           unfold write_all, add_processed.
           cbn [io_ptr io_pos io_room update_cksum cksum processed_bytes
                max_processing_chunk].
           rewrite next_cksum_eq.
           cbn [io_ptr io_pos io_room update_cksum cksum processed_bytes
                max_processing_chunk].
           rewrite Hdl.
           destruct (length l <=? room)%nat eqn:Hs.
           ++ apply Nat.leb_le in Hs.
              replace (length l - n <=? room - n)%nat with true
                by (symmetry; apply Nat.leb_le; lia).
              rewrite cksum_after_app, <- app_assoc, take_drop.
              replace (q + n + (length l - n))%nat with (q + length l)%nat
                by lia.
              replace (pb + n + (length l - n))%nat with (pb + length l)%nat
                by lia.
              replace (room - n - (length l - n))%nat
                with (room - length l)%nat by lia.
              reflexivity.
           ++ apply Nat.leb_gt in Hs.
              replace (length l - n <=? room - n)%nat with false
                by (symmetry; apply Nat.leb_gt; lia).
              reflexivity.
        -- apply Nat.leb_gt in Hn.
           replace (length l <=? room)%nat with false
             by (symmetry; apply Nat.leb_gt; lia).
           reflexivity.
      * rewrite IH by (rewrite Hdl; simpl in Hle; subst l; simpl in *; lia).
        unfold write_all, add_processed.
        cbn [io_ptr io_pos io_room update_cksum cksum processed_bytes
             max_processing_chunk].
        rewrite next_cksum_eq.
        cbn [io_ptr io_pos io_room update_cksum cksum processed_bytes
             max_processing_chunk].
        rewrite Hdl, Htl.
        rewrite cksum_after_app, <- app_assoc, take_drop.
        replace (q + n + (length l - n))%nat with (q + length l)%nat by lia.
        replace (pb + n + (length l - n))%nat with (pb + length l)%nat by lia.
        reflexivity.
Qed.

(** [rioWrite] appends the whole buffer and advances the checksum over it,
    or fails for lack of room. *)
Lemma rioWrite_write_all (r : rio) (buf : list Z) :
  rioWrite crc64_byte r buf = write_all crc64_byte r buf.
Proof. unfold rioWrite. apply rioWrite_loop_write_all. lia. Qed.

End Checksum.

End RioFacts.

(** ** The memory image of integers *)

Module MemFacts.
Import Mem.

Lemma land_255 (x : Z) : Z.land x 255 = x mod 256.
Proof. change 255 with (Z.ones 8). rewrite Z.land_ones by lia. reflexivity. Qed.

Lemma shiftr_8 (x : Z) : Z.shiftr x 8 = x / 256.
Proof. rewrite Z.shiftr_div_pow2 by lia. reflexivity. Qed.

Lemma le_encode_length (n : nat) (x : Z) : length (le_encode n x) = n.
Proof. revert x; induction n as [|n IH]; intros x; simpl; [|rewrite IH]; reflexivity. Qed.

Lemma le_encode_bytes (n : nat) (x : Z) : all_bytes (le_encode n x).
Proof.
  revert x; induction n as [|n IH]; intros x; simpl; constructor.
  - unfold is_byte. rewrite land_255. apply Z.mod_pos_bound. lia.
  - apply IH.
Qed.

Lemma le_decode_encode (n : nat) (x : Z) :
  le_decode (le_encode n x) = x mod 2 ^ (8 * Z.of_nat n).
Proof.
  revert x; induction n as [|n IH]; intros x.
  - simpl. rewrite Z.mod_1_r. reflexivity.
  - cbn [le_encode le_decode]. rewrite IH, land_255, shiftr_8.
    replace (8 * Z.of_nat (S n)) with (8 + 8 * Z.of_nat n) by lia.
    rewrite Z.pow_add_r by lia. change (2 ^ 8) with 256.
    rewrite Z.rem_mul_r by lia. reflexivity.
Qed.

Lemma le_encode_decode (bs : list Z) :
  all_bytes bs → le_encode (length bs) (le_decode bs) = bs.
Proof.
  induction 1 as [|b bs Hb Hbs IH]; [reflexivity|].
  cbn [length le_encode le_decode]. rewrite land_255, shiftr_8.
  unfold is_byte in Hb.
  replace (b + 256 * le_decode bs) with (b + le_decode bs * 256) by lia.
  f_equal.
  - rewrite Z.mod_add by lia. apply Z.mod_small; lia.
  - rewrite Z.div_add by lia. rewrite Z.div_small by lia. exact IH.
Qed.

(** The bytes a 32-bit value has in memory after [htonl] are its
    big-endian bytes, whatever the byte order of the host. *)
Lemma mem_of_htonl (be : bool) (x : Z) :
  mem_of_uint be 4 (htonl be x) = rev (le_encode 4 x).
Proof.
  unfold mem_of_uint, htonl. destruct be; [reflexivity|].
  pose proof (le_encode_decode (rev (le_encode 4 x))) as H.
  rewrite length_rev, le_encode_length in H. apply H.
  unfold all_bytes. apply Forall_rev, le_encode_bytes.
Qed.

(** Reading those bytes back into a 32-bit variable and applying [ntohl]
    gives the value, whatever the byte order of the host. *)
Lemma ntohl_of_mem (be : bool) (x : Z) :
  0 <= x < 4294967296 →
  ntohl be (uint_of_mem be (rev (le_encode 4 x))) = x.
Proof.
  intros Hx. unfold ntohl, htonl, uint_of_mem. destruct be.
  - rewrite rev_involutive, le_decode_encode. apply Z.mod_small.
    change (2 ^ (8 * Z.of_nat 4)) with 4294967296. lia.
  - pose proof (le_encode_decode (rev (le_encode 4 x))) as H.
    rewrite length_rev, le_encode_length in H. rewrite H.
    + rewrite rev_involutive, le_decode_encode. apply Z.mod_small.
      change (2 ^ (8 * Z.of_nat 4)) with 4294967296. lia.
    + unfold all_bytes. apply Forall_rev, le_encode_bytes.
Qed.

Lemma be_bytes_32 (x : Z) :
  rev (le_encode 4 x) =
  [x / 16777216 mod 256; x / 65536 mod 256; x / 256 mod 256; x mod 256].
Proof.
  cbn [le_encode rev app]. rewrite !land_255, !shiftr_8.
  rewrite !Z.div_div by lia. reflexivity.
Qed.

End MemFacts.

(** ** The length codec *)

Module LenCodec.
Import Mem Rio Rdb RioFacts MemFacts.

Lemma check_below (f : Z → bool) (k : nat) :
  forallb f (map Z.of_nat (seq 0 k)) = true →
  ∀ n, 0 <= n < Z.of_nat k → f n = true.
Proof.
  intros Hall n Hn. rewrite forallb_forall in Hall. apply Hall.
  apply in_map_iff. exists (Z.to_nat n). split; [lia|].
  apply in_seq. lia.
Qed.

Lemma check_6bit_ok (n : Z) : 0 <= n < 64 → check_6bit n = true.
Proof. apply (check_below check_6bit 64). vm_compute. reflexivity. Qed.

Lemma check_14bit_hi_ok (h : Z) : 0 <= h < 64 → check_14bit_hi h = true.
Proof. apply (check_below check_14bit_hi 64). vm_compute. reflexivity. Qed.

(** Or-ing a value below [2^k] under a value shifted by [k] adds them. *)
Lemma lor_shiftl_add (a b k : Z) :
  0 <= k → 0 <= b < 2 ^ k → Z.lor (Z.shiftl a k) b = a * 2 ^ k + b.
Proof.
  intros Hk Hb.
  assert (Z.land (Z.shiftl a k) b = 0) as Hland.
  { apply Z.bits_inj'. intros i Hi.
    rewrite Z.land_spec, Z.bits_0.
    destruct (Z.lt_ge_cases i k) as [Hlt|Hge].
    - rewrite Z.shiftl_spec_low by lia. reflexivity.
    - rewrite <- (Z.mod_small b (2 ^ k)) by lia.
      rewrite Z.mod_pow2_bits_high by lia. apply andb_false_r. }
  rewrite <- Z.lxor_lor, <- Z.add_nocarry_lxor by exact Hland.
  rewrite Z.shiftl_mul_pow2 by lia. reflexivity.
Qed.

Section Codec.

Variable be : bool.
Variable crc64_byte : Z -> Z -> Z.

Lemma int_of_small (x : Z) :
  -2147483648 <= x < 2147483648 → to_int x = x.
Proof. intros H. unfold to_int. rewrite Z.mod_small by lia. lia. Qed.

Lemma int_result_count (n : Z) (rdb : option rio) :
  0 <= n → int_result n rdb = Some (n, rdb).
Proof.
  intros H. unfold int_result.
  replace (n =? -1) with false by (symmetry; apply Z.eqb_neq; lia).
  reflexivity.
Qed.

(** The value returned is the [int] the length converts to. *)
Lemma rdbWriteRaw_write_all_int (w : rio) (p : list Z) :
  rdbWriteRaw crc64_byte (Some w) p =
  match write_all crc64_byte w p with
  | Some w' => int_result (to_int (Z.of_nat (length p))) (Some w')
  | None => None
  end.
Proof. unfold rdbWriteRaw. rewrite rioWrite_write_all. reflexivity. Qed.

(** Below 2^31 bytes it is the length. *)
Lemma rdbWriteRaw_write_all (w : rio) (p : list Z) :
  Z.of_nat (length p) < 2147483648 →
  rdbWriteRaw crc64_byte (Some w) p =
  match write_all crc64_byte w p with
  | Some w' => Some (Z.of_nat (length p), Some w')
  | None => None
  end.
Proof.
  intros H. rewrite rdbWriteRaw_write_all_int.
  destruct (write_all crc64_byte w p); [|reflexivity].
  rewrite int_of_small by lia. apply int_result_count. lia.
Qed.

(** Two writes in a row are one write of the concatenation. *)
Lemma write_all_app (w : rio) (a b : list Z) :
  write_all crc64_byte w (a ++ b) =
  match write_all crc64_byte w a with
  | Some w1 => write_all crc64_byte w1 b
  | None => None
  end.
Proof.
  destruct w as [p q o cb c pb m]. unfold write_all.
  cbn [io_ptr io_pos io_room update_cksum cksum processed_bytes
       max_processing_chunk].
  rewrite !next_cksum_eq.
  cbn [io_ptr io_pos io_room update_cksum cksum processed_bytes
       max_processing_chunk].
  rewrite length_app.
  destruct o as [room|].
  - destruct (length a <=? room)%nat eqn:Ha.
    + apply Nat.leb_le in Ha.
      cbn [io_ptr io_pos io_room update_cksum cksum processed_bytes
           max_processing_chunk].
      rewrite next_cksum_eq.
      cbn [io_ptr io_pos io_room update_cksum cksum processed_bytes
           max_processing_chunk].
      destruct (length b <=? room - length a)%nat eqn:Hb.
      * apply Nat.leb_le in Hb.
        replace (length a + length b <=? room)%nat with true
          by (symmetry; apply Nat.leb_le; lia).
        rewrite cksum_after_app, <- app_assoc.
        replace (room - length a - length b)%nat
          with (room - (length a + length b))%nat by lia.
        rewrite !Nat.add_assoc. reflexivity.
      * apply Nat.leb_gt in Hb.
        replace (length a + length b <=? room)%nat with false
          by (symmetry; apply Nat.leb_gt; lia).
        reflexivity.
    + apply Nat.leb_gt in Ha.
      replace (length a + length b <=? room)%nat with false
        by (symmetry; apply Nat.leb_gt; lia).
      reflexivity.
  - cbn [io_ptr io_pos io_room update_cksum cksum processed_bytes
         max_processing_chunk].
    rewrite next_cksum_eq.
    cbn [io_ptr io_pos io_room update_cksum cksum processed_bytes
         max_processing_chunk].
    rewrite cksum_after_app, <- app_assoc, !Nat.add_assoc. reflexivity.
Qed.

Lemma write_all_ptr (w w' : rio) (p : list Z) :
  write_all crc64_byte w p = Some w' → io_ptr w' = io_ptr w ++ p.
Proof.
  unfold write_all. destruct (io_room w) as [room|].
  - destruct (length p <=? room)%nat; [|discriminate].
    intros [= <-]. reflexivity.
  - intros [= <-]. reflexivity.
Qed.

Lemma write_all_unbounded (w : rio) (p : list Z) :
  io_room w = None → is_Some (write_all crc64_byte w p).
Proof. intros H. unfold write_all. rewrite H. eauto. Qed.

(** A read of the bytes at the head of the unread input succeeds, returns
    them and leaves the rest unread. *)
Lemma read_all_unread (r : rio) (bs rest : list Z) :
  unread r = bs ++ rest →
  ∃ r', read_all crc64_byte r (length bs) = Some (bs, r')
        ∧ unread r' = rest
        ∧ update_cksum r' = update_cksum r
        ∧ cksum r' = cksum_after crc64_byte (update_cksum r) (cksum r) bs.
Proof.
  unfold unread, read_all. intros Hun.
  assert (length (drop (io_pos r) (io_ptr r)) = length (bs ++ rest)) as Hlen
    by (rewrite Hun; reflexivity).
  rewrite length_drop, length_app in Hlen.
  replace (length bs <=? length (io_ptr r) - io_pos r)%nat with true
    by (symmetry; apply Nat.leb_le; lia).
  eexists. split; [|split; [|split]].
  - rewrite Hun, take_app_length. reflexivity.
  - cbn [io_ptr io_pos]. rewrite <- drop_drop, Hun, drop_app_length.
    reflexivity.
  - reflexivity.
  - cbn [cksum]. rewrite next_cksum_eq, ?Hun, ?take_app_length. reflexivity.
Qed.

(** [rdbSaveLen] writes exactly the bytes of the spec's length encoding. *)
Lemma rdbSaveLen_bytes (w : rio) (n : Z) :
  0 <= n < 4294967296 →
  rdbSaveLen be crc64_byte (Some w) n =
  match write_all crc64_byte w (length_encoding n) with
  | Some w' => Some (Z.of_nat (length (length_encoding n)), Some w')
  | None => None
  end.
Proof.
  intros Hn. unfold rdbSaveLen, length_encoding.
  change (Z.shiftl 1 6) with 64. change (Z.shiftl 1 14) with 16384.
  destruct (n <? 64) eqn:H6.
  - apply Z.ltb_lt in H6.
    pose proof (check_6bit_ok n ltac:(lia)) as Hc. unfold check_6bit in Hc.
    apply andb_true_iff in Hc as [Hc _]. apply andb_true_iff in Hc as [Hc _].
    apply Z.eqb_eq in Hc.
    rewrite Hc, rdbWriteRaw_write_all by (cbn [length]; lia).
    destruct (write_all crc64_byte w [n]); reflexivity.
  - apply Z.ltb_ge in H6. destruct (n <? 16384) eqn:H14.
    + apply Z.ltb_lt in H14.
      assert (0 <= n / 256 < 64) as Hh
        by (split; [apply Z.div_pos; lia | apply Z.div_lt_upper_bound; lia]).
      rewrite !land_255, shiftr_8.
      rewrite rdbWriteRaw_write_all by (cbn [length]; lia).
      rewrite (Z.mod_small (n / 256) 256) by lia.
      rewrite Z.lor_comm.
      change (Z.shiftl REDIS_RDB_14BITLEN 6) with (Z.shiftl 1 6).
      rewrite lor_shiftl_add by (change (2 ^ 6) with 64; lia).
      unfold to_uchar. rewrite Z.mod_mod by lia.
      change (1 * 2 ^ 6) with 64.
      rewrite (Z.mod_small (64 + n / 256) 256) by lia.
      destruct (write_all crc64_byte w [64 + n / 256; n mod 256]);
        reflexivity.
    + apply Z.ltb_ge in H14.
      rewrite !rdbWriteRaw_write_all by (cbn [length]; lia).
      change (to_uchar (Z.shiftl REDIS_RDB_32BITLEN 6)) with 128.
      rewrite mem_of_htonl, be_bytes_32.
      pose proof (write_all_app w [128]
                    [n / 16777216 mod 256; n / 65536 mod 256;
                     n / 256 mod 256; n mod 256]) as Happ.
      cbn [app] in Happ. rewrite Happ.
      destruct (write_all crc64_byte w [128]) as [w1|]; [|reflexivity].
      rewrite rdbWriteRaw_write_all by (cbn [length]; lia).
      destruct (write_all crc64_byte w1 _); reflexivity.
Qed.

Lemma rioRead_unread (r : rio) (bs rest : list Z) :
  unread r = bs ++ rest →
  ∃ r', rioRead crc64_byte r (length bs) = Some (bs, r')
        ∧ unread r' = rest
        ∧ update_cksum r' = update_cksum r
        ∧ cksum r' = cksum_after crc64_byte (update_cksum r) (cksum r) bs.
Proof. rewrite rioRead_read_all. apply read_all_unread. Qed.

(** [rdbLoadLen] reads the spec's length encoding of [n] back as the plain
    length [n] and consumes exactly its bytes. *)
Lemma rdbLoadLen_length_encoding (r : rio) (n : Z) (rest : list Z) :
  0 <= n < 4294967296 →
  unread r = length_encoding n ++ rest →
  ∃ r', rdbLoadLen be crc64_byte r = (n, false, r') ∧ unread r' = rest
        ∧ update_cksum r' = update_cksum r
        ∧ cksum r' = cksum_after crc64_byte (update_cksum r) (cksum r)
                                 (length_encoding n).
Proof.
  intros Hn. unfold length_encoding, rdbLoadLen.
  destruct (n <? 64) eqn:H6.
  - apply Z.ltb_lt in H6. intros Hun.
    destruct (rioRead_unread r [n] rest Hun) as (r1 & Hrd & Hrest & Hcb & Hck).
    cbn [length] in Hrd. rewrite Hrd.
    pose proof (check_6bit_ok n ltac:(lia)) as Hc. unfold check_6bit in Hc.
    apply andb_true_iff in Hc as [Hc H3]. apply andb_true_iff in Hc as [Hc H2].
    apply Z.eqb_eq in Hc, H2, H3. rewrite Hc in H2, H3. rewrite H2, H3.
    exists r1. auto.
  - apply Z.ltb_ge in H6. destruct (n <? 16384) eqn:H14.
    + apply Z.ltb_lt in H14. intros Hun.
      assert (0 <= n / 256 < 64) as Hh
        by (split; [apply Z.div_pos; lia | apply Z.div_lt_upper_bound; lia]).
      destruct (rioRead_unread r [64 + n / 256] (n mod 256 :: rest) Hun)
        as (r1 & Hrd & Hrest & Hcb & Hck).
      cbn [length] in Hrd. rewrite Hrd.
      pose proof (check_14bit_hi_ok (n / 256) Hh) as Hc.
      unfold check_14bit_hi in Hc.
      apply andb_true_iff in Hc as [H2 H3]. apply Z.eqb_eq in H2, H3.
      rewrite H2, H3. cbn [Z.eqb REDIS_RDB_14BITLEN REDIS_RDB_ENCVAL
                           REDIS_RDB_6BITLEN Pos.eqb].
      destruct (rioRead_unread r1 [n mod 256] rest Hrest)
        as (r2 & Hrd2 & Hrest2 & Hcb2 & Hck2).
      cbn [length] in Hrd2. rewrite Hrd2.
      exists r2. split; [|split; [exact Hrest2|split]].
      * f_equal. f_equal.
        rewrite lor_shiftl_add
          by (change (2 ^ 8) with 256; pose proof (Z.mod_pos_bound n 256); lia).
        change (2 ^ 8) with 256. pose proof (Z.div_mod n 256). lia.
      * congruence.
      * rewrite Hck2, Hcb, Hck. apply cksum_after_app.
    + apply Z.ltb_ge in H14. intros Hun.
      change (128 :: ?l) with ([128] ++ l) in Hun.
      rewrite <- app_assoc in Hun.
      destruct (rioRead_unread r [128] _ Hun)
        as (r1 & Hrd & Hrest & Hcb & Hck).
      cbn [length] in Hrd. rewrite Hrd.
      change (Z.shiftr (Z.land 128 192) 6) with 2.
      cbn [Z.eqb REDIS_RDB_14BITLEN REDIS_RDB_ENCVAL REDIS_RDB_6BITLEN
           Pos.eqb].
      destruct (rioRead_unread r1 _ rest Hrest)
        as (r2 & Hrd2 & Hrest2 & Hcb2 & Hck2).
      cbn [length] in Hrd2. rewrite Hrd2.
      exists r2. split; [|split; [exact Hrest2|split]].
      * f_equal. f_equal. rewrite <- be_bytes_32. apply ntohl_of_mem. exact Hn.
      * congruence.
      * rewrite Hck2, Hcb, Hck. apply cksum_after_app.
Qed.

End Codec.

(** C1.  For every length [n] in [0, 2^32): [rdbSaveLen] writes the 6-bit
    form for [n < 64], the 14-bit form for [n < 16384], and otherwise the
    marker byte 0x80 followed by [n] in four big-endian bytes (the bytes of
    [length_encoding n], on a host of either byte order); and [rdbLoadLen],
    reading what a successful [rdbSaveLen] appended to its stream, returns
    [n], reports it as a plain length (the flag is 0) and consumes exactly
    those bytes. *)
Theorem rdbLoadLen_rdbSaveLen (be : bool) (crc64_byte : Z → Z → Z) (n : Z) :
  0 <= n < 4294967296 →
  (∀ w : rio,
     rdbSaveLen be crc64_byte (Some w) n =
     match write_all crc64_byte w (length_encoding n) with
     | Some w' => Some (Z.of_nat (length (length_encoding n)), Some w')
     | None => None
     end)
  ∧ (∀ (w w' : rio) (k : Z),
       rdbSaveLen be crc64_byte (Some w) n = Some (k, Some w') →
       ∀ (r : rio) (rest : list Z),
         unread r = drop (length (io_ptr w)) (io_ptr w') ++ rest →
         ∃ r', rdbLoadLen be crc64_byte r = (n, false, r')
               ∧ unread r' = rest).
Proof.
  intros Hn. split.
  - intros w. apply rdbSaveLen_bytes. exact Hn.
  - intros w w' k Hsave r rest Hun.
    rewrite rdbSaveLen_bytes in Hsave by exact Hn.
    destruct (write_all crc64_byte w (length_encoding n)) as [w1|] eqn:Hw;
      [|discriminate].
    injection Hsave as _ <-.
    apply write_all_ptr in Hw. rewrite Hw, drop_app_length in Hun.
    destruct (rdbLoadLen_length_encoding be crc64_byte r n rest Hn Hun)
      as (r' & Hload & Hrest & _).
    exists r'. auto.
Qed.

(** The theorem at the length 70000 on a little-endian host: the bytes
    written are 0x80 0x00 0x01 0x11 0x70 and they load back as 70000. *)
Lemma rdbLoadLen_rdbSaveLen_witness :
  rdbSaveLen false Z.lxor (Some (rioInitWithBuffer [])) 70000
  = Some (5, Some (mkRio [128; 0; 1; 17; 112] 5 None CB_NULL 0 5 0))
  ∧ ∃ r', rdbLoadLen false Z.lxor (rioInitWithBuffer [128; 0; 1; 17; 112; 7])
          = (70000, false, r') ∧ unread r' = [7].
Proof.
  assert (0 <= 70000 < 4294967296) as Hn by lia.
  destruct (rdbLoadLen_rdbSaveLen false Z.lxor 70000 Hn) as [Hsave Hload].
  split.
  - rewrite Hsave. reflexivity.
  - apply (Hload (rioInitWithBuffer [])
                 (mkRio [128; 0; 1; 17; 112] 5 None CB_NULL 0 5 0) 5).
    + rewrite Hsave. reflexivity.
    + reflexivity.
Defined.

End LenCodec.

(** ** Decimal rendering and parsing are inverse *)

Module UtilFacts.
Import Util.

Lemma rev_digits_isdigit (fuel : nat) :
  ∀ v, 0 <= v → Forall (λ c, isdigit c = true) (rev_digits fuel v).
Proof.
  induction fuel as [|fuel IH]; intros v Hv; simpl; constructor.
  - unfold isdigit. pose proof (Z.mod_pos_bound v 10). 
    apply andb_true_iff. split; apply Z.leb_le; lia.
  - destruct (v / 10 =? 0); [constructor|].
    apply IH. apply Z.div_pos; lia.
Qed.

Lemma rev_digits_nonempty (fuel : nat) (v : Z) :
  rev_digits (S fuel) v ≠ [].
Proof. simpl. discriminate. Qed.

(** The digits produced, read back from the most significant one, give the
    number, as long as the fuel covers its digits. *)
Lemma rev_digits_value (fuel : nat) :
  ∀ v, 0 <= v < 10 ^ Z.of_nat fuel →
       fold_right (λ c a, a * 10 + (c - 48)) 0 (rev_digits fuel v) = v.
Proof.
  induction fuel as [|fuel IH]; intros v Hv.
  - simpl in *. lia.
  - cbn [rev_digits fold_right].
    pose proof (Z.div_mod v 10 ltac:(lia)) as Hdm.
    destruct (v / 10 =? 0) eqn:Hq.
    + apply Z.eqb_eq in Hq. simpl. lia.
    + apply Z.eqb_neq in Hq. rewrite IH; [lia|].
      split; [apply Z.div_pos; lia|].
      apply Z.div_lt_upper_bound; [lia|].
      replace (Z.of_nat (S fuel)) with (1 + Z.of_nat fuel) in Hv by lia.
      rewrite Z.pow_add_r in Hv by lia. lia.
Qed.

Lemma fold_left_rev (l : list Z) (acc : Z) :
  fold_left (λ a c, a * 10 + (c - 48)) (rev l) acc
  = fold_right (λ c a, a * 10 + (c - 48)) acc l.
Proof.
  induction l as [|x l IH]; [reflexivity|].
  cbn [rev fold_right]. rewrite fold_left_app. simpl. rewrite IH. reflexivity.
Qed.

(** [digits_val] runs through a digit run that ends at a NUL. *)
Lemma digits_val_run (ds : list Z) :
  ∀ acc, Forall (λ c, isdigit c = true) ds →
         digits_val acc (ds ++ [0])
         = (fold_left (λ a c, a * 10 + (c - 48)) ds acc, [0]).
Proof.
  induction ds as [|d ds IH]; intros acc Hds.
  - reflexivity.
  - inversion Hds as [|? ? Hd Hds']; subst.
    cbn [app digits_val fold_left]. rewrite Hd. apply IH. exact Hds'.
Qed.

Lemma strtoll_int64 (s : list Z) : is_int64 (fst (strtoll s)).
Proof.
  unfold strtoll.
  destruct (skip_space s) as [|c rest].
  - simpl. unfold is_int64, LLONG_MIN, LLONG_MAX. lia.
  - assert (∀ neg s2, is_int64 (fst
        match s2 with
        | c :: _ =>
            if isdigit c then
              let '(v, endptr) := digits_val 0 s2 in
              (clamp_ll (if neg : bool then - v else v), endptr)
            else (0, s)
        | [] => (0, s)
        end)) as H.
    { intros neg s2. unfold is_int64, LLONG_MIN, LLONG_MAX.
      destruct s2 as [|c2 r2]; [simpl; lia|].
      destruct (isdigit c2); [|simpl; lia].
      destruct (digits_val 0 (c2 :: r2)) as [v e]. simpl.
      unfold clamp_ll, LLONG_MIN, LLONG_MAX.
      destruct (_ <? _) eqn:H1; [lia|].
      destruct (_ <? (if neg then - v else v)) eqn:H2; [lia|].
      apply Z.ltb_ge in H1, H2. lia. }
    destruct (c =? 45); [apply (H true rest)|].
    destruct (c =? 43); [apply (H false rest) | apply (H false (c :: rest))].
Qed.

Lemma head_digit (ds : list Z) (c : Z) (rest : list Z) :
  Forall (λ c, isdigit c = true) ds → ds = c :: rest →
  48 <= c <= 57.
Proof.
  intros Hds ->. inversion Hds as [|? ? Hd _]; subst.
  unfold isdigit in Hd. apply andb_true_iff in Hd as [H1 H2].
  apply Z.leb_le in H1, H2. lia.
Qed.

(** Parsing the rendering of a 64-bit integer gives it back, and stops at
    the terminating NUL. *)
Lemma strtoll_ll2string (v : Z) :
  is_int64 v → strtoll (ll2string v ++ [0]) = (v, [0]).
Proof.
  unfold is_int64, LLONG_MIN, LLONG_MAX. intros Hv.
  unfold ll2string, sdsll2str.
  set (a := if v <? 0 then - v else v).
  assert (0 <= a < 10 ^ Z.of_nat 20) as Ha.
  { subst a. change (10 ^ Z.of_nat 20) with 100000000000000000000.
    destruct (v <? 0) eqn:Hneg;
      [apply Z.ltb_lt in Hneg | apply Z.ltb_ge in Hneg]; lia. }
  pose proof (rev_digits_isdigit 20 a ltac:(lia)) as Hdig.
  pose proof (rev_digits_value 20 a Ha) as Hval.
  apply Forall_rev in Hdig.
  assert (rev (rev_digits 20 a) ≠ []) as Hne.
  { intros H. apply (f_equal (@rev Z)) in H. rewrite rev_involutive in H.
    exact (rev_digits_nonempty 19 a H). }
  destruct (rev (rev_digits 20 a)) as [|c ds] eqn:Hds; [congruence|].
  pose proof (head_digit _ c ds Hdig eq_refl) as Hc.
  assert (isdigit c = true) as Hcd by (inversion Hdig; assumption).
  assert (isspace c = false) as Hcs.
  { unfold isspace. apply orb_false_iff. split.
    - apply Z.eqb_neq. lia.
    - apply andb_false_iff. right. apply Z.leb_gt. lia. }
  pose proof (digits_val_run (c :: ds) 0 Hdig) as Hrun.
  rewrite <- Hds in Hrun at 2. rewrite fold_left_rev, Hval in Hrun.
  destruct (v <? 0) eqn:Hneg.
  - apply Z.ltb_lt in Hneg.
    rewrite rev_app_distr, Hds. cbn [rev app].
    unfold strtoll. cbn [skip_space].
    change (isspace 45) with false. cbn [Z.eqb Pos.eqb].
    cbn [app]. rewrite Hcd. cbn [app] in Hrun. rewrite Hrun.
    f_equal. unfold clamp_ll, LLONG_MIN, LLONG_MAX. subst a.
    destruct (_ <? _) eqn:H1; [apply Z.ltb_lt in H1; lia|].
    destruct (_ <? - - v) eqn:H2; [apply Z.ltb_lt in H2; lia|]. lia.
  - apply Z.ltb_ge in Hneg.
    rewrite app_nil_r, Hds.
    unfold strtoll. cbn [app skip_space]. rewrite Hcs.
    replace (c =? 45) with false by (symmetry; apply Z.eqb_neq; lia).
    replace (c =? 43) with false by (symmetry; apply Z.eqb_neq; lia).
    rewrite Hcd. cbn [app] in Hrun. rewrite Hrun.
    f_equal. unfold clamp_ll, LLONG_MIN, LLONG_MAX. subst a.
    destruct (_ <? _) eqn:H1; [apply Z.ltb_lt in H1; lia|].
    destruct (_ <? v) eqn:H2; [apply Z.ltb_lt in H2; lia|]. lia.
Qed.

(** A string is representable as a 64-bit integer exactly when it is the
    decimal rendering of one. *)
Lemma representable_iff (s : list Z) (v : Z) :
  isObjectRepresentableAsLongLong s = Some v ↔ is_int64 v ∧ ll2string v = s.
Proof.
  unfold isObjectRepresentableAsLongLong. split.
  - intros H. case_bool_decide as Heq; [|discriminate].
    injection H as <-. split; [apply strtoll_int64 | exact Heq].
  - intros [Hv <-]. rewrite strtoll_ll2string by exact Hv. simpl.
    rewrite bool_decide_eq_true_2 by reflexivity. reflexivity.
Qed.

Lemma representable_ll2string (v : Z) :
  is_int64 v → isObjectRepresentableAsLongLong (ll2string v) = Some v.
Proof. intros Hv. apply representable_iff. auto. Qed.

Lemma ll2string_inj (v w : Z) :
  is_int64 v → is_int64 w → ll2string v = ll2string w → v = w.
Proof.
  intros Hv Hw Heq. pose proof (representable_ll2string v Hv) as H1.
  rewrite Heq, (representable_ll2string w Hw) in H1. congruence.
Qed.

End UtilFacts.

(** ** The string writer against the spec's wording *)

Module StringCodec.
Import Mem Util Rio Redis Rdb RioFacts MemFacts LenCodec UtilFacts.

Lemma to_uchar_land (x : Z) : to_uchar (Z.land x 255) = Z.land x 255.
Proof.
  unfold to_uchar. rewrite land_255, Z.mod_mod by lia. reflexivity.
Qed.

(** [rdbEncodeInteger] produces the spec's integer special form. *)
Lemma rdbEncodeInteger_spec (v : Z) :
  rdbEncodeInteger v =
  match integer_encoding v with
  | Some bytes => (Z.of_nat (length bytes), bytes)
  | None => (0, [])
  end.
Proof.
  unfold rdbEncodeInteger, integer_encoding.
  change (Z.shiftl 1 7) with 128. change (Z.shiftl 1 15) with 32768.
  change (Z.shiftl 1 31) with 2147483648.
  change (- (128)) with (-128). change (- (32768)) with (-32768).
  change (- (2147483648)) with (-2147483648).
  change (128 - 1) with 127. change (32768 - 1) with 32767.
  change (2147483648 - 1) with 2147483647.
  change (to_uchar (Z.lor (Z.shiftl REDIS_RDB_ENCVAL 6) REDIS_RDB_ENC_INT8))
    with 192.
  change (to_uchar (Z.lor (Z.shiftl REDIS_RDB_ENCVAL 6) REDIS_RDB_ENC_INT16))
    with 193.
  change (to_uchar (Z.lor (Z.shiftl REDIS_RDB_ENCVAL 6) REDIS_RDB_ENC_INT32))
    with 194.
  rewrite !to_uchar_land.
  destruct ((-128 <=? v) && (v <=? 127)); [reflexivity|].
  destruct ((-32768 <=? v) && (v <=? 32767)); [reflexivity|].
  destruct ((-2147483648 <=? v) && (v <=? 2147483647)); [|reflexivity].
  cbn [le_encode length]. rewrite !Z.shiftr_shiftr by lia. reflexivity.
Qed.

(** [rdbTryIntegerEncoding] succeeds exactly on the strings that round-trip
    through the 64-bit parse, with the encoding of the parsed value. *)
Lemma rdbTryIntegerEncoding_spec (s : list Z) :
  rdbTryIntegerEncoding s =
  match isObjectRepresentableAsLongLong s with
  | Some v => rdbEncodeInteger v
  | None => (0, [])
  end.
Proof.
  unfold rdbTryIntegerEncoding, isObjectRepresentableAsLongLong.
  destruct (strtoll (s ++ [0])) as [value endptr] eqn:Hparse.
  cbn [fst].
  case_bool_decide as Heq.
  - assert (is_int64 value) as Hv.
    { pose proof (strtoll_int64 (s ++ [0])) as H. rewrite Hparse in H.
      exact H. }
    pose proof (strtoll_ll2string value Hv) as Hrt.
    rewrite Heq, Hparse in Hrt. injection Hrt as ->.
    cbn [hd Z.eqb negb]. rewrite Heq, Nat.eqb_refl. reflexivity.
  - destruct (negb (hd 0 endptr =? 0)); [reflexivity|].
    rewrite orb_true_r. reflexivity.
Qed.

Section Codec.

Variable be : bool.
Variable crc64_byte : Z -> Z -> Z.
Variable lzf_compress : list Z -> nat -> list Z.

(** The contract of [lzf_compress]: it never produces more than [out_len]
    bytes. *)
Hypothesis lzf_compress_bound :
  ∀ s n, (length (lzf_compress s n) ≤ n)%nat.

Lemma length_encoding_length (n : Z) :
  (1 ≤ length (length_encoding n) ≤ 5)%nat.
Proof.
  unfold length_encoding.
  destruct (n <? 64); [cbn [length]; lia|].
  destruct (n <? 16384); cbn [length]; lia.
Qed.

Lemma rdbSaveLzfStringObject_bytes (w : rio) (s : list Z) :
  (4 < length s)%nat → Z.of_nat (length s) < 2147483641 →
  rdbSaveLzfStringObject be crc64_byte lzf_compress (Some w) s =
  let out := lzf_compress s (length s - 4) in
  if (length out =? 0)%nat then Some (0, Some w)
  else
    let bytes := [195] ++ length_encoding (Z.of_nat (length out))
                       ++ length_encoding (Z.of_nat (length s)) ++ out in
    match write_all crc64_byte w bytes with
    | Some w' => Some (Z.of_nat (length bytes), Some w')
    | None => None
    end.
Proof.
  intros Hlen Hlt. unfold rdbSaveLzfStringObject.
  replace (length s <=? 4)%nat with false
    by (symmetry; apply Nat.leb_gt; lia).
  cbv zeta. set (out := lzf_compress s (length s - 4)).
  pose proof (lzf_compress_bound s (length s - 4)) as Hb. fold out in Hb.
  destruct (length out =? 0)%nat; [reflexivity|].
  change (to_uchar (Z.lor (Z.shiftl REDIS_RDB_ENCVAL 6) REDIS_RDB_ENC_LZF))
    with 195.
  unfold to_uint32. rewrite !Z.mod_small by lia.
  rewrite write_all_app, rdbWriteRaw_write_all by (cbn [length]; lia).
  destruct (write_all crc64_byte w [195]) as [w1|]; [|reflexivity].
  rewrite rdbSaveLen_bytes, write_all_app by lia.
  destruct (write_all crc64_byte w1 _) as [w2|]; [|reflexivity].
  rewrite rdbSaveLen_bytes, write_all_app by lia.
  destruct (write_all crc64_byte w2 _) as [w3|]; [|reflexivity].
  rewrite rdbWriteRaw_write_all by lia.
  destruct (write_all crc64_byte w3 out) as [w4|]; [|reflexivity].
  pose proof (length_encoding_length (Z.of_nat (length out))) as H1.
  pose proof (length_encoding_length (Z.of_nat (length s))) as H2.
  rewrite int_of_small by (cbn [length]; lia).
  rewrite int_result_count by (cbn [length]; lia).
  rewrite !length_app. cbn [length]. f_equal. f_equal. lia.
Qed.

Lemma write_all_nil (w : rio) : write_all crc64_byte w [] = Some w.
Proof.
  unfold write_all. rewrite next_cksum_eq, cksum_after_nil.
  destruct w as [p q o cb c pb m]; simpl.
  rewrite app_nil_r, !Nat.add_0_r.
  destruct o; rewrite ?Nat.sub_0_r; reflexivity.
Qed.

Lemma verbatim_bytes (w : rio) (s : list Z) :
  Z.of_nat (length s) < 2147483641 →
  match rdbSaveLen be crc64_byte (Some w) (to_uint32 (Z.of_nat (length s))) with
  | Some (n, rdb1) =>
      if (0 <? length s)%nat
      then
        match rdbWriteRaw crc64_byte rdb1 s with
        | Some (_, rdb2) =>
            int_result (to_int (n + Z.of_nat (length s))) rdb2
        | None => None
        end
      else Some (n, rdb1)
  | None => None
  end =
  let bytes := length_encoding (Z.of_nat (length s)) ++ s in
  match write_all crc64_byte w bytes with
  | Some w' => Some (Z.of_nat (length bytes), Some w')
  | None => None
  end.
Proof.
  intros Hlt. cbv zeta. unfold to_uint32. rewrite Z.mod_small by lia.
  rewrite rdbSaveLen_bytes by lia. rewrite write_all_app.
  destruct (write_all crc64_byte w _) as [w1|]; [|reflexivity].
  destruct s as [|b s].
  - cbn [length Nat.ltb Nat.leb]. rewrite write_all_nil, app_nil_r.
    reflexivity.
  - change (0 <? length (b :: s))%nat with true. cbv iota.
    rewrite rdbWriteRaw_write_all by lia.
    destruct (write_all crc64_byte w1 (b :: s)); [|reflexivity].
    pose proof (length_encoding_length (Z.of_nat (length (b :: s)))) as H1.
    rewrite int_of_small by lia. rewrite int_result_count by lia.
    rewrite length_app. f_equal. f_equal. lia.
Qed.





End Codec.




(** The other two forms on the same server: a 24-byte string that the
    compressor shrinks is written in the LZF form, and a short non-numeric
    string in the plain form. *)
Example rdbSaveRawString_lzf_form :
  rdbSaveRawString false Z.lxor (λ _ n, take n [1; 2; 3])
    (mkServer [] 16 None true true 512 0 0 0 0 0 REDIS_OK (-1) (-1) 0 0)
    (Some (rioInitWithBuffer [])) (repeat 97 24)
  = Some (6, Some (mkRio [195; 3; 24; 1; 2; 3] 6 None CB_NULL 0 6 0)).
Proof. vm_compute. reflexivity. Qed.

Example rdbSaveRawString_plain_form :
  rdbSaveRawString false Z.lxor (λ _ n, take n [1; 2; 3])
    (mkServer [] 16 None true true 512 0 0 0 0 0 REDIS_OK (-1) (-1) 0 0)
    (Some (rioInitWithBuffer [])) [97; 98; 99]
  = Some (4, Some (mkRio [3; 97; 98; 99] 4 None CB_NULL 0 4 0)).
Proof. vm_compute. reflexivity. Qed.

End StringCodec.

(** ** The set type: containers and API against the set of members *)

Module SetFacts.
Import Util Redis TSet UtilFacts.

(** *** The sorted integer array *)

Lemma intsetFind_true (ints : list Z) (v : Z) :
  intsetFind ints v = true ↔ v ∈ ints.
Proof. unfold intsetFind. apply bool_decide_eq_true. Qed.

Lemma elem_of_intset_insert (ints : list Z) (v x : Z) :
  x ∈ intset_insert v ints ↔ x = v ∨ x ∈ ints.
Proof.
  induction ints as [|y ints IH]; simpl.
  - rewrite list_elem_of_singleton, elem_of_nil. tauto.
  - destruct (v <? y).
    + rewrite !elem_of_cons. tauto.
    + rewrite !elem_of_cons, IH. tauto.
Qed.

Lemma length_intset_insert (ints : list Z) (v : Z) :
  length (intset_insert v ints) = S (length ints).
Proof.
  induction ints as [|y ints IH]; simpl; [reflexivity|].
  destruct (v <? y); simpl; [reflexivity|]. rewrite IH. reflexivity.
Qed.

Lemma intset_insert_sorted (ints : list Z) (v : Z) :
  StronglySorted Z.lt ints → v ∉ ints →
  StronglySorted Z.lt (intset_insert v ints).
Proof.
  induction 1 as [|y ints Hs IH Hy]; intros Hv; simpl.
  - repeat constructor.
  - destruct (v <? y) eqn:Hlt.
    + apply Z.ltb_lt in Hlt. constructor; [constructor; assumption|].
      constructor; [assumption|].
      eapply Forall_impl; [exact Hy|]. intros z Hz. simpl in Hz. lia.
    + apply Z.ltb_ge in Hlt.
      assert (y ≠ v) as Hne by (intros ->; apply Hv; left).
      constructor.
      * apply IH. intros Hin. apply Hv. right. exact Hin.
      * apply Forall_forall. intros z Hz.
        apply elem_of_intset_insert in Hz as [->|Hz]; [lia|].
        rewrite Forall_forall in Hy. apply Hy. exact Hz.
Qed.

Lemma intset_wf_NoDup (ints : list Z) : intset_wf ints → NoDup ints.
Proof.
  intros [_ Hs]. induction Hs as [|y ints Hs IH Hy]; constructor.
  - intros Hin. rewrite Forall_forall in Hy. specialize (Hy y Hin). lia.
  - exact IH.
Qed.

Lemma intset_wf_nil : intset_wf [].
Proof. split; constructor. Qed.

Lemma intsetAdd_wf (ints : list Z) (v : Z) :
  intset_wf ints → is_int64 v → intset_wf (fst (intsetAdd ints v)).
Proof.
  intros [Hr Hs] Hv. unfold intsetAdd.
  destruct (intsetFind ints v) eqn:Hf; simpl; [split; assumption|].
  split.
  - apply Forall_forall. intros x Hx.
    apply elem_of_intset_insert in Hx as [->|Hx]; [exact Hv|].
    rewrite Forall_forall in Hr. apply Hr. exact Hx.
  - apply intset_insert_sorted; [exact Hs|].
    intros Hin. apply (intsetFind_true ints v) in Hin. congruence.
Qed.

Lemma filter_sorted (P : Z → Prop) `{∀ x, Decision (P x)} (ints : list Z) :
  StronglySorted Z.lt ints → StronglySorted Z.lt (filter P ints).
Proof.
  induction 1 as [|y ints Hs IH Hy]; [constructor|].
  rewrite filter_cons. destruct (decide (P y)); [|exact IH].
  constructor; [exact IH|].
  apply Forall_forall. intros z Hz. apply list_elem_of_filter in Hz as [_ Hz].
  rewrite Forall_forall in Hy. apply Hy. exact Hz.
Qed.

Lemma intsetRemove_wf (ints : list Z) (v : Z) :
  intset_wf ints → intset_wf (fst (intsetRemove ints v)).
Proof.
  intros [Hr Hs]. unfold intsetRemove.
  destruct (intsetFind ints v); simpl; [|split; assumption].
  split.
  - apply Forall_forall. intros x Hx. apply list_elem_of_filter in Hx as [_ Hx].
    rewrite Forall_forall in Hr. apply Hr. exact Hx.
  - apply filter_sorted. exact Hs.
Qed.

Lemma elem_of_intsetAdd (ints : list Z) (v x : Z) :
  x ∈ fst (intsetAdd ints v) ↔ x = v ∨ x ∈ ints.
Proof.
  unfold intsetAdd. destruct (intsetFind ints v) eqn:Hf; simpl.
  - pose proof (proj1 (intsetFind_true ints v) Hf) as Hin.
    split; [intros H; right; exact H | intros [->|H]; assumption].
  - apply elem_of_intset_insert.
Qed.

Lemma elem_of_intsetRemove (ints : list Z) (v x : Z) :
  x ∈ fst (intsetRemove ints v) ↔ x ≠ v ∧ x ∈ ints.
Proof.
  unfold intsetRemove. destruct (intsetFind ints v) eqn:Hf; simpl.
  - rewrite list_elem_of_filter. reflexivity.
  - assert (v ∉ ints) as Hn
      by (intros Hin; apply (intsetFind_true ints v) in Hin; congruence).
    split; [|tauto]. intros Hx. split; [|exact Hx]. intros ->. exact (Hn Hx).
Qed.

Lemma intsetAdd_success (ints : list Z) (v : Z) :
  snd (intsetAdd ints v) = negb (intsetFind ints v).
Proof. unfold intsetAdd. destruct (intsetFind ints v); reflexivity. Qed.

Lemma intsetRemove_success (ints : list Z) (v : Z) :
  snd (intsetRemove ints v) = intsetFind ints v.
Proof. unfold intsetRemove. destruct (intsetFind ints v); reflexivity. Qed.

Lemma length_intsetAdd (ints : list Z) (v : Z) :
  length (fst (intsetAdd ints v)) =
  if intsetFind ints v then length ints else S (length ints).
Proof.
  unfold intsetAdd. destruct (intsetFind ints v); simpl; [reflexivity|].
  apply length_intset_insert.
Qed.

(** *** Members *)

Lemma elem_of_members_intset (ints : list Z) (x : list Z) :
  x ∈ members (Intset_enc ints) ↔ ∃ v, v ∈ ints ∧ x = ll2string v.
Proof.
  simpl. rewrite elem_of_list_to_set, list_elem_of_fmap. 
  split; intros (v & H1 & H2); exists v; auto.
Qed.

Lemma ll2string_fmap_NoDup (ints : list Z) :
  intset_wf ints → NoDup (ll2string <$> ints).
Proof.
  intros Hwf. pose proof (intset_wf_NoDup ints Hwf) as Hnd.
  destruct Hwf as [Hr _].
  induction Hnd as [|v ints Hv Hnd IH]; [constructor|].
  inversion Hr as [|? ? Hv64 Hr']; subst.
  rewrite fmap_cons. constructor; [|apply IH; exact Hr'].
  rewrite list_elem_of_fmap. intros (w & Heq & Hw).
  rewrite Forall_forall in Hr'.
  apply ll2string_inj in Heq; [|exact Hv64|apply Hr'; exact Hw].
  subst w. exact (Hv Hw).
Qed.

(** Membership as the API answers it is membership in [members]. *)
Lemma setTypeIsMember_spec (s : setobj) (x : list Z) :
  set_wf s → setTypeIsMember s x = bool_decide (x ∈ members s).
Proof.
  destruct s as [ints|d]; intros Hwf; [|reflexivity].
  unfold setTypeIsMember.
  destruct (isObjectRepresentableAsLongLong x) as [v|] eqn:Hrep.
  - apply representable_iff in Hrep as [Hv Hx].
    unfold intsetFind. apply bool_decide_ext.
    rewrite elem_of_members_intset. split.
    + intros Hin. exists v. auto.
    + intros (w & Hw & Hxw). destruct Hwf as [Hr _].
      rewrite Forall_forall in Hr. rewrite <- Hx in Hxw.
      apply ll2string_inj in Hxw; [subst; exact Hw | exact Hv | auto].
  - symmetry. apply bool_decide_eq_false.
    rewrite elem_of_members_intset. intros (w & Hw & Hxw).
    destruct Hwf as [Hr _]. rewrite Forall_forall in Hr.
    rewrite Hxw, representable_ll2string in Hrep by auto. discriminate.
Qed.

Lemma setTypeSize_members (s : setobj) :
  set_wf s → setTypeSize s = Z.of_nat (size (members s)).
Proof.
  destruct s as [ints|d]; intros Hwf; [|reflexivity].
  simpl. unfold intsetLen.
  rewrite size_list_to_set by (apply ll2string_fmap_NoDup; exact Hwf).
  rewrite length_fmap. reflexivity.
Qed.

Lemma setTypeNextObject_all_members (s : setobj) (x : list Z) :
  x ∈ setTypeNextObject_all s ↔ x ∈ members s.
Proof.
  destruct s as [ints|d]; simpl.
  - rewrite elem_of_list_to_set. reflexivity.
  - apply elem_of_elements.
Qed.

Lemma setTypeNextObject_all_NoDup (s : setobj) :
  set_wf s → NoDup (setTypeNextObject_all s).
Proof.
  destruct s as [ints|d]; simpl; intros Hwf.
  - apply ll2string_fmap_NoDup. exact Hwf.
  - apply NoDup_elements.
Qed.

(** *** Conversion to a hash table *)

Lemma setTypeConvert_loop_spec (ints : list Z) :
  ∀ d : gset (list Z),
    Forall is_int64 ints → NoDup ints →
    (∀ v, v ∈ ints → ll2string v ∉ d) →
    setTypeConvert_loop ints d
    = Some (list_to_set (ll2string <$> ints) ∪ d).
Proof.
  induction ints as [|v ints IH]; intros d Hr Hnd Hfresh.
  - simpl. f_equal. set_solver.
  - inversion Hr as [|? ? Hv Hr']; subst.
    inversion Hnd as [|? ? Hvn Hnd']; subst.
    cbn [setTypeConvert_loop]. unfold dictAdd, createStringObjectFromLongLong.
    rewrite bool_decide_eq_false_2 by (apply Hfresh; left).
    rewrite IH; [f_equal; set_solver|exact Hr'|exact Hnd'|].
    intros w Hw. rewrite elem_of_union, elem_of_singleton.
    intros [Heq|Hin].
    + rewrite Forall_forall in Hr'.
      apply ll2string_inj in Heq; [|auto|exact Hv]. subst. exact (Hvn Hw).
    + apply (Hfresh w); [right; exact Hw|exact Hin].
Qed.

(** On a well-formed intset the conversion succeeds and keeps the members. *)
Lemma setTypeConvert_spec (ints : list Z) :
  intset_wf ints →
  setTypeConvert (Intset_enc ints) REDIS_ENCODING_HT
  = Some (HT_enc (members (Intset_enc ints))).
Proof.
  intros Hwf. unfold setTypeConvert.
  rewrite setTypeConvert_loop_spec.
  - simpl. f_equal. f_equal. set_solver.
  - apply Hwf.
  - apply intset_wf_NoDup. exact Hwf.
  - set_solver.
Qed.

(** *** Adding and removing *)

Lemma representable_member (ints : list Z) (x : list Z) (v : Z) :
  intset_wf ints → isObjectRepresentableAsLongLong x = Some v →
  (v ∈ ints ↔ x ∈ members (Intset_enc ints)).
Proof.
  intros Hwf Hrep.
  pose proof (setTypeIsMember_spec (Intset_enc ints) x Hwf) as H.
  unfold setTypeIsMember in H. rewrite Hrep in H. unfold intsetFind in H.
  split; intros Hin.
  - rewrite bool_decide_eq_true_2 in H by exact Hin.
    symmetry in H. apply bool_decide_eq_true in H. exact H.
  - rewrite (bool_decide_eq_true_2 (x ∈ _)) in H by exact Hin.
    apply bool_decide_eq_true in H. exact H.
Qed.

Lemma not_representable_not_member (ints : list Z) (x : list Z) :
  intset_wf ints → isObjectRepresentableAsLongLong x = None →
  x ∉ members (Intset_enc ints).
Proof.
  intros Hwf Hrep.
  pose proof (setTypeIsMember_spec (Intset_enc ints) x Hwf) as H.
  unfold setTypeIsMember in H. rewrite Hrep in H.
  symmetry in H. apply bool_decide_eq_false in H. exact H.
Qed.

Lemma members_intsetAdd (ints : list Z) (x : list Z) (v : Z) :
  isObjectRepresentableAsLongLong x = Some v →
  members (Intset_enc (fst (intsetAdd ints v)))
  = {[x]} ∪ members (Intset_enc ints).
Proof.
  intros Hrep. apply representable_iff in Hrep as [_ Hx].
  apply set_eq. intros y.
  rewrite elem_of_union, elem_of_singleton, !elem_of_members_intset.
  split.
  - intros (w & Hw & ->). apply elem_of_intsetAdd in Hw as [->|Hw].
    + left. congruence.
    + right. exists w. auto.
  - intros [->|(w & Hw & ->)].
    + exists v. split; [apply elem_of_intsetAdd; left; reflexivity|].
      congruence.
    + exists w. split; [apply elem_of_intsetAdd; right; exact Hw|reflexivity].
Qed.

Lemma members_intsetRemove (ints : list Z) (x : list Z) (v : Z) :
  intset_wf ints → isObjectRepresentableAsLongLong x = Some v →
  members (Intset_enc (fst (intsetRemove ints v)))
  = members (Intset_enc ints) ∖ {[x]}.
Proof.
  intros Hwf Hrep. apply representable_iff in Hrep as [Hv Hx].
  destruct Hwf as [Hr _]. rewrite Forall_forall in Hr.
  apply set_eq. intros y.
  rewrite elem_of_difference, elem_of_singleton, !elem_of_members_intset.
  split.
  - intros (w & Hw & ->). apply elem_of_intsetRemove in Hw as [Hne Hw].
    split; [exists w; auto|].
    intros Heq. rewrite <- Hx in Heq.
    apply ll2string_inj in Heq; auto.
  - intros [(w & Hw & ->) Hne]. exists w. split; [|reflexivity].
    apply elem_of_intsetRemove. split; [|exact Hw].
    intros ->. apply Hne. congruence.
Qed.

(** [setTypeAdd] on a well-formed set never aborts; it adds the element to
    the members and returns 1 exactly when the element is new. *)
Lemma setTypeAdd_spec (server : redisServer) (s : setobj) (x : list Z) :
  set_wf s →
  ∃ r s', setTypeAdd server s x = Some (r, s')
          ∧ set_wf s'
          ∧ members s' = {[x]} ∪ members s
          ∧ r = (if bool_decide (x ∈ members s) then 0 else 1).
Proof.
  destruct s as [ints|d]; intros Hwf.
  - unfold setTypeAdd.
    destruct (isObjectRepresentableAsLongLong x) as [v|] eqn:Hrep.
    + pose proof (representable_member ints x v Hwf Hrep) as Hmem.
      pose proof (members_intsetAdd ints x v Hrep) as Hmembers.
      assert (is_int64 v) as Hv by (apply representable_iff in Hrep; tauto).
      pose proof (intsetAdd_wf ints v Hwf Hv) as Hwf'.
      pose proof (intsetAdd_success ints v) as Hsucc.
      destruct (intsetAdd ints v) as [ints' success]. cbn [fst snd] in *.
      subst success. unfold intsetFind.
      case_bool_decide as Hin; cbn [negb].
      * rewrite bool_decide_eq_true_2 by (apply Hmem; exact Hin).
        eexists _, _. split; [reflexivity|]. split; [exact Hwf'|].
        split; [exact Hmembers|reflexivity].
      * rewrite bool_decide_eq_false_2 by (rewrite <- Hmem; exact Hin).
        destruct (set_max_intset_entries server <? intsetLen ints').
        -- rewrite setTypeConvert_spec by exact Hwf'.
           eexists _, _. split; [reflexivity|]. split; [exact I|].
           split; [exact Hmembers|reflexivity].
        -- eexists _, _. split; [reflexivity|]. split; [exact Hwf'|].
           split; [exact Hmembers|reflexivity].
    + pose proof (not_representable_not_member ints x Hwf Hrep) as Hnot.
      rewrite setTypeConvert_spec by exact Hwf.
      cbv beta iota. unfold dictAdd.
      rewrite !bool_decide_eq_false_2 by exact Hnot.
      eexists _, _. split; [reflexivity|]. split; [exact I|].
      split; reflexivity.
  - unfold setTypeAdd, dictAdd. cbn [members].
    case_bool_decide as Hin.
    + eexists _, _. split; [reflexivity|]. split; [exact I|].
      split; [|reflexivity]. cbn [members]. set_solver.
    + eexists _, _. split; [reflexivity|]. split; [exact I|].
      split; reflexivity.
Qed.

(** [setTypeRemove] takes the element out of the members and returns 1
    exactly when it was one. *)
Lemma setTypeRemove_spec (s : setobj) (x : list Z) :
  set_wf s →
  set_wf (snd (setTypeRemove s x))
  ∧ members (snd (setTypeRemove s x)) = members s ∖ {[x]}
  ∧ fst (setTypeRemove s x) = (if bool_decide (x ∈ members s) then 1 else 0)
  ∧ encoding_of (snd (setTypeRemove s x)) = encoding_of s.
Proof.
  destruct s as [ints|d]; intros Hwf.
  - unfold setTypeRemove.
    destruct (isObjectRepresentableAsLongLong x) as [v|] eqn:Hrep.
    + pose proof (representable_member ints x v Hwf Hrep) as Hmem.
      pose proof (members_intsetRemove ints x v Hwf Hrep) as Hmembers.
      pose proof (intsetRemove_wf ints v Hwf) as Hwf'.
      pose proof (intsetRemove_success ints v) as Hsucc.
      destruct (intsetRemove ints v) as [ints' success]. cbn [fst snd] in *.
      subst success. unfold intsetFind.
      case_bool_decide as Hin; cbn [fst snd].
      * rewrite bool_decide_eq_true_2 by (apply Hmem; exact Hin).
        split; [exact Hwf'|]. split; [exact Hmembers|]. split; reflexivity.
      * rewrite bool_decide_eq_false_2 by (rewrite <- Hmem; exact Hin).
        split; [exact Hwf'|]. split; [exact Hmembers|]. split; reflexivity.
    + pose proof (not_representable_not_member ints x Hwf Hrep) as Hnot.
      cbn [fst snd]. rewrite bool_decide_eq_false_2 by exact Hnot.
      split; [exact Hwf|]. split; [|split; reflexivity].
      apply set_eq. intros y. rewrite elem_of_difference, elem_of_singleton.
      split; [|tauto]. intros Hy. split; [exact Hy|]. intros ->. exact (Hnot Hy).
  - unfold setTypeRemove, dictDelete. cbn [members].
    case_bool_decide as Hin; cbn [fst snd members].
    + split; [exact I|]. split; [reflexivity|]. split; reflexivity.
    + split; [exact I|]. split; [|split; reflexivity].
      apply set_eq. intros y. rewrite elem_of_difference, elem_of_singleton.
      split; [|tauto]. intros Hy. split; [exact Hy|]. intros ->. exact (Hin Hy).
Qed.

End SetFacts.

(** ** Promotion of a set from the integer array to the hash table *)

Module SetPromotion.
Import Util Redis TSet UtilFacts SetFacts.

(** *** C6 without the bound on the array: an insertion is promoted exactly
    when the element is not an integer, or it was added and the count then
    exceeds the threshold. *)
Lemma setTypeAdd_encoding (server : redisServer) (ints : list Z)
    (x : list Z) :
  intset_wf ints →
  ∃ r s',
    setTypeAdd server (Intset_enc ints) x = Some (r, s')
    ∧ (encoding_of s' = REDIS_ENCODING_HT ↔
         isObjectRepresentableAsLongLong x = None
         ∨ (r = 1 ∧ set_max_intset_entries server < setTypeSize s'))
    ∧ (r = 0 → s' = Intset_enc ints)
    ∧ (r = 0 ∨ setTypeSize s' = intsetLen ints + 1).
Proof.
  intros Hwf. unfold setTypeAdd.
  destruct (isObjectRepresentableAsLongLong x) as [v|] eqn:Hrep.
  - assert (is_int64 v) as Hv by (apply representable_iff in Hrep; tauto).
    pose proof (intsetAdd_wf ints v Hwf Hv) as Hwf'.
    pose proof (length_intsetAdd ints v) as Hlen.
    unfold intsetAdd in *.
    destruct (intsetFind ints v) eqn:Hfind; cbn [fst snd] in *.
    + eexists _, _. split; [reflexivity|]. split; [|split; [reflexivity|]].
      * cbn [encoding_of]. split; [discriminate|].
        intros [H|[H _]]; discriminate.
      * left. reflexivity.
    + destruct (set_max_intset_entries server <? intsetLen _) eqn:Hmax.
      * rewrite setTypeConvert_spec by exact Hwf'.
        eexists _, _. split; [reflexivity|].
        assert (setTypeSize (HT_enc (members (Intset_enc
                  (intset_insert v ints)))) = intsetLen ints + 1) as Hsize.
        { change (setTypeSize (HT_enc ?d)) with (Z.of_nat (size d)).
          rewrite <- (setTypeSize_members (Intset_enc _)) by exact Hwf'.
          cbn [setTypeSize]. unfold intsetLen. rewrite Hlen. lia. }
        split; [|split; [discriminate|right; exact Hsize]].
        cbn [encoding_of]. split; [|reflexivity]. intros _. right.
        split; [reflexivity|]. rewrite Hsize.
        apply Z.ltb_lt in Hmax. unfold intsetLen in *. rewrite Hlen in Hmax.
        lia.
      * eexists _, _. split; [reflexivity|].
        split; [|split; [discriminate|right]].
        -- cbn [encoding_of setTypeSize]. split; [discriminate|].
           apply Z.ltb_ge in Hmax.
           intros [H|[_ H]]; [discriminate|lia].
        -- cbn [setTypeSize]. unfold intsetLen. rewrite Hlen. lia.
  - pose proof (not_representable_not_member ints x Hwf Hrep) as Hnot.
    rewrite setTypeConvert_spec by exact Hwf.
    cbv beta iota. unfold dictAdd.
    rewrite bool_decide_eq_false_2 by exact Hnot.
    eexists _, _. split; [reflexivity|].
    split; [|split; [discriminate|right]].
    + cbn [encoding_of]. split; [|reflexivity]. intros _. left. reflexivity.
    + change (setTypeSize (HT_enc ?d)) with (Z.of_nat (size d)).
      rewrite size_union by set_solver. rewrite size_singleton.
      rewrite <- (Nat2Z.id (size (members (Intset_enc ints)))).
      rewrite <- (setTypeSize_members (Intset_enc ints)) by exact Hwf.
      cbn [setTypeSize]. unfold intsetLen. lia.
Qed.

(** C6.  For a set stored as a sorted integer array within the configured
    threshold, [setTypeAdd] converts the encoding to the hash table exactly
    when the element is not representable as a 64-bit integer or the count
    after the insertion exceeds [set_max_intset_entries]; a failed
    (duplicate) insertion leaves the array as it was and a removal leaves
    the encoding, and what stays an array stays within the threshold.  No
    operation of the set API converts a hash table back: [setTypeAdd] and
    [setTypeRemove] keep it, and [setTypeConvert] refuses a hash table as
    its source and the integer array as its target. *)
Theorem setTypeAdd_promotion (server : redisServer) (ints : list Z)
    (x : list Z) :
  intset_wf ints →
  intsetLen ints <= set_max_intset_entries server →
  (∃ r s',
      setTypeAdd server (Intset_enc ints) x = Some (r, s')
      ∧ (encoding_of s' = REDIS_ENCODING_HT ↔
           isObjectRepresentableAsLongLong x = None
           ∨ set_max_intset_entries server < setTypeSize s')
      ∧ (r = 0 → s' = Intset_enc ints)
      ∧ (encoding_of s' = REDIS_ENCODING_INTSET →
           setTypeSize s' <= set_max_intset_entries server))
  ∧ encoding_of (snd (setTypeRemove (Intset_enc ints) x))
    = REDIS_ENCODING_INTSET
  ∧ (∀ (d : gset (list Z)) (y : list Z),
       (∃ r d', setTypeAdd server (HT_enc d) y = Some (r, HT_enc d'))
       ∧ encoding_of (snd (setTypeRemove (HT_enc d) y)) = REDIS_ENCODING_HT
       ∧ ∀ enc, setTypeConvert (HT_enc d) enc = None)
  ∧ (∀ s, setTypeConvert s REDIS_ENCODING_INTSET = None).
Proof.
  intros Hwf Hbound. split; [|split; [|split]].
  - destruct (setTypeAdd_encoding server ints x Hwf)
      as (r & s' & Hadd & Henc & Hdup & Hsize).
    exists r, s'. split; [exact Hadd|]. split; [|split; [exact Hdup|]].
    + rewrite Henc. split.
      * intros [H|[_ H]]; [left; exact H|right; exact H].
      * intros [H|H]; [left; exact H|]. right. split; [|exact H].
        destruct Hsize as [Hr|Hs]; [|].
        -- rewrite (Hdup Hr) in H. cbn [setTypeSize] in H. lia.
        -- destruct (setTypeAdd_spec server (Intset_enc ints) x Hwf)
             as (r2 & s2 & Hadd2 & _ & _ & Hr2).
           rewrite Hadd in Hadd2. injection Hadd2 as -> ->.
           destruct (bool_decide _) eqn:Hb; [|exact Hr2].
           (* the element was a member: the set is unchanged *)
           subst r2. rewrite (Hdup eq_refl) in H.
           cbn [setTypeSize] in H. lia.
    + intros Hint.
      destruct (Z_lt_le_dec (set_max_intset_entries server) (setTypeSize s'))
        as [Hlt|Hle]; [|exact Hle].
      assert (encoding_of s' = REDIS_ENCODING_HT) as Hht.
      { apply Henc. destruct Hsize as [Hr|Hs].
        - rewrite (Hdup Hr) in Hlt. cbn [setTypeSize] in Hlt. lia.
        - destruct (setTypeAdd_spec server (Intset_enc ints) x Hwf)
            as (r2 & s2 & Hadd2 & _ & _ & Hr2).
          rewrite Hadd in Hadd2. injection Hadd2 as -> ->.
          destruct (bool_decide _) eqn:Hb.
          + subst r2. rewrite (Hdup eq_refl) in Hlt.
            cbn [setTypeSize] in Hlt. lia.
          + right. split; [exact Hr2|exact Hlt]. }
      congruence.
  - apply (setTypeRemove_spec (Intset_enc ints) x Hwf).
  - intros d y. split; [|split].
    + unfold setTypeAdd, dictAdd. case_bool_decide; eauto.
    + unfold setTypeRemove, dictDelete. case_bool_decide; reflexivity.
    + intros enc. reflexivity.
  - intros [ints'|d]; reflexivity.
Qed.

(** The theorem at the array {1,2,3} under a threshold of 3: adding "4"
    makes the count 4 and converts the set. *)
Lemma setTypeAdd_promotion_witness :
  ∃ r s',
    setTypeAdd (mkServer [] 16 None true true 3 0 0 0 0 0 REDIS_OK (-1) (-1)
                  0 0) (Intset_enc [1; 2; 3]) [52] = Some (r, s')
    ∧ encoding_of s' = REDIS_ENCODING_HT
    ∧ setTypeSize s' = 4.
Proof.
  assert (intset_wf [1; 2; 3]) as Hwf.
  { split; repeat constructor; unfold is_int64, LLONG_MIN, LLONG_MAX; lia. }
  destruct (setTypeAdd_promotion
              (mkServer [] 16 None true true 3 0 0 0 0 0 REDIS_OK (-1) (-1)
                 0 0) [1; 2; 3] [52] Hwf ltac:(vm_compute; discriminate))
    as [(r & s' & Hadd & Henc & _) _].
  exists r, s'. split; [exact Hadd|].
  vm_compute in Hadd. injection Hadd as <- <-.
  split; vm_compute; reflexivity.
Defined.

(** Scenario 2 of the spec: {1,2,3,4} stays an integer array, and adding
    "x" promotes it to a hash table of five members. *)
Example sadd_scenario :
  match setTypeAdd (mkServer [] 16 None true true 512 0 0 0 0 0 REDIS_OK
                      (-1) (-1) 0 0) (Intset_enc [1; 2; 3; 4]) [120] with
  | Some (r, s') =>
      r = 1 ∧ encoding_of s' = REDIS_ENCODING_HT ∧ setTypeSize s' = 5
  | None => False
  end.
Proof. vm_compute. auto. Qed.

End SetPromotion.

(** ** Union and difference *)

Module SetAlgebra.
Import Util Redis TSet UtilFacts SetFacts.

Lemma size_add (M : gset (list Z)) (x : list Z) :
  Z.of_nat (size ({[x]} ∪ M))
  = Z.of_nat (size M) + (if bool_decide (x ∈ M) then 0 else 1).
Proof.
  case_bool_decide as Hin.
  - replace ({[x]} ∪ M) with M by set_solver. lia.
  - rewrite size_union by set_solver. rewrite size_singleton. lia.
Qed.

Lemma size_remove (M : gset (list Z)) (x : list Z) :
  Z.of_nat (size (M ∖ {[x]}))
  = Z.of_nat (size M) - (if bool_decide (x ∈ M) then 1 else 0).
Proof.
  case_bool_decide as Hin.
  - rewrite size_difference by set_solver. rewrite size_singleton.
    assert (size M ≠ 0%nat) as Hne.
    { intros H0. apply size_empty_inv in H0. set_solver. }
    lia.
  - replace (M ∖ {[x]}) with M by set_solver. lia.
Qed.

(** Adding the elements of a list adds them to the members, and a
    cardinality that counted the members still does. *)
Lemma add_all_spec (server : redisServer) (eles : list (list Z)) :
  ∀ (dst : setobj) (card : Z),
    set_wf dst →
    ∃ dst' card',
      add_all server eles dst card = Some (dst', card')
      ∧ set_wf dst'
      ∧ members dst' = members dst ∪ list_to_set eles
      ∧ (card = Z.of_nat (size (members dst)) →
         card' = Z.of_nat (size (members dst'))).
Proof.
  induction eles as [|x eles IH]; intros dst card Hwf.
  - exists dst, card. split; [reflexivity|]. split; [exact Hwf|].
    split; [set_solver|auto].
  - cbn [add_all].
    destruct (setTypeAdd_spec server dst x Hwf) as (r & s1 & Hadd & Hwf1 & Hm1 & Hr).
    rewrite Hadd.
    destruct (IH s1 (if r =? 0 then card else card + 1) Hwf1)
      as (dst' & card' & Hall & Hwf' & Hm' & Hc').
    exists dst', card'. split; [exact Hall|]. split; [exact Hwf'|].
    split; [rewrite Hm', Hm1; set_solver|].
    intros Hcard. apply Hc'. rewrite Hm1, size_add, Hr, Hcard.
    destruct (bool_decide (x ∈ members dst)); simpl; lia.
Qed.

Lemma remove_all_spec (eles : list (list Z)) :
  ∀ (dst : setobj) (card : Z),
    set_wf dst →
    set_wf (fst (remove_all eles dst card))
    ∧ members (fst (remove_all eles dst card))
      = members dst ∖ list_to_set eles
    ∧ (card = Z.of_nat (size (members dst)) →
       snd (remove_all eles dst card)
       = Z.of_nat (size (members (fst (remove_all eles dst card))))).
Proof.
  induction eles as [|x eles IH]; intros dst card Hwf.
  - cbn [remove_all fst snd]. split; [exact Hwf|]. split; [set_solver|auto].
  - cbn [remove_all].
    destruct (setTypeRemove_spec dst x Hwf) as (Hwf1 & Hm1 & Hr & _).
    destruct (setTypeRemove dst x) as [r s1]. cbn [fst snd] in *.
    destruct (IH s1 (if r =? 0 then card else card - 1) Hwf1)
      as (Hwf' & Hm' & Hc').
    split; [exact Hwf'|]. split; [rewrite Hm', Hm1; set_solver|].
    intros Hcard. apply Hc'. rewrite Hm1, size_remove, Hr, Hcard.
    destruct (bool_decide (x ∈ members dst)); simpl; lia.
Qed.

Lemma list_to_set_NextObject_all (s : setobj) :
  list_to_set (setTypeNextObject_all s) = members s.
Proof.
  apply set_eq. intros x.
  rewrite elem_of_list_to_set. apply setTypeNextObject_all_members.
Qed.

Lemma elem_of_members_of_all (sets : list (list Z * option setobj))
    (x : list Z) :
  x ∈ members_of_all sets ↔ ∃ k s, (k, Some s) ∈ sets ∧ x ∈ members s.
Proof.
  induction sets as [|[k [s|]] sets IH]; cbn [members_of_all].
  - split; [set_solver|]. intros (k & s & H & _). inversion H.
  - rewrite elem_of_union, IH. split.
    + intros [Hx|(k' & s' & Hin & Hx)].
      * exists k, s. split; [left|exact Hx].
      * exists k', s'. split; [right; exact Hin|exact Hx].
    + intros (k' & s' & Hin & Hx).
      apply elem_of_cons in Hin as [Heq|Hin].
      * injection Heq as -> ->. left. exact Hx.
      * right. exists k', s'. auto.
  - rewrite IH. split.
    + intros (k' & s' & Hin & Hx). exists k', s'.
      split; [right; exact Hin|exact Hx].
    + intros (k' & s' & Hin & Hx).
      apply elem_of_cons in Hin as [Heq|Hin]; [discriminate|].
      exists k', s'. auto.
Qed.

(** Difference algorithm 2, rounds after the first. *)
Lemma diff2_rounds_spec (others : list (list Z * option setobj)) :
  ∀ (dst : setobj) (card : Z),
    sets_wf others → set_wf dst →
    card = Z.of_nat (size (members dst)) →
    set_wf (fst (diff2_rounds others dst card))
    ∧ members (fst (diff2_rounds others dst card))
      = members dst ∖ members_of_all others
    ∧ snd (diff2_rounds others dst card)
      = Z.of_nat (size (members (fst (diff2_rounds others dst card)))).
Proof.
  induction others as [|[k [s|]] others IH]; intros dst card Hwfs Hwf Hcard.
  - cbn [diff2_rounds members_of_all fst snd].
    split; [exact Hwf|]. split; [set_solver|exact Hcard].
  - apply Forall_cons in Hwfs as [Hs Hwfs']. cbn [snd] in Hs.
    cbn [diff2_rounds members_of_all].
    destruct (remove_all_spec (setTypeNextObject_all s) dst card Hwf)
      as (Hwf1 & Hm1 & Hc1).
    specialize (Hc1 Hcard). rewrite list_to_set_NextObject_all in Hm1.
    destruct (remove_all (setTypeNextObject_all s) dst card) as [d1 c1].
    cbn [fst snd] in *.
    destruct (c1 =? 0) eqn:Hz.
    + apply Z.eqb_eq in Hz. cbn [fst snd].
      split; [exact Hwf1|]. split; [|exact Hc1].
      assert (members d1 = ∅) as Hempty.
      { apply leibniz_equiv, size_empty_inv. lia. }
      rewrite Hempty in *. set_solver.
    + destruct (IH d1 c1 Hwfs' Hwf1 Hc1) as (Hwf' & Hm' & Hc').
      split; [exact Hwf'|]. split; [|exact Hc'].
      rewrite Hm', Hm1. set_solver.
  - apply Forall_cons in Hwfs as [_ Hwfs'].
    cbn [diff2_rounds members_of_all]. apply IH; assumption.
Qed.

Lemma diff2_spec (server : redisServer) (set0 : setobj)
    (others : list (list Z * option setobj)) :
  set_wf set0 → sets_wf others →
  ∃ dst card,
    diff2 server set0 others createIntsetObject 0 = Some (dst, card)
    ∧ set_wf dst
    ∧ members dst = members set0 ∖ members_of_all others
    ∧ card = Z.of_nat (size (members dst)).
Proof.
  intros Hwf0 Hwfs. unfold diff2.
  destruct (add_all_spec server (setTypeNextObject_all set0)
              createIntsetObject 0 intset_wf_nil)
    as (d1 & c1 & Hall & Hwf1 & Hm1 & Hc1).
  rewrite Hall. rewrite list_to_set_NextObject_all in Hm1.
  assert (members createIntsetObject = ∅) as He by reflexivity.
  rewrite He in Hm1, Hc1. rewrite size_empty in Hc1. specialize (Hc1 eq_refl).
  destruct (c1 =? 0) eqn:Hz.
  - apply Z.eqb_eq in Hz. exists d1, c1. split; [reflexivity|].
    split; [exact Hwf1|]. split; [|exact Hc1].
    assert (members d1 = ∅) as Hempty by (apply leibniz_equiv, size_empty_inv; lia).
    rewrite Hempty in *. set_solver.
  - destruct (diff2_rounds_spec others d1 c1 Hwfs Hwf1 Hc1)
      as (Hwf' & Hm' & Hc').
    destruct (diff2_rounds others d1 c1) as [d2 c2]. cbn [fst snd] in *.
    exists d2, c2. split; [reflexivity|]. split; [exact Hwf'|].
    split; [|exact Hc']. rewrite Hm'. set_solver.
Qed.

(** *** Sorting keeps the entries *)

Lemma elem_of_insert_by {A : Type} (cmp : A → A → Z) (x y : A) (l : list A) :
  y ∈ insert_by cmp x l ↔ y = x ∨ y ∈ l.
Proof.
  induction l as [|z l IH]; cbn [insert_by].
  - rewrite list_elem_of_singleton, elem_of_nil. tauto.
  - destruct (cmp x z <=? 0).
    + rewrite !elem_of_cons. tauto.
    + rewrite !elem_of_cons, IH. tauto.
Qed.

Lemma elem_of_qsort {A : Type} (cmp : A → A → Z) (y : A) (l : list A) :
  y ∈ qsort cmp l ↔ y ∈ l.
Proof.
  unfold qsort. induction l as [|z l IH]; cbn [foldr]; [reflexivity|].
  rewrite elem_of_insert_by, IH, elem_of_cons. tauto.
Qed.

Lemma qsort_sets_wf (cmp : _ → _ → Z)
    (sets : list (list Z * option setobj)) :
  sets_wf sets → sets_wf (qsort cmp sets).
Proof.
  unfold sets_wf. rewrite !Forall_forall. intros H p Hp.
  apply H. apply elem_of_qsort in Hp. exact Hp.
Qed.

(** *** Difference algorithm 1 *)

(** The scan of the other sets stops early exactly when one of them is the
    first set itself or holds the element. *)
Lemma diff1_scan_false (key0 : list Z)
    (others : list (list Z * option setobj)) (ele : list Z) :
  sets_wf others →
  (diff1_scan key0 others ele = false ↔
   ∃ k s, (k, Some s) ∈ others ∧ (k = key0 ∨ ele ∈ members s)).
Proof.
  induction others as [|[k [s|]] others IH]; intros Hwfs; cbn [diff1_scan].
  - split; [discriminate|]. intros (k & s & H & _). inversion H.
  - apply Forall_cons in Hwfs as [Hs Hwfs']. cbn [snd] in Hs.
    rewrite (setTypeIsMember_spec s ele Hs).
    case_bool_decide as Hk.
    + split; [|reflexivity]. intros _. exists k, s. split; [left|left; exact Hk].
    + case_bool_decide as Hin.
      * split; [|reflexivity]. intros _. exists k, s.
        split; [left|right; exact Hin].
      * rewrite (IH Hwfs'). split.
        -- intros (k' & s' & Hin' & H). exists k', s'.
           split; [right; exact Hin'|exact H].
        -- intros (k' & s' & Hin' & H).
           apply elem_of_cons in Hin' as [Heq|Hin'].
           ++ injection Heq as -> ->. tauto.
           ++ exists k', s'. auto.
  - apply Forall_cons in Hwfs as [_ Hwfs']. rewrite (IH Hwfs'). split.
    + intros (k' & s' & Hin' & H). exists k', s'.
      split; [right; exact Hin'|exact H].
    + intros (k' & s' & Hin' & H).
      apply elem_of_cons in Hin' as [Heq|Hin']; [discriminate|].
      exists k', s'. auto.
Qed.

Lemma diff1_loop_spec (server : redisServer) (key0 : list Z)
    (others : list (list Z * option setobj)) (eles : list (list Z)) :
  ∀ (dst : setobj) (card : Z),
    set_wf dst →
    ∃ dst' card',
      diff1_loop server key0 others eles dst card = Some (dst', card')
      ∧ set_wf dst'
      ∧ members dst'
        = members dst
          ∪ list_to_set (filter (λ e, diff1_scan key0 others e = true) eles)
      ∧ (NoDup eles → (∀ e, e ∈ eles → e ∉ members dst) →
         card = Z.of_nat (size (members dst)) →
         card' = Z.of_nat (size (members dst'))).
Proof.
  induction eles as [|x eles IH]; intros dst card Hwf.
  - exists dst, card. split; [reflexivity|]. split; [exact Hwf|].
    split; [set_solver|auto].
  - cbn [diff1_loop]. rewrite filter_cons.
    destruct (diff1_scan key0 others x) eqn:Hscan.
    + destruct (setTypeAdd_spec server dst x Hwf)
        as (r & s1 & Hadd & Hwf1 & Hm1 & Hr).
      rewrite Hadd.
      destruct (IH s1 (card + 1) Hwf1) as (dst' & card' & Hloop & Hwf' & Hm' & Hc').
      exists dst', card'. split; [exact Hloop|]. split; [exact Hwf'|].
      rewrite decide_True by reflexivity.
      split; [rewrite Hm', Hm1; set_solver|].
      intros Hnd Hfresh Hcard. apply NoDup_cons in Hnd as [Hx Hnd].
      apply Hc'; [exact Hnd| |].
      * intros e He. rewrite Hm1. intros [Hex|Hed]%elem_of_union.
        -- apply elem_of_singleton in Hex. subst e. exact (Hx He).
        -- apply (Hfresh e); [right; exact He|exact Hed].
      * rewrite Hm1, size_add, Hcard.
        rewrite bool_decide_eq_false_2 by (apply Hfresh; left). lia.
    + destruct (IH dst card Hwf) as (dst' & card' & Hloop & Hwf' & Hm' & Hc').
      exists dst', card'. split; [exact Hloop|]. split; [exact Hwf'|].
      rewrite decide_False by discriminate.
      split; [exact Hm'|].
      intros Hnd Hfresh Hcard. apply NoDup_cons in Hnd as [Hx Hnd].
      apply Hc'; [exact Hnd| |exact Hcard].
      intros e He. apply Hfresh. right. exact He.
Qed.

(** *** The looked-up sets *)

Lemma sunion_lookup_spec (db : redisDb) (setkeys : list (list Z)) :
  ∀ sets,
    sunion_lookup db setkeys = Some sets →
    fst <$> sets = setkeys
    ∧ (∀ k s, (k, Some s) ∈ sets → Db.lookupKey db k = Some (Set_obj s))
    ∧ (∀ k, (k, None) ∈ sets → Db.lookupKey db k = None).
Proof.
  induction setkeys as [|k setkeys IH]; intros sets Hl.
  - injection Hl as <-. split; [reflexivity|].
    split; intros ? ; [intros ? H|intros H]; inversion H.
  - cbn [sunion_lookup] in Hl.
    destruct (Db.lookupKey db k) as [[s0|s|t]|] eqn:Hk; try discriminate.
    + destruct (sunion_lookup db setkeys) as [l|]; [|discriminate].
      injection Hl as <-. destruct (IH l eq_refl) as (Hf & Hs & Hn).
      split; [cbn; rewrite Hf; reflexivity|]. split.
      * intros k' s' [Heq|Hin]%elem_of_cons; [|eauto].
        injection Heq as -> ->. exact Hk.
      * intros k' [Heq|Hin]%elem_of_cons; [discriminate|eauto].
    + destruct (sunion_lookup db setkeys) as [l|]; [|discriminate].
      injection Hl as <-. destruct (IH l eq_refl) as (Hf & Hs & Hn).
      split; [cbn; rewrite Hf; reflexivity|]. split.
      * intros k' s' [Heq|Hin]%elem_of_cons; [discriminate|eauto].
      * intros k' [Heq|Hin]%elem_of_cons; [|eauto].
        injection Heq as ->. exact Hk.
Qed.

Lemma db_wf_lookup (db : redisDb) (k : list Z) (s : setobj) :
  db_wf db → Db.lookupKey db k = Some (Set_obj s) → set_wf s.
Proof. intros Hwf Hk. exact (Hwf k (Set_obj s) Hk). Qed.

Lemma sunion_lookup_wf (db : redisDb) (setkeys : list (list Z)) sets :
  db_wf db → sunion_lookup db setkeys = Some sets → sets_wf sets.
Proof.
  intros Hwf Hl. destruct (sunion_lookup_spec db setkeys sets Hl) as (_ & Hs & _).
  apply Forall_forall. intros [k [s|]] Hin; cbn [snd]; [|exact I].
  apply (db_wf_lookup db k s Hwf). apply Hs. exact Hin.
Qed.

(** *** The two algorithms compute the same difference *)

Lemma diff_compute_spec (server : redisServer) (key0 : list Z)
    (set0 : setobj) (others : list (list Z * option setobj)) (diff_algo : Z) :
  set_wf set0 → sets_wf others →
  (∀ k s, (k, Some s) ∈ others → k = key0 → s = set0) →
  diff_algo = 1 ∨ diff_algo = 2 →
  ∃ dst card,
    sunionDiff_compute server REDIS_OP_DIFF ((key0, Some set0) :: others)
                       diff_algo = Some (dst, card)
    ∧ set_wf dst
    ∧ members dst = members set0 ∖ members_of_all others
    ∧ card = Z.of_nat (size (members dst)).
Proof.
  intros Hwf0 Hwfs Hsame [->| ->]; cbn [sunionDiff_compute Z.eqb Pos.eqb].
  - set (others1 := if 1 <? Z.of_nat (length ((key0, Some set0) :: others))
                    then qsort qsortCompareSetsByRevCardinality others
                    else others).
    assert (sets_wf others1) as Hwfs1.
    { subst others1. destruct (1 <? _); [apply qsort_sets_wf|]; exact Hwfs. }
    assert (∀ p, p ∈ others1 ↔ p ∈ others) as Hperm.
    { intros p. subst others1. destruct (1 <? _); [apply elem_of_qsort|].
      reflexivity. }
    destruct (diff1_loop_spec server key0 others1 (setTypeNextObject_all set0)
                createIntsetObject 0 intset_wf_nil)
      as (dst & card & Hloop & Hwf & Hm & Hc).
    exists dst, card. split; [exact Hloop|]. split; [exact Hwf|].
    assert (members dst = members set0 ∖ members_of_all others) as Hres.
    { rewrite Hm. apply set_eq. intros x.
      rewrite elem_of_union, elem_of_list_to_set, list_elem_of_filter.
      rewrite setTypeNextObject_all_members, elem_of_difference.
      rewrite elem_of_members_of_all.
      change (members createIntsetObject) with (∅ : gset (list Z)).
      split.
      - intros [Hx|[Hscan Hx]]; [set_solver|]. split; [exact Hx|].
        intros (k & s & Hin & Hxs).
        assert (diff1_scan key0 others1 x = false) as Hf.
        { apply (diff1_scan_false key0 others1 x Hwfs1).
          exists k, s. split; [apply Hperm; exact Hin|right; exact Hxs]. }
        congruence.
      - intros [Hx Hnot]. right. split; [|exact Hx].
        destruct (diff1_scan key0 others1 x) eqn:Hscan; [reflexivity|].
        exfalso. apply Hnot.
        apply (diff1_scan_false key0 others1 x Hwfs1) in Hscan
          as (k & s & Hin & Hor).
        apply Hperm in Hin. exists k, s. split; [exact Hin|].
        destruct Hor as [Hk|Hxs]; [|exact Hxs].
        rewrite (Hsame k s Hin Hk). exact Hx. }
    split; [exact Hres|].
    apply Hc.
    + apply setTypeNextObject_all_NoDup. exact Hwf0.
    + intros e _. change (members createIntsetObject) with (∅ : gset (list Z)).
      set_solver.
    + reflexivity.
  - apply diff2_spec; assumption.
Qed.

Lemma diff_algo_select_range (set0 : setobj)
    (sets : list (list Z * option setobj)) :
  diff_algo_select set0 sets = 1 ∨ diff_algo_select set0 sets = 2.
Proof.
  unfold diff_algo_select. destruct (diff_work set0 sets 0 0) as [a b].
  destruct (_ <=? _); auto.
Qed.

(** C5.  For every first set A (the value of [key0]) and every list of
    further keys, each holding a set or nothing: difference algorithm 1
    and difference algorithm 2 both end with the same result set, made of
    exactly the members of A that belong to no other set, and with its
    cardinality; so the reply of SDIFF is the same set of bulk strings,
    whichever algorithm the cost estimate selects.  The result has no
    element in common with any of the other sets, and it is empty when the
    first key is also among the others (A minus A). *)
Theorem sdiff_algorithms_agree (server : redisServer) (db : redisDb)
    (key0 : list Z) (setkeys : list (list Z)) (set0 : setobj)
    (others : list (list Z * option setobj)) :
  db_wf db →
  sunion_lookup db (key0 :: setkeys) = Some ((key0, Some set0) :: others) →
  let result := members set0 ∖ members_of_all others in
  (∀ diff_algo, diff_algo = 1 ∨ diff_algo = 2 →
     ∃ dst card,
       sunionDiff_compute server REDIS_OP_DIFF ((key0, Some set0) :: others)
                          diff_algo = Some (dst, card)
       ∧ members dst = result
       ∧ card = Z.of_nat (size result))
  ∧ (∃ bulks,
       sdiffCommand server db (key0 :: setkeys)
       = Some (server, db,
               ReplyMultiBulkLen (Z.of_nat (size result))
               :: (ReplyBulk <$> bulks))
       ∧ NoDup bulks
       ∧ list_to_set bulks = result)
  ∧ (∀ k s, (k, Some s) ∈ others → result ∩ members s = ∅)
  ∧ (key0 ∈ setkeys → result = ∅).
Proof.
  intros Hdb Hlookup result.
  pose proof (sunion_lookup_wf db _ _ Hdb Hlookup) as Hwfs.
  destruct (sunion_lookup_spec db _ _ Hlookup) as (Hkeys & Hsome & Hnone).
  apply Forall_cons in Hwfs as [Hwf0 Hwfs]. cbn [snd] in Hwf0.
  assert (∀ k s, (k, Some s) ∈ others → k = key0 → s = set0) as Hsame.
  { intros k s Hin ->.
    pose proof (Hsome key0 s ltac:(right; exact Hin)) as H1.
    pose proof (Hsome key0 set0 ltac:(left)) as H2. congruence. }
  split; [|split; [|split]].
  - intros diff_algo Halgo.
    destruct (diff_compute_spec server key0 set0 others diff_algo
                Hwf0 Hwfs Hsame Halgo) as (dst & card & Hc & _ & Hm & Hcard).
    exists dst, card. split; [exact Hc|]. split; [exact Hm|].
    rewrite Hcard, Hm. reflexivity.
  - unfold sdiffCommand, sunionDiffGenericCommand. rewrite Hlookup.
    destruct (diff_compute_spec server key0 set0 others
                (diff_algo_select set0 ((key0, Some set0) :: others))
                Hwf0 Hwfs Hsame (diff_algo_select_range _ _))
      as (dst & card & Hc & Hwf & Hm & Hcard).
    rewrite Hc. exists (setTypeNextObject_all dst).
    split; [|split].
    + rewrite Hcard, Hm. reflexivity.
    + apply setTypeNextObject_all_NoDup. exact Hwf.
    + rewrite list_to_set_NextObject_all. exact Hm.
  - intros k s Hin. apply set_eq. intros x.
    rewrite elem_of_intersection. subst result.
    rewrite elem_of_difference, elem_of_members_of_all.
    split; [|set_solver]. intros [[_ Hnot] Hx]. exfalso. apply Hnot.
    exists k, s. auto.
  - intros Hin. cbn [fmap list_fmap] in Hkeys. injection Hkeys as Hkeys.
    rewrite <- Hkeys in Hin. apply list_elem_of_fmap in Hin as ([k o] & Hk & Hin).
    cbn [fst] in Hk. subst k.
    destruct o as [s|].
    + pose proof (Hsame key0 s Hin eq_refl) as ->.
      apply set_eq. intros x. subst result.
      rewrite elem_of_difference, elem_of_members_of_all.
      split; [|set_solver]. intros [Hx Hnot]. exfalso. apply Hnot.
      exists key0, set0. auto.
    + pose proof (Hnone key0 ltac:(right; exact Hin)) as H1.
      pose proof (Hsome key0 set0 ltac:(left)) as H2. congruence.
Qed.

(** The theorem on a database where "a" holds the integer array {1,2,3},
    "b" the hash table {"2","x"} and "c" nothing: SDIFF a b c replies with
    the two members "1" and "3". *)
Lemma sdiff_algorithms_agree_witness :
  ∃ bulks,
    sdiffCommand
      (mkServer [] 16 None true true 512 0 0 0 0 0 REDIS_OK (-1) (-1) 0 0)
      (mkDb (<[ [97] := Set_obj (Intset_enc [1; 2; 3]) ]>
               (<[ [98] := Set_obj (HT_enc {[ [50]; [120] ]}) ]> ∅)) ∅)
      [[97]; [98]; [99]]
    = Some (mkServer [] 16 None true true 512 0 0 0 0 0 REDIS_OK (-1) (-1)
              0 0,
            mkDb (<[ [97] := Set_obj (Intset_enc [1; 2; 3]) ]>
                    (<[ [98] := Set_obj (HT_enc {[ [50]; [120] ]}) ]> ∅)) ∅,
            ReplyMultiBulkLen 2 :: (ReplyBulk <$> bulks))
    ∧ NoDup bulks
    ∧ list_to_set bulks = ({[ [49]; [51] ]} : gset (list Z)).
Proof.
  assert (db_wf (mkDb (<[ [97] := Set_obj (Intset_enc [1; 2; 3]) ]>
                   (<[ [98] := Set_obj (HT_enc {[ [50]; [120] ]}) ]> ∅)) ∅))
    as Hdb.
  { unfold db_wf. cbn [dict]. apply map_Forall_insert_2.
    - split; repeat constructor; unfold is_int64, LLONG_MIN, LLONG_MAX; lia.
    - apply map_Forall_insert_2; [exact I|]. apply map_Forall_empty. }
  assert (sunion_lookup
            (mkDb (<[ [97] := Set_obj (Intset_enc [1; 2; 3]) ]>
                     (<[ [98] := Set_obj (HT_enc {[ [50]; [120] ]}) ]> ∅)) ∅)
            ([97] :: [[98]; [99]])
          = Some (([97], Some (Intset_enc [1; 2; 3]))
                  :: [([98], Some (HT_enc {[ [50]; [120] ]})); ([99], None)]))
    as Hlookup by (vm_compute; reflexivity).
  destruct (sdiff_algorithms_agree
              (mkServer [] 16 None true true 512 0 0 0 0 0 REDIS_OK (-1) (-1)
                 0 0) _ _ _ _ _ Hdb Hlookup)
    as (_ & (bulks & Hcmd & Hnd & Hset) & _).
  exists bulks. split; [exact Hcmd|]. split; [exact Hnd|].
  rewrite Hset. vm_compute. reflexivity.
Defined.

End SetAlgebra.

(** ** The set commands and the keyspace *)

Module SetKeyspace.
Import Util Redis TSet UtilFacts SetFacts SetAlgebra.

Lemma setTypeSize_nonneg (s : setobj) : 0 <= setTypeSize s.
Proof. destruct s; cbn; unfold intsetLen, dictSize; lia. Qed.

Lemma size_pos_member (s : setobj) (x : list Z) :
  set_wf s → x ∈ members s → 0 < setTypeSize s.
Proof.
  intros Hwf Hx. rewrite (setTypeSize_members s Hwf).
  assert (size (members s) ≠ 0%nat); [|lia].
  intros H0. apply size_empty_inv in H0. set_solver.
Qed.

Lemma size_zero_members (s : setobj) :
  set_wf s → setTypeSize s = 0 → members s = ∅.
Proof.
  intros Hwf H0. rewrite (setTypeSize_members s Hwf) in H0.
  apply leibniz_equiv, size_empty_inv. lia.
Qed.

(** *** The keyspace operations keep the two invariants *)

Lemma lookup_wf (db : redisDb) (k : list Z) (s : setobj) :
  db_wf db → Db.lookupKeyWrite db k = Some (Set_obj s) → set_wf s.
Proof. intros H Hk. exact (H k (Set_obj s) Hk). Qed.

Lemma lookup_nonempty (db : redisDb) (k : list Z) (s : setobj) :
  no_empty_set db → Db.lookupKeyWrite db k = Some (Set_obj s) →
  0 < setTypeSize s.
Proof. intros H Hk. exact (H k (Set_obj s) Hk). Qed.

Lemma modified_in_place_inv (db : redisDb) (k : list Z) (s : setobj) :
  db_wf db → no_empty_set db → set_wf s → 0 < setTypeSize s →
  db_wf (Db.modified_in_place db k (Set_obj s))
  ∧ no_empty_set (Db.modified_in_place db k (Set_obj s)).
Proof.
  intros Hwf Hne Hs Hpos. unfold db_wf, no_empty_set, Db.modified_in_place.
  cbn [dict]. split; apply map_Forall_insert_2; assumption.
Qed.

Lemma dbDelete_inv (db : redisDb) (k : list Z) :
  db_wf db → no_empty_set db →
  db_wf (snd (Db.dbDelete db k)) ∧ no_empty_set (snd (Db.dbDelete db k)).
Proof.
  intros Hwf Hne. unfold db_wf, no_empty_set, Db.dbDelete. cbn [snd dict].
  split; apply map_Forall_delete; assumption.
Qed.

Lemma dbDelete_absent (db : redisDb) (k : list Z) :
  dict (snd (Db.dbDelete db k)) !! k = None.
Proof. unfold Db.dbDelete. cbn [snd dict]. apply lookup_delete_eq. Qed.

Lemma dbAdd_inv (db : redisDb) (k : list Z) (s : setobj) :
  db_wf db → no_empty_set db → set_wf s → 0 < setTypeSize s →
  db_wf (Db.dbAdd db k (Set_obj s)) ∧ no_empty_set (Db.dbAdd db k (Set_obj s)).
Proof.
  intros Hwf Hne Hs Hpos. unfold Db.dbAdd.
  destruct (dict db !! k); [split; assumption|].
  unfold db_wf, no_empty_set. cbn [dict].
  split; apply map_Forall_insert_2; assumption.
Qed.

(** *** The set API keeps sets well formed *)

Lemma setTypeAdd_wf (server : redisServer) (s s' : setobj) (x : list Z)
    (r : Z) :
  set_wf s → setTypeAdd server s x = Some (r, s') →
  set_wf s' ∧ 0 < setTypeSize s' ∧ (r = 0 ∨ r = 1)
  ∧ members s' = {[x]} ∪ members s.
Proof.
  intros Hwf Hadd.
  destruct (setTypeAdd_spec server s x Hwf) as (r0 & s0 & Hadd0 & Hwf0 & Hm & Hr).
  rewrite Hadd in Hadd0. injection Hadd0 as <- <-.
  split; [exact Hwf0|]. split; [|split; [|exact Hm]].
  - apply (size_pos_member s' x Hwf0). rewrite Hm. set_solver.
  - destruct (bool_decide _); auto.
Qed.

Lemma setTypeCreate_wf (x : list Z) : set_wf (setTypeCreate x).
Proof.
  unfold setTypeCreate. destruct (isObjectRepresentableAsLongLong x).
  - apply intset_wf_nil.
  - exact I.
Qed.

Lemma sadd_loop_spec (server : redisServer) (argv : list (list Z)) :
  ∀ (set set' : setobj) (added added' : Z),
    set_wf set →
    sadd_loop server set argv added = Some (set', added') →
    set_wf set' ∧ added <= added'
    ∧ (argv ≠ [] ∨ 0 < setTypeSize set → 0 < setTypeSize set').
Proof.
  induction argv as [|x argv IH]; intros set set' added added' Hwf Hloop.
  - injection Hloop as <- <-. split; [exact Hwf|]. split; [lia|].
    intros [H|H]; [congruence|exact H].
  - cbn [sadd_loop] in Hloop.
    destruct (setTypeAdd server set x) as [[r s1]|] eqn:Hadd; [|discriminate].
    destruct (setTypeAdd_wf server set s1 x r Hwf Hadd) as (Hwf1 & Hpos & Hr & _).
    destruct (IH s1 set' _ added' Hwf1 Hloop) as (Hwf' & Hle & Hne).
    split; [exact Hwf'|]. split.
    + destruct (r =? 0); lia.
    + intros _. apply Hne. right. exact Hpos.
Qed.

Lemma srem_loop_spec (argv : list (list Z)) :
  ∀ (set : setobj) (deleted : Z),
    set_wf set → 0 < setTypeSize set →
    set_wf (srem_loop set argv deleted).1.1
    ∧ deleted <= (srem_loop set argv deleted).1.2
    ∧ ((srem_loop set argv deleted).2 = false →
       0 < setTypeSize (srem_loop set argv deleted).1.1
       ∧ members (srem_loop set argv deleted).1.1
         = members set ∖ list_to_set argv).
Proof.
  induction argv as [|x argv IH]; intros set deleted Hwf Hpos.
  - cbn. split; [exact Hwf|]. split; [lia|]. intros _.
    split; [exact Hpos|set_solver].
  - cbn [srem_loop].
    destruct (setTypeRemove_spec set x Hwf) as (Hwf1 & Hm1 & Hr & _).
    destruct (setTypeRemove set x) as [r s1]. cbn [fst snd] in *.
    destruct (r =? 0) eqn:Hr0.
    + apply Z.eqb_eq in Hr0. rewrite Hr0 in Hr.
      assert (x ∉ members set) as Hx.
      { intros Hin. rewrite bool_decide_eq_true_2 in Hr by exact Hin.
        discriminate. }
      assert (members s1 = members set) as Hsame by (rewrite Hm1; set_solver).
      assert (0 < setTypeSize s1) as Hpos1.
      { rewrite (setTypeSize_members s1 Hwf1), Hsame,
          <- (setTypeSize_members set Hwf). exact Hpos. }
      destruct (IH s1 deleted Hwf1 Hpos1) as (Hwf' & Hle & Hkeep).
      split; [exact Hwf'|]. split; [exact Hle|]. intros Hk.
      destruct (Hkeep Hk) as [Hp Hm]. split; [exact Hp|].
      rewrite Hm, Hsame. set_solver.
    + destruct (setTypeSize s1 =? 0) eqn:Hz.
      * cbn. split; [exact Hwf1|]. split; [lia|]. discriminate.
      * apply Z.eqb_neq in Hz.
        assert (0 < setTypeSize s1) as Hpos1
          by (pose proof (setTypeSize_nonneg s1); lia).
        destruct (IH s1 (deleted + 1) Hwf1 Hpos1) as (Hwf' & Hle & Hkeep).
        split; [exact Hwf'|]. split; [lia|]. intros Hk.
        destruct (Hkeep Hk) as [Hp Hm]. split; [exact Hp|].
        rewrite Hm, Hm1. set_solver.
Qed.

Lemma sinter_loop_wf (server : redisServer) (key0 : list Z)
    (others : list (list Z * setobj)) (store : bool)
    (eles : list (Z + list Z)) :
  ∀ (bulks bulks' : list reply) (card card' : Z) (dst dst' : setobj),
    set_wf dst →
    sinter_loop server key0 others store eles bulks card dst
    = Some (bulks', card', dst') →
    set_wf dst'.
Proof.
  induction eles as [|e eles IH];
    intros bulks bulks' card card' dst dst' Hwf Hloop.
  - injection Hloop as _ _ <-. exact Hwf.
  - cbn [sinter_loop] in Hloop.
    destruct (sinter_scan key0 others e); [|eapply IH; eauto].
    destruct store; [|eapply IH; eauto].
    destruct (setTypeAdd server dst (object_of e)) as [[r s1]|] eqn:Hadd;
      [|discriminate].
    destruct (setTypeAdd_wf server dst s1 _ r Hwf Hadd) as (Hwf1 & _).
    eapply IH; eauto.
Qed.

Lemma union_loop_wf (server : redisServer)
    (sets : list (list Z * option setobj)) :
  ∀ (dst dst' : setobj) (card card' : Z),
    set_wf dst → union_loop server sets dst card = Some (dst', card') →
    set_wf dst'.
Proof.
  induction sets as [|[k [s|]] sets IH]; intros dst dst' card card' Hwf Hloop.
  - injection Hloop as <- _. exact Hwf.
  - cbn [union_loop] in Hloop.
    destruct (add_all_spec server (setTypeNextObject_all s) dst card Hwf)
      as (d1 & c1 & Hall & Hwf1 & _).
    rewrite Hall in Hloop. eapply IH; eauto.
  - cbn [union_loop] in Hloop. eapply IH; eauto.
Qed.

Lemma sunionDiff_compute_wf (server : redisServer) (op : set_op)
    (sets : list (list Z * option setobj)) (diff_algo : Z)
    (dst : setobj) (card : Z) :
  sets_wf sets →
  sunionDiff_compute server op sets diff_algo = Some (dst, card) →
  set_wf dst.
Proof.
  intros Hwfs Hc. unfold sunionDiff_compute in Hc.
  assert (∀ d c, Some (createIntsetObject, 0) = Some (d, c) → set_wf d)
    as Hempty.
  { intros d c [= <- _]. apply intset_wf_nil. }
  destruct op.
  - eapply union_loop_wf; [|exact Hc]. exact intset_wf_nil.
  - destruct sets as [|[key0 [set0|]] others]; try (eapply Hempty; exact Hc).
    apply Forall_cons in Hwfs as [Hwf0 Hwfs]. cbn [snd] in Hwf0.
    destruct (diff_algo =? 1).
    + match type of Hc with
      | diff1_loop ?sv ?k ?o ?e ?d ?c = _ =>
          destruct (diff1_loop_spec sv k o e d c intset_wf_nil)
            as (d1 & c1 & Hl & Hwf1 & _)
      end.
      rewrite Hl in Hc. injection Hc as <- _. exact Hwf1.
    + destruct (diff_algo =? 2); [|eapply Hempty; exact Hc].
      destruct (diff2_spec server set0 others Hwf0 Hwfs)
        as (d2 & c2 & Hd & Hwf2 & _).
      rewrite Hd in Hc. injection Hc as <- _. exact Hwf2.
  - destruct sets as [|[key0 [set0|]] others]; eapply Hempty; exact Hc.
Qed.

(** The end of a store form: the destination holds a set that is not empty,
    or nothing. *)
Lemma store_result_inv (server : redisServer) (db : redisDb)
    (dstkey : list Z) (dstset : setobj) :
  db_wf db → no_empty_set db → set_wf dstset →
  db_wf (store_result server db dstkey dstset).1.2
  ∧ no_empty_set (store_result server db dstkey dstset).1.2
  ∧ ((store_result server db dstkey dstset).2 = [shared_czero] →
     dict (store_result server db dstkey dstset).1.2 !! dstkey = None)
  ∧ dirty (store_result server db dstkey dstset).1.1 = dirty server + 1.
Proof.
  intros Hwf Hne Hs. unfold store_result.
  destruct (dbDelete_inv db dstkey Hwf Hne) as [Hwf1 Hne1].
  pose proof (dbDelete_absent db dstkey) as Habs.
  destruct (Db.dbDelete db dstkey) as [deleted db1]. cbn [snd] in *.
  destruct (0 <? setTypeSize dstset) eqn:Hpos; cbn [fst snd].
  - apply Z.ltb_lt in Hpos.
    destruct (dbAdd_inv db1 dstkey dstset Hwf1 Hne1 Hs Hpos) as [H1 H2].
    split; [exact H1|]. split; [exact H2|]. split; [discriminate|reflexivity].
  - split; [exact Hwf1|]. split; [exact Hne1|].
    split; [intros _; exact Habs|reflexivity].
Qed.

(** *** The commands *)

Lemma modified_after_dbAdd (db : redisDb) (k : list Z) (v v' : robj) :
  Db.modified_in_place (Db.dbAdd db k v) k v' = Db.modified_in_place db k v'.
Proof.
  unfold Db.dbAdd, Db.modified_in_place.
  destruct (dict db !! k); [reflexivity|].
  cbn [dict expires]. rewrite insert_insert_eq. reflexivity.
Qed.

Lemma saddCommand_inv (server server' : redisServer) (db db' : redisDb)
    (key ele : list Z) (more : list (list Z)) (reply : list reply) :
  db_wf db → no_empty_set db →
  saddCommand server db key ele more = Some (server', db', reply) →
  db_wf db' ∧ no_empty_set db' ∧ dirty server <= dirty server'.
Proof.
  intros Hwf Hne Hcmd. unfold saddCommand in Hcmd.
  assert (∀ set db1,
            set_wf set →
            (∀ v, Db.modified_in_place db1 key v
                  = Db.modified_in_place db key v) →
            match sadd_loop server set (ele :: more) 0 with
            | Some (set', added) =>
                Some (set_dirty server (dirty server + added),
                      Db.modified_in_place db1 key (Set_obj set'),
                      [ReplyLongLong added])
            | None => None
            end = Some (server', db', reply) →
            db_wf db' ∧ no_empty_set db' ∧ dirty server <= dirty server')
    as Hrun.
  { intros set db1 Hs Hdb1 Hr.
    destruct (sadd_loop server set (ele :: more) 0) as [[set' added]|] eqn:Hl;
      [|discriminate].
    injection Hr as <- <- _.
    destruct (sadd_loop_spec server _ _ _ _ _ Hs Hl) as (Hs' & Hadd & Hpos).
    rewrite Hdb1.
    destruct (modified_in_place_inv db key set' Hwf Hne Hs'
                (Hpos ltac:(left; discriminate))) as [H1 H2].
    split; [exact H1|]. split; [exact H2|]. cbn. lia. }
  destruct (Db.lookupKeyWrite db key) as [[s0|set|t]|] eqn:Hk.
  - injection Hcmd as <- <- _. split; [exact Hwf|]. split; [exact Hne|lia].
  - apply (Hrun set db (lookup_wf db key set Hwf Hk) (λ _, eq_refl) Hcmd).
  - injection Hcmd as <- <- _. split; [exact Hwf|]. split; [exact Hne|lia].
  - apply (Hrun (setTypeCreate ele)
                 (Db.dbAdd db key (Set_obj (setTypeCreate ele)))
                 (setTypeCreate_wf ele)); [|exact Hcmd].
    intros v. apply modified_after_dbAdd.
Qed.

Lemma sremCommand_inv (server server' : redisServer) (db db' : redisDb)
    (key : list Z) (argv : list (list Z)) (reply : list reply) :
  db_wf db → no_empty_set db →
  sremCommand server db key argv = Some (server', db', reply) →
  db_wf db' ∧ no_empty_set db' ∧ dirty server <= dirty server'
  ∧ (∀ set, Db.lookupKeyWrite db key = Some (Set_obj set) →
            members set ⊆ list_to_set argv → dict db' !! key = None).
Proof.
  intros Hwf Hne Hcmd. unfold sremCommand in Hcmd.
  destruct (Db.lookupKeyWrite db key) as [[s0|set|t]|] eqn:Hk;
    try (injection Hcmd as <- <- _;
         split; [exact Hwf|]; split; [exact Hne|]; split; [lia|];
         intros ? [=]).
  pose proof (lookup_wf db key set Hwf Hk) as Hs.
  pose proof (lookup_nonempty db key set Hne Hk) as Hpos.
  destruct (srem_loop_spec argv set 0 Hs Hpos) as (Hs' & Hdel & Hkeep).
  destruct (srem_loop set argv 0) as [[set' deleted] keyremoved].
  cbn [fst snd] in *. injection Hcmd as <- <- _.
  assert (dirty server <=
          dirty (if deleted =? 0 then server
                 else set_dirty server (dirty server + deleted))) as Hdirty.
  { destruct (deleted =? 0); cbn; lia. }
  destruct keyremoved.
  - destruct (dbDelete_inv db key Hwf Hne) as [H1 H2].
    split; [exact H1|]. split; [exact H2|]. split; [exact Hdirty|].
    intros _ _ _. apply dbDelete_absent.
  - destruct (Hkeep eq_refl) as [Hpos' Hm'].
    destruct (modified_in_place_inv db key set' Hwf Hne Hs' Hpos') as [H1 H2].
    split; [exact H1|]. split; [exact H2|]. split; [exact Hdirty|].
    intros set0 [= <-] Hsub. exfalso.
    assert (members set' = ∅) as Hempty by (rewrite Hm'; set_solver).
    rewrite (setTypeSize_members set' Hs'), Hempty, size_empty in Hpos'. lia.
Qed.

Lemma smoveCommand_inv (server server' : redisServer) (db db' : redisDb)
    (src dst ele : list Z) (reply : list reply) :
  db_wf db → no_empty_set db →
  smoveCommand server db src dst ele = Some (server', db', reply) →
  db_wf db' ∧ no_empty_set db' ∧ dirty server <= dirty server'.
Proof.
  intros Hwf Hne Hcmd. unfold smoveCommand in Hcmd.
  assert (db_wf db ∧ no_empty_set db ∧ dirty server <= dirty server) as Hsame
    by (split; [exact Hwf|split; [exact Hne|lia]]).
  destruct (Db.lookupKeyWrite db src) as [[s0|sset|t]|] eqn:Hsrc;
    try (injection Hcmd as <- <- _; exact Hsame).
  destruct (match Db.lookupKeyWrite db dst with
            | Some o => negb (is_set o)
            | None => false
            end) eqn:Hdst;
    [injection Hcmd as <- <- _; exact Hsame|].
  case_bool_decide as Hneq; [injection Hcmd as <- <- _; exact Hsame|].
  pose proof (lookup_wf db src sset Hwf Hsrc) as Hs.
  destruct (setTypeRemove_spec sset ele Hs) as (Hs' & _ & _ & _).
  destruct (setTypeRemove sset ele) as [r sset']. cbn [fst snd] in *.
  destruct (r =? 0); [injection Hcmd as <- <- _; exact Hsame|].
  set (db1 := if setTypeSize sset' =? 0 then (Db.dbDelete db src).2
              else Db.modified_in_place db src (Set_obj sset')) in *.
  assert (db_wf db1 ∧ no_empty_set db1) as [Hwf1 Hne1].
  { subst db1. destruct (setTypeSize sset' =? 0) eqn:Hz.
    - apply dbDelete_inv; assumption.
    - apply Z.eqb_neq in Hz. apply modified_in_place_inv; try assumption.
      pose proof (setTypeSize_nonneg sset'). lia. }
  assert (∃ dset db2,
            (match Db.lookupKeyWrite db dst with
             | Some (Set_obj d) => (d, db1)
             | _ => (setTypeCreate ele,
                     Db.dbAdd db1 dst (Set_obj (setTypeCreate ele)))
             end) = (dset, db2)
            ∧ set_wf dset
            ∧ ∀ v, Db.modified_in_place db2 dst v
                   = Db.modified_in_place db1 dst v)
    as (dset & db2 & Heq & Hd & Hmod).
  { destruct (Db.lookupKeyWrite db dst) as [[s0|d|t]|] eqn:Hk.
    - discriminate.
    - exists d, db1. split; [reflexivity|].
      split; [exact (lookup_wf db dst d Hwf Hk)|reflexivity].
    - discriminate.
    - eexists _, _. split; [reflexivity|].
      split; [apply setTypeCreate_wf|]. intros v. apply modified_after_dbAdd. }
  rewrite Heq in Hcmd.
  destruct (setTypeAdd _ dset ele) as [[a dset']|] eqn:Hadd; [|discriminate].
  injection Hcmd as <- <- _.
  destruct (setTypeAdd_wf _ dset dset' ele a Hd Hadd) as (Hd' & Hpos & _).
  rewrite Hmod.
  destruct (modified_in_place_inv db1 dst dset' Hwf1 Hne1 Hd' Hpos) as [H1 H2].
  split; [exact H1|]. split; [exact H2|].
  destruct (a =? 0); cbn; lia.
Qed.

(** A random pick is a member, and removing it takes exactly it out. *)
Lemma spop_pick (set : setobj) (draw : nat) (picked : Z + list Z) :
  set_wf set → setTypeRandomElement set draw = Some picked →
  let set' :=
    (let '(_, set') :=
       match picked, set with
       | inl llele, Intset_enc ints =>
           (createStringObjectFromLongLong llele,
            Intset_enc (fst (intsetRemove ints llele)))
       | inl llele, HT_enc _ => (createStringObjectFromLongLong llele, set)
       | inr ele, _ => (ele, snd (setTypeRemove set ele))
       end in set') in
  set_wf set' ∧ object_of picked ∈ members set
  ∧ members set' = members set ∖ {[object_of picked]}.
Proof.
  intros Hwf Hpick. destruct set as [ints|d]; cbn [setTypeRandomElement] in Hpick.
  - unfold intsetRandom in Hpick.
    destruct (ints !! (draw mod length ints)%nat) as [v|] eqn:Hv;
      [|discriminate].
    injection Hpick as <-. cbn [object_of].
    apply list_elem_of_lookup_2 in Hv.
    assert (is_int64 v) as Hv64.
    { destruct Hwf as [Hr _]. rewrite Forall_forall in Hr. auto. }
    pose proof (representable_ll2string v Hv64) as Hrep.
    split; [apply intsetRemove_wf; exact Hwf|]. split.
    + apply elem_of_members_intset. exists v. auto.
    + apply (members_intsetRemove ints _ v Hwf Hrep).
  - unfold dictGetRandomKey in Hpick.
    destruct (elements d !! (draw mod size d)%nat) as [e|] eqn:He;
      [|discriminate].
    injection Hpick as <-. cbn [object_of].
    apply list_elem_of_lookup_2, elem_of_elements in He.
    destruct (setTypeRemove_spec (HT_enc d) e I) as (H1 & H2 & _).
    split; [exact H1|]. split; [exact He|exact H2].
Qed.

Lemma spopCommand_inv (server server' : redisServer) (db db' : redisDb)
    (key : list Z) (draw : nat) (reply : list reply) :
  db_wf db → no_empty_set db →
  spopCommand server db key draw = Some (server', db', reply) →
  db_wf db' ∧ no_empty_set db' ∧ dirty server <= dirty server'
  ∧ (∀ set, Db.lookupKeyWrite db key = Some (Set_obj set) →
            setTypeSize set = 1 → dict db' !! key = None).
Proof.
  intros Hwf Hne Hcmd. unfold spopCommand in Hcmd.
  destruct (Db.lookupKeyWrite db key) as [[s0|set|t]|] eqn:Hk;
    try (injection Hcmd as <- <- _;
         split; [exact Hwf|]; split; [exact Hne|]; split; [lia|];
         intros ? [=]).
  pose proof (lookup_wf db key set Hwf Hk) as Hs.
  destruct (setTypeRandomElement set draw) as [picked|] eqn:Hpick;
    [|discriminate].
  pose proof (spop_pick set draw picked Hs Hpick) as Hp. cbv zeta in Hp.
  destruct (match picked, set with
            | inl llele, Intset_enc ints =>
                (createStringObjectFromLongLong llele,
                 Intset_enc (fst (intsetRemove ints llele)))
            | inl llele, HT_enc _ =>
                (createStringObjectFromLongLong llele, set)
            | inr ele, _ => (ele, snd (setTypeRemove set ele))
            end) as [ele set'].
  destruct Hp as (Hs' & Hin & Hm').
  injection Hcmd as <- <- _.
  assert (setTypeSize set' = setTypeSize set - 1) as Hsize.
  { rewrite (setTypeSize_members set' Hs'), (setTypeSize_members set Hs), Hm'.
    rewrite size_remove, bool_decide_eq_true_2 by exact Hin. reflexivity. }
  destruct (setTypeSize set' =? 0) eqn:Hz.
  - destruct (dbDelete_inv db key Hwf Hne) as [H1 H2].
    split; [exact H1|]. split; [exact H2|]. split; [cbn; lia|].
    intros _ _ _. apply dbDelete_absent.
  - apply Z.eqb_neq in Hz.
    destruct (modified_in_place_inv db key set' Hwf Hne Hs'
                ltac:(pose proof (setTypeSize_nonneg set'); lia)) as [H1 H2].
    split; [exact H1|]. split; [exact H2|]. split; [cbn; lia|].
    intros set0 [= <-] H1'. lia.
Qed.

Lemma sinterstore_inv (server server' : redisServer) (db db' : redisDb)
    (dstkey : list Z) (setkeys : list (list Z)) (reply : list reply) :
  db_wf db → no_empty_set db →
  sinterstoreCommand server db dstkey setkeys = Some (server', db', reply) →
  db_wf db' ∧ no_empty_set db' ∧ dirty server <= dirty server'
  ∧ (reply = [shared_czero] → dict db' !! dstkey = None).
Proof.
  intros Hwf Hne Hcmd. unfold sinterstoreCommand, sinterGenericCommand in Hcmd.
  destruct (sinter_lookup db setkeys) as [sets| |].
  - destruct (qsort qsortCompareSetsByCardinality sets)
      as [|[key0 set0] others]; [discriminate|].
    destruct (sinter_loop _ _ _ _ _ _ _ _) as [[[bulks card] dstset]|] eqn:Hl;
      [|discriminate].
    pose proof (sinter_loop_wf _ _ _ _ _ _ _ _ _ createIntsetObject _
                  intset_wf_nil Hl) as Hd.
    destruct (store_result_inv server db dstkey dstset Hwf Hne Hd)
      as (H1 & H2 & H3 & H4).
    destruct (store_result server db dstkey dstset) as [[sv d] rp].
    injection Hcmd as <- <- <-. cbn [fst snd] in *.
    split; [exact H1|]. split; [exact H2|]. split; [lia|exact H3].
  - destruct (dbDelete_inv db dstkey Hwf Hne) as [H1 H2].
    pose proof (dbDelete_absent db dstkey) as H3.
    destruct (Db.dbDelete db dstkey) as [deleted db1]. cbn [snd] in *.
    injection Hcmd as <- <- _.
    split; [exact H1|]. split; [exact H2|].
    split; [destruct deleted; cbn; lia|intros _; exact H3].
  - injection Hcmd as <- <- <-.
    split; [exact Hwf|]. split; [exact Hne|]. split; [lia|discriminate].
Qed.

Lemma sunionDiff_store_inv (server server' : redisServer) (db db' : redisDb)
    (dstkey : list Z) (setkeys : list (list Z)) (op : set_op)
    (reply : list reply) :
  db_wf db → no_empty_set db →
  sunionDiffGenericCommand server db setkeys (Some dstkey) op
  = Some (server', db', reply) →
  db_wf db' ∧ no_empty_set db' ∧ dirty server <= dirty server'
  ∧ (reply = [shared_czero] → dict db' !! dstkey = None).
Proof.
  intros Hwf Hne Hcmd. unfold sunionDiffGenericCommand in Hcmd.
  destruct (sunion_lookup db setkeys) as [sets|] eqn:Hl.
  - pose proof (sunion_lookup_wf db setkeys sets Hwf Hl) as Hwfs.
    destruct (sunionDiff_compute _ _ _ _) as [[dstset card]|] eqn:Hc;
      [|discriminate].
    pose proof (sunionDiff_compute_wf _ _ _ _ _ _ Hwfs Hc) as Hd.
    destruct (store_result_inv server db dstkey dstset Hwf Hne Hd)
      as (H1 & H2 & H3 & H4).
    destruct (store_result server db dstkey dstset) as [[sv d] rp].
    injection Hcmd as <- <- <-. cbn [fst snd] in *.
    split; [exact H1|]. split; [exact H2|]. split; [lia|exact H3].
  - injection Hcmd as <- <- <-.
    split; [exact Hwf|]. split; [exact Hne|]. split; [lia|discriminate].
Qed.

(** Every set-writing command adds to the dirty counter, never subtracts. *)
Lemma run_set_write_dirty (server server' : redisServer) (db db' : redisDb)
    (cmd : set_write_command) (reply : list reply) :
  db_wf db → no_empty_set db →
  run_set_write server db cmd = Some (server', db', reply) →
  dirty server <= dirty server'.
Proof.
  intros Hwf Hne Hrun. destruct cmd; cbn [run_set_write] in Hrun.
  - apply (saddCommand_inv _ _ _ _ _ _ _ _ Hwf Hne Hrun).
  - apply (sremCommand_inv _ _ _ _ _ _ _ Hwf Hne Hrun).
  - apply (smoveCommand_inv _ _ _ _ _ _ _ _ Hwf Hne Hrun).
  - apply (spopCommand_inv _ _ _ _ _ _ _ Hwf Hne Hrun).
  - apply (sinterstore_inv _ _ _ _ _ _ _ Hwf Hne Hrun).
  - apply (sunionDiff_store_inv _ _ _ _ _ _ _ _ Hwf Hne Hrun).
  - apply (sunionDiff_store_inv _ _ _ _ _ _ _ _ Hwf Hne Hrun).
Qed.

End SetKeyspace.

(** ** SRANDMEMBER with a count *)

Module RandMember.
Import Util Redis TSet UtilFacts SetFacts SetAlgebra SetKeyspace.

(** *** Counts below 2^32 *)

Lemma size_elements (d : gset (list Z)) : size d = length (elements d).
Proof. reflexivity. Qed.

Lemma setTypeSize_length (set : setobj) :
  setTypeSize set = Z.of_nat (length (setTypeNextObject_all set)).
Proof.
  destruct set as [ints|d]; cbn.
  - unfold intsetLen. rewrite length_fmap. reflexivity.
  - unfold dictSize. rewrite size_elements. reflexivity.
Qed.

(** A random element is the element of the enumeration at the index
    drawn. *)
Lemma setTypeRandomElement_object (set : setobj) (draw : nat) :
  object_of <$> setTypeRandomElement set draw
  = setTypeNextObject_all set
      !! (draw mod length (setTypeNextObject_all set))%nat.
Proof.
  destruct set as [ints|d]; cbn [setTypeRandomElement setTypeNextObject_all].
  - unfold intsetRandom. rewrite length_fmap, list_lookup_fmap.
    destruct (ints !! _); reflexivity.
  - unfold dictGetRandomKey. rewrite size_elements.
    destruct (elements d !! _); reflexivity.
Qed.

Lemma setTypeRandomElement_member (set : setobj) (draw : nat)
    (ele : Z + list Z) :
  setTypeRandomElement set draw = Some ele → object_of ele ∈ members set.
Proof.
  intros H. pose proof (setTypeRandomElement_object set draw) as Ho.
  rewrite H in Ho. cbn in Ho. symmetry in Ho.
  apply list_elem_of_lookup_2 in Ho.
  apply setTypeNextObject_all_members. exact Ho.
Qed.

(** CASE 4: the picks that are kept are new members of the set, one per
    unit of the count. *)
Lemma srandmember_insert_spec (set : setobj) (count : Z)
    (draws : list nat) :
  ∀ (d : gset (list Z)) (added : Z) (d' : gset (list Z)),
    added <= count →
    srandmember_insert set d added count draws = Some d' →
    d' ⊆ d ∪ members set
    ∧ Z.of_nat (size d') = Z.of_nat (size d) + (count - added).
Proof.
  induction draws as [|draw draws IH]; intros d added d' Hle Hrun;
    cbn [srandmember_insert] in Hrun.
  - destruct (count <=? added) eqn:Hc; [|discriminate].
    apply Z.leb_le in Hc. injection Hrun as <-.
    split; [set_solver|lia].
  - destruct (count <=? added) eqn:Hc.
    { apply Z.leb_le in Hc. injection Hrun as <-. split; [set_solver|lia]. }
    apply Z.leb_gt in Hc.
    destruct (setTypeRandomElement set draw) as [ele|] eqn:Hele;
      [|discriminate].
    apply setTypeRandomElement_member in Hele.
    unfold dictAdd in Hrun. case_bool_decide as Hin.
    + apply IH in Hrun as [Hsub Hsize]; [|lia]. split; assumption.
    + apply IH in Hrun as [Hsub Hsize]; [|lia].
      split; [set_solver|].
      rewrite Hsize, size_add, bool_decide_eq_false_2 by exact Hin. lia.
Qed.

(** CASE 4 ends when the draws walk through the enumeration. *)
Lemma srandmember_insert_runs (set : setobj) (count : Z) :
  set_wf set → 0 <= count <= setTypeSize set →
  ∀ (n k : nat),
    (k + n)%nat = Z.to_nat count →
    is_Some (srandmember_insert set
               (list_to_set (take k (setTypeNextObject_all set)))
               (Z.of_nat k) count (seq k n)).
Proof.
  intros Hwf Hcount. rewrite setTypeSize_length in Hcount.
  pose proof (setTypeNextObject_all_NoDup set Hwf) as Hnd.
  induction n as [|n IH]; intros k Hk; cbn [seq srandmember_insert].
  - replace (count <=? Z.of_nat k) with true
      by (symmetry; apply Z.leb_le; lia).
    eexists; reflexivity.
  - replace (count <=? Z.of_nat k) with false
      by (symmetry; apply Z.leb_gt; lia).
    pose proof (setTypeRandomElement_object set k) as Ho.
    rewrite Nat.mod_small in Ho by lia.
    destruct (lookup_lt_is_Some_2 (setTypeNextObject_all set) k ltac:(lia))
      as [x Hx].
    rewrite Hx in Ho.
    destruct (setTypeRandomElement set k) as [ele|]; [|discriminate].
    cbn in Ho. injection Ho as Ho.
    unfold dictAdd. rewrite bool_decide_eq_false_2.
    + replace ({[object_of ele]}
               ∪ list_to_set (take k (setTypeNextObject_all set)))
        with (list_to_set (C := gset (list Z))
                (take (S k) (setTypeNextObject_all set))).
      * replace (Z.of_nat k + 1) with (Z.of_nat (S k)) by lia.
        apply IH. lia.
      * rewrite (take_S_r _ _ _ Hx), list_to_set_app_L, Ho. set_solver.
    + rewrite Ho, elem_of_list_to_set. intros Hin.
      apply list_elem_of_lookup_1 in Hin as [i Hi].
      pose proof (lookup_lt_Some _ _ _ Hi) as Hlt.
      rewrite length_take in Hlt.
      rewrite lookup_take_lt in Hi by lia.
      pose proof (NoDup_lookup _ _ _ _ Hnd Hi Hx). lia.
Qed.

(** CASE 3, the copy: the auxiliary dictionary gets every member. *)
Lemma srandmember_fill_spec (eles : list (list Z)) :
  ∀ (d : gset (list Z)),
    NoDup eles → (∀ e, e ∈ eles → e ∉ d) →
    srandmember_fill eles d = Some (list_to_set eles ∪ d).
Proof.
  induction eles as [|e eles IH]; intros d Hnd Hfresh; cbn [srandmember_fill].
  - f_equal. set_solver.
  - apply NoDup_cons in Hnd as [He Hnd].
    unfold dictAdd. rewrite bool_decide_eq_false_2
      by (apply Hfresh; left).
    rewrite IH; [f_equal; set_solver|exact Hnd|].
    intros x Hx. pose proof (Hfresh x ltac:(right; exact Hx)).
    set_solver.
Qed.

(** CASE 3, the removals: one member leaves per turn. *)
Lemma srandmember_subtract_spec (excess : nat) :
  ∀ (draws : list nat) (d d' : gset (list Z)),
    srandmember_subtract d excess draws = Some d' →
    d' ⊆ d ∧ (size d' + excess = size d)%nat.
Proof.
  induction excess as [|excess IH]; intros draws d d' Hrun;
    cbn [srandmember_subtract] in Hrun.
  - injection Hrun as <-. split; [set_solver|lia].
  - destruct draws as [|draw draws]; [discriminate|].
    destruct (dictGetRandomKey d draw) as [key|] eqn:Hkey; [|discriminate].
    unfold dictGetRandomKey in Hkey.
    apply list_elem_of_lookup_2, elem_of_elements in Hkey.
    unfold dictDelete in Hrun.
    rewrite bool_decide_eq_true_2 in Hrun by exact Hkey. cbn [snd] in Hrun.
    apply IH in Hrun as [Hsub Hsize].
    split; [set_solver|].
    pose proof (size_remove d key) as Hrem.
    rewrite bool_decide_eq_true_2 in Hrem by exact Hkey. lia.
Qed.

Lemma srandmember_subtract_runs (excess : nat) :
  ∀ (d : gset (list Z)),
    (excess ≤ size d)%nat →
    is_Some (srandmember_subtract d excess (replicate excess 0%nat)).
Proof.
  induction excess as [|excess IH]; intros d Hle;
    cbn [srandmember_subtract replicate]; [eexists; reflexivity|].
  unfold dictGetRandomKey.
  destruct (lookup_lt_is_Some_2 (elements d) (0 mod size d)%nat) as [key Hkey].
  { rewrite <- size_elements. apply Nat.mod_upper_bound. lia. }
  rewrite Hkey.
  apply list_elem_of_lookup_2, elem_of_elements in Hkey.
  unfold dictDelete. rewrite bool_decide_eq_true_2 by exact Hkey.
  cbn [snd]. apply IH.
  pose proof (size_remove d key) as Hrem.
  rewrite bool_decide_eq_true_2 in Hrem by exact Hkey. lia.
Qed.

(** The reply of SUNION on the one key: every member, once. *)
Lemma sunion_one_key (server : redisServer) (db : redisDb) (key : list Z)
    (set : setobj) :
  set_wf set → Db.lookupKeyRead db key = Some (Set_obj set) →
  ∃ bulks,
    sunionDiffGenericCommand server db [key] None REDIS_OP_UNION
    = Some (server, db,
            ReplyMultiBulkLen (setTypeSize set) :: (ReplyBulk <$> bulks))
    ∧ NoDup bulks
    ∧ list_to_set bulks = members set.
Proof.
  intros Hwf Hlookup. unfold sunionDiffGenericCommand.
  unfold Db.lookupKeyRead in Hlookup.
  cbn [sunion_lookup]. rewrite Hlookup. cbn [fmap option_fmap option_map].
  cbn [sunionDiff_compute union_loop].
  destruct (add_all_spec server (setTypeNextObject_all set)
              createIntsetObject 0 intset_wf_nil)
    as (dst & card & Hall & Hwf' & Hm & Hcard).
  rewrite Hall. exists (setTypeNextObject_all dst).
  rewrite list_to_set_NextObject_all in Hm.
  assert (members dst = members set) as Hsame by (rewrite Hm; set_solver).
  split; [|split].
  - rewrite Hcard by reflexivity.
    rewrite (setTypeSize_members set Hwf), Hsame. reflexivity.
  - apply setTypeNextObject_all_NoDup. exact Hwf'.
  - rewrite list_to_set_NextObject_all. exact Hsame.
Qed.

(** X15. For a count from 0 to 2^32 - 1 the command does what is expected
    of it: whenever it replies, the reply is the empty multi-reply for the
    count 0 and otherwise min(count, |S|) distinct members of the set; and
    there are draws with which it replies. *)
Lemma srandmember_count_below_2_32 (server : redisServer) (db : redisDb)
    (key : list Z) (set : setobj) (l : Z) :
  set_wf set →
  Db.lookupKeyRead db key = Some (Set_obj set) →
  0 <= l < 4294967296 →
  (∀ draws out,
     srandmemberWithCountCommand server db key l draws = Some out →
     ∃ bulks,
       out = (server, db,
              if l =? 0 then [shared_emptymultibulk]
              else ReplyMultiBulkLen (Z.min l (setTypeSize set))
                   :: (ReplyBulk <$> bulks))
       ∧ NoDup bulks
       ∧ list_to_set bulks ⊆ members set
       ∧ Z.of_nat (length bulks) = Z.min l (setTypeSize set))
  ∧ (∃ draws out,
       srandmemberWithCountCommand server db key l draws = Some out).
Proof.
  intros Hwf Hlookup Hl.
  pose proof (setTypeSize_nonneg set) as Hsize0.
  pose proof (setTypeSize_members set Hwf) as Hsize.
  assert (to_ulong (to_unsigned l) = l) as Hcount.
  { unfold to_ulong, to_unsigned.
    rewrite (Z.mod_small l 4294967296) by lia. apply Z.mod_small. lia. }
  assert (srandmember_fill (setTypeNextObject_all set) ∅ = Some (members set))
    as Hfill.
  { rewrite srandmember_fill_spec.
    - rewrite list_to_set_NextObject_all. f_equal. set_solver.
    - apply setTypeNextObject_all_NoDup. exact Hwf.
    - set_solver. }
  unfold srandmemberWithCountCommand.
  replace (0 <=? l) with true by (symmetry; apply Z.leb_le; lia).
  rewrite Hcount, Hlookup. cbn [negb].
  destruct (l =? 0) eqn:H0.
  { apply Z.eqb_eq in H0. split.
    - intros draws out Hout. injection Hout as <-. exists [].
      split; [reflexivity|]. split; [constructor|].
      split; [set_solver|]. cbn. lia.
    - exists [], (server, db, [shared_emptymultibulk]). reflexivity. }
  apply Z.eqb_neq in H0.
  destruct (setTypeSize set <=? l) eqn:Hall.
  { apply Z.leb_le in Hall.
    destruct (sunion_one_key server db key set Hwf Hlookup)
      as (bulks & Hrun & Hnd & Hset).
    rewrite Hrun. split.
    - intros draws out Hout. injection Hout as <-. exists bulks.
      rewrite Z.min_r by lia.
      split; [reflexivity|]. split; [exact Hnd|].
      split; [rewrite Hset; set_solver|].
      rewrite Hsize, <- Hset, size_list_to_set by exact Hnd. reflexivity.
    - exists [], (server, db,
                  ReplyMultiBulkLen (setTypeSize set)
                  :: (ReplyBulk <$> bulks)). reflexivity. }
  apply Z.leb_gt in Hall. rewrite Hfill.
  unfold dictSize. rewrite <- Hsize, Z.eqb_refl.
  assert (∀ d : gset (list Z),
            d ⊆ members set → Z.of_nat (size d) = l →
            ∃ bulks,
              (server, db, ReplyMultiBulkLen l :: (ReplyBulk <$> elements d))
              = (server, db,
                 ReplyMultiBulkLen (Z.min l (setTypeSize set))
                 :: (ReplyBulk <$> bulks))
              ∧ NoDup bulks
              ∧ list_to_set bulks ⊆ members set
              ∧ Z.of_nat (length bulks) = Z.min l (setTypeSize set))
    as Hreply.
  { intros d Hsub Hd. exists (elements d). rewrite Z.min_l by lia.
    split; [reflexivity|]. split; [apply NoDup_elements|].
    split; [rewrite list_to_set_elements_L; exact Hsub|].
    rewrite <- size_elements. exact Hd. }
  destruct (setTypeSize set
            <? to_ulong (l * SRANDMEMBER_SUB_STRATEGY_MUL)).
  - split.
    + intros draws out Hout.
      destruct (srandmember_subtract _ _ draws) as [d|] eqn:Hsub;
        [|discriminate].
      injection Hout as <-.
      apply srandmember_subtract_spec in Hsub as [Hsub Hn].
      apply Hreply; [exact Hsub|lia].
    + destruct (srandmember_subtract_runs
                  (Z.to_nat (setTypeSize set - l)) (members set)
                  ltac:(lia)) as [d Hd].
      eexists _, _. rewrite Hd. reflexivity.
  - split.
    + intros draws out Hout.
      destruct (srandmember_insert set ∅ 0 l draws) as [d|] eqn:Hins;
        [|discriminate].
      injection Hout as <-.
      apply srandmember_insert_spec in Hins as [Hsub Hn]; [|lia].
      apply Hreply; [set_solver|].
      rewrite Hn, size_empty. lia.
    + destruct (srandmember_insert_runs set l Hwf ltac:(lia)
                  (Z.to_nat l) 0%nat ltac:(lia)) as [d Hd].
      change (srandmember_insert set ∅ 0 l (seq 0 (Z.to_nat l)) = Some d)
        in Hd.
      eexists _, _. rewrite Hd. reflexivity.
Qed.

(** C8, at counts of 2^32 and more.  The count is stored through a cast to
    [unsigned], so only its low 32 bits are kept: on the set {1,2} a count
    of 2^32 is served as the count 0 (the empty multi-reply, not the two
    members), and a count of 2^32 + 1 as the count 1 (one member, not
    two). *)
Theorem srandmember_count_truncated :
  srandmemberWithCountCommand
    (mkServer [] 16 None true true 512 0 0 0 0 0 REDIS_OK (-1) (-1) 0 0)
    (mkDb (<[ [115] := Set_obj (Intset_enc [1; 2]) ]> ∅) ∅)
    [115] 4294967296 []
  = Some (mkServer [] 16 None true true 512 0 0 0 0 0 REDIS_OK (-1) (-1) 0 0,
          mkDb (<[ [115] := Set_obj (Intset_enc [1; 2]) ]> ∅) ∅,
          [shared_emptymultibulk])
  ∧ ∃ ele,
      srandmemberWithCountCommand
        (mkServer [] 16 None true true 512 0 0 0 0 0 REDIS_OK (-1) (-1) 0 0)
        (mkDb (<[ [115] := Set_obj (Intset_enc [1; 2]) ]> ∅) ∅)
        [115] 4294967297 [0%nat]
      = Some (mkServer [] 16 None true true 512 0 0 0 0 0 REDIS_OK (-1) (-1)
                0 0,
              mkDb (<[ [115] := Set_obj (Intset_enc [1; 2]) ]> ∅) ∅,
              [ReplyMultiBulkLen 1; ReplyBulk ele]).
Proof.
  split.
  - vm_compute. reflexivity.
  - eexists. vm_compute. reflexivity.
Qed.

End RandMember.

(** ** The dirty counter and the background save *)

Module DirtyCounter.
Import Redis Rdb TSet Persistence.

Lemma sadd_loop_added (server : redisServer) (argv : list (list Z)) :
  ∀ set added set' added',
    sadd_loop server set argv added = Some (set', added') → added <= added'.
Proof.
  induction argv as [|x argv IH]; intros set added set' added' H.
  - injection H as _ <-. lia.
  - cbn [sadd_loop] in H.
    destruct (setTypeAdd server set x) as [[r s1]|]; [|discriminate].
    apply IH in H. destruct (r =? 0); lia.
Qed.

Lemma srem_loop_deleted (argv : list (list Z)) :
  ∀ set deleted, deleted <= (srem_loop set argv deleted).1.2.
Proof.
  induction argv as [|x argv IH]; intros set deleted.
  - cbn. lia.
  - cbn [srem_loop]. destruct (setTypeRemove set x) as [r s1].
    destruct (r =? 0); [apply IH|].
    destruct (setTypeSize s1 =? 0); [cbn; lia|].
    specialize (IH s1 (deleted + 1)). lia.
Qed.

Lemma store_result_server (server : redisServer) (db : redisDb)
    (dstkey : list Z) (dstset : setobj) :
  (store_result server db dstkey dstset).1.1
  = set_dirty server (dirty server + 1).
Proof.
  unfold store_result. destruct (Db.dbDelete db dstkey) as [deleted db1].
  destruct (0 <? setTypeSize dstset); reflexivity.
Qed.

Lemma grows_refl (server : redisServer) : grows server server.
Proof. split; [lia|reflexivity]. Qed.

Lemma grows_set_dirty (server : redisServer) (v : Z) :
  dirty server <= v → grows server (set_dirty server v).
Proof. intros H. split; [exact H|reflexivity]. Qed.

Lemma run_set_write_grows (server server' : redisServer) (db db' : redisDb)
    (cmd : set_write_command) (reply : list reply) :
  run_set_write server db cmd = Some (server', db', reply) →
  grows server server'.
Proof.
  intros Hrun. destruct cmd; cbn [run_set_write] in Hrun.
  - unfold saddCommand in Hrun.
    destruct (Db.lookupKeyWrite db key) as [[s0|set|t]|];
      try (injection Hrun as <- _ _; apply grows_refl).
    + destruct (sadd_loop _ _ _ _) as [[set' added]|] eqn:Hl; [|discriminate].
      injection Hrun as <- _ _. apply sadd_loop_added in Hl.
      apply grows_set_dirty. lia.
    + destruct (sadd_loop _ _ _ _) as [[set' added]|] eqn:Hl; [|discriminate].
      injection Hrun as <- _ _. apply sadd_loop_added in Hl.
      apply grows_set_dirty. lia.
  - unfold sremCommand in Hrun.
    destruct (Db.lookupKeyWrite db key) as [[s0|set|t]|];
      try (injection Hrun as <- _ _; apply grows_refl).
    pose proof (srem_loop_deleted eles set 0) as Hd.
    destruct (srem_loop set eles 0) as [[set' deleted] kr]. cbn [fst snd] in Hd.
    injection Hrun as <- _ _.
    destruct (deleted =? 0); [apply grows_refl|apply grows_set_dirty; lia].
  - unfold smoveCommand in Hrun.
    destruct (Db.lookupKeyWrite db src) as [[s0|sset|t]|];
      try (injection Hrun as <- _ _; apply grows_refl).
    destruct (match Db.lookupKeyWrite db dst with
              | Some o => negb (is_set o)
              | None => false
              end); [injection Hrun as <- _ _; apply grows_refl|].
    case_bool_decide; [injection Hrun as <- _ _; apply grows_refl|].
    destruct (setTypeRemove sset ele) as [r sset'].
    destruct (r =? 0); [injection Hrun as <- _ _; apply grows_refl|].
    destruct (match Db.lookupKeyWrite db dst with
              | Some (Set_obj d) => _
              | _ => _
              end) as [dset db2].
    destruct (setTypeAdd _ dset ele) as [[a dset']|]; [|discriminate].
    injection Hrun as <- _ _.
    destruct (a =? 0); split; cbn; try reflexivity; lia.
  - unfold spopCommand in Hrun.
    destruct (Db.lookupKeyWrite db key) as [[s0|set|t]|];
      try (injection Hrun as <- _ _; apply grows_refl).
    destruct (setTypeRandomElement set draw) as [picked|]; [|discriminate].
    destruct (match picked, set with
              | inl llele, Intset_enc ints => _
              | inl llele, HT_enc _ => _
              | inr ele, _ => _
              end) as [ele set'].
    injection Hrun as <- _ _. apply grows_set_dirty. lia.
  - unfold sinterstoreCommand, sinterGenericCommand in Hrun.
    destruct (sinter_lookup db setkeys) as [sets| |].
    + destruct (qsort _ sets) as [|[key0 set0] others]; [discriminate|].
      destruct (sinter_loop _ _ _ _ _ _ _ _) as [[[bulks card] dstset]|];
        [|discriminate].
      pose proof (store_result_server server db dstkey dstset) as Hs.
      destruct (store_result server db dstkey dstset) as [[sv d] rp].
      injection Hrun as <- _ _. cbn [fst] in Hs. subst sv.
      apply grows_set_dirty. lia.
    + destruct (Db.dbDelete db dstkey) as [deleted db1].
      injection Hrun as <- _ _.
      destruct deleted; [apply grows_set_dirty; lia|apply grows_refl].
    + injection Hrun as <- _ _. apply grows_refl.
  - unfold sunionstoreCommand, sunionDiffGenericCommand in Hrun.
    destruct (sunion_lookup db setkeys) as [sets|];
      [|injection Hrun as <- _ _; apply grows_refl].
    destruct (sunionDiff_compute _ _ _ _) as [[dstset card]|]; [|discriminate].
    pose proof (store_result_server server db dstkey dstset) as Hs.
    destruct (store_result server db dstkey dstset) as [[sv d] rp].
    injection Hrun as <- _ _. cbn [fst] in Hs. subst sv.
    apply grows_set_dirty. lia.
  - unfold sdiffstoreCommand, sunionDiffGenericCommand in Hrun.
    destruct (sunion_lookup db setkeys) as [sets|];
      [|injection Hrun as <- _ _; apply grows_refl].
    destruct (sunionDiff_compute _ _ _ _) as [[dstset card]|]; [|discriminate].
    pose proof (store_result_server server db dstkey dstset) as Hs.
    destruct (store_result server db dstkey dstset) as [[sv d] rp].
    injection Hrun as <- _ _. cbn [fst] in Hs. subst sv.
    apply grows_set_dirty. lia.
Qed.

Lemma write_step_grows (server server' : redisServer) :
  write_step server server' → grows server server'.
Proof.
  intros [sv sv' db db' cmd reply Hrun|sv cmd].
  - exact (run_set_write_grows _ _ _ _ _ _ Hrun).
  - destruct cmd as [|[]| | | |deleted]; cbn [hash_write_dirty];
      try (apply grows_set_dirty; lia); try apply grows_refl.
    destruct (0 <? deleted)%nat; [apply grows_set_dirty; lia|apply grows_refl].
Qed.

Lemma write_steps_grow (server server' : redisServer) :
  rtc write_step server server' → grows server server'.
Proof.
  induction 1 as [s|s1 s2 s3 Hstep _ IH]; [apply grows_refl|].
  apply write_step_grows in Hstep. destruct Hstep as [H1 H2].
  destruct IH as [H3 H4]. split; [lia|congruence].
Qed.

(** C7.  A background save is started with the dirty counter at [d0]: the
    parent records [d0] in [dirty_before_bgsave].  Whatever write commands
    run until the child ends, none of them decreases the counter or
    touches the recorded value.  When the child then terminates normally
    with exit status 0, the completion handler sets the counter to its
    current value minus [d0] (the writes since the fork), sets the
    last-save time to the current time and the last background save status
    to success. *)
Theorem backgroundSaveDoneHandler_dirty (server s1 s2 : redisServer)
    (now0 fork_usec childpid now1 : Z) :
  rdbSaveBackground server now0 fork_usec childpid = (REDIS_OK, s1) →
  rtc write_step s1 s2 →
  dirty_before_bgsave s1 = dirty server
  ∧ dirty s1 = dirty server
  ∧ dirty server <= dirty s2
  ∧ dirty (backgroundSaveDoneHandler s2 0 0 now1) = dirty s2 - dirty server
  ∧ lastsave (backgroundSaveDoneHandler s2 0 0 now1) = now1
  ∧ lastbgsave_status (backgroundSaveDoneHandler s2 0 0 now1) = REDIS_OK
  ∧ rdb_child_pid (backgroundSaveDoneHandler s2 0 0 now1) = -1
  ∧ (∀ s s', write_step s s' → dirty s <= dirty s').
Proof.
  intros Hfork Hsteps.
  assert (dirty_before_bgsave s1 = dirty server ∧ dirty s1 = dirty server)
    as [Hd0 Hd1].
  { unfold rdbSaveBackground in Hfork.
    destruct (negb (rdb_child_pid server =? -1)); [discriminate|].
    destruct (childpid =? -1); [discriminate|].
    injection Hfork as <-. split; reflexivity. }
  destruct (write_steps_grow s1 s2 Hsteps) as [Hle Hsame].
  split; [exact Hd0|]. split; [exact Hd1|]. split; [lia|].
  split; [cbn; lia|]. split; [reflexivity|]. split; [reflexivity|].
  split; [reflexivity|].
  intros s s' Hstep. apply (write_step_grows s s' Hstep).
Qed.

(** The theorem on a server with 5 unsaved writes at the fork and an SADD
    of two new members and an HDEL of one field while the child runs: the
    handler leaves 3 on the counter. *)
Lemma backgroundSaveDoneHandler_dirty_witness :
  dirty (backgroundSaveDoneHandler
           (mkServer [] 16 None true true 512 0 8 5 0 100 REDIS_OK 4242 100
              (-1) 17) 0 0 160) = 3
  ∧ lastsave (backgroundSaveDoneHandler
                (mkServer [] 16 None true true 512 0 8 5 0 100 REDIS_OK 4242
                   100 (-1) 17) 0 0 160) = 160.
Proof.
  assert (rdbSaveBackground
            (mkServer [] 16 None true true 512 0 5 0 0 0 REDIS_OK (-1) (-1)
               (-1) 0) 100 17 4242
          = (REDIS_OK,
             mkServer [] 16 None true true 512 0 5 5 0 100 REDIS_OK 4242 100
               (-1) 17)) as Hfork by reflexivity.
  assert (rtc write_step
            (mkServer [] 16 None true true 512 0 5 5 0 100 REDIS_OK 4242 100
               (-1) 17)
            (mkServer [] 16 None true true 512 0 8 5 0 100 REDIS_OK 4242 100
               (-1) 17)) as Hsteps.
  { apply rtc_l with
      (mkServer [] 16 None true true 512 0 7 5 0 100 REDIS_OK 4242 100
         (-1) 17).
    - apply (step_set_command _ _ (mkDb ∅ ∅)
               (mkDb {[ [115] := Set_obj (Intset_enc [1; 2]) ]} ∅)
               (SADD [115] [49] [[50]]) [ReplyLongLong 2]).
      vm_compute. reflexivity.
    - apply rtc_once.
      exact (step_hash_command
               (mkServer [] 16 None true true 512 0 7 5 0 100 REDIS_OK 4242
                  100 (-1) 17) (HDEL 1)). }
  destruct (backgroundSaveDoneHandler_dirty _ _ _ _ _ _ 160 Hfork Hsteps)
    as (_ & _ & _ & Hdirty & Hsave & _).
  split; [exact Hdirty|exact Hsave].
Defined.

End DirtyCounter.

(** ** The live-bytes counter of the allocator wrapper *)

Module ZmallocFacts.
Import Zmalloc.

Section Platform.

Variable HAVE_MALLOC_SIZE : bool.
Variable sun : bool.
Variable sizeof_long : Z.
Variable sizeof_size_t : Z.
Variable sizeof_long_long : Z.

Local Abbreviation PREFIX := (PREFIX_SIZE HAVE_MALLOC_SIZE sun sizeof_size_t
                      sizeof_long_long).
Local Abbreviation size_t := (to_size_t sizeof_size_t).
Local Abbreviation round := (round_to_long sizeof_long sizeof_size_t).
Local Abbreviation SIZE_MOD := (2 ^ (8 * sizeof_size_t)).

(** The platform: [long] is a power of two bytes wide, not wider than the
    range of [size_t], and the prefix is a whole number of [long]s. *)
Variable k : Z.
Hypothesis long_pow2 : sizeof_long = 2 ^ k.
Hypothesis long_fits : 0 <= k <= 8 * sizeof_size_t.
Hypothesis prefix_aligned : (sizeof_long | PREFIX).

Lemma SIZE_MOD_pos : 0 < SIZE_MOD.
Proof. apply Z.pow_pos_nonneg; lia. Qed.

Lemma sizeof_long_pos : 0 < sizeof_long.
Proof. rewrite long_pow2. apply Z.pow_pos_nonneg; lia. Qed.

Lemma long_divides_mod : (sizeof_long | SIZE_MOD).
Proof.
  exists (2 ^ (8 * sizeof_size_t - k)).
  rewrite long_pow2, <- Z.pow_add_r by lia. f_equal. lia.
Qed.

Lemma land_long (n : Z) : Z.land n (sizeof_long - 1) = n mod sizeof_long.
Proof.
  rewrite long_pow2, <- Z.land_ones by lia.
  rewrite Z.ones_equiv, Z.sub_1_r. reflexivity.
Qed.

Lemma size_t_mod_long (x : Z) : size_t x mod sizeof_long = x mod sizeof_long.
Proof.
  unfold to_size_t. destruct long_divides_mod as [q Hq].
  pose proof sizeof_long_pos. pose proof SIZE_MOD_pos.
  rewrite (Z.div_mod x SIZE_MOD) at 2 by lia.
  rewrite Hq at 2.
  replace (q * sizeof_long * (x / SIZE_MOD) + x mod SIZE_MOD)
    with (x mod SIZE_MOD + (q * (x / SIZE_MOD)) * sizeof_long) by ring.
  rewrite Z.mod_add by lia. reflexivity.
Qed.

Lemma size_t_small (x : Z) : 0 <= x < SIZE_MOD → size_t x = x.
Proof. intros H. unfold to_size_t. apply Z.mod_small. exact H. Qed.

Lemma size_t_range (x : Z) : 0 <= size_t x < SIZE_MOD.
Proof. unfold to_size_t. apply Z.mod_pos_bound, SIZE_MOD_pos. Qed.

Lemma size_t_add_l (a b : Z) : size_t (size_t a + b) = size_t (a + b).
Proof. unfold to_size_t. apply Zplus_mod_idemp_l. Qed.

Lemma size_t_add_r (a b : Z) : size_t (a + size_t b) = size_t (a + b).
Proof. unfold to_size_t. apply Zplus_mod_idemp_r. Qed.

Lemma size_t_sub_l (a b : Z) : size_t (size_t a - b) = size_t (a - b).
Proof. unfold to_size_t. apply Zminus_mod_idemp_l. Qed.

Lemma size_t_sub_r (a b : Z) : size_t (a - size_t b) = size_t (a - b).
Proof. unfold to_size_t. apply Zminus_mod_idemp_r. Qed.

(** The rounding in closed form: the padding that takes [n] to the next
    multiple of [sizeof(long)]. *)
Lemma round_padding (n : Z) :
  0 <= n < SIZE_MOD →
  round n = size_t (n + (sizeof_long - n mod sizeof_long) mod sizeof_long).
Proof.
  intros Hn. unfold round_to_long. rewrite land_long.
  pose proof sizeof_long_pos as Hw.
  pose proof (Z.mod_pos_bound n sizeof_long Hw) as Hm.
  destruct (n mod sizeof_long =? 0) eqn:H0; cbn [negb].
  - apply Z.eqb_eq in H0. rewrite H0, Z.sub_0_r, Z.mod_same by lia.
    rewrite Z.add_0_r, size_t_small by exact Hn. reflexivity.
  - apply Z.eqb_neq in H0. rewrite size_t_add_r.
    rewrite (Z.mod_small (sizeof_long - n mod sizeof_long)) by lia.
    reflexivity.
Qed.

(** The rounded size is a whole number of [long]s. *)
Lemma round_aligned (n : Z) : (sizeof_long | round n).
Proof.
  pose proof sizeof_long_pos as Hw.
  apply Z.mod_divide; [lia|].
  unfold round_to_long. rewrite land_long.
  destruct (n mod sizeof_long =? 0) eqn:H0; cbn [negb].
  - apply Z.eqb_eq in H0. exact H0.
  - rewrite size_t_add_r, size_t_mod_long.
    replace (n + (sizeof_long - n mod sizeof_long))
      with (n - n mod sizeof_long + 1 * sizeof_long) by ring.
    rewrite Z.mod_add by lia.
    rewrite Zminus_mod_idemp_r, Z.sub_diag. apply Z.mod_0_l. lia.
Qed.

(** The rounding of the code against the spec's: the code rounds up to the
    next multiple of [sizeof(long)], within the range of [size_t]. *)
Lemma word_aligned_padding (n : Z) :
  word_aligned sizeof_long n
  = n + (sizeof_long - n mod sizeof_long) mod sizeof_long.
Proof.
  pose proof sizeof_long_pos as Hw. unfold word_aligned.
  pose proof (Z.mod_pos_bound n sizeof_long Hw) as Hm.
  pose proof (Z.div_mod n sizeof_long ltac:(lia)) as Hdiv.
  destruct (Z.eq_dec (n mod sizeof_long) 0) as [H0|H0].
  - rewrite H0, Z.sub_0_r, Z.mod_same, Z.add_0_r by lia.
    replace (n + sizeof_long - 1)
      with (sizeof_long - 1 + n / sizeof_long * sizeof_long) by lia.
    rewrite Z.div_add, Z.div_small by lia. lia.
  - rewrite (Z.mod_small (sizeof_long - n mod sizeof_long)) by lia.
    replace (n + sizeof_long - 1)
      with (n mod sizeof_long - 1 + (n / sizeof_long + 1) * sizeof_long)
      by lia.
    rewrite Z.div_add, Z.div_small by lia. lia.
Qed.

Lemma word_aligned_least (n : Z) :
  n <= word_aligned sizeof_long n < n + sizeof_long
  ∧ (sizeof_long | word_aligned sizeof_long n).
Proof.
  pose proof sizeof_long_pos as Hw. split.
  - rewrite word_aligned_padding.
    pose proof (Z.mod_pos_bound n sizeof_long Hw) as Hm.
    pose proof (Z.mod_pos_bound (sizeof_long - n mod sizeof_long)
                  sizeof_long Hw) as Hp.
    destruct (Z.eq_dec (n mod sizeof_long) 0) as [H0|H0].
    + rewrite H0, Z.sub_0_r, Z.mod_same by lia. lia.
    + rewrite (Z.mod_small (sizeof_long - n mod sizeof_long)) by lia. lia.
  - unfold word_aligned. apply Z.divide_factor_l.
Qed.

Lemma round_word_aligned (n : Z) :
  size_t (round n) = size_t (word_aligned sizeof_long n).
Proof.
  pose proof sizeof_long_pos as Hw.
  rewrite word_aligned_padding.
  pose proof (Z.mod_pos_bound n sizeof_long Hw) as Hm.
  unfold round_to_long. rewrite land_long.
  destruct (n mod sizeof_long =? 0) eqn:H0; cbn [negb].
  - apply Z.eqb_eq in H0. rewrite H0, Z.sub_0_r, Z.mod_same, Z.add_0_r by lia.
    reflexivity.
  - apply Z.eqb_neq in H0.
    rewrite (Z.mod_small (sizeof_long - n mod sizeof_long)) by lia.
    rewrite size_t_add_r. unfold to_size_t. apply Z.mod_mod.
    pose proof SIZE_MOD_pos. lia.
Qed.

Lemma add_word_aligned (x n : Z) :
  size_t (x + round n) = size_t (x + word_aligned sizeof_long n).
Proof.
  rewrite <- size_t_add_r, round_word_aligned, size_t_add_r. reflexivity.
Qed.

Lemma sub_word_aligned (x n : Z) :
  size_t (x - round n) = size_t (x - word_aligned sizeof_long n).
Proof.
  rewrite <- size_t_sub_r, round_word_aligned, size_t_sub_r. reflexivity.
Qed.

(** A whole prefix passes through the rounding. *)
Lemma round_prefix (n : Z) :
  0 <= n < SIZE_MOD →
  round (size_t (n + PREFIX)) = size_t (round n + PREFIX).
Proof.
  intros Hn. pose proof sizeof_long_pos as Hw.
  rewrite round_padding by apply size_t_range.
  rewrite (round_padding n) by exact Hn.
  rewrite size_t_mod_long. destruct prefix_aligned as [q Hq].
  rewrite Hq, Z.mod_add by lia. rewrite <- Hq.
  rewrite !size_t_add_l. f_equal. ring.
Qed.

Local Abbreviation zmalloc := (zmalloc HAVE_MALLOC_SIZE sun sizeof_long sizeof_size_t
                       sizeof_long_long).
Local Abbreviation zrealloc := (zrealloc HAVE_MALLOC_SIZE sun sizeof_long sizeof_size_t
                        sizeof_long_long).
Local Abbreviation zfree := (zfree HAVE_MALLOC_SIZE sun sizeof_long sizeof_size_t
                     sizeof_long_long).
Local Abbreviation zrealloc_all := (zrealloc_all HAVE_MALLOC_SIZE sun sizeof_long
                            sizeof_size_t sizeof_long_long).
Local Abbreviation accounted := (accounted HAVE_MALLOC_SIZE sun sizeof_long
                         sizeof_size_t sizeof_long_long).

Lemma used_memory_alloc (st : zstate) (n : Z) :
  used_memory (update_zmalloc_stat_alloc sizeof_long sizeof_size_t st n)
  = size_t (used_memory st + round n).
Proof.
  unfold update_zmalloc_stat_alloc. destruct (zmalloc_thread_safe st);
    reflexivity.
Qed.

Lemma used_memory_free (st : zstate) (n : Z) :
  used_memory (update_zmalloc_stat_free sizeof_long sizeof_size_t st n)
  = size_t (used_memory st - round n).
Proof.
  unfold update_zmalloc_stat_free. destruct (zmalloc_thread_safe st);
    reflexivity.
Qed.

Lemma words_alloc (st : zstate) (n : Z) :
  words (update_zmalloc_stat_alloc sizeof_long sizeof_size_t st n) = words st.
Proof.
  unfold update_zmalloc_stat_alloc. destruct (zmalloc_thread_safe st);
    reflexivity.
Qed.

Lemma words_free (st : zstate) (n : Z) :
  words (update_zmalloc_stat_free sizeof_long sizeof_size_t st n) = words st.
Proof.
  unfold update_zmalloc_stat_free. destruct (zmalloc_thread_safe st);
    reflexivity.
Qed.

Lemma blocks_alloc (st : zstate) (n : Z) :
  blocks (update_zmalloc_stat_alloc sizeof_long sizeof_size_t st n)
  = blocks st.
Proof.
  unfold update_zmalloc_stat_alloc. destruct (zmalloc_thread_safe st);
    reflexivity.
Qed.

Lemma blocks_free (st : zstate) (n : Z) :
  blocks (update_zmalloc_stat_free sizeof_long sizeof_size_t st n)
  = blocks st.
Proof.
  unfold update_zmalloc_stat_free. destruct (zmalloc_thread_safe st);
    reflexivity.
Qed.

Local Abbreviation counts_block := (counts_block HAVE_MALLOC_SIZE sun
                                      sizeof_long sizeof_size_t
                                      sizeof_long_long).

Lemma used_memory_realloc (st : zstate) (p : Z) (a : Z * Z) :
  used_memory (realloc st p a) = used_memory st.
Proof.
  unfold realloc. cbn [set_blocks words].
  destruct (words st !! p); reflexivity.
Qed.

Lemma blocks_realloc (st : zstate) (p q u : Z) :
  blocks (realloc st p (q, u)) !! q = Some u.
Proof.
  unfold realloc. cbn [fst snd set_blocks words].
  destruct (words st !! p); cbn [set_words blocks]; apply lookup_insert_eq.
Qed.

Lemma used_memory_libc_free (st : zstate) (p : Z) :
  used_memory (free st p) = used_memory st.
Proof. reflexivity. Qed.

Lemma zmalloc_counts (st : zstate) (size p u : Z) :
  0 <= size < SIZE_MOD →
  ∃ ptr st1,
    zmalloc st size (Some (p, u)) = Some (ptr, st1)
    ∧ accounted st1 ptr
      = Some (round (if HAVE_MALLOC_SIZE then u else size_t (size + PREFIX)))
    ∧ counts_block (used_memory st) st1 ptr.
Proof.
  intros Hsize. unfold Zmalloc.zmalloc, Zmalloc.counts_block,
    Zmalloc.accounted, zmalloc_size, malloc_size.
  destruct HAVE_MALLOC_SIZE eqn:Hcfg.
  - cbn [malloc set_blocks blocks fst snd]. rewrite lookup_insert_eq.
    eexists _, _. split; [reflexivity|].
    rewrite blocks_alloc. unfold malloc. cbn [set_blocks blocks fst snd].
    rewrite lookup_insert_eq.
    split; [reflexivity|].
    eexists. split; [reflexivity|]. split; [|discriminate].
    rewrite used_memory_alloc. reflexivity.
  - eexists _, _. split; [reflexivity|].
    rewrite Z.add_simpl_r.
    rewrite words_alloc. unfold malloc.
    cbn [set_words set_blocks words]. rewrite lookup_insert_eq.
    split; [reflexivity|].
    eexists. split; [reflexivity|]. split.
    + rewrite used_memory_alloc. reflexivity.
    + intros _. exists size. split; [reflexivity|exact Hsize].
Qed.

Lemma zrealloc_counts (used0 : Z) (st : zstate) (ptr size p u : Z) :
  0 <= size < SIZE_MOD →
  counts_block used0 st ptr →
  ∃ ptr' st',
    zrealloc st (Some ptr) size (Some (p, u)) = Some (ptr', st')
    ∧ counts_block used0 st' ptr'.
Proof.
  intros Hsize (n & Hacc & Hused & Hhdr).
  pose proof round_prefix as Hprefix.
  unfold Zmalloc.zrealloc, Zmalloc.counts_block, Zmalloc.accounted,
    zmalloc_size, malloc_size in *.
  destruct HAVE_MALLOC_SIZE eqn:Hcfg.
  - destruct (blocks st !! ptr) as [oldsize|] eqn:Hold; [|discriminate].
    injection Hacc as <-.
    rewrite blocks_free, blocks_realloc. eexists _, _. split; [reflexivity|].
    rewrite blocks_alloc, blocks_free, blocks_realloc.
    eexists. split; [reflexivity|]. split; [|discriminate].
    rewrite used_memory_alloc, used_memory_free, used_memory_realloc.
    rewrite Hused, size_t_sub_l, size_t_add_l. f_equal. ring.
  - destruct (Hhdr eq_refl) as (h & Hh & Hrange).
    rewrite Hh in Hacc |- *. injection Hacc as <-.
    eexists _, _. split; [reflexivity|].
    rewrite Z.add_simpl_r.
    rewrite words_alloc, words_free. cbn [set_words words].
    rewrite lookup_insert_eq.
    eexists. split; [reflexivity|]. split.
    + rewrite used_memory_alloc, used_memory_free.
      cbn [set_words used_memory]. rewrite used_memory_realloc.
      rewrite Hused, !Hprefix by assumption.
      rewrite size_t_sub_l, size_t_add_l, !size_t_add_r.
      match goal with
      | |- size_t (_ + size_t ?x - ?a + ?b) = _ =>
          transitivity (size_t (size_t x + (used0 - a + b)));
            [f_equal; ring|]
      end.
      rewrite size_t_add_l. f_equal. ring.
    + intros _. exists size. split; [reflexivity|exact Hsize].
Qed.

Lemma zfree_counts (used0 : Z) (st : zstate) (ptr : Z) :
  0 <= used0 < SIZE_MOD →
  counts_block used0 st ptr →
  ∃ n st',
    accounted st ptr = Some n
    ∧ zfree st (Some ptr) = Some st'
    ∧ used_memory st' = size_t (used_memory st - n)
    ∧ used_memory st' = used0.
Proof.
  intros Hused0 (n & Hacc & Hused & Hhdr).
  assert (size_t (used_memory st - n) = used0) as Hback.
  { rewrite Hused, size_t_sub_l.
    replace (used0 + n - n) with used0 by ring.
    apply size_t_small, Hused0. }
  unfold Zmalloc.zfree, Zmalloc.accounted, zmalloc_size, malloc_size in *.
  destruct HAVE_MALLOC_SIZE eqn:Hcfg.
  - destruct (blocks st !! ptr) as [oldsize|] eqn:Hold; [|discriminate].
    injection Hacc as <-.
    eexists _, _. split; [reflexivity|]. split; [reflexivity|].
    rewrite used_memory_libc_free, used_memory_free.
    split; [reflexivity|exact Hback].
  - destruct (Hhdr eq_refl) as (h & Hh & Hrange).
    rewrite Hh in Hacc |- *. injection Hacc as <-.
    eexists _, _. split; [reflexivity|]. split; [reflexivity|].
    rewrite used_memory_libc_free, used_memory_free.
    split; [reflexivity|exact Hback].
Qed.

Lemma zrealloc_all_counts (used0 : Z) (steps : list (Z * (Z * Z))) :
  ∀ (st : zstate) (ptr : Z),
    Forall (λ step, 0 <= step.1 < SIZE_MOD) steps →
    counts_block used0 st ptr →
    ∃ ptr' st',
      zrealloc_all st ptr steps = Some (ptr', st')
      ∧ counts_block used0 st' ptr'.
Proof.
  induction steps as [|[size [p u]] steps IH]; intros st ptr Hsteps Hinv.
  - exists ptr, st. split; [reflexivity|exact Hinv].
  - apply Forall_cons in Hsteps as [Hsize Hsteps]. cbn [fst] in Hsize.
    destruct (zrealloc_counts used0 st ptr size p u Hsize Hinv)
      as (ptr1 & st1 & Hre & Hinv1).
    cbn [Zmalloc.zrealloc_all]. rewrite Hre.
    apply IH; assumption.
Qed.

(** C9.  On a platform where [long] is a power of two bytes wide and the
    size prefix is a whole number of [long]s, for every requested size
    [size] and whatever block the allocator hands out: [zmalloc] returns
    and raises [used_memory] by exactly the allocation rounded up to word
    alignment, where the allocation is the requested size plus the prefix
    when the allocator cannot report block sizes and the reported size of
    the block otherwise, and the rounding is the spec's: the least multiple
    of [sizeof(long)] that is not below the allocation.  [zfree] of that
    block lowers the counter by the same amount, back to its value before
    the allocation; and the same holds with any series of [zrealloc] calls
    on the block in between: the counter ends where it started. *)
Theorem zmalloc_zfree_balance (st : zstate) (size p u : Z)
    (steps : list (Z * (Z * Z))) :
  0 <= used_memory st < SIZE_MOD →
  0 <= size < SIZE_MOD →
  Forall (λ step, 0 <= step.1 < SIZE_MOD) steps →
  ∃ ptr st1,
    zmalloc st size (Some (p, u)) = Some (ptr, st1)
    ∧ used_memory st1
      = size_t (used_memory st
                + word_aligned sizeof_long
                    (if HAVE_MALLOC_SIZE then u
                     else size_t (size + PREFIX)))
    ∧ ((if HAVE_MALLOC_SIZE then u else size_t (size + PREFIX))
       <= word_aligned sizeof_long
            (if HAVE_MALLOC_SIZE then u else size_t (size + PREFIX))
       < (if HAVE_MALLOC_SIZE then u else size_t (size + PREFIX))
         + sizeof_long)
    ∧ (sizeof_long
       | word_aligned sizeof_long
           (if HAVE_MALLOC_SIZE then u else size_t (size + PREFIX)))
    ∧ (∃ st2,
         zfree st1 (Some ptr) = Some st2
         ∧ used_memory st2
           = size_t (used_memory st1
                     - word_aligned sizeof_long
                         (if HAVE_MALLOC_SIZE then u
                          else size_t (size + PREFIX)))
         ∧ used_memory st2 = used_memory st)
    ∧ (∃ ptr' st' st'',
         zrealloc_all st1 ptr steps = Some (ptr', st')
         ∧ zfree st' (Some ptr') = Some st''
         ∧ used_memory st'' = used_memory st).
Proof.
  intros Hused Hsize Hsteps.
  destruct (zmalloc_counts st size p u Hsize)
    as (ptr & st1 & Hmalloc & Hacc & Hinv).
  exists ptr, st1. split; [exact Hmalloc|].
  split.
  { destruct Hinv as (n & Hacc' & Hn & _).
    rewrite Hacc in Hacc'. injection Hacc' as <-.
    rewrite Hn. apply add_word_aligned. }
  split; [apply word_aligned_least|].
  split; [apply word_aligned_least|].
  split.
  - destruct (zfree_counts (used_memory st) st1 ptr Hused Hinv)
      as (n & st2 & Hacc' & Hfree & Hsub & Hback).
    rewrite Hacc in Hacc'. injection Hacc' as <-.
    exists st2. split; [exact Hfree|]. split; [|exact Hback].
    rewrite Hsub. apply sub_word_aligned.
  - destruct (zrealloc_all_counts (used_memory st) steps st1 ptr Hsteps Hinv)
      as (ptr' & st' & Hall & Hinv').
    destruct (zfree_counts (used_memory st) st' ptr' Hused Hinv')
      as (n & st'' & _ & Hfree & _ & Hback).
    exists ptr', st', st''.
    split; [exact Hall|]. split; [exact Hfree|exact Hback].
Qed.

End Platform.

(** The theorem on an LP64 platform without [malloc_size]: a block of 13
    bytes, grown to 30 bytes, then freed, with the counter at 100 at the
    start. *)
Lemma zmalloc_zfree_balance_witness :
  ∃ ptr st1,
    zmalloc false false 8 8 8 (mkZstate 100 false ∅ ∅) 13 (Some (4096, 24))
    = Some (ptr, st1)
    ∧ used_memory st1
      = to_size_t 8 (100 + word_aligned 8
                             (to_size_t 8 (13 + PREFIX_SIZE false false 8 8)))
    ∧ (to_size_t 8 (13 + PREFIX_SIZE false false 8 8)
       <= word_aligned 8 (to_size_t 8 (13 + PREFIX_SIZE false false 8 8))
       < to_size_t 8 (13 + PREFIX_SIZE false false 8 8) + 8)
    ∧ (8 | word_aligned 8 (to_size_t 8 (13 + PREFIX_SIZE false false 8 8)))
    ∧ (∃ st2,
         zfree false false 8 8 8 st1 (Some ptr) = Some st2
         ∧ used_memory st2
           = to_size_t 8
               (used_memory st1
                - word_aligned 8
                    (to_size_t 8 (13 + PREFIX_SIZE false false 8 8)))
         ∧ used_memory st2 = 100)
    ∧ (∃ ptr' st' st'',
         zrealloc_all false false 8 8 8 st1 ptr [(30, (8192, 40))]
         = Some (ptr', st')
         ∧ zfree false false 8 8 8 st' (Some ptr') = Some st''
         ∧ used_memory st'' = 100).
Proof.
  apply (zmalloc_zfree_balance false false 8 8 8 3).
  - reflexivity.
  - lia.
  - exists 1. reflexivity.
  - cbn. lia.
  - lia.
  - repeat constructor; cbn; lia.
Defined.

(** The same run, evaluated: 13 bytes are counted as 24 with the prefix,
    the growth to 30 exchanges 16 for 32, and the release takes 40. *)
Example zmalloc_zrealloc_zfree_run :
  ∃ st1 st2 st3,
    zmalloc false false 8 8 8 (mkZstate 100 false ∅ ∅) 13 (Some (4096, 24))
    = Some (4104, st1)
    ∧ used_memory st1 = 124
    ∧ zrealloc false false 8 8 8 st1 (Some 4104) 30 (Some (8192, 40))
      = Some (8200, st2)
    ∧ used_memory st2 = 140
    ∧ zfree false false 8 8 8 st2 (Some 8200) = Some st3
    ∧ used_memory st3 = 100.
Proof.
  eexists _, _, _.
  split; [vm_compute; reflexivity|]. split; [reflexivity|].
  split; [vm_compute; reflexivity|]. split; [reflexivity|].
  split; [vm_compute; reflexivity|]. reflexivity.
Qed.

End ZmallocFacts.

(** ** Loading a snapshot *)

Module LoadFacts.
Import Mem Util Rio Redis Rdb RioFacts.

Section Load.

Variable be : bool.
Variable crc64_byte : Z -> Z -> Z.
Variable REDIS_RDB_VERSION : Z.
Variable lzf_decompress : list Z -> nat -> option (list Z).
Variable rdbLoadObject : Z -> rio -> option (robj * rio).

Local Abbreviation advances := (advances crc64_byte).
Local Abbreviation rioRead := (rioRead crc64_byte).
Local Abbreviation read_all := (read_all crc64_byte).

Lemma advances_refl (rdb : rio) : advances rdb rdb.
Proof.
  exists 0%nat, []. unfold Rio.read_all.
  replace (0 <=? length (io_ptr rdb) - io_pos rdb)%nat with true
    by (symmetry; apply Nat.leb_le; lia).
  rewrite take_0, next_cksum_eq, cksum_after_nil.
  destruct rdb; cbn. rewrite !Nat.add_0_r. reflexivity.
Qed.

Lemma read_all_pos (rdb rdb' : rio) (n : nat) (buf : list Z) :
  read_all rdb n = Some (buf, rdb') →
  io_pos rdb' = (io_pos rdb + n)%nat
  ∧ (io_pos rdb ≤ length (io_ptr rdb) →
     io_pos rdb' ≤ length (io_ptr rdb))%nat
  ∧ io_ptr rdb' = io_ptr rdb
  ∧ update_cksum rdb' = update_cksum rdb
  ∧ buf = take n (drop (io_pos rdb) (io_ptr rdb))
  ∧ length buf = n
  ∧ cksum rdb' = cksum_after crc64_byte (update_cksum rdb) (cksum rdb) buf.
Proof.
  unfold Rio.read_all.
  destruct (n <=? length (io_ptr rdb) - io_pos rdb)%nat eqn:Hn;
    [|discriminate].
  apply Nat.leb_le in Hn. intros H. injection H as <- <-. cbn.
  rewrite next_cksum_eq, length_take, length_drop.
  repeat split; try reflexivity; lia.
Qed.

Lemma advances_trans (r1 r2 r3 : rio) :
  advances r1 r2 → advances r2 r3 → advances r1 r3.
Proof.
  intros (n & b1 & H1) (m & b2 & H2).
  exists (n + m)%nat, (b1 ++ b2).
  destruct r1 as [p q o cb c pb mx]. unfold Rio.read_all in *.
  cbn [io_ptr io_pos io_room update_cksum cksum processed_bytes
       max_processing_chunk] in *.
  destruct (n <=? length p - q)%nat eqn:Hn; [|discriminate].
  injection H1 as <- <-.
  cbn [io_ptr io_pos io_room update_cksum cksum processed_bytes
       max_processing_chunk] in H2.
  destruct (m <=? length p - (q + n))%nat eqn:Hm; [|discriminate].
  injection H2 as <- <-.
  apply Nat.leb_le in Hn, Hm.
  replace (n + m <=? length p - q)%nat with true
    by (symmetry; apply Nat.leb_le; lia).
  rewrite !next_cksum_eq.
  cbn [io_ptr io_pos io_room update_cksum cksum processed_bytes
       max_processing_chunk].
  rewrite cksum_after_app.
  pose proof (take_drop_split p q n (n + m) ltac:(lia)) as Hsplit.
  replace (n + m - n)%nat with m in Hsplit by lia.
  rewrite Hsplit.
  replace (q + n + m)%nat with (q + (n + m))%nat by lia.
  replace (pb + n + m)%nat with (pb + (n + m))%nat by lia.
  reflexivity.
Qed.

Lemma rioRead_advances (rdb rdb' : rio) (n : nat) (buf : list Z) :
  rioRead rdb n = Some (buf, rdb') → advances rdb rdb'.
Proof. rewrite rioRead_read_all. intros H. exists n, buf. exact H. Qed.

Lemma advances_pos (rdb rdb' : rio) :
  advances rdb rdb' → (io_pos rdb ≤ io_pos rdb')%nat.
Proof.
  intros (n & buf & H). apply read_all_pos in H as (Hp & _). lia.
Qed.

Lemma rioRead_pos (rdb rdb' : rio) (n : nat) (buf : list Z) :
  rioRead rdb n = Some (buf, rdb') → io_pos rdb' = (io_pos rdb + n)%nat.
Proof.
  rewrite rioRead_read_all. intros H. apply read_all_pos in H. tauto.
Qed.

Local Abbreviation rdbLoadType := (rdbLoadType crc64_byte).
Local Abbreviation rdbLoadTime := (rdbLoadTime be crc64_byte).
Local Abbreviation rdbLoadMillisecondTime :=
  (rdbLoadMillisecondTime be crc64_byte).
Local Abbreviation rdbLoadLen := (rdbLoadLen be crc64_byte).
Local Abbreviation rdbLoadIntegerObject := (rdbLoadIntegerObject crc64_byte).
Local Abbreviation rdbLoadLzfStringObject :=
  (rdbLoadLzfStringObject be crc64_byte lzf_decompress).
Local Abbreviation rdbLoadStringObject :=
  (rdbLoadStringObject be crc64_byte lzf_decompress).
Local Abbreviation rdbLoad_expire := (rdbLoad_expire be crc64_byte).
Local Abbreviation rdbLoad_record :=
  (rdbLoad_record be crc64_byte lzf_decompress rdbLoadObject).
Local Abbreviation rdbLoad_loop :=
  (rdbLoad_loop be crc64_byte lzf_decompress rdbLoadObject).
Local Abbreviation rdbLoad_verify := (rdbLoad_verify be crc64_byte).
Local Abbreviation rdbLoad :=
  (rdbLoad be crc64_byte REDIS_RDB_VERSION lzf_decompress rdbLoadObject).

Lemma rdbLoadType_advances (rdb : rio) :
  advances rdb (rdbLoadType rdb).2
  ∧ ((rdbLoadType rdb).1 ≠ -1 →
     io_pos (rdbLoadType rdb).2 = (io_pos rdb + 1)%nat).
Proof.
  unfold Rdb.rdbLoadType.
  destruct (rioRead rdb 1) as [[[|type [|? ?]] rdb']|] eqn:Hread;
    cbn [fst snd]; try (split; [apply advances_refl|congruence]).
  split; [exact (rioRead_advances _ _ _ _ Hread)|].
  intros _. exact (rioRead_pos _ _ _ _ Hread).
Qed.

Lemma rdbLoadTime_advances (rdb : rio) : advances rdb (rdbLoadTime rdb).2.
Proof.
  unfold Rdb.rdbLoadTime.
  destruct (rioRead rdb 4) as [[t32 rdb']|] eqn:Hread; cbn [snd];
    [exact (rioRead_advances _ _ _ _ Hread)|apply advances_refl].
Qed.

Lemma rdbLoadMillisecondTime_advances (rdb : rio) :
  advances rdb (rdbLoadMillisecondTime rdb).2.
Proof.
  unfold Rdb.rdbLoadMillisecondTime.
  destruct (rioRead rdb 8) as [[t64 rdb']|] eqn:Hread; cbn [snd];
    [exact (rioRead_advances _ _ _ _ Hread)|apply advances_refl].
Qed.

Lemma rdbLoadLen_advances (rdb : rio) : advances rdb (rdbLoadLen rdb).2.
Proof.
  unfold Rdb.rdbLoadLen.
  destruct (rioRead rdb 1) as [[[|buf0 [|? ?]] r1]|] eqn:H1;
    cbn [snd]; try apply advances_refl.
  apply rioRead_advances in H1.
  destruct (_ =? REDIS_RDB_ENCVAL); [exact H1|].
  destruct (_ =? REDIS_RDB_6BITLEN); [exact H1|].
  destruct (_ =? REDIS_RDB_14BITLEN).
  - destruct (rioRead r1 1) as [[[|buf1 [|? ?]] r2]|] eqn:H2;
      cbn [snd]; try exact H1.
    exact (advances_trans _ _ _ H1 (rioRead_advances _ _ _ _ H2)).
  - destruct (rioRead r1 4) as [[len r2]|] eqn:H2; cbn [snd]; [|exact H1].
    exact (advances_trans _ _ _ H1 (rioRead_advances _ _ _ _ H2)).
Qed.

Lemma rdbLoadIntegerObject_advances (rdb rdb' : rio) (enctype : Z)
    (val : list Z) :
  rdbLoadIntegerObject rdb enctype = Some (val, rdb') → advances rdb rdb'.
Proof.
  unfold Rdb.rdbLoadIntegerObject.
  destruct (enctype =? REDIS_RDB_ENC_INT8).
  { destruct (rioRead rdb 1) as [[[|e0 [|? ?]] r1]|] eqn:H1;
      try discriminate.
    intros H. injection H as _ <-. exact (rioRead_advances _ _ _ _ H1). }
  destruct (enctype =? REDIS_RDB_ENC_INT16).
  { destruct (rioRead rdb 2) as [[[|e0 [|e1 [|? ?]]] r1]|] eqn:H1;
      try discriminate.
    intros H. injection H as _ <-. exact (rioRead_advances _ _ _ _ H1). }
  destruct (enctype =? REDIS_RDB_ENC_INT32); [|discriminate].
  destruct (rioRead rdb 4) as [[[|e0 [|e1 [|e2 [|e3 [|? ?]]]]] r1]|] eqn:H1;
    try discriminate.
  intros H. injection H as _ <-. exact (rioRead_advances _ _ _ _ H1).
Qed.

Lemma rdbLoadLzfStringObject_advances (rdb rdb' : rio) (val : list Z) :
  rdbLoadLzfStringObject rdb = Some (val, rdb') → advances rdb rdb'.
Proof.
  unfold Rdb.rdbLoadLzfStringObject.
  pose proof (rdbLoadLen_advances rdb) as H1.
  destruct (rdbLoadLen rdb) as [[clen e1] r1]. cbn [snd] in H1.
  destruct (clen =? REDIS_RDB_LENERR); [discriminate|].
  pose proof (rdbLoadLen_advances r1) as H2.
  destruct (rdbLoadLen r1) as [[len e2] r2]. cbn [snd] in H2.
  destruct (len =? REDIS_RDB_LENERR); [discriminate|].
  destruct (rioRead r2 (Z.to_nat clen)) as [[c r3]|] eqn:H3; [|discriminate].
  destruct (lzf_decompress c (Z.to_nat len)); [|discriminate].
  intros H. injection H as _ <-.
  apply rioRead_advances in H3.
  exact (advances_trans _ _ _ H1 (advances_trans _ _ _ H2 H3)).
Qed.

Lemma rdbLoadStringObject_advances (rdb rdb' : rio) (val : list Z) :
  rdbLoadStringObject rdb = Some (val, rdb') → advances rdb rdb'.
Proof.
  unfold Rdb.rdbLoadStringObject.
  pose proof (rdbLoadLen_advances rdb) as H1.
  destruct (rdbLoadLen rdb) as [[len isencoded] r1]. cbn [snd] in H1.
  destruct isencoded.
  - destruct (_ || _).
    + intros H. apply rdbLoadIntegerObject_advances in H.
      exact (advances_trans _ _ _ H1 H).
    + destruct (len =? REDIS_RDB_ENC_LZF); [|discriminate].
      intros H. apply rdbLoadLzfStringObject_advances in H.
      exact (advances_trans _ _ _ H1 H).
  - destruct (len =? REDIS_RDB_LENERR); [discriminate|].
    destruct (negb (len =? 0)).
    + destruct (rioRead r1 (Z.to_nat len)) as [[v r2]|] eqn:H2;
        [|discriminate].
      intros H. injection H as _ <-. apply rioRead_advances in H2.
      exact (advances_trans _ _ _ H1 H2).
    + intros H. injection H as _ <-. exact H1.
Qed.

(** The start of a record moves the stream forward by at least the type
    byte. *)
Lemma rdbLoad_expire_advances (rdb rdb' : rio) (type expiretime : Z) :
  rdbLoad_expire rdb = Some (type, expiretime, rdb') →
  advances rdb rdb' ∧ (io_pos rdb < io_pos rdb')%nat.
Proof.
  unfold Rdb.rdbLoad_expire.
  pose proof (rdbLoadType_advances rdb) as [H1 Hp1].
  destruct (rdbLoadType rdb) as [t1 r1]. cbn [fst snd] in H1, Hp1.
  destruct (t1 =? -1) eqn:Ht1; [discriminate|].
  apply Z.eqb_neq in Ht1. specialize (Hp1 Ht1).
  destruct (t1 =? REDIS_RDB_OPCODE_EXPIRETIME).
  { pose proof (rdbLoadTime_advances r1) as H2.
    destruct (rdbLoadTime r1) as [e r2]. cbn [snd] in H2.
    destruct (e =? -1); [discriminate|].
    pose proof (rdbLoadType_advances r2) as [H3 _].
    destruct (rdbLoadType r2) as [t2 r3]. cbn [fst snd] in H3.
    destruct (t2 =? -1); [discriminate|].
    intros H. injection H as _ _ <-.
    pose proof (advances_trans _ _ _ H2 H3) as H23.
    split; [exact (advances_trans _ _ _ H1 H23)|].
    apply advances_pos in H23. lia. }
  destruct (t1 =? REDIS_RDB_OPCODE_EXPIRETIME_MS).
  { pose proof (rdbLoadMillisecondTime_advances r1) as H2.
    destruct (rdbLoadMillisecondTime r1) as [e r2]. cbn [snd] in H2.
    destruct (e =? -1); [discriminate|].
    pose proof (rdbLoadType_advances r2) as [H3 _].
    destruct (rdbLoadType r2) as [t2 r3]. cbn [fst snd] in H3.
    destruct (t2 =? -1); [discriminate|].
    intros H. injection H as _ _ <-.
    pose proof (advances_trans _ _ _ H2 H3) as H23.
    split; [exact (advances_trans _ _ _ H1 H23)|].
    apply advances_pos in H23. lia. }
  intros H. injection H as _ _ <-. split; [exact H1|lia].
Qed.

Lemma rdbLoadObject_string_advances (type : Z) (rdb : rio) (val : robj)
    (rdb' : rio) :
  rdbLoadObject_string be crc64_byte lzf_decompress type rdb
  = Some (val, rdb') →
  advances rdb rdb'.
Proof.
  unfold rdbLoadObject_string. destruct (type =? 0); [|discriminate].
  destruct (rdbLoadStringObject rdb) as [[o r1]|] eqn:H1; [|discriminate].
  intros H. injection H as _ <-.
  exact (rdbLoadStringObject_advances _ _ _ H1).
Qed.

(** The value parser reads through the stream, like the parsers of this
    file. *)
Hypothesis rdbLoadObject_advances :
  ∀ type rdb val rdb',
    rdbLoadObject type rdb = Some (val, rdb') → advances rdb rdb'.

Lemma rdbLoad_record_advances (server : redisServer) (dbid : nat) (now : Z)
    (rdb : rio) :
  match rdbLoad_record server dbid now rdb with
  | REC_continue _ _ rdb' => advances rdb rdb' ∧ (io_pos rdb < io_pos rdb')%nat
  | REC_break rdb' => advances rdb rdb'
  | _ => True
  end.
Proof.
  unfold Rdb.rdbLoad_record.
  destruct (rdbLoad_expire rdb) as [[[type expiretime] r1]|] eqn:H1;
    [|exact I].
  apply rdbLoad_expire_advances in H1 as [H1 Hp1].
  destruct (type =? REDIS_RDB_OPCODE_EOF); [exact H1|].
  destruct (type =? REDIS_RDB_OPCODE_SELECTDB).
  { pose proof (rdbLoadLen_advances r1) as H2.
    destruct (rdbLoadLen r1) as [[dbid' e] r2]. cbn [snd] in H2.
    destruct (dbid' =? REDIS_RDB_LENERR); [exact I|].
    destruct (_ <=? dbid'); [exact I|].
    split; [exact (advances_trans _ _ _ H1 H2)|].
    apply advances_pos in H2. lia. }
  destruct (rdbLoadStringObject r1) as [[key r2]|] eqn:H2; [|exact I].
  apply rdbLoadStringObject_advances in H2.
  destruct (rdbLoadObject type r2) as [[val r3]|] eqn:H3; [|exact I].
  apply rdbLoadObject_advances in H3.
  pose proof (advances_trans _ _ _ H1 (advances_trans _ _ _ H2 H3)) as H.
  pose proof (advances_pos _ _ H2). pose proof (advances_pos _ _ H3).
  destruct (_ && _); (split; [exact H|lia]).
Qed.

Local Abbreviation tracks := (tracks crc64_byte).

Lemma tracks_advances (contents : list Z) (flag : bool) (rdb rdb' : rio) :
  tracks contents flag rdb → advances rdb rdb' → tracks contents flag rdb'.
Proof.
  intros (Hptr & Hcb & Hpos & Hck) (n & buf & Hread).
  apply read_all_pos in Hread
    as (Hp & Hle & Hptr' & Hcb' & Hbuf & Hlen & Hck').
  unfold Rdb.tracks. rewrite Hptr', Hcb', Hptr, Hcb.
  split; [reflexivity|]. split; [reflexivity|].
  split; [rewrite Hptr in Hle; apply Hle, Hpos|].
  rewrite Hck', Hcb, Hck, cksum_after_app, Hbuf, Hptr, Hp.
  f_equal. apply take_take_drop.
Qed.

Lemma tracks_stream (server : redisServer) (contents : list Z) :
  tracks contents (rdb_checksum server) (rdbLoad_stream server contents).
Proof.
  unfold Rdb.tracks, rdbLoad_stream. cbn.
  split; [reflexivity|]. split; [reflexivity|]. split; [lia|].
  destruct (rdb_checksum server); reflexivity.
Qed.

Lemma in_db_rdb_checksum (server : redisServer) (dbid : nat)
    (f : redisDb → redisDb) :
  rdb_checksum (in_db server dbid f) = rdb_checksum server.
Proof. reflexivity. Qed.

Lemma rdbLoad_record_rdb_checksum (server server' : redisServer)
    (dbid dbid' : nat) (now : Z) (rdb rdb' : rio) :
  rdbLoad_record server dbid now rdb = REC_continue server' dbid' rdb' →
  rdb_checksum server' = rdb_checksum server.
Proof.
  unfold Rdb.rdbLoad_record.
  destruct (rdbLoad_expire rdb) as [[[type expiretime] r1]|]; [|discriminate].
  destruct (type =? REDIS_RDB_OPCODE_EOF); [discriminate|].
  destruct (type =? REDIS_RDB_OPCODE_SELECTDB).
  { destruct (rdbLoadLen r1) as [[d e] r2].
    destruct (d =? REDIS_RDB_LENERR); [discriminate|].
    destruct (_ <=? d); [discriminate|].
    intros H. injection H as <- _ _. reflexivity. }
  destruct (rdbLoadStringObject r1) as [[key r2]|]; [|discriminate].
  destruct (rdbLoadObject type r2) as [[val r3]|]; [|discriminate].
  destruct (_ && _); [intros H; injection H as <- _ _; reflexivity|].
  destruct (negb (expiretime =? -1)); intros H; injection H as <- _ _;
    reflexivity.
Qed.

(** When the loop is left at the EOF opcode, the stream still reads the
    file and carries the checksum of the bytes read so far. *)
Lemma rdbLoad_loop_tracks (contents : list Z) (flag : bool) (now : Z)
    (fuel : nat) :
  ∀ (server : redisServer) (dbid : nat) (rdb : rio)
    (server' : redisServer) (rdb' : rio),
    tracks contents flag rdb →
    rdbLoad_loop fuel server dbid now rdb = Some (at_EOF server' rdb') →
    tracks contents flag rdb'
    ∧ rdb_checksum server' = rdb_checksum server.
Proof.
  induction fuel as [|fuel IH]; intros server dbid rdb server' rdb' Hinv Hloop;
    [discriminate|].
  cbn [Rdb.rdbLoad_loop] in Hloop.
  pose proof (rdbLoad_record_advances server dbid now rdb) as Hadv.
  destruct (rdbLoad_record server dbid now rdb) as [s1 d1 r1|r1| |] eqn:Hrec;
    try discriminate.
  - destruct Hadv as [Hadv _].
    destruct (IH s1 d1 r1 server' rdb'
                (tracks_advances _ _ _ _ Hinv Hadv) Hloop) as [Ht Hf].
    split; [exact Ht|].
    rewrite Hf. exact (rdbLoad_record_rdb_checksum _ _ _ _ _ _ _ Hrec).
  - injection Hloop as <- <-.
    split; [exact (tracks_advances _ _ _ _ Hinv Hadv)|reflexivity].
Qed.

(** The loop ends: a turn per byte left, and one more, are enough. *)
Lemma rdbLoad_loop_ends (contents : list Z) (flag : bool) (now : Z)
    (fuel : nat) :
  ∀ (server : redisServer) (dbid : nat) (rdb : rio),
    tracks contents flag rdb →
    (length contents - io_pos rdb < fuel)%nat →
    is_Some (rdbLoad_loop fuel server dbid now rdb).
Proof.
  induction fuel as [|fuel IH]; intros server dbid rdb Hinv Hfuel; [lia|].
  cbn [Rdb.rdbLoad_loop].
  pose proof (rdbLoad_record_advances server dbid now rdb) as Hadv.
  destruct (rdbLoad_record server dbid now rdb) as [s1 d1 r1|r1| |];
    try (eexists; reflexivity).
  destruct Hadv as [Hadv Hlt].
  pose proof (tracks_advances _ _ _ _ Hinv Hadv) as Hinv1.
  apply IH; [exact Hinv1|].
  destruct Hinv1 as (_ & _ & Hle & _). lia.
Qed.

Lemma le_decode_trailer (buf : list Z) :
  uint_of_mem be (memrev64ifbe be buf) = le_decode buf.
Proof.
  unfold uint_of_mem, memrev64ifbe. destruct be; [|reflexivity].
  rewrite rev_involutive. reflexivity.
Qed.

(** The checksum stage, by cases on the trailer. *)
Lemma rdbLoad_verify_cases (rdbver : Z) (server : redisServer) (rdb : rio) :
  5 <= rdbver →
  rdb_checksum server = true →
  (8 ≤ length (unread rdb))%nat →
  rdbLoad_verify rdbver server rdb
  = if le_decode (take 8 (unread rdb)) =? 0 then LOAD_OK server
    else if le_decode (take 8 (unread rdb)) =? cksum rdb then LOAD_OK server
    else LOAD_FATAL.
Proof.
  intros Hver Hflag Hlen. unfold Rdb.rdbLoad_verify.
  replace (5 <=? rdbver) with true by (symmetry; apply Z.leb_le; exact Hver).
  rewrite Hflag. cbn [andb].
  rewrite rioRead_read_all. unfold Rio.read_all, unread in *.
  rewrite length_drop in Hlen.
  replace (8 <=? length (io_ptr rdb) - io_pos rdb)%nat with true
    by (symmetry; apply Nat.leb_le; exact Hlen).
  rewrite le_decode_trailer.
  destruct (le_decode _ =? 0); [reflexivity|].
  destruct (le_decode _ =? cksum rdb); reflexivity.
Qed.

(** [rdbLoad] returns or ends the process; it does not run on. *)
Lemma rdbLoad_returns (server : redisServer) (now : Z)
    (file : option (list Z)) :
  is_Some (rdbLoad server now file).
Proof.
  unfold Rdb.rdbLoad. destruct file as [contents|]; [|eexists; reflexivity].
  destruct (rioRead (rdbLoad_stream server contents) 9) as [[buf rdb0]|]
    eqn:Hhdr; [|eexists; reflexivity].
  destruct (wrong_signature buf); [eexists; reflexivity|].
  destruct (_ || _); [eexists; reflexivity|].
  pose proof (tracks_advances _ _ _ _ (tracks_stream server contents)
                (rioRead_advances _ _ _ _ Hhdr)) as Hinv.
  destruct (rdbLoad_loop_ends contents (rdb_checksum server) now
              (S (length contents)) server 0%nat rdb0 Hinv ltac:(lia))
    as [stop Hstop].
  rewrite Hstop. destruct stop; eexists; reflexivity.
Qed.

(** C3.  A snapshot of version at least 5 is loaded with checksum
    verification enabled, and its records end with the EOF opcode, where
    the loader holds the checksum of all the bytes read so far (magic and
    version included).  If the 8-byte trailer that follows is zero, the
    load returns success with the state loaded, whatever the computed
    checksum is; if the trailer is not zero and differs from the computed
    checksum, the process is ended and no state is returned; if it equals
    the computed checksum the load returns success. *)
Theorem rdbLoad_checksum_trailer (server server' : redisServer) (now : Z)
    (contents buf : list Z) (rdb0 rdb' : rio) :
  rdb_checksum server = true →
  rioRead (rdbLoad_stream server contents) 9 = Some (buf, rdb0) →
  wrong_signature buf = false →
  5 <= atoi (drop 5 buf) <= REDIS_RDB_VERSION →
  rdbLoad_loop (S (length contents)) server 0 now rdb0
  = Some (at_EOF server' rdb') →
  (8 ≤ length (unread rdb'))%nat →
  cksum rdb' = crc64 crc64_byte 0 (take (io_pos rdb') contents)
  ∧ (le_decode (take 8 (unread rdb')) = 0 →
     rdbLoad server now (Some contents) = Some (LOAD_OK server'))
  ∧ (le_decode (take 8 (unread rdb')) ≠ 0 →
     le_decode (take 8 (unread rdb'))
     ≠ crc64 crc64_byte 0 (take (io_pos rdb') contents) →
     rdbLoad server now (Some contents) = Some LOAD_FATAL)
  ∧ (le_decode (take 8 (unread rdb'))
     = crc64 crc64_byte 0 (take (io_pos rdb') contents) →
     rdbLoad server now (Some contents) = Some (LOAD_OK server')).
Proof.
  intros Hflag Hhdr Hsig Hver Hloop Hlen.
  pose proof (tracks_advances _ _ _ _ (tracks_stream server contents)
                (rioRead_advances _ _ _ _ Hhdr)) as Hinv.
  destruct (rdbLoad_loop_tracks _ _ _ _ _ _ _ _ _ Hinv Hloop)
    as [(_ & _ & _ & Hck) Hflag'].
  rewrite Hflag in Hck, Hflag'. cbn [cksum_after] in Hck.
  assert (rdbLoad server now (Some contents)
          = Some (rdbLoad_verify (atoi (drop 5 buf)) server' rdb')) as Hload.
  { unfold Rdb.rdbLoad. rewrite Hhdr, Hsig.
    replace (atoi (drop 5 buf) <? 1) with false
      by (symmetry; apply Z.ltb_ge; lia).
    replace (REDIS_RDB_VERSION <? atoi (drop 5 buf)) with false
      by (symmetry; apply Z.ltb_ge; lia).
    cbn [orb]. rewrite Hloop. reflexivity. }
  rewrite Hload, rdbLoad_verify_cases by (try assumption; lia).
  rewrite <- Hck. split; [reflexivity|].
  split; [|split].
  - intros ->. reflexivity.
  - intros H0 Hne. apply Z.eqb_neq in H0, Hne. rewrite H0, Hne. reflexivity.
  - intros ->. rewrite Z.eqb_refl. destruct (cksum rdb' =? 0); reflexivity.
Qed.

(** C4.  A record of the file carries an expiry deadline (its [expiretime]
    is not the -1 of a record without one), the key and the value behind it
    are read, and the deadline is earlier than the current time.  On a
    primary (no master configured) the turn of the loop leaves the server
    as it was: the key enters neither the keyspace nor the expirations.  On
    a replica the selected database gets the key added and its deadline set,
    past as it is: a key that was not there is then bound to the value
    read, with the deadline read. *)
Theorem rdbLoad_expired_record (server : redisServer) (dbid : nat) (now : Z)
    (rdb rdb1 rdb2 rdb3 : rio) (type expiretime : Z) (key : list Z)
    (val : robj) :
  rdbLoad_expire rdb = Some (type, expiretime, rdb1) →
  type ≠ REDIS_RDB_OPCODE_EOF →
  type ≠ REDIS_RDB_OPCODE_SELECTDB →
  expiretime ≠ -1 →
  rdbLoadStringObject rdb1 = Some (key, rdb2) →
  rdbLoadObject type rdb2 = Some (val, rdb3) →
  expiretime < now →
  (masterhost server = None →
   rdbLoad_record server dbid now rdb = REC_continue server dbid rdb3)
  ∧ (masterhost server ≠ None →
     ∃ server',
       rdbLoad_record server dbid now rdb = REC_continue server' dbid rdb3
       ∧ db server'
         = alter (λ d, Db.setExpire (Db.dbAdd d key val) key expiretime)
             dbid (db server)
       ∧ ∀ d, db server !! dbid = Some d →
              dict d !! key = None →
              ∃ d', db server' !! dbid = Some d'
                    ∧ dict d' !! key = Some val
                    ∧ expires d' !! key = Some expiretime).
Proof.
  intros Hexp Heof Hsel Hdeadline Hkey Hval Hpast.
  unfold Rdb.rdbLoad_record. rewrite Hexp.
  apply Z.eqb_neq in Heof, Hsel. rewrite Heof, Hsel, Hkey, Hval.
  apply Z.eqb_neq in Hdeadline. rewrite Hdeadline.
  apply Z.ltb_lt in Hpast. rewrite Hpast. cbn [negb andb].
  split.
  - intros Hmaster. rewrite bool_decide_eq_true_2 by exact Hmaster.
    reflexivity.
  - intros Hmaster. rewrite bool_decide_eq_false_2 by exact Hmaster.
    cbn [andb]. eexists. split; [reflexivity|].
    assert (db (in_db (in_db server dbid (λ d, Db.dbAdd d key val)) dbid
                  (λ d, Db.setExpire d key expiretime))
            = alter (λ d, Db.setExpire (Db.dbAdd d key val) key expiretime)
                dbid (db server)) as Hdb.
    { unfold in_db. cbn [db set_db].
      rewrite list_alter_alter_eq. reflexivity. }
    split; [exact Hdb|].
    intros d Hd Hnew. rewrite Hdb, list_lookup_alter_eq, Hd. cbn [fmap option_fmap option_map].
    eexists. split; [reflexivity|].
    unfold Db.dbAdd. rewrite Hnew. unfold Db.setExpire. cbn [dict expires].
    rewrite lookup_insert_eq. cbn [dict expires].
    split; [apply lookup_insert_eq|apply lookup_insert_eq].
Qed.

End Load.

(** The theorem on a little-endian host, on a version 6 file that selects
    database 0, holds the string key [k] with the value [v], and ends with
    the EOF opcode and a zero trailer: the load succeeds with the key in
    database 0. *)
Lemma rdbLoad_checksum_trailer_witness :
  rdbLoad false (λ crc b, (crc * 31 + b + 1) mod 2 ^ 64) 6 (λ _ _, None)
    (rdbLoadObject_string false (λ crc b, (crc * 31 + b + 1) mod 2 ^ 64)
       (λ _ _, None))
    (mkServer [mkDb ∅ ∅] 1 None true true 512 0 0 0 0 0 REDIS_OK (-1) (-1)
       (-1) 0) 1000
    (Some ([82; 69; 68; 73; 83; 48; 48; 48; 54] ++ [254; 0]
           ++ [0; 1; 107; 1; 118] ++ [255] ++ [0; 0; 0; 0; 0; 0; 0; 0]))
  = Some (LOAD_OK
            (mkServer [mkDb {[ [107] := String_obj [118] ]} ∅] 1 None true
               true 512 0 0 0 0 0 REDIS_OK (-1) (-1) (-1) 0)).
Proof.
  edestruct (rdbLoad_checksum_trailer false
               (λ crc b, (crc * 31 + b + 1) mod 2 ^ 64) 6 (λ _ _, None)
               (rdbLoadObject_string false
                  (λ crc b, (crc * 31 + b + 1) mod 2 ^ 64) (λ _ _, None))
               (rdbLoadObject_string_advances false _ (λ _ _, None))
               (mkServer [mkDb ∅ ∅] 1 None true true 512 0 0 0 0 0 REDIS_OK
                  (-1) (-1) (-1) 0)
               (mkServer [mkDb {[ [107] := String_obj [118] ]} ∅] 1 None true
                  true 512 0 0 0 0 0 REDIS_OK (-1) (-1) (-1) 0)
               1000
               ([82; 69; 68; 73; 83; 48; 48; 48; 54] ++ [254; 0]
                ++ [0; 1; 107; 1; 118] ++ [255] ++ [0; 0; 0; 0; 0; 0; 0; 0]))
    as (_ & Hzero & _).
  - reflexivity.
  - vm_compute. reflexivity.
  - reflexivity.
  - split; apply Z.leb_le; vm_compute; reflexivity.
  - vm_compute. reflexivity.
  - apply Nat.leb_le. vm_compute. reflexivity.
  - apply Hzero. vm_compute. reflexivity.
Defined.

(** The same file with a trailer that is neither zero nor the checksum of
    the bytes before it: the process is ended. *)
Example rdbLoad_wrong_trailer :
  rdbLoad false (λ crc b, (crc * 31 + b + 1) mod 2 ^ 64) 6 (λ _ _, None)
    (rdbLoadObject_string false (λ crc b, (crc * 31 + b + 1) mod 2 ^ 64)
       (λ _ _, None))
    (mkServer [mkDb ∅ ∅] 1 None true true 512 0 0 0 0 0 REDIS_OK (-1) (-1)
       (-1) 0) 1000
    (Some ([82; 69; 68; 73; 83; 48; 48; 48; 54] ++ [254; 0]
           ++ [0; 1; 107; 1; 118] ++ [255] ++ [1; 0; 0; 0; 0; 0; 0; 0]))
  = Some LOAD_FATAL.
Proof. vm_compute. reflexivity. Qed.

(** The theorem on a primary: a string key [k] with a deadline of 500 ms
    read at time 1000 ms is passed over. *)
Lemma rdbLoad_expired_record_witness :
  rdbLoad_record false (λ crc b, (crc * 31 + b + 1) mod 2 ^ 64) (λ _ _, None)
    (rdbLoadObject_string false (λ crc b, (crc * 31 + b + 1) mod 2 ^ 64)
       (λ _ _, None))
    (mkServer [mkDb ∅ ∅] 1 None true false 512 0 0 0 0 0 REDIS_OK (-1) (-1)
       (-1) 0) 0 1000
    (mkRio ([252; 244; 1; 0; 0; 0; 0; 0; 0] ++ [0; 1; 107; 1; 118]) 0 None
       (CB_rdbLoadProgressCallback false) 0 0 0)
  = REC_continue
      (mkServer [mkDb ∅ ∅] 1 None true false 512 0 0 0 0 0 REDIS_OK (-1) (-1)
         (-1) 0) 0
      (mkRio ([252; 244; 1; 0; 0; 0; 0; 0; 0] ++ [0; 1; 107; 1; 118]) 14 None
         (CB_rdbLoadProgressCallback false) 0 14 0).
Proof.
  edestruct (rdbLoad_expired_record false
               (λ crc b, (crc * 31 + b + 1) mod 2 ^ 64) (λ _ _, None)
               (rdbLoadObject_string false
                  (λ crc b, (crc * 31 + b + 1) mod 2 ^ 64) (λ _ _, None))
               (mkServer [mkDb ∅ ∅] 1 None true false 512 0 0 0 0 0 REDIS_OK
                  (-1) (-1) (-1) 0) 0%nat 1000
               (mkRio ([252; 244; 1; 0; 0; 0; 0; 0; 0] ++ [0; 1; 107; 1; 118])
                  0 None (CB_rdbLoadProgressCallback false) 0 0 0))
    as [Hprimary _].
  - vm_compute. reflexivity.
  - vm_compute. discriminate.
  - vm_compute. discriminate.
  - vm_compute. discriminate.
  - vm_compute. reflexivity.
  - vm_compute. reflexivity.
  - vm_compute. reflexivity.
  - rewrite Hprimary; reflexivity.
Defined.

(** The same record on a replica: the key is added, with its deadline. *)
Example rdbLoad_expired_record_replica :
  rdbLoad_record false (λ crc b, (crc * 31 + b + 1) mod 2 ^ 64) (λ _ _, None)
    (rdbLoadObject_string false (λ crc b, (crc * 31 + b + 1) mod 2 ^ 64)
       (λ _ _, None))
    (mkServer [mkDb ∅ ∅] 1 (Some [109]) true false 512 0 0 0 0 0 REDIS_OK
       (-1) (-1) (-1) 0) 0 1000
    (mkRio ([252; 244; 1; 0; 0; 0; 0; 0; 0] ++ [0; 1; 107; 1; 118]) 0 None
       (CB_rdbLoadProgressCallback false) 0 0 0)
  = REC_continue
      (mkServer [mkDb {[ [107] := String_obj [118] ]} {[ [107] := 500 ]}] 1
         (Some [109]) true false 512 0 0 0 0 0 REDIS_OK (-1) (-1) (-1) 0) 0
      (mkRio ([252; 244; 1; 0; 0; 0; 0; 0; 0] ++ [0; 1; 107; 1; 118]) 14 None
         (CB_rdbLoadProgressCallback false) 0 14 0).
Proof. vm_compute. reflexivity. Qed.

(** A deadline whose 8 bytes read -1 is taken for a failed read. *)
Example rdbLoad_deadline_minus_one :
  rdbLoad_record false (λ crc b, (crc * 31 + b + 1) mod 2 ^ 64) (λ _ _, None)
    (rdbLoadObject_string false (λ crc b, (crc * 31 + b + 1) mod 2 ^ 64)
       (λ _ _, None))
    (mkServer [mkDb ∅ ∅] 1 (Some [109]) true false 512 0 0 0 0 0 REDIS_OK
       (-1) (-1) (-1) 0) 0 1000
    (mkRio ([252; 255; 255; 255; 255; 255; 255; 255; 255]
            ++ [0; 1; 107; 1; 118]) 0 None
       (CB_rdbLoadProgressCallback false) 0 0 0)
  = REC_eoferr.
Proof. vm_compute. reflexivity. Qed.

End LoadFacts.

(* ===================================================================== *)
(** * Part III: further properties of the code                            *)
(* ===================================================================== *)

(** ** The stream and the codec, written and read back *)

Module CodecExtras.
Import Mem Util Rio Redis Rdb Snapshot.
Import RioFacts MemFacts LenCodec UtilFacts StringCodec.

(** X1.  [rioWrite] followed by [rioRead]: whatever the chunk limits of the
    two streams, writing a buffer to an empty stream stores exactly the
    buffer, reading as many bytes back returns the buffer and leaves
    nothing unread, both streams have processed [length buf] bytes, the
    checksum of the reader equals that of the writer (the CRC64 of the
    buffer), and one more byte cannot be read. *)
Theorem rioRead_rioWrite (crc64_byte : Z → Z → Z) (buf : list Z)
    (wchunk rchunk : nat) :
  ∃ w,
    rioWrite crc64_byte (mkRio [] 0 None CB_rioGenericUpdateChecksum 0 0 wchunk)
             buf = Some w
    ∧ io_ptr w = buf
    ∧ cksum w = crc64 crc64_byte 0 buf
    ∧ processed_bytes w = length buf
    ∧ ∃ r,
        rioRead crc64_byte
                (mkRio (io_ptr w) 0 None CB_rioGenericUpdateChecksum 0 0 rchunk)
                (length buf) = Some (buf, r)
        ∧ cksum r = cksum w
        ∧ processed_bytes r = length buf
        ∧ unread r = []
        ∧ rioRead crc64_byte r 1 = None.
Proof.
  rewrite rioWrite_write_all. unfold write_all.
  cbn [io_ptr io_pos io_room update_cksum cksum processed_bytes
       max_processing_chunk app].
  eexists. split; [reflexivity|].
  cbn [io_ptr io_pos io_room update_cksum cksum processed_bytes
       max_processing_chunk].
  rewrite next_cksum_eq. cbn [update_cksum cksum cksum_after].
  split; [reflexivity|]. split; [reflexivity|]. split; [reflexivity|].
  rewrite rioRead_read_all. unfold read_all.
  cbn [io_ptr io_pos io_room update_cksum cksum processed_bytes
       max_processing_chunk].
  rewrite Nat.sub_0_r, Nat.leb_refl, drop_0, firstn_all.
  eexists. split; [reflexivity|].
  rewrite next_cksum_eq.
  cbn [io_ptr io_pos io_room update_cksum cksum processed_bytes
       max_processing_chunk cksum_after].
  split; [reflexivity|]. split; [reflexivity|].
  split; [unfold unread; cbn; apply drop_all|].
  rewrite rioRead_read_all. unfold read_all.
  cbn [io_ptr io_pos io_room update_cksum cksum processed_bytes
       max_processing_chunk].
  replace (1 <=? length buf - (0 + length buf))%nat with false;
    [reflexivity|].
  symmetry. apply Nat.leb_gt. lia.
Qed.

(** *** The expiry deadline *)

Lemma to_signed_mod (bits t : Z) :
  0 < bits → - 2 ^ (bits - 1) <= t < 2 ^ (bits - 1) →
  to_signed bits (t mod 2 ^ bits) = t.
Proof.
  intros Hbits Ht. unfold to_signed.
  assert (2 ^ bits = 2 * 2 ^ (bits - 1)) as Hpow.
  { rewrite <- Z.pow_succ_r by lia. f_equal. lia. }
  assert (0 < 2 ^ (bits - 1)) as Hpos by (apply Z.pow_pos_nonneg; lia).
  destruct (Z_lt_le_dec t 0) as [Hneg|Hnn].
  - rewrite <- (Z_mod_plus_full t 1 (2 ^ bits)).
    rewrite Z.mod_small by lia.
    replace (t + 1 * 2 ^ bits <? 2 ^ (bits - 1)) with false
      by (symmetry; apply Z.ltb_ge; lia).
    lia.
  - rewrite Z.mod_small by lia.
    replace (t <? 2 ^ (bits - 1)) with true by (symmetry; apply Z.ltb_lt; lia).
    reflexivity.
Qed.





(** *** Strings *)

Lemma lor_bytes_16 (e0 e1 : Z) :
  0 <= e0 < 256 →
  Z.lor e0 (Z.shiftl e1 8) = le_decode [e0; e1].
Proof.
  intros H0. rewrite Z.lor_comm, lor_shiftl_add by lia.
  cbn [le_decode]. lia.
Qed.

Lemma lor_bytes_32 (e0 e1 e2 e3 : Z) :
  0 <= e0 < 256 → 0 <= e1 < 256 → 0 <= e2 < 256 →
  Z.lor (Z.lor (Z.lor e0 (Z.shiftl e1 8)) (Z.shiftl e2 16)) (Z.shiftl e3 24)
  = le_decode [e0; e1; e2; e3].
Proof.
  intros H0 H1 H2.
  rewrite (Z.lor_comm e0), (lor_shiftl_add e1 e0 8) by lia.
  rewrite (Z.lor_comm _ (Z.shiftl e2 16)), lor_shiftl_add by lia.
  rewrite (Z.lor_comm _ (Z.shiftl e3 24)), lor_shiftl_add by lia.
  cbn [le_decode]. lia.
Qed.

Lemma land_255_range (x : Z) : 0 <= Z.land x 255 < 256.
Proof. rewrite land_255. apply Z.mod_pos_bound. lia. Qed.

Section Strings.

Variable be : bool.
Variable crc64_byte : Z → Z → Z.
Variable lzf_compress : list Z → nat → list Z.
Variable lzf_decompress : list Z → nat → option (list Z).

(** The contract of the LZF pair: the compressor keeps to the output bound,
    and what it produces decompresses to the input. *)
Hypothesis lzf_compress_bound :
  ∀ s n, (length (lzf_compress s n) ≤ n)%nat.
Hypothesis lzf_decompress_compress :
  ∀ s n, lzf_compress s n ≠ [] →
         lzf_decompress (lzf_compress s n) (length s) = Some s.

Local Abbreviation rdbLoadLen := (rdbLoadLen be crc64_byte).
Local Abbreviation rdbLoadStringObject :=
  (rdbLoadStringObject be crc64_byte lzf_decompress).
Local Abbreviation rdbSaveRawString :=
  (rdbSaveRawString be crc64_byte lzf_compress).
Local Abbreviation rioRead := (rioRead crc64_byte).

(** What [rdbSaveRawString] appends to its stream. *)
Lemma rdbSaveRawString_bytes (server : redisServer) (w : rio) (s : list Z) :
  Z.of_nat (length s) < 2147483641 →
  rdbSaveRawString server (Some w) s =
  let bytes := string_encoding lzf_compress (rdb_compression server) s in
  match write_all crc64_byte w bytes with
  | Some w' => Some (Z.of_nat (length bytes), Some w')
  | None => None
  end.
Proof.
  intros Hlt. unfold Rdb.rdbSaveRawString, string_encoding. cbv zeta.
  rewrite rdbTryIntegerEncoding_spec.
  assert ((if (length s <=? 11)%nat
           then
             let '(enclen, buf) :=
               match isObjectRepresentableAsLongLong s with
               | Some v => rdbEncodeInteger v
               | None => (0, [])
               end in
             if 0 <? enclen then Some (enclen, buf) else None
           else None)
          = match (if (length s <=? 11)%nat
                   then match isObjectRepresentableAsLongLong s with
                        | Some v => integer_encoding v
                        | None => None
                        end
                   else None) with
            | Some bytes => Some (Z.of_nat (length bytes), bytes)
            | None => None
            end) as Htry.
  { destruct (length s <=? 11)%nat; [|reflexivity].
    destruct (isObjectRepresentableAsLongLong s) as [v|]; [|reflexivity].
    rewrite rdbEncodeInteger_spec. unfold integer_encoding.
    destruct ((-128 <=? v) && (v <=? 127)); [reflexivity|].
    destruct ((-32768 <=? v) && (v <=? 32767)); [reflexivity|].
    destruct ((-2147483648 <=? v) && (v <=? 2147483647)); reflexivity. }
  rewrite Htry. clear Htry.
  destruct (if (length s <=? 11)%nat
            then match isObjectRepresentableAsLongLong s with
                 | Some v => integer_encoding v
                 | None => None
                 end
            else None) as [bytes|] eqn:Hint.
  - assert (length bytes ≤ 5)%nat as Hbytes.
    { destruct (length s <=? 11)%nat; [|discriminate].
      destruct (isObjectRepresentableAsLongLong s) as [v|]; [|discriminate].
      unfold integer_encoding in Hint.
      destruct ((-128 <=? v) && (v <=? 127));
        [injection Hint as <-; cbn [length le_encode]; lia|].
      destruct ((-32768 <=? v) && (v <=? 32767));
        [injection Hint as <-; cbn [length le_encode]; lia|].
      destruct ((-2147483648 <=? v) && (v <=? 2147483647)); [|discriminate].
      injection Hint as <-. cbn [length le_encode]. lia. }
    rewrite rdbWriteRaw_write_all by lia.
    destruct (write_all crc64_byte w bytes); reflexivity.
  - pose proof (verbatim_bytes be crc64_byte w s Hlt) as Hverb.
    destruct (rdb_compression server); cbn [andb]; [|exact Hverb].
    destruct (20 <? length s)%nat eqn:H20; [|exact Hverb].
    apply Nat.ltb_lt in H20.
    rewrite (rdbSaveLzfStringObject_bytes be crc64_byte lzf_compress
               lzf_compress_bound) by lia.
    cbv zeta.
    destruct (length (lzf_compress s (length s - 4)) =? 0)%nat eqn:Hc.
    + cbn [Z.ltb Z.compare negb]. exact Hverb.
    + cbn [negb].
      destruct (write_all crc64_byte w _) as [w'|]; [|reflexivity].
      replace (0 <? _) with true; [reflexivity|].
      symmetry. apply Z.ltb_lt. rewrite length_app. cbn [length]. lia.
Qed.

(** A first byte with the two top bits set announces a special encoding,
    named by the six low bits. *)
Lemma rdbLoadLen_encval (r : rio) (k : Z) (rest : list Z) :
  0 <= k < 4 →
  unread r = (192 + k) :: rest →
  ∃ r', rdbLoadLen r = (k, true, r') ∧ unread r' = rest.
Proof.
  intros Hk Hun.
  destruct (rioRead_unread crc64_byte r [192 + k] rest Hun)
    as (r' & Hread & Hrest & _).
  cbn [length] in Hread. unfold Rdb.rdbLoadLen. rewrite Hread.
  exists r'. split; [|exact Hrest].
  assert (k = 0 ∨ k = 1 ∨ k = 2 ∨ k = 3) as [->|[->|[->| ->]]] by lia;
    reflexivity.
Qed.

(** The integer special form reads back as the decimal string of the
    value. *)
Lemma rdbLoadStringObject_integer (r : rio) (v : Z) (bytes rest : list Z) :
  integer_encoding v = Some bytes →
  unread r = bytes ++ rest →
  ∃ r', rdbLoadStringObject r = Some (ll2string v, r') ∧ unread r' = rest.
Proof.
  unfold integer_encoding. intros Henc Hun.
  unfold Rdb.rdbLoadStringObject.
  destruct ((-128 <=? v) && (v <=? 127)) eqn:H8.
  { injection Henc as <-. apply andb_true_iff in H8 as [Ha Hb].
    apply Z.leb_le in Ha, Hb. cbn [le_encode app] in Hun.
    destruct (rdbLoadLen_encval r 0 _ ltac:(lia) Hun) as (r1 & Hlen & Hun1).
    rewrite Hlen. cbn [orb Z.eqb REDIS_RDB_ENC_INT8].
    unfold rdbLoadIntegerObject. cbn [Z.eqb REDIS_RDB_ENC_INT8].
    destruct (rioRead_unread crc64_byte r1 [Z.land v 255] rest Hun1)
      as (r2 & Hread & Hun2 & _).
    cbn [length] in Hread. rewrite Hread.
    exists r2. split; [|exact Hun2].
    rewrite land_255. change 256 with (2 ^ 8).
    rewrite (to_signed_mod 8 v) by (change (2 ^ (8 - 1)) with 128; lia).
    reflexivity. }
  destruct ((-32768 <=? v) && (v <=? 32767)) eqn:H16.
  { injection Henc as <-. apply andb_true_iff in H16 as [Ha Hb].
    apply Z.leb_le in Ha, Hb. cbn [le_encode app] in Hun.
    destruct (rdbLoadLen_encval r 1 _ ltac:(lia) Hun) as (r1 & Hlen & Hun1).
    rewrite Hlen.
    change ((1 =? REDIS_RDB_ENC_INT8) || (1 =? REDIS_RDB_ENC_INT16)
            || (1 =? REDIS_RDB_ENC_INT32)) with true.
    unfold rdbLoadIntegerObject.
    change (1 =? REDIS_RDB_ENC_INT8) with false.
    change (1 =? REDIS_RDB_ENC_INT16) with true.
    destruct (rioRead_unread crc64_byte r1
                [Z.land v 255; Z.land (Z.shiftr v 8) 255] rest Hun1)
      as (r2 & Hread & Hun2 & _).
    cbn [length] in Hread. rewrite Hread.
    exists r2. split; [|exact Hun2].
    rewrite lor_bytes_16 by apply land_255_range.
    change [Z.land v 255; Z.land (Z.shiftr v 8) 255] with (le_encode 2 v).
    rewrite le_decode_encode. change (8 * Z.of_nat 2) with 16.
    rewrite Z.mod_mod by lia.
    rewrite (to_signed_mod 16 v) by (change (2 ^ (16 - 1)) with 32768; lia).
    reflexivity. }
  destruct ((-2147483648 <=? v) && (v <=? 2147483647)) eqn:H32;
    [|discriminate].
  injection Henc as <-. apply andb_true_iff in H32 as [Ha Hb].
  apply Z.leb_le in Ha, Hb. cbn [le_encode app] in Hun.
  destruct (rdbLoadLen_encval r 2 _ ltac:(lia) Hun) as (r1 & Hlen & Hun1).
  rewrite Hlen.
  change ((2 =? REDIS_RDB_ENC_INT8) || (2 =? REDIS_RDB_ENC_INT16)
          || (2 =? REDIS_RDB_ENC_INT32)) with true.
  unfold rdbLoadIntegerObject.
  change (2 =? REDIS_RDB_ENC_INT8) with false.
  change (2 =? REDIS_RDB_ENC_INT16) with false.
  change (2 =? REDIS_RDB_ENC_INT32) with true.
  destruct (rioRead_unread crc64_byte r1
              [Z.land v 255; Z.land (Z.shiftr v 8) 255;
               Z.land (Z.shiftr (Z.shiftr v 8) 8) 255;
               Z.land (Z.shiftr (Z.shiftr (Z.shiftr v 8) 8) 8) 255]
              rest Hun1) as (r2 & Hread & Hun2 & _).
  cbn [length] in Hread. rewrite Hread.
  exists r2. split; [|exact Hun2].
  rewrite lor_bytes_32 by apply land_255_range.
  change [Z.land v 255; Z.land (Z.shiftr v 8) 255;
          Z.land (Z.shiftr (Z.shiftr v 8) 8) 255;
          Z.land (Z.shiftr (Z.shiftr (Z.shiftr v 8) 8) 8) 255]
    with (le_encode 4 v).
  rewrite le_decode_encode. change (8 * Z.of_nat 4) with 32.
  unfold to_uint32. change 4294967296 with (2 ^ 32).
  rewrite Z.mod_mod by lia.
  rewrite (to_signed_mod 32 v) by (change (2 ^ (32 - 1)) with 2147483648; lia).
  reflexivity.
Qed.

(** The plain form reads back as the bytes. *)
Lemma rdbLoadStringObject_plain (r : rio) (s rest : list Z) :
  Z.of_nat (length s) < 4294967295 →
  unread r = length_encoding (Z.of_nat (length s)) ++ s ++ rest →
  ∃ r', rdbLoadStringObject r = Some (s, r') ∧ unread r' = rest.
Proof.
  intros Hlt Hun. unfold Rdb.rdbLoadStringObject.
  destruct (rdbLoadLen_length_encoding be crc64_byte r
              (Z.of_nat (length s)) (s ++ rest) ltac:(lia) Hun)
    as (r1 & Hlen & Hun1 & _).
  rewrite Hlen.
  replace (Z.of_nat (length s) =? REDIS_RDB_LENERR) with false
    by (symmetry; apply Z.eqb_neq; unfold REDIS_RDB_LENERR; lia).
  destruct s as [|b s].
  - cbn [length Z.of_nat Z.eqb negb]. exists r1. split; [reflexivity|].
    exact Hun1.
  - replace (Z.of_nat (length (b :: s)) =? 0) with false
      by (symmetry; apply Z.eqb_neq; cbn [length]; lia).
    cbn [negb]. rewrite Nat2Z.id.
    destruct (rioRead_unread crc64_byte r1 (b :: s) rest Hun1)
      as (r2 & Hread & Hun2 & _).
    rewrite Hread. exists r2. split; [reflexivity|exact Hun2].
Qed.

(** The LZF form reads back as the bytes that were compressed. *)
Lemma rdbLoadStringObject_lzf (r : rio) (s rest : list Z) (n : nat) :
  Z.of_nat (length s) < 4294967295 →
  (n ≤ length s)%nat →
  lzf_compress s n ≠ [] →
  unread r = [195] ++ length_encoding (Z.of_nat (length (lzf_compress s n)))
                   ++ length_encoding (Z.of_nat (length s))
                   ++ lzf_compress s n ++ rest →
  ∃ r', rdbLoadStringObject r = Some (s, r') ∧ unread r' = rest.
Proof.
  intros Hlt Hn Hout Hun. unfold Rdb.rdbLoadStringObject.
  pose proof (lzf_compress_bound s n) as Hb.
  destruct (rdbLoadLen_encval r 3 _ ltac:(lia) Hun) as (r1 & Hlen & Hun1).
  rewrite Hlen.
  change ((3 =? REDIS_RDB_ENC_INT8) || (3 =? REDIS_RDB_ENC_INT16)
          || (3 =? REDIS_RDB_ENC_INT32)) with false.
  change (3 =? REDIS_RDB_ENC_LZF) with true. cbv iota.
  unfold rdbLoadLzfStringObject.
  destruct (rdbLoadLen_length_encoding be crc64_byte r1
              (Z.of_nat (length (lzf_compress s n)))
              (length_encoding (Z.of_nat (length s))
               ++ lzf_compress s n ++ rest) ltac:(lia) Hun1)
    as (r2 & Hclen & Hun2 & _).
  rewrite Hclen.
  replace (Z.of_nat (length (lzf_compress s n)) =? REDIS_RDB_LENERR)
    with false by (symmetry; apply Z.eqb_neq; unfold REDIS_RDB_LENERR; lia).
  destruct (rdbLoadLen_length_encoding be crc64_byte r2
              (Z.of_nat (length s)) (lzf_compress s n ++ rest)
              ltac:(lia) Hun2)
    as (r3 & Hslen & Hun3 & _).
  rewrite Hslen.
  replace (Z.of_nat (length s) =? REDIS_RDB_LENERR)
    with false by (symmetry; apply Z.eqb_neq; unfold REDIS_RDB_LENERR; lia).
  rewrite !Nat2Z.id.
  destruct (rioRead_unread crc64_byte r3 _ rest Hun3)
    as (r4 & Hread & Hun4 & _).
  rewrite Hread, (lzf_decompress_compress s n Hout).
  exists r4. split; [reflexivity|exact Hun4].
Qed.

End Strings.

(** X3.  A string written by [rdbSaveRawString] is read back by
    [rdbLoadStringObject] as the same bytes, through whichever of the three
    forms it was written in (integer, LZF, plain), and the reader consumes
    exactly what the writer appended.  The string has fewer than 2^31 - 7
    bytes (the writer counts the bytes of a form in an [int]), and the LZF
    pair is one whose output decompresses to its input. *)
Theorem rdbLoadStringObject_rdbSaveRawString (be : bool)
    (crc64_byte : Z → Z → Z) (lzf_compress : list Z → nat → list Z)
    (lzf_decompress : list Z → nat → option (list Z))
    (server : redisServer) (w w' : rio) (k : Z) (s : list Z) :
  (∀ s n, (length (lzf_compress s n) ≤ n)%nat) →
  (∀ s n, lzf_compress s n ≠ [] →
          lzf_decompress (lzf_compress s n) (length s) = Some s) →
  Z.of_nat (length s) < 2147483641 →
  rdbSaveRawString be crc64_byte lzf_compress server (Some w) s
  = Some (k, Some w') →
  ∀ (r : rio) (rest : list Z),
    unread r = drop (length (io_ptr w)) (io_ptr w') ++ rest →
    ∃ r', rdbLoadStringObject be crc64_byte lzf_decompress r = Some (s, r')
          ∧ unread r' = rest.
Proof.
  intros Hbound Hinv Hlt Hsave r rest Hun.
  rewrite (rdbSaveRawString_bytes be crc64_byte lzf_compress Hbound)
    in Hsave by lia.
  cbv zeta in Hsave.
  destruct (write_all crc64_byte w _) as [w1|] eqn:Hw; [|discriminate].
  injection Hsave as _ <-.
  apply write_all_ptr in Hw. rewrite Hw, drop_app_length in Hun.
  unfold string_encoding in Hun.
  destruct (if (length s <=? 11)%nat
            then match isObjectRepresentableAsLongLong s with
                 | Some v => integer_encoding v
                 | None => None
                 end
            else None) as [bytes|] eqn:Hint.
  - destruct (length s <=? 11)%nat; [|discriminate].
    destruct (isObjectRepresentableAsLongLong s) as [v|] eqn:Hrep;
      [|discriminate].
    apply representable_iff in Hrep as [_ <-].
    exact (rdbLoadStringObject_integer be crc64_byte lzf_decompress
             r v bytes rest Hint Hun).
  - destruct (rdb_compression server && (20 <? length s)%nat
              && negb (length (lzf_compress s (length s - 4)) =? 0)%nat)
      eqn:Hlzf.
    + apply andb_true_iff in Hlzf as [_ Hne].
      apply negb_true_iff, Nat.eqb_neq in Hne.
      rewrite <- !app_assoc in Hun.
      apply (rdbLoadStringObject_lzf be crc64_byte lzf_compress lzf_decompress
               Hbound Hinv r s rest (length s - 4)); try assumption;
        [lia|lia|].
      intros Hnil. rewrite Hnil in Hne. apply Hne. reflexivity.
    + rewrite <- app_assoc in Hun.
      assert (Z.of_nat (length s) < 4294967295) as Hlt' by lia.
      exact (rdbLoadStringObject_plain be crc64_byte lzf_decompress
               r s rest Hlt' Hun).
Qed.

(** The theorem at the string "-129" (written as an int16) with a pair that
    never compresses. *)
Lemma rdbLoadStringObject_rdbSaveRawString_witness :
  ∃ r', rdbLoadStringObject false Z.lxor (λ _ _, None)
          (rioInitWithBuffer [193; 127; 255; 9])
        = Some ([45; 49; 50; 57], r')
        ∧ unread r' = [9].
Proof.
  apply (rdbLoadStringObject_rdbSaveRawString false Z.lxor (λ _ _, [])
           (λ _ _, None)
           (mkServer [] 16 None true true 512 0 0 0 0 0 REDIS_OK (-1) (-1) 0 0)
           (rioInitWithBuffer [])
           (mkRio [193; 127; 255] 3 None CB_NULL 0 3 0) 3 [45; 49; 50; 57]).
  - intros s n. cbn. lia.
  - intros s n H. exfalso. apply H. reflexivity.
  - cbn. lia.
  - vm_compute. reflexivity.
  - reflexivity.
Defined.

(** *** Integers saved as strings *)

Lemma rev_digits_length (fuel : nat) :
  ∀ (k : nat) (v : Z),
    0 <= v < 10 ^ Z.of_nat (S k) → (length (rev_digits fuel v) ≤ S k)%nat.
Proof.
  induction fuel as [|fuel IH]; intros k v Hv; cbn [rev_digits length];
    [lia|].
  destruct (v / 10 =? 0) eqn:Hq; [cbn [length]; lia|].
  apply Z.eqb_neq in Hq.
  destruct k as [|k].
  - exfalso. apply Hq. apply Z.div_small. change (10 ^ Z.of_nat 1) with 10 in Hv.
    lia.
  - apply le_n_S. apply IH.
    rewrite Nat2Z.inj_succ, Z.pow_succ_r in Hv by lia.
    split; [apply Z.div_pos; lia|].
    apply Z.div_lt_upper_bound; lia.
Qed.

Lemma ll2string_length (v : Z) (k : nat) :
  - 10 ^ Z.of_nat (S k) < v < 10 ^ Z.of_nat (S k) →
  (1 ≤ length (ll2string v) ≤ S (S k))%nat.
Proof.
  intros Hv. unfold ll2string, sdsll2str.
  rewrite length_rev, length_app.
  pose proof (rev_digits_length 20 k (if v <? 0 then - v else v)) as Hlen.
  destruct (v <? 0) eqn:Hneg.
  - apply Z.ltb_lt in Hneg. specialize (Hlen ltac:(lia)).
    cbn [length rev_digits] in *. lia.
  - apply Z.ltb_ge in Hneg. specialize (Hlen ltac:(lia)).
    cbn [length rev_digits] in *. lia.
Qed.

Lemma rdbWriteRaw_length (crc64_byte : Z → Z → Z) (rdb rdb' : option rio)
    (p : list Z) (n : Z) :
  Z.of_nat (length p) < 2147483648 →
  rdbWriteRaw crc64_byte rdb p = Some (n, rdb') → n = Z.of_nat (length p).
Proof.
  intros Hp. unfold rdbWriteRaw.
  rewrite int_of_small by lia.
  destruct rdb as [r|].
  - destruct (rioWrite crc64_byte r p); [|discriminate].
    rewrite int_result_count by lia.
    intros H. injection H as <- _. reflexivity.
  - rewrite int_result_count by lia.
    intros H. injection H as <- _. reflexivity.
Qed.

(** X4.  The bytes written for a string object do not depend on its
    encoding in memory: for every 64-bit value, what
    [rdbSaveLongLongAsStringObject] writes for the value, and returns, is
    what [rdbSaveRawString] writes and returns for its decimal string,
    whatever the stream (also the null stream, which only counts the
    bytes) and whether compression is enabled or not. *)
Theorem rdbSaveLongLongAsStringObject_rdbSaveRawString (be : bool)
    (crc64_byte : Z → Z → Z) (lzf_compress : list Z → nat → list Z)
    (server : redisServer) (rdb : option rio) (value : Z) :
  is_int64 value →
  rdbSaveLongLongAsStringObject be crc64_byte rdb value
  = rdbSaveRawString be crc64_byte lzf_compress server rdb (ll2string value).
Proof.
  intros Hv. unfold rdbSaveLongLongAsStringObject, rdbSaveRawString.
  cbv zeta. rewrite rdbTryIntegerEncoding_spec.
  rewrite (representable_ll2string value Hv).
  rewrite rdbEncodeInteger_spec.
  assert (1 ≤ length (ll2string value) ≤ 20)%nat as Hlen.
  { apply (ll2string_length value 18).
    unfold is_int64, LLONG_MIN, LLONG_MAX in Hv.
    change (10 ^ Z.of_nat 19) with 10000000000000000000. lia. }
  destruct (integer_encoding value) as [bytes|] eqn:Henc.
  - assert (0 < Z.of_nat (length bytes) <= 5
            ∧ (length (ll2string value) ≤ 11)%nat) as [Hpos H11].
    { unfold integer_encoding in Henc.
      assert (- 10 ^ Z.of_nat 10 < value < 10 ^ Z.of_nat 10
              ∧ 0 < Z.of_nat (length bytes) <= 5) as [Hr Hb].
      { change (10 ^ Z.of_nat 10) with 10000000000.
        destruct ((-128 <=? value) && (value <=? 127)) eqn:H8.
        { injection Henc as <-. apply andb_true_iff in H8 as [Ha Hb].
          apply Z.leb_le in Ha, Hb. cbn [length le_encode]. lia. }
        destruct ((-32768 <=? value) && (value <=? 32767)) eqn:H16.
        { injection Henc as <-. apply andb_true_iff in H16 as [Ha Hb].
          apply Z.leb_le in Ha, Hb. cbn [length le_encode]. lia. }
        destruct ((-2147483648 <=? value) && (value <=? 2147483647)) eqn:H32;
          [|discriminate].
        injection Henc as <-. apply andb_true_iff in H32 as [Ha Hb].
        apply Z.leb_le in Ha, Hb. cbn [length le_encode]. lia. }
      split; [exact Hb|].
      apply (ll2string_length value 9). exact Hr. }
    replace (0 <? Z.of_nat (length bytes)) with true
      by (symmetry; apply Z.ltb_lt; lia).
    replace (length (ll2string value) <=? 11)%nat with true
      by (symmetry; apply Nat.leb_le; exact H11).
    destruct (rdbWriteRaw crc64_byte rdb bytes) as [[n rdb1]|] eqn:Hw;
      [|reflexivity].
    apply rdbWriteRaw_length in Hw; [|lia]. subst n. reflexivity.
  - cbn [Z.ltb Z.compare].
    assert ((if (length (ll2string value) <=? 11)%nat
             then @None (Z * list Z) else None) = None) as ->
      by (destruct (_ <=? _)%nat; reflexivity).
    replace (20 <? length (ll2string value))%nat with false
      by (symmetry; apply Nat.ltb_ge; lia).
    rewrite andb_false_r.
    unfold to_uint32. rewrite Z.mod_small by lia.
    destruct (rdbSaveLen be crc64_byte rdb _) as [[n1 rdb1]|] eqn:Hl;
      [|reflexivity].
    replace (0 <? length (ll2string value))%nat with true
      by (symmetry; apply Nat.ltb_lt; lia).
    destruct (rdbWriteRaw crc64_byte rdb1 (ll2string value))
      as [[n2 rdb2]|] eqn:Hw; [|reflexivity].
    apply rdbWriteRaw_length in Hw; [|lia]. subst n2.
    rewrite int_of_small, int_result_count; [reflexivity| |].
    all: unfold rdbSaveLen in Hl;
      repeat match type of Hl with
             | (if ?c then _ else _) = _ => destruct c
             | match ?x with _ => _ end = _ => destruct x as [[? ?]|]
             end;
      try discriminate; injection Hl as <- _; lia.
Qed.

(** The theorem at the value 99999999999, which fits no 32-bit form: both
    writers produce the length 11 and the eleven digits. *)
Lemma rdbSaveLongLongAsStringObject_rdbSaveRawString_witness :
  rdbSaveLongLongAsStringObject false Z.lxor (Some (rioInitWithBuffer []))
    99999999999
  = rdbSaveRawString false Z.lxor (λ _ _, [])
      (mkServer [] 16 None true true 512 0 0 0 0 0 REDIS_OK (-1) (-1) 0 0)
      (Some (rioInitWithBuffer [])) (ll2string 99999999999).
Proof.
  apply rdbSaveLongLongAsStringObject_rdbSaveRawString.
  unfold is_int64, LLONG_MIN, LLONG_MAX. lia.
Defined.

End CodecExtras.

(** ** The set commands, one after the other *)

Module SetCommands.
Import Util Redis TSet UtilFacts SetFacts SetAlgebra SetKeyspace RandMember.

(** The members of the set a key holds; none for a key that holds no set. *)
Lemma setTypeCreate_members (x : list Z) : members (setTypeCreate x) = ∅.
Proof.
  unfold setTypeCreate. destruct (isObjectRepresentableAsLongLong x);
    reflexivity.
Qed.

Lemma sadd_loop_members (server : redisServer) (argv : list (list Z)) :
  ∀ (set : setobj) (added : Z),
    set_wf set →
    ∃ set' added',
      sadd_loop server set argv added = Some (set', added')
      ∧ set_wf set'
      ∧ members set' = members set ∪ list_to_set argv
      ∧ added' = added + Z.of_nat (size (members set'))
                 - Z.of_nat (size (members set)).
Proof.
  induction argv as [|x argv IH]; intros set added Hwf.
  - exists set, added. split; [reflexivity|]. split; [exact Hwf|].
    split; [set_solver|lia].
  - cbn [sadd_loop].
    destruct (setTypeAdd_spec server set x Hwf)
      as (r & s1 & Hadd & Hwf1 & Hm1 & Hr).
    rewrite Hadd.
    destruct (IH s1 (if r =? 0 then added else added + 1) Hwf1)
      as (set' & added' & Hloop & Hwf' & Hm' & Hadded).
    exists set', added'. split; [exact Hloop|]. split; [exact Hwf'|].
    split; [rewrite Hm', Hm1; set_solver|].
    rewrite Hadded, Hm1, size_add. subst r.
    case_bool_decide; cbn [Z.eqb]; lia.
Qed.

(** X5.  SADD on a key that holds a set, or nothing: the command replies
    with the number of arguments that were not yet members, adds that
    number to the dirty counter, leaves the key bound to a set whose
    members are the old ones and the arguments, and touches no other key;
    afterwards SISMEMBER replies 1 for every argument and SCARD replies
    the old cardinality plus the number replied. *)
Theorem saddCommand_then_read (server : redisServer) (db : redisDb)
    (key ele : list Z) (more : list (list Z)) (old : gset (list Z)) :
  db_wf db →
  (Db.lookupKeyWrite db key = None ∧ old = ∅
   ∨ ∃ set, Db.lookupKeyWrite db key = Some (Set_obj set)
            ∧ old = members set) →
  ∃ server' db' set',
    saddCommand server db key ele more
    = Some (server', db',
            [ReplyLongLong
               (Z.of_nat (size (list_to_set (ele :: more) ∖ old)))])
    ∧ dirty server'
      = dirty server + Z.of_nat (size (list_to_set (ele :: more) ∖ old))
    ∧ dict db' = <[key := Set_obj set']> (dict db)
    ∧ expires db' = expires db
    ∧ set_wf set'
    ∧ members set' = old ∪ list_to_set (ele :: more)
    ∧ (∀ x, x ∈ ele :: more → sismemberCommand db' key x = [shared_cone])
    ∧ scardCommand db' key
      = [ReplyLongLong
           (Z.of_nat (size old)
            + Z.of_nat (size (list_to_set (ele :: more) ∖ old)))].
Proof.
  intros Hdb Hkey.
  assert (∃ set db1,
            set_wf set ∧ members set = old
            ∧ (∀ v, Db.modified_in_place db1 key v
                    = Db.modified_in_place db key v)
            ∧ saddCommand server db key ele more
              = match sadd_loop server set (ele :: more) 0 with
                | Some (set', added) =>
                    Some (set_dirty server (dirty server + added),
                          Db.modified_in_place db1 key (Set_obj set'),
                          [ReplyLongLong added])
                | None => None
                end) as (set & db1 & Hwf & Hold & Hdb1 & Hcmd).
  { unfold saddCommand.
    destruct Hkey as [[Hnone ->]|(set & Hsome & ->)].
    - rewrite Hnone.
      exists (setTypeCreate ele),
             (Db.dbAdd db key (Set_obj (setTypeCreate ele))).
      split; [apply setTypeCreate_wf|].
      split; [apply setTypeCreate_members|].
      split; [|reflexivity].
      intros v. apply modified_after_dbAdd.
    - rewrite Hsome. exists set, db.
      split; [exact (lookup_wf db key set Hdb Hsome)|].
      split; [reflexivity|]. split; [reflexivity|reflexivity]. }
  destruct (sadd_loop_members server (ele :: more) set 0 Hwf)
    as (set' & added & Hloop & Hwf' & Hm & Hadded).
  rewrite Hloop, Hdb1 in Hcmd. rewrite Hold in Hm, Hadded.
  assert (added = Z.of_nat (size (list_to_set (ele :: more) ∖ old)))
    as Hcount.
  { rewrite Hadded, Hm.
    replace (old ∪ list_to_set (ele :: more))
      with (old ∪ (list_to_set (ele :: more) ∖ old)).
    - rewrite size_union by set_solver. lia.
    - apply set_eq. intros x. rewrite !elem_of_union, elem_of_difference.
      destruct (decide (x ∈ old)); tauto. }
  exists (set_dirty server (dirty server + added)),
         (Db.modified_in_place db key (Set_obj set')), set'.
  rewrite <- Hcount.
  split; [exact Hcmd|]. split; [reflexivity|]. split; [reflexivity|].
  split; [reflexivity|]. split; [exact Hwf'|]. split; [exact Hm|].
  split.
  - intros x Hx. unfold sismemberCommand, Db.lookupKeyRead, Db.lookupKey,
      Db.modified_in_place. cbn [dict].
    rewrite lookup_insert_eq, (setTypeIsMember_spec set' x Hwf').
    rewrite bool_decide_eq_true_2; [reflexivity|].
    rewrite Hm, elem_of_union, elem_of_list_to_set. right. exact Hx.
  - unfold scardCommand, Db.lookupKeyRead, Db.lookupKey,
      Db.modified_in_place. cbn [dict].
    rewrite lookup_insert_eq, (setTypeSize_members set' Hwf'), Hm.
    rewrite Hadded, Hm. do 2 f_equal. lia.
Qed.

(** The theorem on a database where "s" holds {1,2}: SADD s 2 3 x adds two
    members. *)
Lemma saddCommand_then_read_witness :
  ∃ server' db' set',
    saddCommand
      (mkServer [] 16 None true true 512 0 0 0 0 0 REDIS_OK (-1) (-1) 0 0)
      (mkDb (<[ [115] := Set_obj (Intset_enc [1; 2]) ]> ∅) ∅)
      [115] [50] [[51]; [120]]
    = Some (server', db', [ReplyLongLong 2])
    ∧ dirty server' = 2
    ∧ members set' = {[ [49]; [50]; [51]; [120] ]}
    ∧ scardCommand db' [115] = [ReplyLongLong 4].
Proof.
  assert (Db.lookupKeyWrite
            (mkDb (<[ [115] := Set_obj (Intset_enc [1; 2]) ]> ∅) ∅) [115]
          = Some (Set_obj (Intset_enc [1; 2]))) as Hkey
    by (vm_compute; reflexivity).
  assert (db_wf (mkDb (<[ [115] := Set_obj (Intset_enc [1; 2]) ]> ∅) ∅))
    as Hdb.
  { intros k o Hk. cbn [dict] in Hk.
    apply lookup_insert_Some in Hk as [[_ <-]|[_ Hk]].
    - split; [repeat constructor; vm_compute; intros H; discriminate H|].
      repeat constructor.
    - rewrite lookup_empty in Hk. discriminate. }
  destruct (saddCommand_then_read
              (mkServer [] 16 None true true 512 0 0 0 0 0 REDIS_OK (-1) (-1)
                 0 0)
              (mkDb (<[ [115] := Set_obj (Intset_enc [1; 2]) ]> ∅) ∅)
              [115] [50] [[51]; [120]] (members (Intset_enc [1; 2])) Hdb
              (or_intror (ex_intro _ (Intset_enc [1; 2])
                            (conj Hkey eq_refl))))
    as (server' & db' & set' & Hcmd & Hdirty & _ & _ & _ & Hm & _ & Hcard).
  exists server', db', set'.
  assert (Z.of_nat (size (list_to_set [[50]; [51]; [120]]
                          ∖ members (Intset_enc [1; 2]))) = 2) as Hsize
    by (vm_compute; reflexivity).
  assert (Z.of_nat (size (members (Intset_enc [1; 2]))) = 2) as Hold
    by (vm_compute; reflexivity).
  assert (members (Intset_enc [1; 2]) ∪ list_to_set [[50]; [51]; [120]]
          = ({[ [49]; [50]; [51]; [120] ]} : gset (list Z))) as Hall
    by (vm_compute; reflexivity).
  rewrite Hsize in Hcmd, Hdirty, Hcard. rewrite Hold in Hcard.
  rewrite Hall in Hm.
  split; [exact Hcmd|]. split; [exact Hdirty|].
  split; [exact Hm|exact Hcard].
Defined.

(** *** SREM *)

Lemma srem_loop_count (argv : list (list Z)) :
  ∀ (set : setobj) (deleted : Z),
    set_wf set → 0 < setTypeSize set →
    set_wf (srem_loop set argv deleted).1.1
    ∧ (srem_loop set argv deleted).1.2
      = deleted + Z.of_nat (size (members set ∩ list_to_set argv))
    ∧ (if (srem_loop set argv deleted).2
       then members set ⊆ list_to_set argv
       else members (srem_loop set argv deleted).1.1
            = members set ∖ list_to_set argv
            ∧ 0 < setTypeSize (srem_loop set argv deleted).1.1).
Proof.
  induction argv as [|x argv IH]; intros set deleted Hwf Hpos.
  - cbn [srem_loop fst snd list_to_set]. split; [exact Hwf|].
    split; [|split; [set_solver|exact Hpos]].
    replace (members set ∩ ∅) with (∅ : gset (list Z)) by set_solver.
    rewrite size_empty. lia.
  - cbn [srem_loop].
    destruct (setTypeRemove_spec set x Hwf) as (Hwf1 & Hm1 & Hr & _).
    destruct (setTypeRemove set x) as [r s1]. cbn [fst snd] in *.
    pose proof (setTypeSize_members s1 Hwf1) as Hsize1.
    pose proof (setTypeSize_members set Hwf) as Hsize.
    case_bool_decide as Hin; subst r; cbn [Z.eqb].
    + assert (members set ∩ list_to_set (x :: argv)
              = {[x]} ∪ (members s1 ∩ list_to_set argv)) as Hsplit.
      { rewrite Hm1. apply set_eq. intros y. cbn [list_to_set].
        rewrite !elem_of_intersection, !elem_of_union, elem_of_intersection,
          elem_of_difference, elem_of_singleton.
        destruct (decide (y = x)) as [->|]; tauto. }
      destruct (setTypeSize s1 =? 0) eqn:Hempty; cbn [fst snd].
      * apply Z.eqb_eq in Hempty.
        pose proof (size_zero_members s1 Hwf1 Hempty) as Hnil.
        split; [exact Hwf1|]. split.
        -- rewrite Hsplit, Hnil.
           replace ({[x]} ∪ ∅ ∩ list_to_set argv) with ({[x]} : gset (list Z))
             by set_solver.
           rewrite size_singleton. lia.
        -- rewrite Hm1 in Hnil. cbn [list_to_set]. intros y Hy.
           destruct (decide (y = x)) as [->|Hne]; [set_solver|].
           exfalso. assert (y ∈ members set ∖ {[x]}) as H by set_solver.
           rewrite Hnil in H. set_solver.
      * apply Z.eqb_neq in Hempty.
        pose proof (setTypeSize_nonneg s1).
        destruct (IH s1 (deleted + 1) Hwf1 ltac:(lia)) as (Hwf' & Hd & Hrest).
        split; [exact Hwf'|]. split.
        -- rewrite Hd, Hsplit, size_add.
           rewrite bool_decide_eq_false_2; [lia|].
           rewrite Hm1. set_solver.
        -- destruct (srem_loop s1 argv (deleted + 1)).2.
           ++ rewrite Hm1 in Hrest. cbn [list_to_set]. intros y Hy.
              destruct (decide (y = x)) as [->|Hne];
                [apply elem_of_union_l, elem_of_singleton; reflexivity|].
              apply elem_of_union_r, Hrest, elem_of_difference.
              split; [exact Hy|]. rewrite elem_of_singleton. exact Hne.
           ++ destruct Hrest as [Hm' Hp']. split; [|exact Hp'].
              rewrite Hm', Hm1. cbn [list_to_set]. apply set_eq. intros y.
              rewrite !elem_of_difference, elem_of_union. tauto.
    + assert (members s1 = members set) as Hsame by (rewrite Hm1; set_solver).
      destruct (IH s1 deleted Hwf1 ltac:(rewrite Hsize1, Hsame, <- Hsize; lia))
        as (Hwf' & Hd & Hrest).
      split; [exact Hwf'|]. split.
      * rewrite Hd, Hsame. do 3 f_equal. cbn [list_to_set]. apply set_eq.
        intros y. rewrite !elem_of_intersection, elem_of_union, elem_of_singleton.
        split; [tauto|]. intros [Hy [->|Hq]]; [destruct (Hin Hy)|tauto].
      * destruct (srem_loop s1 argv deleted).2.
        -- rewrite Hsame in Hrest. cbn [list_to_set]. intros y Hy.
           apply elem_of_union_r, Hrest, Hy.
        -- destruct Hrest as [Hm' Hp']. split; [|exact Hp'].
           rewrite Hm', Hsame. cbn [list_to_set]. apply set_eq. intros y.
           rewrite !elem_of_difference, elem_of_union, elem_of_singleton.
           split; [|tauto]. intros [Hy Hn]. split; [exact Hy|].
           intros [->|Hq]; [exact (Hin Hy)|exact (Hn Hq)].
Qed.

(** X6.  SREM on a key that holds a set: the command replies with the
    number of members among the arguments and adds it to the dirty
    counter; if every member was named the key leaves the keyspace and the
    expirations, otherwise it stays bound to the members that were not
    named; afterwards SISMEMBER replies 0 for every argument. *)
Theorem sremCommand_then_read (server : redisServer) (db : redisDb)
    (key : list Z) (argv : list (list Z)) (set : setobj) :
  db_wf db → no_empty_set db →
  Db.lookupKeyWrite db key = Some (Set_obj set) →
  ∃ server' db',
    sremCommand server db key argv
    = Some (server', db',
            [ReplyLongLong
               (Z.of_nat (size (members set ∩ list_to_set argv)))])
    ∧ dirty server'
      = dirty server + Z.of_nat (size (members set ∩ list_to_set argv))
    ∧ (members set ⊆ list_to_set argv →
       dict db' = delete key (dict db)
       ∧ expires db' = delete key (expires db))
    ∧ (¬ members set ⊆ list_to_set argv →
       ∃ set', dict db' = <[key := Set_obj set']> (dict db)
               ∧ expires db' = expires db
               ∧ members set' = members set ∖ list_to_set argv)
    ∧ (∀ x, x ∈ argv → sismemberCommand db' key x = [shared_czero]).
Proof.
  intros Hdb Hne Hkey.
  pose proof (lookup_wf db key set Hdb Hkey) as Hwf.
  pose proof (lookup_nonempty db key set Hne Hkey) as Hpos.
  unfold sremCommand. rewrite Hkey.
  destruct (srem_loop_count argv set 0 Hwf Hpos) as (Hwf' & Hd & Hrest).
  destruct (srem_loop set argv 0) as [[set' deleted] keyremoved].
  cbn [fst snd] in *. rewrite Z.add_0_l in Hd. subst deleted.
  eexists _, _. split; [reflexivity|].
  split; [destruct (_ =? 0) eqn:H0; [apply Z.eqb_eq in H0; cbn; lia
                                    |reflexivity]|].
  destruct keyremoved.
  - split; [intros _; split; reflexivity|].
    split; [intros Hnot; exfalso; exact (Hnot Hrest)|].
    intros x Hx. unfold sismemberCommand, Db.lookupKeyRead, Db.lookupKey,
      Db.dbDelete. cbn [snd dict].
    rewrite lookup_delete_eq. reflexivity.
  - destruct Hrest as [Hm' Hp'].
    split.
    { intros Hsub. exfalso.
      assert (members set' = ∅) as Hnil by (rewrite Hm'; set_solver).
      rewrite (setTypeSize_members set' Hwf'), Hnil, size_empty in Hp'. lia. }
    split.
    { intros _. exists set'. split; [reflexivity|].
      split; [reflexivity|exact Hm']. }
    intros x Hx. unfold sismemberCommand, Db.lookupKeyRead, Db.lookupKey,
      Db.modified_in_place. cbn [dict].
    rewrite lookup_insert_eq, (setTypeIsMember_spec set' x Hwf').
    rewrite bool_decide_eq_false_2; [reflexivity|].
    rewrite Hm', elem_of_difference, elem_of_list_to_set. tauto.
Qed.

(** The theorem on a database where "s" holds {7}: SREM s 7 8 removes one
    member and the key. *)
Lemma sremCommand_then_read_witness :
  ∃ server' db',
    sremCommand
      (mkServer [] 16 None true true 512 0 0 0 0 0 REDIS_OK (-1) (-1) 0 0)
      (mkDb (<[ [115] := Set_obj (Intset_enc [7]) ]> ∅) ∅)
      [115] [[55]; [56]]
    = Some (server', db', [ReplyLongLong 1])
    ∧ dirty server' = 1
    ∧ sismemberCommand db' [115] [55] = [shared_czero].
Proof.
  assert (Db.lookupKeyWrite
            (mkDb (<[ [115] := Set_obj (Intset_enc [7]) ]> ∅) ∅) [115]
          = Some (Set_obj (Intset_enc [7]))) as Hkey
    by (vm_compute; reflexivity).
  assert (db_wf (mkDb (<[ [115] := Set_obj (Intset_enc [7]) ]> ∅) ∅)
          ∧ no_empty_set (mkDb (<[ [115] := Set_obj (Intset_enc [7]) ]> ∅) ∅))
    as [Hdb Hne].
  { split; intros k o Hk; cbn [dict] in Hk;
      apply lookup_insert_Some in Hk as [[_ <-]|[_ Hk]];
      try (rewrite lookup_empty in Hk; discriminate).
    - split; [repeat constructor; vm_compute; intros H; discriminate H|].
      repeat constructor.
    - vm_compute. reflexivity. }
  destruct (sremCommand_then_read
              (mkServer [] 16 None true true 512 0 0 0 0 0 REDIS_OK (-1) (-1)
                 0 0)
              (mkDb (<[ [115] := Set_obj (Intset_enc [7]) ]> ∅) ∅)
              [115] [[55]; [56]] (Intset_enc [7]) Hdb Hne Hkey)
    as (server' & db' & Hcmd & Hdirty & _ & _ & Hread).
  exists server', db'.
  assert (Z.of_nat (size (members (Intset_enc [7])
                          ∩ list_to_set [[55]; [56]])) = 1) as Hsize
    by (vm_compute; reflexivity).
  rewrite Hsize in Hcmd, Hdirty.
  split; [exact Hcmd|]. split; [exact Hdirty|].
  apply Hread. left.
Defined.

End SetCommands.

(** ** SMOVE and SPOP *)

Module SetMoves.
Import Util Redis TSet UtilFacts SetFacts SetAlgebra SetKeyspace RandMember.

(** What SISMEMBER replies on a key, from what the key holds. *)
Lemma sismember_set (db : redisDb) (key x : list Z) (s : setobj) :
  set_wf s → dict db !! key = Some (Set_obj s) →
  sismemberCommand db key x
  = if bool_decide (x ∈ members s) then [shared_cone] else [shared_czero].
Proof.
  intros Hwf Hk. unfold sismemberCommand, Db.lookupKeyRead, Db.lookupKey.
  rewrite Hk, (setTypeIsMember_spec s x Hwf). reflexivity.
Qed.

Lemma sismember_absent (db : redisDb) (key x : list Z) :
  dict db !! key = None → sismemberCommand db key x = [shared_czero].
Proof.
  intros Hk. unfold sismemberCommand, Db.lookupKeyRead, Db.lookupKey.
  rewrite Hk. reflexivity.
Qed.

(** X7.  SMOVE of a member between two different keys, the destination
    holding a set or nothing: the command replies 1; afterwards the source
    has lost exactly the element and the destination has gained exactly
    it, as SISMEMBER answers on both keys; no other key has changed, and
    the dirty counter has grown by 2, or by 1 when the destination already
    had the element. *)
Theorem smoveCommand_moves (server : redisServer) (db : redisDb)
    (src dst ele : list Z) (sset : setobj) (dold : gset (list Z)) :
  db_wf db →
  src ≠ dst →
  Db.lookupKeyWrite db src = Some (Set_obj sset) →
  ele ∈ members sset →
  (Db.lookupKeyWrite db dst = None ∧ dold = ∅
   ∨ ∃ d, Db.lookupKeyWrite db dst = Some (Set_obj d) ∧ dold = members d) →
  ∃ server' db',
    smoveCommand server db src dst ele = Some (server', db', [shared_cone])
    ∧ dirty server'
      = dirty server + (if bool_decide (ele ∈ dold) then 1 else 2)
    ∧ (∀ x, sismemberCommand db' src x
            = if bool_decide (x ∈ members sset ∖ {[ele]})
              then [shared_cone] else [shared_czero])
    ∧ (∀ x, sismemberCommand db' dst x
            = if bool_decide (x ∈ dold ∪ {[ele]})
              then [shared_cone] else [shared_czero])
    ∧ (∀ k, k ≠ src → k ≠ dst → dict db' !! k = dict db !! k).
Proof.
  intros Hdb Hneq Hsrc Hin Hdst.
  pose proof (lookup_wf db src sset Hdb Hsrc) as Hs.
  unfold smoveCommand. rewrite Hsrc.
  assert ((match Db.lookupKeyWrite db dst with
           | Some o => negb (is_set o)
           | None => false
           end) = false) as Hty.
  { destruct Hdst as [[-> _]|(d & -> & _)]; reflexivity. }
  rewrite Hty, (bool_decide_eq_false_2 _ Hneq).
  destruct (setTypeRemove_spec sset ele Hs) as (Hs' & Hm' & Hr & _).
  destruct (setTypeRemove sset ele) as [r sset']. cbn [fst snd] in *.
  rewrite bool_decide_eq_true_2 in Hr by exact Hin. subst r. cbn [Z.eqb].
  set (db1 := if setTypeSize sset' =? 0 then (Db.dbDelete db src).2
              else Db.modified_in_place db src (Set_obj sset')).
  assert (∀ x, sismemberCommand db1 src x
               = if bool_decide (x ∈ members sset ∖ {[ele]})
                 then [shared_cone] else [shared_czero]) as Hsrc1.
  { intros x. subst db1. destruct (setTypeSize sset' =? 0) eqn:Hz.
    - apply Z.eqb_eq in Hz.
      pose proof (size_zero_members sset' Hs' Hz) as Hnil.
      rewrite sismember_absent by apply dbDelete_absent.
      rewrite <- Hm', Hnil, bool_decide_eq_false_2; [reflexivity|].
      apply not_elem_of_empty.
    - rewrite (sismember_set _ src x sset' Hs'), Hm'; [reflexivity|].
      unfold Db.modified_in_place. cbn [dict]. apply lookup_insert_eq. }
  assert (∀ k, k ≠ src → dict db1 !! k = dict db !! k) as Hother1.
  { intros k Hk. subst db1. destruct (setTypeSize sset' =? 0).
    - unfold Db.dbDelete. cbn [snd dict]. apply lookup_delete_ne. congruence.
    - unfold Db.modified_in_place. cbn [dict]. apply lookup_insert_ne.
      congruence. }
  assert (∃ dset db2,
            (match Db.lookupKeyWrite db dst with
             | Some (Set_obj d) => (d, db1)
             | _ => (setTypeCreate ele,
                     Db.dbAdd db1 dst (Set_obj (setTypeCreate ele)))
             end) = (dset, db2)
            ∧ set_wf dset ∧ members dset = dold
            ∧ ∀ v, Db.modified_in_place db2 dst v
                   = Db.modified_in_place db1 dst v)
    as (dset & db2 & Heq & Hd & Hdm & Hmod).
  { destruct Hdst as [[Hk ->]|(d & Hk & ->)]; rewrite Hk.
    - eexists _, _. split; [reflexivity|].
      split; [apply setTypeCreate_wf|].
      split; [apply SetCommands.setTypeCreate_members|].
      intros v. apply modified_after_dbAdd.
    - exists d, db1. split; [reflexivity|].
      split; [exact (lookup_wf db dst d Hdb Hk)|].
      split; reflexivity. }
  rewrite Heq.
  destruct (setTypeAdd_spec (set_dirty server (dirty server + 1)) dset ele Hd)
    as (a & dset' & Hadd & Hd' & Hdm' & Ha).
  rewrite Hadd, Hmod. rewrite Hdm in Hdm', Ha.
  eexists _, _. split; [reflexivity|]. split; [|split; [|split]].
  - subst a. case_bool_decide; cbn; lia.
  - intros x. rewrite <- Hsrc1.
    unfold sismemberCommand, Db.lookupKeyRead, Db.lookupKey,
      Db.modified_in_place. cbn [dict].
    rewrite lookup_insert_ne by congruence. reflexivity.
  - intros x. rewrite (sismember_set _ dst x dset' Hd').
    + rewrite Hdm', (union_comm_L {[ele]} dold). reflexivity.
    + unfold Db.modified_in_place. cbn [dict]. apply lookup_insert_eq.
  - intros k Hk1 Hk2. unfold Db.modified_in_place. cbn [dict].
    rewrite lookup_insert_ne by congruence. apply Hother1. exact Hk1.
Qed.

(** The theorem on a database where "s" holds {1,2} and "d" nothing:
    SMOVE s d 1. *)
Lemma smoveCommand_moves_witness :
  ∃ server' db',
    smoveCommand
      (mkServer [] 16 None true true 512 0 0 0 0 0 REDIS_OK (-1) (-1) 0 0)
      (mkDb (<[ [115] := Set_obj (Intset_enc [1; 2]) ]> ∅) ∅)
      [115] [100] [49]
    = Some (server', db', [shared_cone])
    ∧ dirty server' = 2
    ∧ sismemberCommand db' [115] [49] = [shared_czero]
    ∧ sismemberCommand db' [115] [50] = [shared_cone]
    ∧ sismemberCommand db' [100] [49] = [shared_cone].
Proof.
  assert (Db.lookupKeyWrite
            (mkDb (<[ [115] := Set_obj (Intset_enc [1; 2]) ]> ∅) ∅) [115]
          = Some (Set_obj (Intset_enc [1; 2]))) as Hsrc
    by (vm_compute; reflexivity).
  assert (Db.lookupKeyWrite
            (mkDb (<[ [115] := Set_obj (Intset_enc [1; 2]) ]> ∅) ∅) [100]
          = None) as Hdst
    by (vm_compute; reflexivity).
  assert (db_wf (mkDb (<[ [115] := Set_obj (Intset_enc [1; 2]) ]> ∅) ∅))
    as Hdb.
  { intros k o Hk. cbn [dict] in Hk.
    apply lookup_insert_Some in Hk as [[_ <-]|[_ Hk]].
    - split; [repeat constructor; vm_compute; intros H; discriminate H|].
      repeat constructor.
    - rewrite lookup_empty in Hk. discriminate. }
  assert (([49] : list Z) ∈ members (Intset_enc [1; 2])) as Hin.
  { apply elem_of_members_intset. exists 1. split; [left|reflexivity]. }
  assert (([115] : list Z) ≠ [100]) as Hneq by (intros H; discriminate H).
  destruct (smoveCommand_moves
              (mkServer [] 16 None true true 512 0 0 0 0 0 REDIS_OK (-1) (-1)
                 0 0)
              (mkDb (<[ [115] := Set_obj (Intset_enc [1; 2]) ]> ∅) ∅)
              [115] [100] [49] (Intset_enc [1; 2]) ∅ Hdb Hneq Hsrc Hin
              (or_introl (conj Hdst eq_refl)))
    as (server' & db' & Hcmd & Hdirty & Hs & Hd & _).
  exists server', db'.
  assert (([49] : list Z) ≠ [50]) as Hne by (intros H; discriminate H).
  assert (([50] : list Z) ∈ members (Intset_enc [1; 2])) as Hin2.
  { apply elem_of_members_intset. exists 2. split; [right; left|reflexivity]. }
  rewrite bool_decide_eq_false_2 in Hdirty by apply not_elem_of_empty.
  pose proof (Hs [49]) as Hs1.
  rewrite bool_decide_eq_false_2 in Hs1
    by (rewrite elem_of_difference, elem_of_singleton; tauto).
  pose proof (Hs [50]) as Hs2.
  rewrite bool_decide_eq_true_2 in Hs2
    by (rewrite elem_of_difference, elem_of_singleton; split;
        [exact Hin2|congruence]).
  pose proof (Hd [49]) as Hd1.
  rewrite bool_decide_eq_true_2 in Hd1
    by (apply elem_of_union_r, elem_of_singleton; reflexivity).
  split; [exact Hcmd|]. split; [exact Hdirty|].
  split; [exact Hs1|]. split; [exact Hs2|exact Hd1].
Defined.

(** X8.  SMOVE that moves nothing.  With the source holding a set: when the
    two keys are the same the command replies 1 and changes nothing,
    whether the element is a member or not; when they differ, the
    destination holds a set or nothing and the element is no member of the
    source, it replies 0 and changes nothing.  A source key that is
    missing gives the reply 0. *)
Theorem smoveCommand_nothing_moved (server : redisServer) (db : redisDb)
    (src dst ele : list Z) :
  (Db.lookupKeyWrite db src = None →
   smoveCommand server db src dst ele = Some (server, db, [shared_czero]))
  ∧ (∀ sset,
       Db.lookupKeyWrite db src = Some (Set_obj sset) →
       smoveCommand server db src src ele
       = Some (server, db, [shared_cone]))
  ∧ (∀ sset,
       db_wf db →
       Db.lookupKeyWrite db src = Some (Set_obj sset) →
       src ≠ dst →
       (∀ o, Db.lookupKeyWrite db dst = Some o → is_set o = true) →
       ele ∉ members sset →
       smoveCommand server db src dst ele
       = Some (server, db, [shared_czero])).
Proof.
  split; [|split].
  - intros Hsrc. unfold smoveCommand. rewrite Hsrc. reflexivity.
  - intros sset Hsrc. unfold smoveCommand. rewrite Hsrc. cbn [is_set negb].
    rewrite bool_decide_eq_true_2 by reflexivity. reflexivity.
  - intros sset Hdb Hsrc Hneq Hdst Hnot.
    pose proof (lookup_wf db src sset Hdb Hsrc) as Hs.
    unfold smoveCommand. rewrite Hsrc.
    assert ((match Db.lookupKeyWrite db dst with
             | Some o => negb (is_set o)
             | None => false
             end) = false) as Hty.
    { destruct (Db.lookupKeyWrite db dst) as [o|]; [|reflexivity].
      rewrite (Hdst o eq_refl). reflexivity. }
    rewrite Hty, (bool_decide_eq_false_2 _ Hneq).
    destruct (setTypeRemove_spec sset ele Hs) as (_ & _ & Hr & _).
    destruct (setTypeRemove sset ele) as [r sset']. cbn [fst snd] in *.
    rewrite bool_decide_eq_false_2 in Hr by exact Hnot. subst r.
    reflexivity.
Qed.

(** X9.  SPOP on a key that holds a set: the command replies with one
    member, adds 1 to the dirty counter and takes that member, and no
    other, out of the set, as SISMEMBER answers afterwards; the key leaves
    the keyspace exactly when the member was the last one. *)
Theorem spopCommand_removes_member (server : redisServer) (db : redisDb)
    (key : list Z) (draw : nat) (set : setobj) :
  db_wf db → no_empty_set db →
  Db.lookupKeyWrite db key = Some (Set_obj set) →
  ∃ ele server' db',
    spopCommand server db key draw = Some (server', db', [ReplyBulk ele])
    ∧ ele ∈ members set
    ∧ dirty server' = dirty server + 1
    ∧ (∀ x, sismemberCommand db' key x
            = if bool_decide (x ∈ members set ∖ {[ele]})
              then [shared_cone] else [shared_czero])
    ∧ (dict db' !! key = None ↔ setTypeSize set = 1)
    ∧ (∀ k, k ≠ key → dict db' !! k = dict db !! k).
Proof.
  intros Hdb Hne Hkey.
  pose proof (lookup_wf db key set Hdb Hkey) as Hs.
  pose proof (lookup_nonempty db key set Hne Hkey) as Hpos.
  unfold spopCommand. rewrite Hkey.
  assert (∃ picked, setTypeRandomElement set draw = Some picked)
    as [picked Hpick].
  { pose proof (setTypeRandomElement_object set draw) as Ho.
    rewrite setTypeSize_length in Hpos.
    destruct (setTypeRandomElement set draw) as [p|]; [eauto|].
    cbn in Ho. symmetry in Ho. apply lookup_ge_None in Ho.
    pose proof (Nat.mod_upper_bound draw
                  (length (setTypeNextObject_all set)) ltac:(lia)).
    lia. }
  rewrite Hpick.
  pose proof (spop_pick set draw picked Hs Hpick) as Hp. cbv zeta in Hp.
  assert ((match picked, set with
           | inl llele, Intset_enc ints =>
               (createStringObjectFromLongLong llele,
                Intset_enc (fst (intsetRemove ints llele)))
           | inl llele, HT_enc _ =>
               (createStringObjectFromLongLong llele, set)
           | inr ele, _ => (ele, snd (setTypeRemove set ele))
           end).1 = object_of picked) as Hele.
  { destruct picked as [v|e]; [destruct set|]; reflexivity. }
  destruct (match picked, set with
            | inl llele, Intset_enc ints =>
                (createStringObjectFromLongLong llele,
                 Intset_enc (fst (intsetRemove ints llele)))
            | inl llele, HT_enc _ =>
                (createStringObjectFromLongLong llele, set)
            | inr ele, _ => (ele, snd (setTypeRemove set ele))
            end) as [ele set'].
  cbn [fst] in Hele. subst ele.
  destruct Hp as (Hs' & Hin & Hm').
  assert (setTypeSize set' = setTypeSize set - 1) as Hsize.
  { rewrite (setTypeSize_members set' Hs'), (setTypeSize_members set Hs), Hm'.
    rewrite size_remove, bool_decide_eq_true_2 by exact Hin. reflexivity. }
  eexists _, _, _. split; [reflexivity|]. split; [exact Hin|].
  split; [reflexivity|].
  destruct (setTypeSize set' =? 0) eqn:Hz.
  - apply Z.eqb_eq in Hz.
    pose proof (size_zero_members set' Hs' Hz) as Hnil.
    split; [|split].
    + intros x. rewrite sismember_absent by apply dbDelete_absent.
      rewrite <- Hm', Hnil, bool_decide_eq_false_2; [reflexivity|].
      apply not_elem_of_empty.
    + split; [lia|]. intros _. apply dbDelete_absent.
    + intros k Hk. unfold Db.dbDelete. cbn [snd dict].
      apply lookup_delete_ne. congruence.
  - apply Z.eqb_neq in Hz. split; [|split].
    + intros x. rewrite (sismember_set _ key x set' Hs'), Hm'; [reflexivity|].
      unfold Db.modified_in_place. cbn [dict]. apply lookup_insert_eq.
    + unfold Db.modified_in_place. cbn [dict]. rewrite lookup_insert_eq.
      split; [discriminate|lia].
    + intros k Hk. unfold Db.modified_in_place. cbn [dict].
      apply lookup_insert_ne. congruence.
Qed.

(** The theorem on a database where "s" holds {7}: SPOP s replies 7 and
    removes the key. *)
Lemma spopCommand_removes_member_witness :
  ∃ ele server' db',
    spopCommand
      (mkServer [] 16 None true true 512 0 0 0 0 0 REDIS_OK (-1) (-1) 0 0)
      (mkDb (<[ [115] := Set_obj (Intset_enc [7]) ]> ∅) ∅)
      [115] 5%nat
    = Some (server', db', [ReplyBulk ele])
    ∧ dirty server' = 1
    ∧ dict db' !! [115] = None.
Proof.
  assert (Db.lookupKeyWrite
            (mkDb (<[ [115] := Set_obj (Intset_enc [7]) ]> ∅) ∅) [115]
          = Some (Set_obj (Intset_enc [7]))) as Hkey
    by (vm_compute; reflexivity).
  assert (db_wf (mkDb (<[ [115] := Set_obj (Intset_enc [7]) ]> ∅) ∅)
          ∧ no_empty_set (mkDb (<[ [115] := Set_obj (Intset_enc [7]) ]> ∅) ∅))
    as [Hdb Hne].
  { split; intros k o Hk; cbn [dict] in Hk;
      apply lookup_insert_Some in Hk as [[_ <-]|[_ Hk]];
      try (rewrite lookup_empty in Hk; discriminate).
    - split; [repeat constructor; vm_compute; intros H; discriminate H|].
      repeat constructor.
    - vm_compute. reflexivity. }
  destruct (spopCommand_removes_member
              (mkServer [] 16 None true true 512 0 0 0 0 0 REDIS_OK (-1) (-1)
                 0 0)
              (mkDb (<[ [115] := Set_obj (Intset_enc [7]) ]> ∅) ∅)
              [115] 5%nat (Intset_enc [7]) Hdb Hne Hkey)
    as (ele & server' & db' & Hcmd & _ & Hdirty & _ & Hgone & _).
  exists ele, server', db'.
  split; [exact Hcmd|]. split; [exact Hdirty|].
  apply Hgone. vm_compute. reflexivity.
Defined.

End SetMoves.

(** ** SINTER, SUNION and their store forms *)

Module SetCombine.
Import Util Redis TSet UtilFacts SetFacts SetAlgebra SetKeyspace RandMember.
Import SetMoves.

(** *** The looked-up sets of an intersection *)

Lemma sinter_lookup_found (db : redisDb) (setkeys : list (list Z)) :
  (∀ k, k ∈ setkeys → ∃ s, Db.lookupKey db k = Some (Set_obj s)) →
  ∃ sets, sinter_lookup db setkeys = AllFound sets
          ∧ fst <$> sets = setkeys
          ∧ ∀ k s, (k, s) ∈ sets → Db.lookupKey db k = Some (Set_obj s).
Proof.
  induction setkeys as [|k setkeys IH]; intros Hall.
  - exists []. split; [reflexivity|]. split; [reflexivity|].
    intros k s H. inversion H.
  - destruct (Hall k ltac:(left)) as [s Hs].
    destruct IH as (sets & Hl & Hf & Hin).
    { intros k' Hk'. apply Hall. right. exact Hk'. }
    exists ((k, s) :: sets). cbn [sinter_lookup]. rewrite Hs, Hl.
    split; [reflexivity|]. split; [cbn; rewrite Hf; reflexivity|].
    intros k' s' [Heq|H]%elem_of_cons; [|eauto].
    injection Heq as -> ->. exact Hs.
Qed.

Lemma sinter_lookup_missing (db : redisDb) (setkeys : list (list Z)) :
  (∀ k, k ∈ setkeys →
        Db.lookupKey db k = None
        ∨ ∃ s, Db.lookupKey db k = Some (Set_obj s)) →
  (∃ k, k ∈ setkeys ∧ Db.lookupKey db k = None) →
  sinter_lookup db setkeys = KeyMissing.
Proof.
  induction setkeys as [|k setkeys IH]; intros Hall (k0 & Hk0 & Hnone).
  - inversion Hk0.
  - cbn [sinter_lookup].
    destruct (Hall k ltac:(left)) as [Hk|[s Hk]]; rewrite Hk; [reflexivity|].
    rewrite IH; [reflexivity| |].
    + intros k' Hk'. apply Hall. right. exact Hk'.
    + apply elem_of_cons in Hk0 as [->|Hk0]; [congruence|].
      exists k0. split; assumption.
Qed.

(** *** The scan of the other sets *)

Lemma sinter_scan_spec (key0 : list Z) (set0 : setobj)
    (others : list (list Z * setobj)) (ele : Z + list Z) :
  (∀ k s, (k, s) ∈ others → set_wf s) →
  (∀ k s, (k, s) ∈ others → k = key0 → s = set0) →
  object_of ele ∈ members set0 →
  match ele with inl v => is_int64 v | inr _ => True end →
  sinter_scan key0 others ele = true
  ↔ ∀ k s, (k, s) ∈ others → object_of ele ∈ members s.
Proof.
  intros Hwf Hsame Hin Hint.
  induction others as [|[k s] others IH].
  - split; [|reflexivity]. intros _ k s H. inversion H.
  - assert (sinter_scan key0 others ele = true
            ↔ ∀ k s, (k, s) ∈ others → object_of ele ∈ members s) as IH'.
    { apply IH.
      - intros k' s' H. apply (Hwf k' s'). right. exact H.
      - intros k' s' H. apply (Hsame k' s'). right. exact H. }
    pose proof (Hwf k s ltac:(left)) as Hs.
    cbn [sinter_scan]. case_bool_decide as Hk.
    + rewrite IH'. pose proof (Hsame k s ltac:(left) Hk) as ->.
      split.
      * intros H k' s' [Heq|H']%elem_of_cons; [|eauto].
        injection Heq as -> ->. exact Hin.
      * intros H k' s' H'. apply (H k' s'). right. exact H'.
    + assert ((match ele with
               | inl intobj =>
                   match s with
                   | Intset_enc ints => intsetFind ints intobj
                   | HT_enc _ =>
                       setTypeIsMember s
                         (createStringObjectFromLongLong intobj)
                   end
               | inr eleobj => setTypeIsMember s eleobj
               end) = bool_decide (object_of ele ∈ members s)) as Htest.
      { rewrite <- (setTypeIsMember_spec s _ Hs).
        destruct ele as [v|e]; [|reflexivity].
        destruct s as [ints|d]; [|reflexivity].
        cbn [object_of setTypeIsMember].
        unfold createStringObjectFromLongLong.
        rewrite (representable_ll2string v Hint). reflexivity. }
      assert (sinter_scan key0 others ele
              && bool_decide (object_of ele ∈ members s)
              = match ele with
                | inl intobj =>
                    match s with
                    | Intset_enc ints =>
                        if negb (intsetFind ints intobj) then false
                        else sinter_scan key0 others ele
                    | HT_enc _ =>
                        if negb (setTypeIsMember s
                                   (createStringObjectFromLongLong intobj))
                        then false
                        else sinter_scan key0 others ele
                    end
                | inr eleobj =>
                    if negb (setTypeIsMember s eleobj) then false
                    else sinter_scan key0 others ele
                end) as <-.
      { rewrite <- Htest.
        destruct ele as [v|e]; [destruct s as [ints|d]|];
          match goal with
          | |- _ && ?b = _ => destruct b
          end; cbn [negb]; rewrite ?andb_true_r, ?andb_false_r; reflexivity. }
      rewrite andb_true_iff, bool_decide_eq_true, IH'. split.
      * intros [H1 H2] k' s' [Heq|H']%elem_of_cons; [|eauto].
        injection Heq as -> ->. exact H2.
      * intros H. split.
        -- intros k' s' H'. apply (H k' s'). right. exact H'.
        -- apply (H k s). left.
Qed.

(** *** The iteration over the first set *)

Lemma sinter_loop_reply (server : redisServer) (key0 : list Z)
    (others : list (list Z * setobj)) (eles : list (Z + list Z)) :
  ∀ (bulks : list reply) (card : Z) (dst : setobj),
    sinter_loop server key0 others false eles bulks card dst
    = Some (bulks
            ++ (ReplyBulk
                <$> (object_of
                     <$> filter (λ e, sinter_scan key0 others e = true)
                           eles)),
            card
            + Z.of_nat
                (length (filter (λ e, sinter_scan key0 others e = true)
                           eles)),
            dst).
Proof.
  induction eles as [|e eles IH]; intros bulks card dst.
  - cbn. rewrite app_nil_r, Z.add_0_r. reflexivity.
  - cbn [sinter_loop]. rewrite filter_cons.
    destruct (sinter_scan key0 others e) eqn:Hscan.
    + rewrite decide_True by reflexivity. rewrite IH.
      cbn [fmap list_fmap length]. rewrite <- app_assoc. cbn [app].
      do 2 f_equal. f_equal. lia.
    + rewrite decide_False by discriminate. apply IH.
Qed.

Lemma sinter_loop_store (server : redisServer) (key0 : list Z)
    (others : list (list Z * setobj)) (eles : list (Z + list Z)) :
  ∀ (bulks : list reply) (card : Z) (dst : setobj),
    set_wf dst →
    ∃ dst',
      sinter_loop server key0 others true eles bulks card dst
      = Some (bulks, card, dst')
      ∧ set_wf dst'
      ∧ members dst'
        = members dst
          ∪ list_to_set
              (object_of
               <$> filter (λ e, sinter_scan key0 others e = true) eles).
Proof.
  induction eles as [|e eles IH]; intros bulks card dst Hwf.
  - exists dst. split; [reflexivity|]. split; [exact Hwf|].
    cbn. rewrite union_empty_r_L. reflexivity.
  - cbn [sinter_loop]. rewrite filter_cons.
    destruct (sinter_scan key0 others e) eqn:Hscan.
    + rewrite decide_True by reflexivity.
      destruct (setTypeAdd_spec server dst (object_of e) Hwf)
        as (r & s1 & Hadd & Hwf1 & Hm1 & _).
      rewrite Hadd.
      destruct (IH bulks card s1 Hwf1) as (dst' & Hl & Hwf' & Hm').
      exists dst'. split; [exact Hl|]. split; [exact Hwf'|].
      rewrite Hm', Hm1. cbn [fmap list_fmap list_to_set].
      rewrite (union_comm_L {[object_of e]} (members dst)).
      rewrite union_assoc_L. reflexivity.
    + rewrite decide_False by discriminate. apply IH. exact Hwf.
Qed.

Lemma NoDup_fmap_filter {A B : Type} (f : A → B) (P : A → Prop)
    `{!∀ x, Decision (P x)} (l : list A) :
  NoDup (f <$> l) → NoDup (f <$> filter P l).
Proof.
  induction l as [|x l IH]; intros Hnd; [constructor|].
  cbn [fmap list_fmap] in Hnd. apply NoDup_cons in Hnd as [Hx Hnd].
  rewrite filter_cons. destruct (decide (P x)); [|apply IH; exact Hnd].
  cbn [fmap list_fmap]. apply NoDup_cons. split; [|apply IH; exact Hnd].
  intros Hin. apply Hx. apply list_elem_of_fmap in Hin as (y & -> & Hy).
  apply list_elem_of_fmap. exists y. split; [reflexivity|].
  apply list_elem_of_filter in Hy as [_ Hy]. exact Hy.
Qed.

Lemma object_of_Next_all (set : setobj) :
  object_of <$> setTypeNext_all set = setTypeNextObject_all set.
Proof.
  destruct set as [ints|d]; cbn [setTypeNext_all setTypeNextObject_all];
    rewrite <- list_fmap_compose.
  - reflexivity.
  - apply list_fmap_id.
Qed.

Lemma Next_all_int64 (set : setobj) (e : Z + list Z) :
  set_wf set → e ∈ setTypeNext_all set →
  match e with inl v => is_int64 v | inr _ => True end.
Proof.
  intros Hwf He. destruct e as [v|e]; [|exact I].
  destruct set as [ints|d]; cbn [setTypeNext_all] in He;
    apply list_elem_of_fmap in He as (w & Heq & Hw); [|discriminate].
  injection Heq as ->. destruct Hwf as [Hr _].
  rewrite Forall_forall in Hr. apply Hr. exact Hw.
Qed.

(** The elements of the first set that pass the scan are the members
    common to all the sets, each once. *)
Lemma selected_spec (key0 : list Z) (set0 : setobj)
    (others : list (list Z * setobj)) :
  set_wf set0 →
  (∀ k s, (k, s) ∈ others → set_wf s) →
  (∀ k s, (k, s) ∈ others → k = key0 → s = set0) →
  NoDup (object_of
         <$> filter (λ e, sinter_scan key0 others e = true)
               (setTypeNext_all set0))
  ∧ ∀ x, x ∈ object_of
             <$> filter (λ e, sinter_scan key0 others e = true)
                   (setTypeNext_all set0)
         ↔ members_of_each ((key0, set0) :: others) x.
Proof.
  intros Hwf0 Hwf Hsame. split.
  - apply NoDup_fmap_filter. rewrite object_of_Next_all.
    apply setTypeNextObject_all_NoDup. exact Hwf0.
  - intros x. rewrite list_elem_of_fmap. unfold members_of_each. split.
    + intros (e & -> & He). apply list_elem_of_filter in He as [Hscan He].
      assert (object_of e ∈ members set0) as Hin.
      { apply setTypeNextObject_all_members. rewrite <- object_of_Next_all.
        apply list_elem_of_fmap. exists e. split; [reflexivity|exact He]. }
      pose proof (Next_all_int64 set0 e Hwf0 He) as Hint.
      pose proof (proj1 (sinter_scan_spec key0 set0 others e Hwf Hsame Hin
                           Hint) Hscan) as Hothers.
      intros k s [Heq|H]%elem_of_cons; [|eauto].
      injection Heq as -> ->. exact Hin.
    + intros Hall.
      pose proof (Hall key0 set0 ltac:(left)) as Hin.
      apply setTypeNextObject_all_members in Hin.
      rewrite <- object_of_Next_all in Hin.
      apply list_elem_of_fmap in Hin as (e & -> & He).
      exists e. split; [reflexivity|].
      apply list_elem_of_filter. split; [|exact He].
      apply (sinter_scan_spec key0 set0 others e Hwf Hsame).
      * apply (Hall key0 set0). left.
      * exact (Next_all_int64 set0 e Hwf0 He).
      * intros k s H. apply (Hall k s). right. exact H.
Qed.

(** The sorted array, with what the scan needs to know of it. *)
Lemma sorted_sets (db : redisDb) (setkeys : list (list Z))
    (sets : list (list Z * setobj)) :
  db_wf db → setkeys ≠ [] →
  fst <$> sets = setkeys →
  (∀ k s, (k, s) ∈ sets → Db.lookupKey db k = Some (Set_obj s)) →
  ∃ key0 set0 others,
    qsort qsortCompareSetsByCardinality sets = (key0, set0) :: others
    ∧ set_wf set0
    ∧ (∀ k s, (k, s) ∈ others → set_wf s)
    ∧ (∀ k s, (k, s) ∈ others → k = key0 → s = set0)
    ∧ ∀ x, members_of_each ((key0, set0) :: others) x
           ↔ ∀ k, k ∈ setkeys →
                  ∃ s, Db.lookupKeyRead db k = Some (Set_obj s)
                       ∧ x ∈ members s.
Proof.
  intros Hdb Hne Hf Hlook.
  assert (∀ k s, (k, s) ∈ qsort qsortCompareSetsByCardinality sets
                 → Db.lookupKey db k = Some (Set_obj s)) as Hq.
  { intros k s H. apply Hlook. apply elem_of_qsort in H. exact H. }
  destruct (qsort qsortCompareSetsByCardinality sets)
    as [|[key0 set0] others] eqn:Hsort.
  - exfalso. destruct sets as [|p sets]; [cbn in Hf; congruence|].
    assert (p ∈ qsort qsortCompareSetsByCardinality (p :: sets)) as Hp
      by (apply elem_of_qsort; left).
    rewrite Hsort in Hp. inversion Hp.
  - exists key0, set0, others. split; [reflexivity|].
    split; [apply (db_wf_lookup db key0 set0 Hdb), Hq; left|].
    split; [intros k s H; apply (db_wf_lookup db k s Hdb), Hq; right;
            exact H|].
    split.
    { intros k s H ->. pose proof (Hq key0 s ltac:(right; exact H)) as H1.
      pose proof (Hq key0 set0 ltac:(left)) as H2. congruence. }
    intros x. unfold members_of_each, Db.lookupKeyRead. split.
    + intros Hall k Hk. rewrite <- Hf in Hk.
      apply list_elem_of_fmap in Hk as ([k' s] & -> & Hin). cbn [fst].
      exists s. split; [apply Hlook; exact Hin|].
      apply (Hall k' s). rewrite <- Hsort. apply elem_of_qsort. exact Hin.
    + intros Hall k s Hin. rewrite <- Hsort in Hin.
      apply elem_of_qsort in Hin.
      destruct (Hall k) as (s' & Hs' & Hx).
      { rewrite <- Hf. apply list_elem_of_fmap. exists (k, s).
        split; [reflexivity|exact Hin]. }
      rewrite (Hlook k s Hin) in Hs'. injection Hs' as ->. exact Hx.
Qed.

(** X10.  SINTER over keys that all hold sets: the command changes nothing
    and replies with the members common to all the sets, each once, after
    their number. *)
Theorem sinterCommand_intersection (server : redisServer) (db : redisDb)
    (setkeys : list (list Z)) :
  db_wf db → setkeys ≠ [] →
  (∀ k, k ∈ setkeys → ∃ s, Db.lookupKeyRead db k = Some (Set_obj s)) →
  ∃ bulks,
    sinterCommand server db setkeys
    = Some (server, db,
            ReplyMultiBulkLen (Z.of_nat (length bulks))
            :: (ReplyBulk <$> bulks))
    ∧ NoDup bulks
    ∧ ∀ x, x ∈ bulks
           ↔ ∀ k, k ∈ setkeys →
                  ∃ s, Db.lookupKeyRead db k = Some (Set_obj s)
                       ∧ x ∈ members s.
Proof.
  intros Hdb Hne Hall.
  destruct (sinter_lookup_found db setkeys Hall) as (sets & Hl & Hf & Hlook).
  destruct (sorted_sets db setkeys sets Hdb Hne Hf Hlook)
    as (key0 & set0 & others & Hsort & Hwf0 & Hwf & Hsame & Hchar).
  destruct (selected_spec key0 set0 others Hwf0 Hwf Hsame) as [Hnd Hsel].
  exists (object_of
          <$> filter (λ e, sinter_scan key0 others e = true)
                (setTypeNext_all set0)).
  split; [|split; [exact Hnd|]].
  - unfold sinterCommand, sinterGenericCommand.
    rewrite Hl, Hsort, sinter_loop_reply. cbn [app].
    rewrite length_fmap, Z.add_0_l. reflexivity.
  - intros x. rewrite Hsel. apply Hchar.
Qed.

(** The theorem on "a" = {1,2,3} and "b" = {2,3,4}. *)
Lemma sinterCommand_intersection_witness :
  ∃ bulks,
    sinterCommand
      (mkServer [] 16 None true true 512 0 0 0 0 0 REDIS_OK (-1) (-1) 0 0)
      (mkDb (<[ [97] := Set_obj (Intset_enc [1; 2; 3]) ]>
               (<[ [98] := Set_obj (Intset_enc [2; 3; 4]) ]> ∅)) ∅)
      [[97]; [98]]
    = Some (mkServer [] 16 None true true 512 0 0 0 0 0 REDIS_OK (-1) (-1)
              0 0,
            mkDb (<[ [97] := Set_obj (Intset_enc [1; 2; 3]) ]>
                    (<[ [98] := Set_obj (Intset_enc [2; 3; 4]) ]> ∅)) ∅,
            ReplyMultiBulkLen (Z.of_nat (length bulks))
            :: (ReplyBulk <$> bulks))
    ∧ NoDup bulks.
Proof.
  assert (db_wf (mkDb (<[ [97] := Set_obj (Intset_enc [1; 2; 3]) ]>
                         (<[ [98] := Set_obj (Intset_enc [2; 3; 4]) ]> ∅)) ∅))
    as Hdb.
  { intros k o Hk. cbn [dict] in Hk.
    apply lookup_insert_Some in Hk as [[_ <-]|[_ Hk]];
      [|apply lookup_insert_Some in Hk as [[_ <-]|[_ Hk]]].
    - split; [repeat constructor; vm_compute; intros H; discriminate H|].
      repeat constructor.
    - split; [repeat constructor; vm_compute; intros H; discriminate H|].
      repeat constructor.
    - rewrite lookup_empty in Hk. discriminate. }
  assert (([[97]; [98]] : list (list Z)) ≠ []) as Hne
    by (intros H; discriminate H).
  assert (∀ k : list Z,
            k ∈ [[97]; [98]] →
            ∃ s, Db.lookupKeyRead
                   (mkDb (<[ [97] := Set_obj (Intset_enc [1; 2; 3]) ]>
                            (<[ [98] := Set_obj (Intset_enc [2; 3; 4]) ]> ∅))
                      ∅) k
                 = Some (Set_obj s)) as Hall.
  { intros k Hk. apply elem_of_cons in Hk as [->|Hk];
      [|apply elem_of_cons in Hk as [->|Hk]; [|inversion Hk]].
    - exists (Intset_enc [1; 2; 3]). vm_compute. reflexivity.
    - exists (Intset_enc [2; 3; 4]). vm_compute. reflexivity. }
  destruct (sinterCommand_intersection
              (mkServer [] 16 None true true 512 0 0 0 0 0 REDIS_OK (-1) (-1)
                 0 0)
              (mkDb (<[ [97] := Set_obj (Intset_enc [1; 2; 3]) ]>
                       (<[ [98] := Set_obj (Intset_enc [2; 3; 4]) ]> ∅)) ∅)
              [[97]; [98]] Hdb Hne Hall)
    as (bulks & Hcmd & Hnd & _).
  exists bulks. split; [exact Hcmd|exact Hnd].
Defined.

(** *** The store forms *)

(** The end of a store form, seen from the destination key. *)
Lemma store_result_spec (server : redisServer) (db : redisDb)
    (dk : list Z) (dst : setobj) :
  set_wf dst →
  ∃ server' db',
    store_result server db dk dst
    = (server', db',
       if bool_decide (members dst = ∅) then [shared_czero]
       else [ReplyLongLong (Z.of_nat (size (members dst)))])
    ∧ dirty server' = dirty server + 1
    ∧ (∀ x, sismemberCommand db' dk x
            = if bool_decide (x ∈ members dst)
              then [shared_cone] else [shared_czero])
    ∧ (dict db' !! dk = None ↔ members dst = ∅)
    ∧ (∀ k, k ≠ dk → dict db' !! k = dict db !! k).
Proof.
  intros Hwf. unfold store_result, Db.dbDelete.
  pose proof (setTypeSize_members dst Hwf) as Hsize.
  destruct (0 <? setTypeSize dst) eqn:Hpos.
  - apply Z.ltb_lt in Hpos.
    assert (members dst ≠ ∅) as Hne.
    { intros H. rewrite H, size_empty in Hsize. lia. }
    unfold Db.dbAdd. cbn [dict expires]. rewrite lookup_delete_eq.
    eexists _, _. rewrite bool_decide_eq_false_2 by exact Hne.
    rewrite Hsize. split; [reflexivity|]. split; [reflexivity|].
    split; [|split].
    + intros x. apply (sismember_set _ dk x dst Hwf). cbn [dict].
      apply lookup_insert_eq.
    + cbn [dict]. rewrite lookup_insert_eq. split; [discriminate|].
      intros H. destruct (Hne H).
    + intros k Hk. cbn [dict]. rewrite lookup_insert_ne by congruence.
      apply lookup_delete_ne. congruence.
  - apply Z.ltb_ge in Hpos. pose proof (setTypeSize_nonneg dst) as H0.
    assert (members dst = ∅) as Hnil
      by (apply size_zero_members; [exact Hwf|lia]).
    eexists _, _. rewrite bool_decide_eq_true_2 by exact Hnil.
    split; [reflexivity|]. split; [reflexivity|]. split; [|split].
    + intros x. rewrite sismember_absent by (cbn [dict]; apply lookup_delete_eq).
      rewrite Hnil, bool_decide_eq_false_2; [reflexivity|].
      apply not_elem_of_empty.
    + cbn [dict]. rewrite lookup_delete_eq. tauto.
    + intros k Hk. cbn [dict]. apply lookup_delete_ne. congruence.
Qed.

(** X11.  SINTERSTORE over keys that all hold sets: the destination key
    ends up holding exactly the members common to all the sets, or nothing
    when there is none; the reply is their number, the dirty counter grows
    by 1 and no other key changes. *)
Theorem sinterstoreCommand_stores (server : redisServer) (db : redisDb)
    (dstkey : list Z) (setkeys : list (list Z)) :
  db_wf db → setkeys ≠ [] →
  (∀ k, k ∈ setkeys → ∃ s, Db.lookupKeyRead db k = Some (Set_obj s)) →
  ∃ server' db' (result : gset (list Z)),
    sinterstoreCommand server db dstkey setkeys
    = Some (server', db',
            if bool_decide (result = ∅) then [shared_czero]
            else [ReplyLongLong (Z.of_nat (size result))])
    ∧ (∀ x, x ∈ result
            ↔ ∀ k, k ∈ setkeys →
                   ∃ s, Db.lookupKeyRead db k = Some (Set_obj s)
                        ∧ x ∈ members s)
    ∧ dirty server' = dirty server + 1
    ∧ (∀ x, sismemberCommand db' dstkey x
            = if bool_decide (x ∈ result)
              then [shared_cone] else [shared_czero])
    ∧ (dict db' !! dstkey = None ↔ result = ∅)
    ∧ (∀ k, k ≠ dstkey → dict db' !! k = dict db !! k).
Proof.
  intros Hdb Hne Hall.
  destruct (sinter_lookup_found db setkeys Hall) as (sets & Hl & Hf & Hlook).
  destruct (sorted_sets db setkeys sets Hdb Hne Hf Hlook)
    as (key0 & set0 & others & Hsort & Hwf0 & Hwf & Hsame & Hchar).
  destruct (selected_spec key0 set0 others Hwf0 Hwf Hsame) as [Hnd Hsel].
  destruct (sinter_loop_store server key0 others (setTypeNext_all set0)
              [] 0 createIntsetObject intset_wf_nil)
    as (dst & Hloop & Hwfd & Hm).
  destruct (store_result_spec server db dstkey dst Hwfd)
    as (server' & db' & Hstore & Hdirty & Hmem & Hgone & Hother).
  exists server', db', (members dst).
  split; [|split; [|split; [exact Hdirty|split; [exact Hmem|
                    split; [exact Hgone|exact Hother]]]]].
  - unfold sinterstoreCommand, sinterGenericCommand.
    rewrite Hl, Hsort. rewrite bool_decide_eq_true_2 by (eexists; reflexivity).
    rewrite Hloop, Hstore. reflexivity.
  - intros x. rewrite <- Hchar, <- Hsel, Hm.
    cbn [createIntsetObject members fmap list_fmap list_to_set].
    rewrite union_empty_l_L. apply elem_of_list_to_set.
Qed.

(** The theorem on "a" = {1,2,3} and "b" = {2,3,4}, stored under "d". *)
Lemma sinterstoreCommand_stores_witness :
  ∃ server' db' (result : gset (list Z)),
    sinterstoreCommand
      (mkServer [] 16 None true true 512 0 0 0 0 0 REDIS_OK (-1) (-1) 0 0)
      (mkDb (<[ [97] := Set_obj (Intset_enc [1; 2; 3]) ]>
               (<[ [98] := Set_obj (Intset_enc [2; 3; 4]) ]> ∅)) ∅)
      [100] [[97]; [98]]
    = Some (server', db',
            if bool_decide (result = ∅) then [shared_czero]
            else [ReplyLongLong (Z.of_nat (size result))])
    ∧ dirty server' = 1.
Proof.
  assert (db_wf (mkDb (<[ [97] := Set_obj (Intset_enc [1; 2; 3]) ]>
                         (<[ [98] := Set_obj (Intset_enc [2; 3; 4]) ]> ∅)) ∅))
    as Hdb.
  { intros k o Hk. cbn [dict] in Hk.
    apply lookup_insert_Some in Hk as [[_ <-]|[_ Hk]];
      [|apply lookup_insert_Some in Hk as [[_ <-]|[_ Hk]]].
    - split; [repeat constructor; vm_compute; intros H; discriminate H|].
      repeat constructor.
    - split; [repeat constructor; vm_compute; intros H; discriminate H|].
      repeat constructor.
    - rewrite lookup_empty in Hk. discriminate. }
  assert (([[97]; [98]] : list (list Z)) ≠ []) as Hne
    by (intros H; discriminate H).
  assert (∀ k : list Z,
            k ∈ [[97]; [98]] →
            ∃ s, Db.lookupKeyRead
                   (mkDb (<[ [97] := Set_obj (Intset_enc [1; 2; 3]) ]>
                            (<[ [98] := Set_obj (Intset_enc [2; 3; 4]) ]> ∅))
                      ∅) k
                 = Some (Set_obj s)) as Hall.
  { intros k Hk. apply elem_of_cons in Hk as [->|Hk];
      [|apply elem_of_cons in Hk as [->|Hk]; [|inversion Hk]].
    - exists (Intset_enc [1; 2; 3]). vm_compute. reflexivity.
    - exists (Intset_enc [2; 3; 4]). vm_compute. reflexivity. }
  destruct (sinterstoreCommand_stores
              (mkServer [] 16 None true true 512 0 0 0 0 0 REDIS_OK (-1) (-1)
                 0 0)
              (mkDb (<[ [97] := Set_obj (Intset_enc [1; 2; 3]) ]>
                       (<[ [98] := Set_obj (Intset_enc [2; 3; 4]) ]> ∅)) ∅)
              [100] [[97]; [98]] Hdb Hne Hall)
    as (server' & db' & result & Hcmd & _ & Hdirty & _).
  exists server', db', result. split; [exact Hcmd|exact Hdirty].
Defined.

(** X12.  An intersection with a missing key is empty.  When every key
    holds a set or nothing and one of them holds nothing, SINTER replies
    with the empty multi-reply, and SINTERSTORE replies 0 and deletes the
    destination, counting a change only if the destination existed. *)
Theorem sinter_missing_key (server : redisServer) (db : redisDb)
    (setkeys : list (list Z)) (missing : list Z) :
  (∀ k, k ∈ setkeys →
        Db.lookupKeyRead db k = None
        ∨ ∃ s, Db.lookupKeyRead db k = Some (Set_obj s)) →
  missing ∈ setkeys →
  Db.lookupKeyRead db missing = None →
  sinterCommand server db setkeys
  = Some (server, db, [shared_emptymultibulk])
  ∧ ∀ dstkey,
      sinterstoreCommand server db dstkey setkeys
      = Some (if bool_decide (is_Some (dict db !! dstkey))
              then set_dirty server (dirty server + 1) else server,
              mkDb (delete dstkey (dict db)) (delete dstkey (expires db)),
              [shared_czero]).
Proof.
  intros Hall Hin Hnone.
  assert (sinter_lookup db setkeys = KeyMissing) as Hl.
  { apply sinter_lookup_missing; [exact Hall|].
    exists missing. split; [exact Hin|exact Hnone]. }
  unfold sinterCommand, sinterstoreCommand, sinterGenericCommand.
  rewrite Hl. split; [reflexivity|]. intros dstkey. reflexivity.
Qed.

(** The theorem on a database where "a" holds {1} and "b" nothing. *)
Lemma sinter_missing_key_witness :
  sinterCommand
    (mkServer [] 16 None true true 512 0 0 0 0 0 REDIS_OK (-1) (-1) 0 0)
    (mkDb (<[ [97] := Set_obj (Intset_enc [1]) ]> ∅) ∅)
    [[97]; [98]]
  = Some (mkServer [] 16 None true true 512 0 0 0 0 0 REDIS_OK (-1) (-1) 0 0,
          mkDb (<[ [97] := Set_obj (Intset_enc [1]) ]> ∅) ∅,
          [shared_emptymultibulk]).
Proof.
  assert (Db.lookupKeyRead (mkDb (<[ [97] := Set_obj (Intset_enc [1]) ]> ∅) ∅)
            [97] = Some (Set_obj (Intset_enc [1]))) as Ha
    by (vm_compute; reflexivity).
  assert (Db.lookupKeyRead (mkDb (<[ [97] := Set_obj (Intset_enc [1]) ]> ∅) ∅)
            [98] = None) as Hb
    by (vm_compute; reflexivity).
  assert (∀ k : list Z,
            k ∈ [[97]; [98]] →
            Db.lookupKeyRead
              (mkDb (<[ [97] := Set_obj (Intset_enc [1]) ]> ∅) ∅) k = None
            ∨ ∃ s, Db.lookupKeyRead
                     (mkDb (<[ [97] := Set_obj (Intset_enc [1]) ]> ∅) ∅) k
                   = Some (Set_obj s)) as Hall.
  { intros k Hk. apply elem_of_cons in Hk as [->|Hk];
      [|apply elem_of_cons in Hk as [->|Hk]; [|inversion Hk]].
    - right. exists (Intset_enc [1]). exact Ha.
    - left. exact Hb. }
  assert (([98] : list Z) ∈ ([[97]; [98]] : list (list Z))) as Hin
    by (right; left).
  exact (proj1 (sinter_missing_key
                  (mkServer [] 16 None true true 512 0 0 0 0 0 REDIS_OK (-1)
                     (-1) 0 0)
                  (mkDb (<[ [97] := Set_obj (Intset_enc [1]) ]> ∅) ∅)
                  [[97]; [98]] [98] Hall Hin Hb)).
Defined.

(** *** Union *)

Lemma sunion_lookup_found (db : redisDb) (setkeys : list (list Z)) :
  (∀ k, k ∈ setkeys →
        Db.lookupKey db k = None
        ∨ ∃ s, Db.lookupKey db k = Some (Set_obj s)) →
  ∃ sets, sunion_lookup db setkeys = Some sets.
Proof.
  induction setkeys as [|k setkeys IH]; intros Hall.
  - exists []. reflexivity.
  - destruct IH as [sets Hl].
    { intros k' Hk'. apply Hall. right. exact Hk'. }
    cbn [sunion_lookup]. rewrite Hl.
    destruct (Hall k ltac:(left)) as [Hk|[s Hk]]; rewrite Hk;
      eexists; reflexivity.
Qed.

Lemma union_loop_spec (server : redisServer)
    (sets : list (list Z * option setobj)) :
  ∀ (dst : setobj) (card : Z),
    set_wf dst → sets_wf sets →
    ∃ dst' card',
      union_loop server sets dst card = Some (dst', card')
      ∧ set_wf dst'
      ∧ members dst' = members dst ∪ members_of_all sets
      ∧ (card = Z.of_nat (size (members dst)) →
         card' = Z.of_nat (size (members dst'))).
Proof.
  induction sets as [|[k [s|]] sets IH]; intros dst card Hwf Hwfs.
  - exists dst, card. split; [reflexivity|]. split; [exact Hwf|].
    cbn [members_of_all]. rewrite union_empty_r_L. split; [reflexivity|auto].
  - apply Forall_cons in Hwfs as [_ Hwfs]. cbn [union_loop].
    destruct (add_all_spec server (setTypeNextObject_all s) dst card Hwf)
      as (d1 & c1 & Hall & Hwf1 & Hm1 & Hc1).
    rewrite Hall.
    destruct (IH d1 c1 Hwf1 Hwfs) as (dst' & card' & Hl & Hwf' & Hm' & Hc').
    exists dst', card'. split; [exact Hl|]. split; [exact Hwf'|]. split.
    + rewrite Hm', Hm1, list_to_set_NextObject_all. cbn [members_of_all].
      rewrite union_assoc_L. reflexivity.
    + intros Hc. apply Hc', Hc1, Hc.
  - apply Forall_cons in Hwfs as [_ Hwfs]. cbn [union_loop members_of_all].
    apply IH; assumption.
Qed.

(** The members of the looked-up sets, by key. *)
Lemma members_of_all_keys (db : redisDb) (setkeys : list (list Z))
    (sets : list (list Z * option setobj)) (x : list Z) :
  sunion_lookup db setkeys = Some sets →
  x ∈ members_of_all sets
  ↔ ∃ k s, k ∈ setkeys ∧ Db.lookupKeyRead db k = Some (Set_obj s)
           ∧ x ∈ members s.
Proof.
  intros Hl. destruct (sunion_lookup_spec db setkeys sets Hl)
    as (Hf & Hsome & Hnone).
  rewrite elem_of_members_of_all. unfold Db.lookupKeyRead. split.
  - intros (k & s & Hin & Hx). exists k, s.
    split; [|split; [apply Hsome; exact Hin|exact Hx]].
    rewrite <- Hf. apply list_elem_of_fmap. exists (k, Some s).
    split; [reflexivity|exact Hin].
  - intros (k & s & Hk & Hs & Hx). rewrite <- Hf in Hk.
    apply list_elem_of_fmap in Hk as ([k' o] & -> & Hin). cbn [fst] in Hs.
    destruct o as [s'|].
    + exists k', s'. split; [exact Hin|].
      rewrite (Hsome k' s' Hin) in Hs. injection Hs as ->. exact Hx.
    + rewrite (Hnone k' Hin) in Hs. discriminate.
Qed.

(** X13.  SUNION over keys that hold sets or nothing: the command changes
    nothing and replies with the members of the sets, each once, after
    their number; a missing key counts as the empty set. *)
Theorem sunionCommand_union (server : redisServer) (db : redisDb)
    (setkeys : list (list Z)) :
  db_wf db →
  (∀ k, k ∈ setkeys →
        Db.lookupKeyRead db k = None
        ∨ ∃ s, Db.lookupKeyRead db k = Some (Set_obj s)) →
  ∃ bulks,
    sunionCommand server db setkeys
    = Some (server, db,
            ReplyMultiBulkLen (Z.of_nat (length bulks))
            :: (ReplyBulk <$> bulks))
    ∧ NoDup bulks
    ∧ ∀ x, x ∈ bulks
           ↔ ∃ k s, k ∈ setkeys
                    ∧ Db.lookupKeyRead db k = Some (Set_obj s)
                    ∧ x ∈ members s.
Proof.
  intros Hdb Hall.
  destruct (sunion_lookup_found db setkeys Hall) as [sets Hl].
  pose proof (sunion_lookup_wf db setkeys sets Hdb Hl) as Hwfs.
  destruct (union_loop_spec server sets createIntsetObject 0 intset_wf_nil
              Hwfs) as (dst & card & Hloop & Hwf & Hm & Hcard).
  pose proof (setTypeNextObject_all_NoDup dst Hwf) as Hnd.
  exists (setTypeNextObject_all dst). split; [|split; [exact Hnd|]].
  - unfold sunionCommand, sunionDiffGenericCommand. rewrite Hl.
    unfold sunionDiff_compute. rewrite Hloop.
    rewrite Hcard by reflexivity.
    rewrite <- (list_to_set_NextObject_all dst), size_list_to_set by exact Hnd.
    reflexivity.
  - intros x. rewrite setTypeNextObject_all_members, Hm.
    cbn [createIntsetObject members fmap list_fmap list_to_set].
    rewrite union_empty_l_L. apply (members_of_all_keys db setkeys sets x Hl).
Qed.

(** The theorem on "a" = {1,2}, "b" = {2,3} and a missing key "c". *)
Lemma sunionCommand_union_witness :
  ∃ bulks,
    sunionCommand
      (mkServer [] 16 None true true 512 0 0 0 0 0 REDIS_OK (-1) (-1) 0 0)
      (mkDb (<[ [97] := Set_obj (Intset_enc [1; 2]) ]>
               (<[ [98] := Set_obj (Intset_enc [2; 3]) ]> ∅)) ∅)
      [[97]; [98]; [99]]
    = Some (mkServer [] 16 None true true 512 0 0 0 0 0 REDIS_OK (-1) (-1)
              0 0,
            mkDb (<[ [97] := Set_obj (Intset_enc [1; 2]) ]>
                    (<[ [98] := Set_obj (Intset_enc [2; 3]) ]> ∅)) ∅,
            ReplyMultiBulkLen (Z.of_nat (length bulks))
            :: (ReplyBulk <$> bulks))
    ∧ NoDup bulks.
Proof.
  assert (db_wf (mkDb (<[ [97] := Set_obj (Intset_enc [1; 2]) ]>
                         (<[ [98] := Set_obj (Intset_enc [2; 3]) ]> ∅)) ∅))
    as Hdb.
  { intros k o Hk. cbn [dict] in Hk.
    apply lookup_insert_Some in Hk as [[_ <-]|[_ Hk]];
      [|apply lookup_insert_Some in Hk as [[_ <-]|[_ Hk]]].
    - split; [repeat constructor; vm_compute; intros H; discriminate H|].
      repeat constructor.
    - split; [repeat constructor; vm_compute; intros H; discriminate H|].
      repeat constructor.
    - rewrite lookup_empty in Hk. discriminate. }
  assert (∀ k : list Z,
            k ∈ [[97]; [98]; [99]] →
            Db.lookupKeyRead
              (mkDb (<[ [97] := Set_obj (Intset_enc [1; 2]) ]>
                       (<[ [98] := Set_obj (Intset_enc [2; 3]) ]> ∅)) ∅) k
            = None
            ∨ ∃ s, Db.lookupKeyRead
                     (mkDb (<[ [97] := Set_obj (Intset_enc [1; 2]) ]>
                              (<[ [98] := Set_obj (Intset_enc [2; 3]) ]> ∅))
                        ∅) k
                   = Some (Set_obj s)) as Hall.
  { intros k Hk. apply elem_of_cons in Hk as [->|Hk];
      [|apply elem_of_cons in Hk as [->|Hk];
        [|apply elem_of_cons in Hk as [->|Hk]; [|inversion Hk]]].
    - right. exists (Intset_enc [1; 2]). vm_compute. reflexivity.
    - right. exists (Intset_enc [2; 3]). vm_compute. reflexivity.
    - left. vm_compute. reflexivity. }
  destruct (sunionCommand_union
              (mkServer [] 16 None true true 512 0 0 0 0 0 REDIS_OK (-1) (-1)
                 0 0)
              (mkDb (<[ [97] := Set_obj (Intset_enc [1; 2]) ]>
                       (<[ [98] := Set_obj (Intset_enc [2; 3]) ]> ∅)) ∅)
              [[97]; [98]; [99]] Hdb Hall)
    as (bulks & Hcmd & Hnd & _).
  exists bulks. split; [exact Hcmd|exact Hnd].
Defined.

(** X14.  SUNIONSTORE over keys that hold sets or nothing: the destination
    key ends up holding exactly the members of the sets, or nothing when
    there is none; the reply is their number, the dirty counter grows by 1
    and no other key changes.  The sources are read before the destination
    is replaced, so the destination may be one of them. *)
Theorem sunionstoreCommand_stores (server : redisServer) (db : redisDb)
    (dstkey : list Z) (setkeys : list (list Z)) :
  db_wf db →
  (∀ k, k ∈ setkeys →
        Db.lookupKeyRead db k = None
        ∨ ∃ s, Db.lookupKeyRead db k = Some (Set_obj s)) →
  ∃ server' db' (result : gset (list Z)),
    sunionstoreCommand server db dstkey setkeys
    = Some (server', db',
            if bool_decide (result = ∅) then [shared_czero]
            else [ReplyLongLong (Z.of_nat (size result))])
    ∧ (∀ x, x ∈ result
            ↔ ∃ k s, k ∈ setkeys
                     ∧ Db.lookupKeyRead db k = Some (Set_obj s)
                     ∧ x ∈ members s)
    ∧ dirty server' = dirty server + 1
    ∧ (∀ x, sismemberCommand db' dstkey x
            = if bool_decide (x ∈ result)
              then [shared_cone] else [shared_czero])
    ∧ (dict db' !! dstkey = None ↔ result = ∅)
    ∧ (∀ k, k ≠ dstkey → dict db' !! k = dict db !! k).
Proof.
  intros Hdb Hall.
  destruct (sunion_lookup_found db setkeys Hall) as [sets Hl].
  pose proof (sunion_lookup_wf db setkeys sets Hdb Hl) as Hwfs.
  destruct (union_loop_spec server sets createIntsetObject 0 intset_wf_nil
              Hwfs) as (dst & card & Hloop & Hwf & Hm & _).
  destruct (store_result_spec server db dstkey dst Hwf)
    as (server' & db' & Hstore & Hdirty & Hmem & Hgone & Hother).
  exists server', db', (members dst).
  split; [|split; [|split; [exact Hdirty|split; [exact Hmem|
                    split; [exact Hgone|exact Hother]]]]].
  - unfold sunionstoreCommand, sunionDiffGenericCommand. rewrite Hl.
    unfold sunionDiff_compute. rewrite Hloop, Hstore. reflexivity.
  - intros x. rewrite Hm.
    cbn [createIntsetObject members fmap list_fmap list_to_set].
    rewrite union_empty_l_L. apply (members_of_all_keys db setkeys sets x Hl).
Qed.

(** The theorem on "a" = {1,2} and "b" = {2,3}, stored under "a". *)
Lemma sunionstoreCommand_stores_witness :
  ∃ server' db' (result : gset (list Z)),
    sunionstoreCommand
      (mkServer [] 16 None true true 512 0 0 0 0 0 REDIS_OK (-1) (-1) 0 0)
      (mkDb (<[ [97] := Set_obj (Intset_enc [1; 2]) ]>
               (<[ [98] := Set_obj (Intset_enc [2; 3]) ]> ∅)) ∅)
      [97] [[97]; [98]]
    = Some (server', db',
            if bool_decide (result = ∅) then [shared_czero]
            else [ReplyLongLong (Z.of_nat (size result))])
    ∧ dirty server' = 1.
Proof.
  assert (db_wf (mkDb (<[ [97] := Set_obj (Intset_enc [1; 2]) ]>
                         (<[ [98] := Set_obj (Intset_enc [2; 3]) ]> ∅)) ∅))
    as Hdb.
  { intros k o Hk. cbn [dict] in Hk.
    apply lookup_insert_Some in Hk as [[_ <-]|[_ Hk]];
      [|apply lookup_insert_Some in Hk as [[_ <-]|[_ Hk]]].
    - split; [repeat constructor; vm_compute; intros H; discriminate H|].
      repeat constructor.
    - split; [repeat constructor; vm_compute; intros H; discriminate H|].
      repeat constructor.
    - rewrite lookup_empty in Hk. discriminate. }
  assert (∀ k : list Z,
            k ∈ [[97]; [98]] →
            Db.lookupKeyRead
              (mkDb (<[ [97] := Set_obj (Intset_enc [1; 2]) ]>
                       (<[ [98] := Set_obj (Intset_enc [2; 3]) ]> ∅)) ∅) k
            = None
            ∨ ∃ s, Db.lookupKeyRead
                     (mkDb (<[ [97] := Set_obj (Intset_enc [1; 2]) ]>
                              (<[ [98] := Set_obj (Intset_enc [2; 3]) ]> ∅))
                        ∅) k
                   = Some (Set_obj s)) as Hall.
  { intros k Hk. apply elem_of_cons in Hk as [->|Hk];
      [|apply elem_of_cons in Hk as [->|Hk]; [|inversion Hk]].
    - right. exists (Intset_enc [1; 2]). vm_compute. reflexivity.
    - right. exists (Intset_enc [2; 3]). vm_compute. reflexivity. }
  destruct (sunionstoreCommand_stores
              (mkServer [] 16 None true true 512 0 0 0 0 0 REDIS_OK (-1) (-1)
                 0 0)
              (mkDb (<[ [97] := Set_obj (Intset_enc [1; 2]) ]>
                       (<[ [98] := Set_obj (Intset_enc [2; 3]) ]> ∅)) ∅)
              [97] [[97]; [98]] Hdb Hall)
    as (server' & db' & result & Hcmd & _ & Hdirty & _).
  exists server', db', result. split; [exact Hcmd|exact Hdirty].
Defined.

End SetCombine.

(** ** No key is left bound to an empty set *)

Module EmptySets.
Import Util Redis TSet UtilFacts SetFacts SetAlgebra SetKeyspace SetCombine.

(** *** The result of a store form *)














(** The same command, evaluated: the destination was bound, the result is
    empty, the key is deleted and the reply is 0. *)
Example sinterstore_empty_result :
  (sinterstoreCommand
     (mkServer [] 16 None true true 512 0 0 0 0 0 REDIS_OK (-1) (-1) 0 0)
     (mkDb (<[ [97] := Set_obj (Intset_enc [1]) ]>
              (<[ [98] := Set_obj (Intset_enc [2]) ]>
                 (<[ [100] := Set_obj (Intset_enc [9]) ]> ∅))) ∅)
     [100] [[97]; [98]])
  = Some (mkServer [] 16 None true true 512 0 1 0 0 0 REDIS_OK (-1) (-1) 0 0,
          mkDb (<[ [97] := Set_obj (Intset_enc [1]) ]>
                  (<[ [98] := Set_obj (Intset_enc [2]) ]> ∅)) ∅,
          [shared_czero]).
Proof. vm_compute. reflexivity. Qed.

End EmptySets.

(** ** SRANDMEMBER *)

Module SetRandom.
Import Util Redis TSet UtilFacts SetFacts SetAlgebra SetKeyspace RandMember.

(** The theorem on counts below 2^32 on the set {1,2,3} with the count 2. *)
Lemma srandmember_count_below_2_32_witness :
  ∃ draws out,
    srandmemberWithCountCommand
      (mkServer [] 16 None true true 512 0 0 0 0 0 REDIS_OK (-1) (-1) 0 0)
      (mkDb (<[ [115] := Set_obj (Intset_enc [1; 2; 3]) ]> ∅) ∅)
      [115] 2 draws
    = Some out.
Proof.
  assert (set_wf (Intset_enc [1; 2; 3])) as Hwf.
  { split; [repeat constructor; vm_compute; intros H; discriminate H|].
    repeat constructor. }
  assert (Db.lookupKeyRead
            (mkDb (<[ [115] := Set_obj (Intset_enc [1; 2; 3]) ]> ∅) ∅) [115]
          = Some (Set_obj (Intset_enc [1; 2; 3]))) as Hkey
    by (vm_compute; reflexivity).
  exact (proj2 (srandmember_count_below_2_32
                  (mkServer [] 16 None true true 512 0 0 0 0 0 REDIS_OK (-1)
                     (-1) 0 0)
                  (mkDb (<[ [115] := Set_obj (Intset_enc [1; 2; 3]) ]> ∅) ∅)
                  [115] (Intset_enc [1; 2; 3]) 2 Hwf Hkey
                  ltac:(lia))).
Defined.

(** CASE 1: one pick per unit of the count. *)
Lemma srandmember_repeat_spec (set : setobj) (count : nat) :
  ∀ draws : list nat,
    0 < setTypeSize set →
    (count <= length draws)%nat →
    ∃ bulks,
      srandmember_repeat set count draws = Some (ReplyBulk <$> bulks)
      ∧ length bulks = count
      ∧ ∀ x, x ∈ bulks → x ∈ members set.
Proof.
  induction count as [|count IH]; intros draws Hpos Hlen.
  - exists []. split; [reflexivity|]. split; [reflexivity|].
    intros x H. inversion H.
  - destruct draws as [|draw draws]; [cbn in Hlen; lia|].
    cbn [srandmember_repeat].
    assert (∃ picked, setTypeRandomElement set draw = Some picked)
      as [picked Hpick].
    { pose proof (setTypeRandomElement_object set draw) as Ho.
      rewrite setTypeSize_length in Hpos.
      destruct (setTypeRandomElement set draw) as [p|]; [eauto|].
      cbn in Ho. symmetry in Ho. apply lookup_ge_None in Ho.
      pose proof (Nat.mod_upper_bound draw
                    (length (setTypeNextObject_all set)) ltac:(lia)).
      lia. }
    rewrite Hpick.
    destruct (IH draws Hpos ltac:(cbn in Hlen; lia))
      as (bulks & Hrun & Hn & Hmem).
    rewrite Hrun. exists (object_of picked :: bulks).
    split; [reflexivity|]. split; [cbn; lia|].
    intros x [->|Hx]%elem_of_cons; [|auto].
    apply (setTypeRandomElement_member set draw). exact Hpick.
Qed.

(** X16.  SRANDMEMBER with a negative count -n on a key that holds a set:
    with n draws at hand the command changes nothing and replies with
    exactly n bulks, each a member of the set; members may repeat, so n
    may be larger than the set. *)
Theorem srandmember_negative_count (server : redisServer) (db : redisDb)
    (key : list Z) (set : setobj) (l : Z) (draws : list nat) :
  no_empty_set db →
  Db.lookupKeyRead db key = Some (Set_obj set) →
  - 2 ^ 63 < l < 0 →
  - l <= Z.of_nat (length draws) →
  ∃ bulks,
    srandmemberWithCountCommand server db key l draws
    = Some (server, db, ReplyMultiBulkLen (- l) :: (ReplyBulk <$> bulks))
    ∧ Z.of_nat (length bulks) = - l
    ∧ ∀ x, x ∈ bulks → x ∈ members set.
Proof.
  intros Hne Hkey Hl Hdraws.
  pose proof (Hne key (Set_obj set) Hkey) as Hpos. cbn in Hpos.
  destruct (srandmember_repeat_spec set (Z.to_nat (- l)) draws Hpos
              ltac:(lia)) as (bulks & Hrun & Hn & Hmem).
  exists bulks. split; [|split; [lia|exact Hmem]].
  unfold srandmemberWithCountCommand.
  replace (0 <=? l) with false by (symmetry; apply Z.leb_gt; lia).
  assert (to_ulong (- l) = - l) as ->.
  { unfold to_ulong. apply Z.mod_small. lia. }
  rewrite Hkey.
  replace (- l =? 0) with false by (symmetry; apply Z.eqb_neq; lia).
  cbn [negb]. rewrite Hrun. reflexivity.
Qed.

(** The theorem on the set {1,2} with the count -3. *)
Lemma srandmember_negative_count_witness :
  ∃ bulks,
    srandmemberWithCountCommand
      (mkServer [] 16 None true true 512 0 0 0 0 0 REDIS_OK (-1) (-1) 0 0)
      (mkDb (<[ [115] := Set_obj (Intset_enc [1; 2]) ]> ∅) ∅)
      [115] (-3) [0; 1; 2]%nat
    = Some (mkServer [] 16 None true true 512 0 0 0 0 0 REDIS_OK (-1) (-1)
              0 0,
            mkDb (<[ [115] := Set_obj (Intset_enc [1; 2]) ]> ∅) ∅,
            ReplyMultiBulkLen 3 :: (ReplyBulk <$> bulks))
    ∧ Z.of_nat (length bulks) = 3.
Proof.
  assert (Db.lookupKeyRead
            (mkDb (<[ [115] := Set_obj (Intset_enc [1; 2]) ]> ∅) ∅) [115]
          = Some (Set_obj (Intset_enc [1; 2]))) as Hkey
    by (vm_compute; reflexivity).
  assert (no_empty_set (mkDb (<[ [115] := Set_obj (Intset_enc [1; 2]) ]> ∅) ∅))
    as Hne.
  { intros k o Hk; cbn [dict] in Hk;
      apply lookup_insert_Some in Hk as [[_ <-]|[_ Hk]];
      [vm_compute; reflexivity|rewrite lookup_empty in Hk; discriminate]. }
  destruct (srandmember_negative_count
              (mkServer [] 16 None true true 512 0 0 0 0 0 REDIS_OK (-1) (-1)
                 0 0)
              (mkDb (<[ [115] := Set_obj (Intset_enc [1; 2]) ]> ∅) ∅)
              [115] (Intset_enc [1; 2]) (-3) [0; 1; 2]%nat Hne Hkey
              ltac:(lia) ltac:(cbn; lia))
    as (bulks & Hcmd & Hn & _).
  exists bulks. split; [exact Hcmd|exact Hn].
Defined.

(** X17.  SRANDMEMBER without a count on a key that holds a set replies
    with one bulk, a member of the set; on a missing key it replies with
    the null bulk. *)
Theorem srandmemberCommand_member (db : redisDb) (key : list Z)
    (draw : nat) :
  no_empty_set db →
  (Db.lookupKeyRead db key = None →
   srandmemberCommand db key draw = Some [shared_nullbulk])
  ∧ ∀ set, Db.lookupKeyRead db key = Some (Set_obj set) →
           ∃ ele, srandmemberCommand db key draw = Some [ReplyBulk ele]
                  ∧ ele ∈ members set.
Proof.
  intros Hne. split.
  - intros Hkey. unfold srandmemberCommand. rewrite Hkey. reflexivity.
  - intros set Hkey.
    pose proof (Hne key (Set_obj set) Hkey) as Hpos. cbn in Hpos.
    destruct (srandmember_repeat_spec set 1 [draw] Hpos ltac:(cbn; lia))
      as (bulks & Hrun & Hn & Hmem).
    cbn [srandmember_repeat] in Hrun.
    unfold srandmemberCommand. rewrite Hkey.
    destruct (setTypeRandomElement set draw) as [picked|]; [|discriminate].
    destruct bulks as [|ele [|? ?]]; try discriminate.
    injection Hrun as Hele. exists ele. split; [|apply Hmem; left].
    destruct picked as [v|e]; cbn [object_of] in Hele; subst ele; reflexivity.
Qed.

(** The theorem on the set {1,2}. *)
Lemma srandmemberCommand_member_witness :
  ∃ ele,
    srandmemberCommand
      (mkDb (<[ [115] := Set_obj (Intset_enc [1; 2]) ]> ∅) ∅) [115] 3%nat
    = Some [ReplyBulk ele].
Proof.
  assert (Db.lookupKeyRead
            (mkDb (<[ [115] := Set_obj (Intset_enc [1; 2]) ]> ∅) ∅) [115]
          = Some (Set_obj (Intset_enc [1; 2]))) as Hkey
    by (vm_compute; reflexivity).
  assert (no_empty_set (mkDb (<[ [115] := Set_obj (Intset_enc [1; 2]) ]> ∅) ∅))
    as Hne.
  { intros k o Hk; cbn [dict] in Hk;
      apply lookup_insert_Some in Hk as [[_ <-]|[_ Hk]];
      [vm_compute; reflexivity|rewrite lookup_empty in Hk; discriminate]. }
  destruct (proj2 (srandmemberCommand_member
                     (mkDb (<[ [115] := Set_obj (Intset_enc [1; 2]) ]> ∅) ∅)
                     [115] 3%nat Hne) (Intset_enc [1; 2]) Hkey)
    as (ele & Hcmd & _).
  exists ele. exact Hcmd.
Defined.

End SetRandom.

(** ** Dynamic byte strings *)

Module SdsFacts.
Import Util Sds.

(** *** Conversions and memory *)

Lemma to_int_small (x : Z) :
  -2147483648 <= x < 2147483648 → to_int x = x.
Proof. intros H. unfold to_int. rewrite Z.mod_small by lia. lia. Qed.

Lemma to_size_t_small (x : Z) :
  0 <= x < 18446744073709551616 → to_size_t x = x.
Proof. intros H. unfold to_size_t. apply Z.mod_small. exact H. Qed.

Lemma buf_size_small (n : Z) : 0 <= n < 4294967296 → buf_size n = n + 1.
Proof.
  intros H. unfold buf_size, sizeof_sdshdr. rewrite to_size_t_small by lia.
  lia.
Qed.

Lemma length_memcpy (b : list Z) (at_ : Z) (src : list Z) :
  0 <= at_ → at_ + Z.of_nat (length src) <= Z.of_nat (length b) →
  length (memcpy b at_ src) = length b.
Proof.
  intros H0 H. unfold memcpy.
  rewrite !length_app, length_take, length_drop. lia.
Qed.

Lemma take_memcpy (b : list Z) (at_ : Z) (src : list Z) :
  0 <= at_ <= Z.of_nat (length b) →
  take (Z.to_nat at_ + length src) (memcpy b at_ src)
  = take (Z.to_nat at_) b ++ src.
Proof.
  intros H. unfold memcpy. rewrite app_assoc. apply take_app_length'.
  rewrite length_app, length_take. lia.
Qed.

Lemma strlen_nonneg (s : list Z) : 0 <= strlen s.
Proof. induction s as [|c s IH]; cbn; [lia|]. destruct (c =? 0); lia. Qed.

Lemma strlen_le (s : list Z) : strlen s <= Z.of_nat (length s).
Proof.
  induction s as [|c s IH]; cbn [strlen length]; [lia|].
  destruct (c =? 0); lia.
Qed.

(** A byte string with no NUL, followed or not by its terminator, is the C
    string it looks like. *)
Lemma cstring_no_nul (t rest : list Z) :
  Forall (λ c, c ≠ 0) t → (rest = [] ∨ ∃ r, rest = 0 :: r) →
  cstring (t ++ rest) = t.
Proof.
  intros Ht Hrest. unfold cstring.
  assert (strlen (t ++ rest) = Z.of_nat (length t)) as ->.
  { induction Ht as [|c t Hc Ht IH]; cbn [app strlen length].
    - destruct Hrest as [->|[r ->]]; reflexivity.
    - destruct (c =? 0) eqn:E; [apply Z.eqb_eq in E; contradiction|]. lia. }
  rewrite Nat2Z.id. apply take_app_length.
Qed.

Section Alloc.

Variable SDS_MAX_PREALLOC : Z.
Variable fresh : nat → Z.
Hypothesis prealloc_range : 0 <= SDS_MAX_PREALLOC <= 1073741824.

Local Abbreviation sdsMakeRoomFor := (sdsMakeRoomFor SDS_MAX_PREALLOC fresh).
Local Abbreviation sdscatlen := (sdscatlen SDS_MAX_PREALLOC fresh).
Local Abbreviation sdscat := (sdscat SDS_MAX_PREALLOC fresh).

(** The strings the theorems range over: header and buffer agree and the
    allocation is below 2 GB, so that the [int] fields hold the sizes. *)
Lemma sdsMakeRoomFor_spec (s : sdshdr) (addlen : Z) :
  sds_wf s → len s + free s < 2147483648 →
  0 <= addlen → len s + addlen < 1073741824 →
  sds_wf (sdsMakeRoomFor s addlen)
  ∧ len (sdsMakeRoomFor s addlen) = len s
  ∧ addlen <= free (sdsMakeRoomFor s addlen)
  ∧ len s + free (sdsMakeRoomFor s addlen) < 2147483648
  ∧ take (length (buf s)) (buf (sdsMakeRoomFor s addlen)) = buf s
  ∧ (addlen <= free s → sdsMakeRoomFor s addlen = s)
  ∧ (free s < addlen →
     free (sdsMakeRoomFor s addlen)
     = (if len s + addlen <? SDS_MAX_PREALLOC then 2 * (len s + addlen)
        else len s + addlen + SDS_MAX_PREALLOC) - len s).
Proof.
  intros (Hlen & Hfree & Hbuf & Hnul) Hfit Hadd Hsmall.
  unfold Sds.sdsMakeRoomFor, sdsavail, sdslen. cbv zeta.
  rewrite !(to_size_t_small (free s)), !(to_size_t_small (len s)),
    !(to_size_t_small (len s + addlen)) by lia.
  destruct (addlen <=? free s) eqn:Hroom.
  - apply Z.leb_le in Hroom.
    split; [repeat split; assumption|]. split; [reflexivity|].
    split; [exact Hroom|]. split; [exact Hfit|].
    split; [apply take_ge; lia|]. split; [reflexivity|lia].
  - apply Z.leb_gt in Hroom.
    set (newlen := if len s + addlen <? SDS_MAX_PREALLOC
                   then 2 * (len s + addlen)
                   else len s + addlen + SDS_MAX_PREALLOC).
    assert ((if len s + addlen <? SDS_MAX_PREALLOC
             then to_size_t ((len s + addlen) * 2)
             else to_size_t (len s + addlen + SDS_MAX_PREALLOC)) = newlen)
      as ->.
    { subst newlen. destruct (len s + addlen <? SDS_MAX_PREALLOC);
        rewrite to_size_t_small by lia; lia. }
    assert (len s + addlen <= newlen < 2147483648) as Hnew.
    { subst newlen. destruct (len s + addlen <? SDS_MAX_PREALLOC); lia. }
    rewrite to_int_small by lia. rewrite buf_size_small by lia.
    cbn [len free buf]. unfold zrealloc_bytes.
    rewrite take_ge by lia.
    split.
    { unfold sds_wf. cbn [len free buf].
      split; [exact Hlen|]. split; [lia|]. split.
      - rewrite length_app, length_fmap, length_seq. lia.
      - rewrite lookup_app_l by lia. exact Hnul. }
    split; [reflexivity|]. split; [lia|]. split; [lia|].
    split; [apply take_app_length|]. split; [lia|]. intros _. reflexivity.
Qed.

Lemma sdscatlen_spec (s : sdshdr) (t : list Z) :
  sds_wf s → len s + free s < 2147483648 →
  len s + Z.of_nat (length t) < 1073741824 →
  sds_wf (sdscatlen s t)
  ∧ content (sdscatlen s t) = content s ++ t
  ∧ len (sdscatlen s t) = len s + Z.of_nat (length t)
  ∧ len (sdscatlen s t) + free (sdscatlen s t) < 2147483648
  ∧ (Z.of_nat (length t) <= free s →
     free (sdscatlen s t) = free s - Z.of_nat (length t))
  ∧ (free s < Z.of_nat (length t) →
     free (sdscatlen s t)
     = if len s + Z.of_nat (length t) <? SDS_MAX_PREALLOC
       then len s + Z.of_nat (length t) else SDS_MAX_PREALLOC).
Proof.
  intros Hwf Hfit Hsmall.
  destruct (sdsMakeRoomFor_spec s (Z.of_nat (length t)) Hwf Hfit
              ltac:(lia) Hsmall)
    as (Hwf1 & Hlen1 & Hroom & Hfit1 & Hpre & Hsame & Hgrown).
  pose proof Hwf as (Hlen & Hfree & Hbuf & Hnul).
  destruct Hwf1 as (_ & Hfree1 & Hbuf1 & _).
  unfold Sds.sdscatlen, sdslen. cbv zeta. rewrite to_size_t_small by lia.
  set (s1 := sdsMakeRoomFor s (Z.of_nat (length t))) in *.
  rewrite !to_int_small by lia.
  assert (length (memcpy (buf s1) (len s) t) = length (buf s1)) as Hcopy.
  { apply length_memcpy; lia. }
  split.
  { split; [cbn [len]; lia|]. split; [cbn [free]; lia|].
    cbn [len free buf]. unfold store. split.
    - rewrite length_insert, Hcopy. lia.
    - apply list_lookup_insert_eq. rewrite Hcopy. lia. }
  split.
  { unfold content, store. cbn [len buf].
    rewrite take_insert_ge by lia.
    replace (Z.to_nat (len s + Z.of_nat (length t)))
      with (Z.to_nat (len s) + length t)%nat by lia.
    rewrite take_memcpy by lia. f_equal.
    rewrite <- Hpre at 1. rewrite take_take. f_equal. lia. }
  split; [reflexivity|]. split; [cbn [len free]; lia|].
  cbn [free]. split.
  - intros Hle. rewrite (Hsame Hle). reflexivity.
  - intros Hlt. rewrite (Hgrown Hlt).
    destruct (len s + Z.of_nat (length t) <? SDS_MAX_PREALLOC); lia.
Qed.

(** X18.  Appending to an sds.  On a string whose header and buffer agree,
    below the sizes an [int] holds, [sdscatlen] yields such a string
    again; it holds the old content followed by the appended bytes; when
    the free space was enough it shrinks by the bytes appended, and when
    the buffer had to grow the new free space is as large as the new
    string, or [SDS_MAX_PREALLOC] once the string has reached that
    size. *)
Theorem sdscatlen_appends (s : sdshdr) (t : list Z) :
  sds_wf s → len s + free s < 2147483648 →
  len s + Z.of_nat (length t) < 1073741824 →
  sds_wf (sdscatlen s t)
  ∧ content (sdscatlen s t) = content s ++ t
  ∧ len (sdscatlen s t) = len s + Z.of_nat (length t)
  ∧ len (sdscatlen s t) + free (sdscatlen s t) < 2147483648
  ∧ (Z.of_nat (length t) <= free s →
     free (sdscatlen s t) = free s - Z.of_nat (length t))
  ∧ (free s < Z.of_nat (length t) →
     free (sdscatlen s t)
     = if len s + Z.of_nat (length t) <? SDS_MAX_PREALLOC
       then len s + Z.of_nat (length t) else SDS_MAX_PREALLOC).
Proof. apply sdscatlen_spec. Qed.

End Alloc.

(** The theorem on "fo" with no free space, to which "bar" is appended. *)
Lemma sdscatlen_appends_witness :
  content (sdscatlen 1048576 (λ _, 170) (mkSds 2 0 [102; 111; 0])
             [98; 97; 114])
  = [102; 111; 98; 97; 114]
  ∧ free (sdscatlen 1048576 (λ _, 170) (mkSds 2 0 [102; 111; 0])
            [98; 97; 114]) = 5.
Proof.
  assert (sds_wf (mkSds 2 0 [102; 111; 0])) as Hwf.
  { unfold sds_wf. cbn. repeat split; lia. }
  destruct (sdscatlen_appends 1048576 (λ _, 170) ltac:(lia)
              (mkSds 2 0 [102; 111; 0]) [98; 97; 114] Hwf
              ltac:(cbn; lia) ltac:(cbn; lia))
    as (_ & Hc & _ & _ & _ & Hfree).
  split; [exact Hc|]. apply Hfree. cbn. lia.
Defined.

(** *** Substrings *)

Lemma to_int_to_size_t (v : Z) :
  -2147483648 <= v < 2147483648 → to_int (to_size_t v) = v.
Proof.
  intros H. unfold to_int, to_size_t.
  destruct (Z_lt_le_dec v 0) as [Hneg|Hpos].
  - replace (v mod 18446744073709551616) with (v + 18446744073709551616).
    + replace (v + 18446744073709551616 + 2147483648)
        with (v + 2147483648 + 4294967296 * 4294967296) by lia.
      rewrite Z_mod_plus_full, Z.mod_small by lia. lia.
    + apply (Z.mod_unique _ _ (-1)); lia.
  - rewrite (Z.mod_small v) by lia. rewrite Z.mod_small by lia. lia.
Qed.

Lemma memmove_nothing (b : list Z) (from : Z) : memmove b 0 from 0 = b.
Proof. unfold memmove, memcpy. cbn. apply drop_0. Qed.

(** The end of [sdstrim] and [sdsrange]: [newlen] bytes from [start] are
    moved to the front, and the header is updated. *)
Lemma keep_slice (s : sdshdr) (start newlen : Z) (b : list Z) :
  sds_wf s → len s + free s < 2147483648 →
  0 <= start → 0 <= newlen <= len s →
  (b = buf s ∧ (start = 0 ∨ newlen = 0)
   ∨ b = memmove (buf s) 0 start newlen ∧ start + newlen <= len s) →
  sds_wf (mkSds (to_int newlen) (to_int (free s + to_int (len s - newlen)))
                (store b newlen 0))
  ∧ to_int newlen + to_int (free s + to_int (len s - newlen))
    = len s + free s
  ∧ content (mkSds (to_int newlen)
                   (to_int (free s + to_int (len s - newlen)))
                   (store b newlen 0))
    = take (Z.to_nat newlen) (drop (Z.to_nat start) (content s)).
Proof.
  intros (Hlen & Hfree & Hbuf & Hnul) Hfit Hstart Hnew Hb.
  rewrite (to_int_small (len s - newlen)) by lia.
  rewrite !to_int_small by lia.
  assert (length b = length (buf s)
          ∧ take (Z.to_nat newlen) b
            = take (Z.to_nat newlen) (drop (Z.to_nat start) (buf s)))
    as [Hlb Htake].
  { destruct Hb as [[-> Hzero]|[-> Hin]].
    - split; [reflexivity|]. destruct Hzero as [Hz|Hz]; rewrite Hz.
      + rewrite drop_0. reflexivity.
      + reflexivity.
    - unfold memmove. split.
      + apply length_memcpy; [lia|]. rewrite length_take, length_drop. lia.
      + pose proof (take_memcpy (buf s) 0
                      (take (Z.to_nat newlen) (drop (Z.to_nat start) (buf s)))
                      ltac:(lia)) as Ht.
        rewrite length_take, length_drop in Ht.
        change (Z.to_nat 0) with 0%nat in Ht. cbn [take app] in Ht.
        replace (0 + Z.to_nat newlen `min` (length (buf s) - Z.to_nat start))%nat
          with (Z.to_nat newlen) in Ht by lia.
        exact Ht. }
  unfold sds_wf, content, store. cbn [len free buf].
  split; [|split; [lia|]].
  - split; [lia|]. split; [lia|]. split.
    + rewrite length_insert. lia.
    + apply list_lookup_insert_eq. lia.
  - rewrite take_insert_ge by lia. rewrite Htake.
    destruct (Z.eq_dec newlen 0) as [->|Hnz]; [reflexivity|].
    rewrite !take_drop_commute, take_take. do 2 f_equal.
    destruct Hb as [[_ Hzero]|[_ Hin]]; lia.
Qed.

(** X19.  [sdsrange] keeps the bytes between two inclusive indexes.  A
    negative index counts from the end of the string and stops at its
    first byte; an end past the string stops at its last byte.  The
    string becomes the slice from the start index to the end index, and
    empty when the start lies after the end or after the string; the
    allocation keeps its size. *)
Theorem sdsrange_slice (s : sdshdr) (start end_ : Z) :
  sds_wf s → len s + free s < 2147483648 →
  -2147483648 <= start < 2147483648 →
  -2147483648 <= end_ < 2147483648 →
  sds_wf (sdsrange s start end_)
  ∧ len (sdsrange s start end_) + free (sdsrange s start end_)
    = len s + free s
  ∧ content (sdsrange s start end_)
    = if range_index (len s) start
         <=? Z.min (range_index (len s) end_) (len s - 1)
      then take (Z.to_nat (Z.min (range_index (len s) end_) (len s - 1)
                           - range_index (len s) start + 1))
                (drop (Z.to_nat (range_index (len s) start)) (content s))
      else [].
Proof.
  intros Hwf Hfit Hstart Hend.
  pose proof Hwf as (Hlen & Hfree & Hbuf & Hnul).
  unfold sdsrange, sdslen. rewrite (to_size_t_small (len s)) by lia.
  destruct (len s =? 0) eqn:Hzero.
  { apply Z.eqb_eq in Hzero. split; [exact Hwf|]. split; [reflexivity|].
    assert (content s = []) as -> by (unfold content; rewrite Hzero; reflexivity).
    destruct (_ <=? _); [rewrite drop_nil, take_nil|]; reflexivity. }
  apply Z.eqb_neq in Hzero.
  assert ((if start <? 0
           then if to_int (to_size_t (len s + start)) <? 0 then 0
                else to_int (to_size_t (len s + start))
           else start) = range_index (len s) start) as ->.
  { unfold range_index. destruct (start <? 0) eqn:Hs; [|reflexivity].
    apply Z.ltb_lt in Hs. rewrite to_int_to_size_t by lia.
    destruct (len s + start <? 0) eqn:Hn;
      [apply Z.ltb_lt in Hn|apply Z.ltb_ge in Hn]; lia. }
  assert ((if end_ <? 0
           then if to_int (to_size_t (len s + end_)) <? 0 then 0
                else to_int (to_size_t (len s + end_))
           else end_) = range_index (len s) end_) as ->.
  { unfold range_index. destruct (end_ <? 0) eqn:Hs; [|reflexivity].
    apply Z.ltb_lt in Hs. rewrite to_int_to_size_t by lia.
    destruct (len s + end_ <? 0) eqn:Hn;
      [apply Z.ltb_lt in Hn|apply Z.ltb_ge in Hn]; lia. }
  assert (0 <= range_index (len s) start < 2147483648) as Hfrom.
  { unfold range_index. destruct (start <? 0) eqn:Hs;
      [apply Z.ltb_lt in Hs|apply Z.ltb_ge in Hs]; lia. }
  assert (0 <= range_index (len s) end_ < 2147483648) as Hto.
  { unfold range_index. destruct (end_ <? 0) eqn:Hs;
      [apply Z.ltb_lt in Hs|apply Z.ltb_ge in Hs]; lia. }
  set (from := range_index (len s) start) in *.
  set (to := range_index (len s) end_) in *.
  rewrite (to_int_small (len s)) by lia.
  rewrite (to_int_small (len s - 1)) by lia.
  (* the start and the length that are kept *)
  assert (∃ start2 end2 newlen,
            (if negb ((if to <? from then 0
                         else to_size_t (to_int (to_int (to - from) + 1)))
                        =? 0)
               then
                 if len s <=? from then (from, to, 0)
                 else if len s <=? to
                      then (from, len s - 1,
                            if len s - 1 <? from then 0
                            else to_size_t
                                   (to_int (to_int (len s - 1 - from) + 1)))
                      else (from, to,
                            if to <? from then 0
                            else to_size_t (to_int (to_int (to - from) + 1)))
               else (0, to,
                     if to <? from then 0
                     else to_size_t (to_int (to_int (to - from) + 1))))
            = (start2, end2, newlen)
            ∧ 0 <= start2 ∧ 0 <= newlen
            ∧ (newlen = 0 ∨ start2 + newlen <= len s)
            ∧ newlen = (if from <=? Z.min to (len s - 1)
                        then Z.min to (len s - 1) - from + 1 else 0)
            ∧ (newlen ≠ 0 → start2 = from))
    as (start2 & end2 & newlen & Hsel & H0 & H1 & H2 & Hnl & Hst).
  { destruct (to <? from) eqn:Hord.
    - apply Z.ltb_lt in Hord. cbn [Z.eqb negb].
      exists 0, to, 0. split; [reflexivity|].
      rewrite (proj2 (Z.leb_gt _ _)) by lia. lia.
    - apply Z.ltb_ge in Hord.
      assert (to_size_t (to_int (to_int (to - from) + 1)) ≠ 0) as Hnz.
      { rewrite (to_int_small (to - from)) by lia.
        destruct (Z.eq_dec (to - from + 1) 2147483648) as [Heq|Hne].
        - rewrite Heq. vm_compute. discriminate.
        - rewrite to_int_small, to_size_t_small by lia. lia. }
      rewrite (proj2 (Z.eqb_neq _ _) Hnz). cbn [negb].
      destruct (len s <=? from) eqn:Hout.
      + apply Z.leb_le in Hout. exists from, to, 0. split; [reflexivity|].
        rewrite (proj2 (Z.leb_gt _ _)) by lia. lia.
      + apply Z.leb_gt in Hout. destruct (len s <=? to) eqn:Hclip.
        * apply Z.leb_le in Hclip.
          rewrite (proj2 (Z.ltb_ge _ _)) by lia.
          rewrite (to_int_small (len s - 1 - from)) by lia.
          rewrite to_int_small, to_size_t_small by lia.
          exists from, (len s - 1), (len s - 1 - from + 1).
          split; [reflexivity|].
          rewrite (proj2 (Z.leb_le _ _)) by lia. lia.
        * apply Z.leb_gt in Hclip.
          rewrite (to_int_small (to - from)) by lia.
          rewrite to_int_small, to_size_t_small by lia.
          exists from, to, (to - from + 1). split; [reflexivity|].
          rewrite (proj2 (Z.leb_le _ _)) by lia. lia. }
  rewrite Hsel.
  destruct (keep_slice s start2 newlen
              (if negb (start2 =? 0) && negb (newlen =? 0)
               then memmove (buf s) 0 start2 newlen else buf s)
              Hwf Hfit H0 ltac:(lia)) as (Hwf' & Hsum & Hcontent).
  { destruct (start2 =? 0) eqn:Es; cbn [negb andb].
    - apply Z.eqb_eq in Es. left. split; [reflexivity|]. left. exact Es.
    - destruct (newlen =? 0) eqn:En; cbn [negb].
      + apply Z.eqb_eq in En. left. split; [reflexivity|]. right. exact En.
      + apply Z.eqb_neq in En. right. split; [reflexivity|lia]. }
  split; [exact Hwf'|]. split; [exact Hsum|].
  rewrite Hcontent, Hnl.
  destruct (from <=? Z.min to (len s - 1)) eqn:Hle.
  - rewrite Hst; [reflexivity|]. apply Z.leb_le in Hle. lia.
  - reflexivity.
Qed.

(** The theorem on "Hello World" with the range from 1 to -1. *)
Lemma sdsrange_slice_witness :
  content (sdsrange (mkSds 11 0 [72; 101; 108; 108; 111; 32; 87; 111; 114;
                                 108; 100; 0]) 1 (-1))
  = [101; 108; 108; 111; 32; 87; 111; 114; 108; 100].
Proof.
  assert (sds_wf (mkSds 11 0 [72; 101; 108; 108; 111; 32; 87; 111; 114; 108;
                              100; 0])) as Hwf.
  { unfold sds_wf. cbn. repeat split; lia. }
  destruct (sdsrange_slice
              (mkSds 11 0 [72; 101; 108; 108; 111; 32; 87; 111; 114; 108;
                           100; 0]) 1 (-1) Hwf ltac:(cbn; lia) ltac:(lia)
              ltac:(lia))
    as (_ & _ & Hc).
  exact Hc.
Defined.

(** *** Trimming *)

Lemma content_length (s : sdshdr) :
  sds_wf s → length (content s) = Z.to_nat (len s).
Proof.
  intros (Hlen & Hfree & Hbuf & _). unfold content. rewrite length_take. lia.
Qed.

Lemma trim_sp_spec (cset : list Z) (bytes : list Z) :
  ∀ sp0 : Z,
    ∃ k : nat,
      trim_sp cset bytes sp0 = sp0 + Z.of_nat k
      ∧ (k <= length bytes)%nat
      ∧ Forall (λ c, strchr cset c = true) (take k bytes)
      ∧ ∀ c, bytes !! k = Some c → strchr cset c = false.
Proof.
  induction bytes as [|c bytes IH]; intros sp0.
  - exists 0%nat. cbn. split; [lia|]. split; [lia|].
    split; [constructor|]. intros c H. discriminate H.
  - cbn [trim_sp]. destruct (strchr cset c) eqn:Hc.
    + destruct (IH (sp0 + 1)) as (k & Hk & Hle & Hall & Hstop).
      exists (S k). split; [rewrite Hk; lia|]. split; [cbn; lia|].
      split; [cbn; constructor; assumption|]. exact Hstop.
    + exists 0%nat. split; [lia|]. split; [cbn; lia|].
      split; [constructor|]. intros c' [= <-]. exact Hc.
Qed.

Lemma trim_ep_spec (cset : list Z) (l : list Z) :
  ∀ ep0 : Z,
    ep0 = Z.of_nat (length l) - 1 →
    ∃ k : nat,
      trim_ep cset l ep0 = ep0 - Z.of_nat k
      ∧ (k <= length l)%nat
      ∧ (l ≠ [] → (k < length l)%nat)
      ∧ Forall (λ c, strchr cset c = true) (take k l)
      ∧ ∀ c, l !! k = Some c → 0 < ep0 - Z.of_nat k →
             strchr cset c = false.
Proof.
  induction l as [|c l IH]; intros ep0 Hep.
  - exists 0%nat. cbn. split; [lia|]. split; [lia|].
    split; [congruence|]. split; [constructor|]. intros c H. discriminate H.
  - cbn [trim_ep]. cbn [length] in Hep.
    destruct ((0 <? ep0) && strchr cset c) eqn:Hc.
    + apply andb_true_iff in Hc as [Hpos Hc]. apply Z.ltb_lt in Hpos.
      destruct (IH (ep0 - 1) ltac:(lia)) as (k & Hk & Hle & Hlt & Hall & Hstop).
      exists (S k). split; [rewrite Hk; lia|]. split; [cbn; lia|].
      split.
      { intros _. cbn [length].
        assert (k < length l)%nat; [|lia]. apply Hlt.
        destruct l; [cbn in Hep; lia|discriminate]. }
      split; [cbn; constructor; assumption|].
      intros c' Hc' Hpos'. apply (Hstop c' Hc'). lia.
    + exists 0%nat. split; [lia|]. split; [cbn; lia|].
      split; [intros _; cbn; lia|]. split; [constructor|].
      intros c' [= <-] Hpos. rewrite Z.sub_0_r in Hpos.
      apply Z.ltb_lt in Hpos. rewrite Hpos in Hc. exact Hc.
Qed.

(** X20.  [sdstrim] removes from both ends of the string the bytes that
    [strchr] finds in the set, which are the bytes of the set and the NUL
    byte.  What is left is a slice of the old content: everything before
    it and everything after it was found in the set, and its first and its
    last byte are not; the allocation keeps its size. *)
Theorem sdstrim_trims (s : sdshdr) (cset : list Z) :
  sds_wf s → len s + free s < 2147483648 →
  sds_wf (sdstrim s cset)
  ∧ len (sdstrim s cset) + free (sdstrim s cset) = len s + free s
  ∧ ∃ pre suf,
      content s = pre ++ content (sdstrim s cset) ++ suf
      ∧ Forall (λ c, strchr cset c = true) pre
      ∧ Forall (λ c, strchr cset c = true) suf
      ∧ (∀ c, head (content (sdstrim s cset)) = Some c →
              strchr cset c = false)
      ∧ (∀ c, last (content (sdstrim s cset)) = Some c →
              strchr cset c = false).
Proof.
  intros Hwf Hfit.
  pose proof Hwf as (Hlen & Hfree & Hbuf & Hnul).
  pose proof (content_length s Hwf) as Hcl.
  unfold sdstrim, sdslen. rewrite (to_size_t_small (len s)) by lia.
  cbv zeta. change (take (Z.to_nat (len s)) (buf s)) with (content s).
  destruct (trim_sp_spec cset (content s) 0)
    as (k1 & Hsp & Hk1 & Hpre & Hstop1).
  destruct (trim_ep_spec cset (reverse (content s)) (len s - 1))
    as (k2 & Hep & Hk2 & Hk2' & Hsuf & Hstop2).
  { rewrite length_reverse, Hcl. lia. }
  rewrite length_reverse in Hk2, Hk2'.
  rewrite Hsp, Hep. rewrite Z.add_0_l.
  set (newlen := if len s - 1 - Z.of_nat k2 <? Z.of_nat k1 then 0
                 else to_size_t (len s - 1 - Z.of_nat k2 - Z.of_nat k1 + 1)).
  assert (0 <= newlen
          ∧ Z.of_nat k1 + newlen <= len s
          ∧ len s - Z.of_nat k2 <= Z.of_nat k1 + newlen
          ∧ (newlen ≠ 0 →
             newlen = len s - Z.of_nat k2 - Z.of_nat k1
             ∧ (k2 < length (content s))%nat))
    as (Hn0 & Hn1 & Hn2 & Hn3).
  { subst newlen.
    destruct (len s - 1 - Z.of_nat k2 <? Z.of_nat k1) eqn:Hcross.
    - apply Z.ltb_lt in Hcross. lia.
    - apply Z.ltb_ge in Hcross. rewrite to_size_t_small by lia.
      split; [lia|]. split; [lia|]. split; [lia|]. intros _.
      split; [lia|]. lia. }
  destruct (keep_slice s (Z.of_nat k1) newlen
              (if Z.of_nat k1 =? 0 then buf s
               else memmove (buf s) 0 (Z.of_nat k1) newlen)
              Hwf Hfit ltac:(lia) ltac:(lia)) as (Hwf' & Hsum & Hcontent).
  { destruct (Z.of_nat k1 =? 0) eqn:E.
    - apply Z.eqb_eq in E. left. split; [reflexivity|]. left. exact E.
    - right. split; [reflexivity|lia]. }
  split; [exact Hwf'|]. split; [exact Hsum|].
  rewrite Hcontent, Nat2Z.id.
  exists (take k1 (content s)),
         (drop (k1 + Z.to_nat newlen) (content s)).
  split; [|split; [exact Hpre|split; [|split]]].
  - rewrite app_assoc, take_take_drop, take_drop. reflexivity.
  - apply Forall_lookup_2. intros i x Hx. rewrite lookup_drop in Hx.
    pose proof (lookup_lt_Some _ _ _ Hx) as Hi.
    apply (Forall_lookup_1 _ _ (length (content s) - S (k1 + Z.to_nat newlen + i))
             x Hsuf).
    rewrite lookup_take_lt by lia.
    rewrite reverse_lookup by lia.
    rewrite <- Hx. f_equal. lia.
  - intros c Hc. rewrite head_lookup in Hc.
    apply lookup_take_Some in Hc as [Hc _]. rewrite lookup_drop in Hc.
    rewrite Nat.add_0_r in Hc. exact (Hstop1 c Hc).
  - intros c Hc. rewrite last_lookup in Hc.
    rewrite length_take, length_drop in Hc.
    destruct (Z.eq_dec newlen 0) as [Hz|Hnz].
    { rewrite Hz in Hc. cbn in Hc. discriminate Hc. }
    destruct (Hn3 Hnz) as [Hnew Hk2lt].
    apply lookup_take_Some in Hc as [Hc _]. rewrite lookup_drop in Hc.
    replace (k1 + Init.Nat.pred (Z.to_nat newlen `min`
                                 (length (content s) - k1)))%nat
      with (length (content s) - S k2)%nat in Hc by lia.
    destruct (Z.eq_dec (len s - 1 - Z.of_nat k2) 0) as [Hfirst|Hlater].
    + apply (Hstop1 c). rewrite <- Hc. f_equal. lia.
    + apply (Hstop2 c); [|lia].
      rewrite reverse_lookup by lia. exact Hc.
Qed.

(** The theorem on "xxciaoyyy" trimmed of "xy". *)
Lemma sdstrim_trims_witness :
  sds_wf (sdstrim (mkSds 9 0 [120; 120; 99; 105; 97; 111; 121; 121; 121; 0])
                  [120; 121; 0])
  ∧ len (sdstrim (mkSds 9 0 [120; 120; 99; 105; 97; 111; 121; 121; 121; 0])
                 [120; 121; 0])
    + free (sdstrim (mkSds 9 0 [120; 120; 99; 105; 97; 111; 121; 121; 121;
                                0])
                    [120; 121; 0])
    = 9.
Proof.
  assert (sds_wf (mkSds 9 0 [120; 120; 99; 105; 97; 111; 121; 121; 121; 0]))
    as Hwf.
  { unfold sds_wf. cbn. repeat split; lia. }
  destruct (sdstrim_trims
              (mkSds 9 0 [120; 120; 99; 105; 97; 111; 121; 121; 121; 0])
              [120; 121; 0] Hwf ltac:(cbn; lia))
    as (Hwf' & Hsum & _).
  split; [exact Hwf'|exact Hsum].
Defined.

(** *** Comparison *)

Lemma bytes_lt_nil_l (b : list Z) : bytes_lt [] b ↔ b ≠ [].
Proof.
  split.
  - intros (p & [(y & b' & Hp & ->)|(x & y & a' & b' & Ha & _)]).
    + destruct p; discriminate.
    + destruct p; discriminate.
  - intros Hb. destruct b as [|y b]; [congruence|].
    exists []. left. exists y, b. split; reflexivity.
Qed.

Lemma bytes_lt_nil_r (a : list Z) : ¬ bytes_lt a [].
Proof.
  intros (p & [(y & b' & _ & Hb)|(x & y & a' & b' & _ & Hb & _)]);
    destruct p; discriminate.
Qed.

Lemma bytes_lt_cons (x y : Z) (a b : list Z) :
  bytes_lt (x :: a) (y :: b) ↔ x < y ∨ x = y ∧ bytes_lt a b.
Proof.
  split.
  - intros (p & [(y' & b' & Hp & Hb)|(x' & y' & a' & b' & Ha & Hb & Hlt)]).
    + subst p. cbn in Hb. injection Hb as -> Hb. right. split; [reflexivity|].
      exists a. left. exists y', b'. split; [reflexivity|exact Hb].
    + destruct p as [|c p]; cbn in Ha, Hb.
      * injection Ha as -> _. injection Hb as -> _. left. exact Hlt.
      * injection Ha as -> Ha. injection Hb as -> Hb. right.
        split; [reflexivity|]. exists p. right.
        exists x', y', a', b'. auto.
  - intros [Hlt|[-> (p & [(y' & b' & Hp & Hb)|(x' & y' & a' & b' & Ha & Hb
                                                & Hlt)])]].
    + exists []. right. exists x, y, a, b. auto.
    + exists (y :: p). left. exists y', b'. subst. split; reflexivity.
    + exists (y :: p). right. exists x', y', a', b'. subst. auto.
Qed.

Lemma bytes_lt_asym (a : list Z) :
  ∀ b, bytes_lt a b → ¬ bytes_lt b a ∧ a ≠ b.
Proof.
  induction a as [|x a IH]; intros b Hlt.
  - split; [apply bytes_lt_nil_r|]. apply bytes_lt_nil_l in Hlt. congruence.
  - destruct b as [|y b]; [destruct (bytes_lt_nil_r _ Hlt)|].
    apply bytes_lt_cons in Hlt as [Hlt|[-> Hlt]].
    + split; [|intros [= -> _]; lia].
      intros [H|[H _]]%bytes_lt_cons; lia.
    + destruct (IH b Hlt) as [Hn Hne]. split; [|congruence].
      intros [H|[_ H]]%bytes_lt_cons; [lia|exact (Hn H)].
Qed.

Lemma memcmp_cases (n : nat) :
  ∀ a b : list Z,
    (n <= length a)%nat → (n <= length b)%nat →
    memcmp a b n = 0 ∧ take n a = take n b
    ∨ ∃ p x y a' b',
        take n a = p ++ x :: a' ∧ take n b = p ++ y :: b'
        ∧ x ≠ y ∧ memcmp a b n = x - y.
Proof.
  induction n as [|n IH]; intros a b Ha Hb.
  - left. split; reflexivity.
  - destruct a as [|x a]; [cbn in Ha; lia|].
    destruct b as [|y b]; [cbn in Hb; lia|].
    cbn [memcmp take]. destruct (x =? y) eqn:Hxy.
    + apply Z.eqb_eq in Hxy. subst y.
      destruct (IH a b ltac:(cbn in Ha; lia) ltac:(cbn in Hb; lia))
        as [[H0 Heq]|(p & x' & y' & a' & b' & H1 & H2 & Hne & Hv)].
      * left. split; [exact H0|]. rewrite Heq. reflexivity.
      * right. exists (x :: p), x', y', a', b'. cbn. rewrite H1, H2. auto.
    + apply Z.eqb_neq in Hxy. right.
      exists [], x, y, (take n a), (take n b). auto.
Qed.

(** X21.  [sdscmp] orders byte strings.  The result is 0 exactly when the
    two strings hold the same bytes, negative exactly when the first is a
    proper prefix of the second or has the smaller byte at the first place
    where they differ, and positive exactly when that holds the other way
    round. *)
Theorem sdscmp_orders (s1 s2 : sdshdr) :
  sds_wf s1 → sds_wf s2 →
  len s1 + free s1 < 2147483648 → len s2 + free s2 < 2147483648 →
  (sdscmp s1 s2 = 0 ↔ content s1 = content s2)
  ∧ (sdscmp s1 s2 < 0 ↔ bytes_lt (content s1) (content s2))
  ∧ (0 < sdscmp s1 s2 ↔ bytes_lt (content s2) (content s1)).
Proof.
  intros Hwf1 Hwf2 Hfit1 Hfit2.
  pose proof Hwf1 as (Hlen1 & Hfree1 & Hbuf1 & _).
  pose proof Hwf2 as (Hlen2 & Hfree2 & Hbuf2 & _).
  assert (sdscmp s1 s2 = 0 ∧ content s1 = content s2
          ∨ sdscmp s1 s2 < 0 ∧ bytes_lt (content s1) (content s2)
          ∨ 0 < sdscmp s1 s2 ∧ bytes_lt (content s2) (content s1))
    as Hcases.
  { unfold sdscmp, sdslen. rewrite !to_size_t_small by lia.
    set (m := Z.to_nat (if len s1 <? len s2 then len s1 else len s2)).
    assert (m = Z.to_nat (Z.min (len s1) (len s2))) as Hm.
    { subst m. destruct (len s1 <? len s2) eqn:E;
        [apply Z.ltb_lt in E|apply Z.ltb_ge in E]; lia. }
    assert (content s1 = take m (buf s1) ++ drop m (content s1)) as Hc1.
    { unfold content. rewrite <- (take_drop m (take _ _)) at 1.
      rewrite take_take. do 2 f_equal. lia. }
    assert (content s2 = take m (buf s2) ++ drop m (content s2)) as Hc2.
    { unfold content. rewrite <- (take_drop m (take _ _)) at 1.
      rewrite take_take. do 2 f_equal. lia. }
    assert (length (drop m (content s1)) = Z.to_nat (len s1) - m)%nat as Hd1.
    { rewrite length_drop, content_length by exact Hwf1. reflexivity. }
    assert (length (drop m (content s2)) = Z.to_nat (len s2) - m)%nat as Hd2.
    { rewrite length_drop, content_length by exact Hwf2. reflexivity. }
    destruct (memcmp_cases m (buf s1) (buf s2) ltac:(lia) ltac:(lia))
      as [[H0 Heq]|(p & x & y & a' & b' & H1 & H2 & Hne & Hv)].
    - rewrite H0. cbn [Z.eqb]. rewrite to_int_to_size_t by lia.
      rewrite Heq in Hc1.
      destruct (Z.lt_trichotomy (len s1) (len s2)) as [Hlt|[Heq12|Hgt]].
      + right. left. split; [lia|].
        destruct (drop m (content s1)) as [|? ?] eqn:E1;
          [|cbn in Hd1; lia].
        destruct (drop m (content s2)) as [|y r] eqn:E2;
          [cbn in Hd2; lia|].
        rewrite app_nil_r in Hc1. rewrite Hc1, Hc2.
        exists (take m (buf s2)). left. exists y, r.
        split; reflexivity.
      + left. split; [lia|].
        destruct (drop m (content s1)) as [|? ?] eqn:E1;
          [|cbn in Hd1; lia].
        destruct (drop m (content s2)) as [|? ?] eqn:E2;
          [|cbn in Hd2; lia].
        rewrite Hc1, Hc2. reflexivity.
      + right. right. split; [lia|].
        destruct (drop m (content s2)) as [|? ?] eqn:E2;
          [|cbn in Hd2; lia].
        destruct (drop m (content s1)) as [|x r] eqn:E1;
          [cbn in Hd1; lia|].
        rewrite app_nil_r in Hc2. rewrite Hc1, Hc2.
        exists (take m (buf s2)). left. exists x, r.
        split; reflexivity.
    - rewrite Hv. rewrite (proj2 (Z.eqb_neq _ _)) by lia.
      rewrite H1, <- app_assoc in Hc1. rewrite H2, <- app_assoc in Hc2.
      cbn [app] in Hc1, Hc2.
      destruct (Z.lt_trichotomy x y) as [Hlt|[Heq|Hgt]]; [|lia|].
      + right. left. split; [lia|]. rewrite Hc1, Hc2.
        exists p. right. eexists x, y, _, _. auto.
      + right. right. split; [lia|]. rewrite Hc1, Hc2.
        exists p. right. eexists y, x, _, _. split; [reflexivity|].
        split; [reflexivity|lia]. }
  destruct Hcases as [[H0 Heq]|[[Hneg Hlt]|[Hpos Hgt]]].
  - split; [tauto|]. rewrite H0, Heq. split.
    + split; [lia|]. intros H. destruct (bytes_lt_asym _ _ H) as [_ Hne].
      congruence.
    + split; [lia|]. intros H. destruct (bytes_lt_asym _ _ H) as [_ Hne].
      congruence.
  - destruct (bytes_lt_asym _ _ Hlt) as [Hn Hne].
    split; [split; [lia|congruence]|]. split; [tauto|].
    split; [lia|]. intros H. destruct (Hn H).
  - destruct (bytes_lt_asym _ _ Hgt) as [Hn Hne].
    split; [split; [lia|congruence]|]. split; [|tauto].
    split; [lia|]. intros H. destruct (Hn H).
Qed.

(** The theorem on "foo" and "foa". *)
Lemma sdscmp_orders_witness :
  bytes_lt (content (mkSds 3 0 [102; 111; 97; 0]))
           (content (mkSds 3 0 [102; 111; 111; 0])).
Proof.
  assert (sds_wf (mkSds 3 0 [102; 111; 111; 0])) as Hwf1.
  { unfold sds_wf. cbn. repeat split; lia. }
  assert (sds_wf (mkSds 3 0 [102; 111; 97; 0])) as Hwf2.
  { unfold sds_wf. cbn. repeat split; lia. }
  destruct (sdscmp_orders (mkSds 3 0 [102; 111; 111; 0])
              (mkSds 3 0 [102; 111; 97; 0]) Hwf1 Hwf2
              ltac:(cbn; lia) ltac:(cbn; lia))
    as (_ & _ & Hpos).
  apply Hpos. vm_compute. reflexivity.
Defined.

(** *** Splitting and joining *)



Section SplitJoin.

Variable SDS_MAX_PREALLOC : Z.
Variable fresh : nat → Z.
Hypothesis prealloc_range : 0 <= SDS_MAX_PREALLOC <= 1073741824.

Lemma sdsnewlen_spec (bytes : list Z) (n : nat) :
  (n <= length bytes)%nat → Z.of_nat n < 2147483648 →
  sds_wf (sdsnewlen fresh (Some bytes) (Z.of_nat n))
  ∧ content (sdsnewlen fresh (Some bytes) (Z.of_nat n)) = take n bytes
  ∧ len (sdsnewlen fresh (Some bytes) (Z.of_nat n)) = Z.of_nat n
  ∧ free (sdsnewlen fresh (Some bytes) (Z.of_nat n)) = 0.
Proof.
  intros Hn Hsmall. unfold sdsnewlen.
  rewrite buf_size_small, to_int_small by lia.
  set (b := if Z.of_nat n =? 0 then zmalloc_bytes fresh (Z.of_nat n + 1)
            else memcpy (zmalloc_bytes fresh (Z.of_nat n + 1)) 0
                        (take (Z.to_nat (Z.of_nat n)) bytes)).
  assert (length (zmalloc_bytes fresh (Z.of_nat n + 1)) = S n) as Hz.
  { unfold zmalloc_bytes. rewrite length_fmap, length_seq. lia. }
  assert (length b = S n ∧ take n b = take n bytes) as [Hlb Htb].
  { subst b. destruct (Z.of_nat n =? 0) eqn:E.
    - apply Z.eqb_eq in E. assert (n = 0%nat) as -> by lia.
      split; [exact Hz|reflexivity].
    - rewrite Nat2Z.id. split.
      + rewrite length_memcpy; [exact Hz|lia|]. rewrite length_take. lia.
      + pose proof (take_memcpy (zmalloc_bytes fresh (Z.of_nat n + 1)) 0
                      (take n bytes) ltac:(lia)) as Ht.
        rewrite length_take in Ht. change (Z.to_nat 0) with 0%nat in Ht.
        cbn [take app] in Ht.
        replace (0 + n `min` length bytes)%nat with n in Ht by lia.
        exact Ht. }
  unfold sds_wf, content, store. cbn [len free buf]. rewrite Nat2Z.id.
  split; [|split; [|split; reflexivity]].
  - split; [lia|]. split; [lia|]. split.
    + rewrite length_insert. lia.
    + apply list_lookup_insert_eq. lia.
  - rewrite take_insert_ge by lia. exact Htb.
Qed.

Lemma sdsempty_spec :
  sds_wf (sdsempty fresh) ∧ content (sdsempty fresh) = []
  ∧ len (sdsempty fresh) = 0 ∧ free (sdsempty fresh) = 0.
Proof.
  destruct (sdsnewlen_spec [0] 0 ltac:(cbn; lia) ltac:(lia))
    as (H1 & H2 & H3 & H4).
  unfold sdsempty. change (Z.of_nat 0) with 0 in *. auto.
Qed.


(** No separator starts inside the string when the separator follows
    it. *)
Local Abbreviation clean sep :=
  (λ t : list Z,
     ∀ j : nat, (j < length t)%nat →
                take (length sep%list) (drop j (t ++ sep%list)) ≠ sep%list).






End SplitJoin.


(** *** Quoted representations *)

Lemma hex_char_digit (d : Z) :
  0 <= d < 16 →
  is_hex_digit (hex_char d) = true
  ∧ hex_digit_to_int (hex_char d) = d
  ∧ hex_char d ≠ 0.
Proof.
  intros H.
  assert (d = 0 ∨ d = 1 ∨ d = 2 ∨ d = 3 ∨ d = 4 ∨ d = 5 ∨ d = 6 ∨ d = 7
          ∨ d = 8 ∨ d = 9 ∨ d = 10 ∨ d = 11 ∨ d = 12 ∨ d = 13 ∨ d = 14
          ∨ d = 15) as Hd by lia.
  repeat destruct Hd as [->|Hd]; try subst d;
    (split; [reflexivity|split; [reflexivity|discriminate]]).
Qed.

Section Repr.

Variable SDS_MAX_PREALLOC : Z.
Variable fresh : nat → Z.
Hypothesis prealloc_range : 0 <= SDS_MAX_PREALLOC <= 1073741824.

Local Abbreviation sdscatlen := (sdscatlen SDS_MAX_PREALLOC fresh).
Local Abbreviation sdscatrepr_char :=
  (sdscatrepr_char SDS_MAX_PREALLOC fresh).
Local Abbreviation sdssplitargs_token :=
  (sdssplitargs_token SDS_MAX_PREALLOC fresh).

(** The bytes that stand for a byte in a quoted representation. *)
Local Abbreviation escaped :=
  (λ c : Z,
     if (c =? 92) || (c =? 34) then [92; c]
     else if c =? 10 then [92; 110]
     else if c =? 13 then [92; 114]
     else if c =? 9 then [92; 116]
     else if c =? 7 then [92; 97]
     else if c =? 8 then [92; 98]
     else if isprint c then [c]
     else [92; 120; hex_char (c / 16); hex_char (c mod 16)]).

Lemma escaped_no_nul (c : Z) :
  0 <= c < 256 →
  Forall (λ x, x ≠ 0) (escaped c) ∧ (1 <= length (escaped c) <= 4)%nat.
Proof.
  intros Hc.
  destruct (hex_char_digit (c / 16)) as (_ & _ & Hh1).
  { split; [apply Z.div_pos; lia|apply Z.div_lt_upper_bound; lia]. }
  destruct (hex_char_digit (c mod 16)) as (_ & _ & Hh2).
  { apply Z.mod_pos_bound. lia. }
  destruct ((c =? 92) || (c =? 34)) eqn:E1.
  { split; [|cbn; lia]. apply orb_true_iff in E1.
    repeat constructor; [discriminate|].
    destruct E1 as [E|E]; apply Z.eqb_eq in E; lia. }
  repeat match goal with
         | |- context [if ?c =? ?k then _ else _] =>
             destruct (c =? k);
             [split; [repeat constructor; discriminate|cbn; lia]|]
         end.
  destruct (isprint c) eqn:Ep.
  - split; [|cbn; lia]. unfold isprint in Ep.
    apply andb_true_iff in Ep as [Ep _]. apply Z.leb_le in Ep.
    repeat constructor. lia.
  - split; [|cbn; lia]. repeat constructor; try discriminate; assumption.
Qed.

Lemma sdscatrepr_char_spec (s : sdshdr) (c : Z) :
  0 <= c < 256 →
  sds_wf s → len s + free s < 2147483648 → len s + 4 < 1073741824 →
  sds_wf (sdscatrepr_char s c)
  ∧ content (sdscatrepr_char s c) = content s ++ escaped c
  ∧ len (sdscatrepr_char s c) = len s + Z.of_nat (length (escaped c))
  ∧ len (sdscatrepr_char s c) + free (sdscatrepr_char s c) < 2147483648.
Proof.
  intros Hc Hwf Hfit Hsmall.
  destruct (escaped_no_nul c Hc) as [Hnn Hlen].
  assert (Sds.sdscatrepr_char SDS_MAX_PREALLOC fresh s c
          = sdscatlen s (escaped c)) as ->.
  { unfold Sds.sdscatrepr_char, sdscatprintf, sdscatvprintf, sdscat.
    destruct ((c =? 92) || (c =? 34)).
    { rewrite (cstring_no_nul _ [0] Hnn) by (right; eexists; reflexivity).
      reflexivity. }
    repeat match goal with
           | |- context [if ?c =? ?k then _ else _] =>
               destruct (c =? k); [reflexivity|]
           end.
    destruct (isprint c);
      rewrite (cstring_no_nul _ [0] Hnn) by (right; eexists; reflexivity);
      reflexivity. }
  destruct (sdscatlen_spec SDS_MAX_PREALLOC fresh prealloc_range s
              (escaped c) Hwf Hfit ltac:(lia))
    as (H1 & H2 & H3 & H4 & _).
  auto.
Qed.

(** The bytes of a string, escaped one after the other. *)
Lemma fold_sdscatrepr_char (p : list Z) :
  Forall (λ c, 0 <= c < 256) p →
  ∀ s : sdshdr,
    sds_wf s → len s + free s < 2147483648 →
    len s + 4 * Z.of_nat (length p) < 1073741824 →
    sds_wf (fold_left sdscatrepr_char p s)
    ∧ content (fold_left sdscatrepr_char p s)
      = content s ++ flat_map escaped p
    ∧ len (fold_left sdscatrepr_char p s)
      <= len s + 4 * Z.of_nat (length p)
    ∧ len (fold_left sdscatrepr_char p s)
      + free (fold_left sdscatrepr_char p s) < 2147483648.
Proof.
  induction 1 as [|c p Hc Hp IH]; intros s Hwf Hfit Hsmall.
  - cbn. rewrite app_nil_r. split; [exact Hwf|].
    split; [reflexivity|]. split; [lia|exact Hfit].
  - cbn [fold_left flat_map]. cbn [length] in Hsmall.
    destruct (sdscatrepr_char_spec s c Hc Hwf Hfit ltac:(lia))
      as (Hwf1 & Hc1 & Hl1 & Hfit1).
    destruct (escaped_no_nul c Hc) as [_ Hlen].
    assert (len (sdscatrepr_char s c) <= len s + 4) as Hl1'.
    { cbv beta in *.
      match type of Hlen with
      | (1 <= ?n <= 4)%nat => set (k := n) in *
      end.
      lia. }
    clear Hl1 Hlen.
    assert (len (sdscatrepr_char s c) + 4 * Z.of_nat (length p)
            < 1073741824) as Hsmall1 by lia.
    destruct (IH _ Hwf1 Hfit1 Hsmall1) as (Hwf2 & Hc2 & Hl2 & Hfit2).
    split; [exact Hwf2|]. split; [|split; [cbn [length]; lia|exact Hfit2]].
    rewrite Hc2, Hc1, <- app_assoc. reflexivity.
Qed.

(** One turn of the token loop inside double quotes consumes what stands
    for one byte, and appends that byte. *)
Lemma token_escaped (c : Z) (rest : list Z) (fuel : nat)
    (current : sdshdr) :
  0 <= c < 256 →
  sdssplitargs_token (S fuel) (escaped c ++ rest) true false current
  = sdssplitargs_token fuel rest true false (sdscatlen current [c]).
Proof.
  intros Hc.
  destruct (hex_char_digit (c / 16)) as (Hx1 & Hv1 & Hh1).
  { split; [apply Z.div_pos; lia|apply Z.div_lt_upper_bound; lia]. }
  destruct (hex_char_digit (c mod 16)) as (Hx2 & Hv2 & Hh2).
  { apply Z.mod_pos_bound. lia. }
  destruct (Z.eq_dec c 92) as [->|H92]; [reflexivity|].
  destruct (Z.eq_dec c 34) as [->|H34]; [reflexivity|].
  destruct (Z.eq_dec c 10) as [->|H10]; [reflexivity|].
  destruct (Z.eq_dec c 13) as [->|H13]; [reflexivity|].
  destruct (Z.eq_dec c 9) as [->|H9]; [reflexivity|].
  destruct (Z.eq_dec c 7) as [->|H7]; [reflexivity|].
  destruct (Z.eq_dec c 8) as [->|H8]; [reflexivity|].
  rewrite (proj2 (Z.eqb_neq c 92) H92), (proj2 (Z.eqb_neq c 34) H34),
    (proj2 (Z.eqb_neq c 10) H10), (proj2 (Z.eqb_neq c 13) H13),
    (proj2 (Z.eqb_neq c 9) H9), (proj2 (Z.eqb_neq c 7) H7),
    (proj2 (Z.eqb_neq c 8) H8). cbn [orb].
  destruct (isprint c) eqn:Ep.
  - unfold isprint in Ep. apply andb_true_iff in Ep as [Ep _].
    apply Z.leb_le in Ep.
    cbn [app Sds.sdssplitargs_token peek nth].
    rewrite (proj2 (Z.eqb_neq c 92) H92), (proj2 (Z.eqb_neq c 34) H34).
    cbn [andb]. rewrite (proj2 (Z.eqb_neq c 0)) by lia.
    unfold advance, peek. cbn [nth].
    rewrite (proj2 (Z.eqb_neq c 0)) by lia. reflexivity.
  - cbn [app Sds.sdssplitargs_token peek nth Z.eqb Pos.eqb andb].
    rewrite Hx1, Hx2, Hv1, Hv2. cbn [andb].
    replace ((c / 16 * 16 + c mod 16) mod 256) with c.
    + unfold advance, peek. cbn [drop nth].
      rewrite (proj2 (Z.eqb_neq _ 0) Hh2). reflexivity.
    + rewrite (Z.mul_comm (c / 16) 16), <- Z.div_mod by lia.
      symmetry. apply Z.mod_small. exact Hc.
Qed.

Lemma token_escaped_all (p : list Z) :
  Forall (λ c, 0 <= c < 256) p →
  ∀ (rest : list Z) (fuel : nat) (current : sdshdr),
    sdssplitargs_token (length p + fuel) (flat_map escaped p ++ rest) true
      false current
    = sdssplitargs_token fuel rest true false
        (fold_left (λ s c, sdscatlen s [c]) p current).
Proof.
  induction 1 as [|c p Hc Hp IH]; intros rest fuel current.
  - reflexivity.
  - cbn [flat_map length fold_left]. rewrite <- app_assoc.
    change (S (length p) + fuel)%nat with (S (length p + fuel)).
    rewrite (token_escaped c _ _ current Hc). apply IH.
Qed.

Lemma fold_sdscatlen_byte (p : list Z) :
  ∀ s : sdshdr,
    sds_wf s → len s + free s < 2147483648 →
    len s + Z.of_nat (length p) < 1073741824 →
    sds_wf (fold_left (λ s c, sdscatlen s [c]) p s)
    ∧ content (fold_left (λ s c, sdscatlen s [c]) p s) = content s ++ p.
Proof.
  induction p as [|c p IH]; intros s Hwf Hfit Hsmall.
  - cbn. rewrite app_nil_r. split; [exact Hwf|reflexivity].
  - cbn [fold_left]. cbn [length] in Hsmall.
    destruct (sdscatlen_spec SDS_MAX_PREALLOC fresh prealloc_range s [c]
                Hwf Hfit ltac:(cbn [length]; lia))
      as (Hwf1 & Hc1 & Hl1 & Hfit1 & _).
    cbn [length] in Hl1.
    assert (len (sdscatlen s [c]) + Z.of_nat (length p) < 1073741824)
      as Hsmall1 by lia.
    destruct (IH _ Hwf1 Hfit1 Hsmall1) as [Hwf2 Hc2].
    split; [exact Hwf2|]. rewrite Hc2, Hc1, <- app_assoc. reflexivity.
Qed.

Lemma token_open_quote (rest : list Z) (fuel : nat) (current : sdshdr) :
  sdssplitargs_token (S fuel) (34 :: rest) false false current
  = sdssplitargs_token fuel rest true false current.
Proof. reflexivity. Qed.

Lemma token_close_quote (fuel : nat) (current : sdshdr) :
  sdssplitargs_token (S fuel) [34] true false current = Token current [].
Proof. reflexivity. Qed.

Lemma loop_unfold (fuel : nat) (p : list Z) (vector : list sdshdr) :
  sdssplitargs_loop SDS_MAX_PREALLOC fresh (S fuel) p vector
  = if negb (peek (skip_blanks p) 0 =? 0) then
      match Sds.sdssplitargs_token SDS_MAX_PREALLOC fresh
              (S (length (skip_blanks p))) (skip_blanks p) false false
              (sdsempty fresh) with
      | Token current p' =>
          sdssplitargs_loop SDS_MAX_PREALLOC fresh fuel p'
            (vector ++ [current])
      | TokenErr => ArgsNull
      | TokenFuel => ArgsFuel
      end
    else Args vector.
Proof. reflexivity. Qed.

(** X23.  [sdssplitargs] reads back what [sdscatrepr] writes.  The quoted
    representation of a byte string, written to an empty sds, parses as a
    line of one argument, and that argument holds the bytes that were
    represented, whatever they are. *)
Theorem sdssplitargs_sdscatrepr (p : list Z) :
  Forall (λ c, 0 <= c < 256) p →
  4 * Z.of_nat (length p) + 2 < 1073741824 →
  ∃ arg,
    sdssplitargs SDS_MAX_PREALLOC fresh
      (content (sdscatrepr SDS_MAX_PREALLOC fresh (sdsempty fresh) p))
    = Args [arg]
    ∧ sds_wf arg
    ∧ content arg = p.
Proof.
  intros Hp Hsmall.
  destruct (sdsempty_spec fresh) as (Hwf0 & Hc0 & Hl0 & Hf0).
  (* the representation *)
  destruct (sdscatlen_spec SDS_MAX_PREALLOC fresh prealloc_range
              (sdsempty fresh) [34] Hwf0 ltac:(lia) ltac:(cbn [length]; lia))
    as (Hwf1 & Hc1 & Hl1 & Hfit1 & _).
  cbn [length] in Hl1.
  assert (len (sdscatlen (sdsempty fresh) [34]) + 4 * Z.of_nat (length p)
          < 1073741824) as Hsmall1 by lia.
  destruct (fold_sdscatrepr_char p Hp _ Hwf1 Hfit1 Hsmall1)
    as (Hwf2 & Hc2 & Hl2 & Hfit2).
  assert (len (fold_left sdscatrepr_char p (sdscatlen (sdsempty fresh) [34]))
          + Z.of_nat (length [34]) < 1073741824) as Hsmall2
    by (cbn [length]; lia).
  destruct (sdscatlen_spec SDS_MAX_PREALLOC fresh prealloc_range _ [34]
              Hwf2 Hfit2 Hsmall2)
    as (_ & Hc3 & _).
  assert (content (sdscatrepr SDS_MAX_PREALLOC fresh (sdsempty fresh) p)
          = 34 :: flat_map escaped p ++ [34]) as ->.
  { unfold sdscatrepr. rewrite Hc3, Hc2, Hc1, Hc0. reflexivity. }
  (* the argument *)
  destruct (fold_sdscatlen_byte p (sdsempty fresh) Hwf0 ltac:(lia)
              ltac:(lia)) as [Hwf4 Hc4].
  rewrite Hc0 in Hc4. cbn [app] in Hc4.
  exists (fold_left (λ s c, sdscatlen s [c]) p (sdsempty fresh)).
  split; [|split; [exact Hwf4|exact Hc4]].
  (* the parse *)
  assert (length p <= length (flat_map escaped p))%nat as Hlong.
  { clear -Hp. induction Hp as [|c p Hc Hp IH]; [reflexivity|].
    cbn [flat_map]. rewrite length_app. cbn [length].
    destruct (escaped_no_nul c Hc) as [_ Hlen]. lia. }
  unfold sdssplitargs.
  set (line := 34 :: flat_map escaped p ++ [34]).
  assert (length line
          = (length p + S (S (length (flat_map escaped p) - length p)))%nat)
    as Hll.
  { subst line. cbn [length]. rewrite length_app. cbn [length]. lia. }
  assert (Sds.sdssplitargs_token SDS_MAX_PREALLOC fresh (S (length line))
            line false false (sdsempty fresh)
          = Token (fold_left (λ s c, sdscatlen s [c]) p (sdsempty fresh)) [])
    as Htoken.
  { rewrite Hll. subst line.
    rewrite (token_open_quote _ _ (sdsempty fresh)).
    rewrite (token_escaped_all p Hp). apply token_close_quote. }
  rewrite loop_unfold.
  change (skip_blanks line) with line.
  change (peek line 0) with 34. cbn [Z.eqb negb].
  rewrite Htoken, Hll, Nat.add_succ_r. rewrite loop_unfold. reflexivity.
Qed.

End Repr.

(** The theorem on the seven bytes BEL, LF, NUL, "foo", CR. *)
Lemma sdssplitargs_sdscatrepr_witness :
  ∃ arg,
    sdssplitargs 1048576 (λ _, 170)
      (content (sdscatrepr 1048576 (λ _, 170) (sdsempty (λ _, 170))
                  [7; 10; 0; 102; 111; 111; 13]))
    = Args [arg]
    ∧ sds_wf arg
    ∧ content arg = [7; 10; 0; 102; 111; 111; 13].
Proof.
  apply (sdssplitargs_sdscatrepr 1048576 (λ _, 170) ltac:(lia)
           [7; 10; 0; 102; 111; 111; 13]).
  - repeat constructor; lia.
  - cbn. lia.
Defined.

End SdsFacts.

(** ** Hashes *)

Module HashFacts.
Import Util Redis UtilFacts THash.

(** *** The compact encoding as a list of pairs *)

Local Abbreviation flat pairs :=
  (pairs ≫= (λ p : list Z * list Z, [p.1; p.2])).

Lemma ziplist_pairs_flat (zl : list (list Z)) (pairs : list (list Z * list Z)) :
  ziplist_pairs zl = Some pairs ↔ zl = flat pairs.
Proof.
  split.
  - revert zl. induction pairs as [|[f v] l IH]; intros zl H.
    + destruct zl as [|f [|v r]]; simpl in H; try discriminate; [reflexivity|].
      destruct (ziplist_pairs r); discriminate.
    + destruct zl as [|f' [|v' r]]; simpl in H; try discriminate.
      destruct (ziplist_pairs r) as [l'|] eqn:Hr; [|discriminate].
      injection H as -> -> ->. simpl. do 2 f_equal. apply IH, Hr.
  - intros ->. induction pairs as [|[f v] l IH]; [reflexivity|].
    change (match ziplist_pairs (flat l) with
            | Some l0 => Some ((f, v) :: l0)
            | None => None
            end = Some ((f, v) :: l)).
    rewrite IH. reflexivity.
Qed.

Lemma flat_cons (f v : list Z) (l : list (list Z * list Z)) :
  flat ((f, v) :: l) = f :: v :: flat l.
Proof. reflexivity. Qed.

Lemma length_flat (l : list (list Z * list Z)) :
  length (flat l) = (2 * length l)%nat.
Proof.
  induction l as [|[f v] l IH]; [reflexivity|].
  rewrite flat_cons. cbn [length]. lia.
Qed.

Lemma flat_app (l1 l2 : list (list Z * list Z)) :
  flat (l1 ++ l2) = flat l1 ++ flat l2.
Proof. apply bind_app. Qed.

Lemma find_flat_none (l : list (list Z * list Z)) (p : nat) (f : list Z) :
  f ∉ l.*1 → ziplistFind (flat l) p f 1 0 = None.
Proof.
  revert p. induction l as [|[g v] l IH]; intros p Hf; [reflexivity|].
  simpl in Hf. apply not_elem_of_cons in Hf as [Hne Hf].
  rewrite flat_cons. cbn [ziplistFind].
  rewrite bool_decide_eq_false_2 by congruence.
  apply (IH (S (S p))), Hf.
Qed.

Lemma find_flat_some (l1 l2 : list (list Z * list Z)) (p : nat)
    (f v : list Z) :
  f ∉ l1.*1 →
  ziplistFind (flat (l1 ++ (f, v) :: l2)) p f 1 0
  = Some (p + 2 * length l1)%nat.
Proof.
  revert p. induction l1 as [|[g w] l1 IH]; intros p Hf.
  - cbn [app]. rewrite flat_cons. cbn [ziplistFind].
    rewrite bool_decide_eq_true_2 by reflexivity. f_equal. cbn [length]. lia.
  - simpl in Hf. apply not_elem_of_cons in Hf as [Hne Hf].
    rewrite <- app_comm_cons, flat_cons. cbn [ziplistFind].
    rewrite bool_decide_eq_false_2 by congruence.
    rewrite (IH (S (S p)) Hf). f_equal. cbn [length]. lia.
Qed.

(** An entry handed out as an integer is written back as the same bytes. *)
Lemma entry_bytes (e : list Z) :
  match isObjectRepresentableAsLongLong e with
  | Some n => ll2string n
  | None => e
  end = e.
Proof.
  destruct (isObjectRepresentableAsLongLong e) as [n|] eqn:H; [|reflexivity].
  apply representable_iff in H. apply H.
Qed.

Lemma split_first (l : list (list Z * list Z)) (f : list Z) :
  f ∈ l.*1 → ∃ l1 v l2, l = l1 ++ (f, v) :: l2 ∧ f ∉ l1.*1.
Proof.
  induction l as [|[g w] l IH]; simpl; intros H.
  - apply elem_of_nil in H as [].
  - destruct (decide (g = f)) as [->|Hne].
    + exists [], w, l. split; [reflexivity|]. simpl. apply not_elem_of_nil.
    + apply elem_of_cons in H as [H|H]; [congruence|].
      destruct (IH H) as (l1 & v & l2 & -> & Hl1).
      exists ((g, w) :: l1), v, l2. split; [reflexivity|].
      simpl. apply not_elem_of_cons. split; [congruence | exact Hl1].
Qed.

Lemma lookup_split (l1 l2 : list (list Z * list Z)) (f v : list Z) :
  f ∉ l1.*1 →
  (list_to_map (l1 ++ (f, v) :: l2) : gmap (list Z) (list Z)) !! f = Some v.
Proof.
  intros Hf. rewrite list_to_map_app. apply lookup_union_Some_raw. right.
  split; [apply not_elem_of_list_to_map_1, Hf|].
  simpl. apply lookup_insert_eq.
Qed.

Lemma flat_cons_inv (l : list (list Z * list Z)) (e : list Z)
    (zl : list (list Z)) :
  flat l = e :: zl → l ≠ [].
Proof. intros H ->. discriminate. Qed.

Lemma from_ziplist_spec (l : list (list Z * list Z)) (f : list Z) :
  hashTypeGetFromZiplist (flat l) f
  = Some (match (list_to_map l : gmap (list Z) (list Z)) !! f with
          | Some v =>
              Some (match isObjectRepresentableAsLongLong v with
                    | Some n => inl n
                    | None => inr v
                    end)
          | None => None
          end).
Proof.
  unfold hashTypeGetFromZiplist.
  destruct (decide (f ∈ l.*1)) as [Hin|Hnot].
  - destruct (split_first l f Hin) as (l1 & v & l2 & -> & Hl1).
    rewrite (lookup_split l1 l2 f v Hl1).
    rewrite (find_flat_some l1 l2 0 f v Hl1).
    destruct (flat (l1 ++ (f, v) :: l2)) as [|e zl] eqn:Hzl.
    { apply (f_equal length) in Hzl. rewrite length_flat, length_app in Hzl.
      simpl in Hzl. lia. }
    rewrite <- Hzl. unfold ziplistNext, ziplistGet.
    rewrite bool_decide_eq_true_2
      by (rewrite length_flat, length_app; simpl; lia).
    rewrite flat_app.
    rewrite lookup_app_r by (rewrite length_flat; lia).
    rewrite length_flat.
    replace (S (0 + 2 * length l1) - 2 * length l1)%nat with 1%nat by lia.
    reflexivity.
  - rewrite (not_elem_of_list_to_map_1 _ _ Hnot).
    rewrite (find_flat_none l 0 f Hnot).
    destruct (flat l); reflexivity.
Qed.

(** *** The hash type API against the map of fields *)

Lemma hash_wf_ziplist (zl : list (list Z)) :
  hash_wf (Hash_ziplist zl) ↔ ∃ l, zl = flat l ∧ NoDup l.*1.
Proof.
  unfold hash_wf. split; intros (l & H & Hnd); exists l; split; try exact Hnd;
    apply ziplist_pairs_flat; exact H.
Qed.

Lemma fields_flat (l : list (list Z * list Z)) :
  fields (Hash_ziplist (flat l)) = list_to_map l.
Proof.
  unfold fields. rewrite (proj2 (ziplist_pairs_flat (flat l) l) eq_refl).
  reflexivity.
Qed.

Lemma hashTypeGetObject_spec (o : hashobj) (f : list Z) :
  hash_wf o → hashTypeGetObject o f = Some (fields o !! f).
Proof.
  destruct o as [zl|d]; [|reflexivity].
  intros (l & -> & _)%hash_wf_ziplist.
  rewrite fields_flat. unfold hashTypeGetObject.
  rewrite from_ziplist_spec.
  destruct (list_to_map l !! f) as [v|]; [|reflexivity].
  pose proof (entry_bytes v) as Hv.
  destruct (isObjectRepresentableAsLongLong v); congruence.
Qed.

Lemma hashTypeExists_spec (o : hashobj) (f : list Z) :
  hash_wf o →
  hashTypeExists o f
  = Some (match fields o !! f with Some _ => 1 | None => 0 end).
Proof.
  destruct o as [zl|d]; [|reflexivity].
  intros (l & -> & _)%hash_wf_ziplist.
  rewrite fields_flat. unfold hashTypeExists.
  rewrite from_ziplist_spec.
  destruct (list_to_map l !! f) as [v|]; reflexivity.
Qed.

Lemma size_list_to_map (l : list (list Z * list Z)) :
  NoDup l.*1 →
  size (list_to_map l : gmap (list Z) (list Z)) = length l.
Proof.
  intros Hnd. rewrite <- (length_map_to_list (M := gmap (list Z))).
  apply Permutation_length, map_to_list_to_map, Hnd.
Qed.

Lemma hashTypeLength_spec (o : hashobj) :
  hash_wf o → hashTypeLength o = Z.of_nat (size (fields o)).
Proof.
  destruct o as [zl|d]; [|reflexivity].
  intros (l & -> & Hnd)%hash_wf_ziplist.
  rewrite fields_flat, (size_list_to_map l Hnd).
  unfold hashTypeLength, ziplistLen. rewrite length_flat.
  rewrite Nat2Z.inj_mul. change (Z.of_nat 2) with 2.
  rewrite Z.mul_comm. apply Z.div_mul. lia.
Qed.

Lemma convert_loop_spec (l : list (list Z * list Z))
    (d : gmap (list Z) (list Z)) :
  NoDup l.*1 → (∀ f, f ∈ l.*1 → d !! f = None) →
  convert_loop l d = Some (list_to_map l ∪ d).
Proof.
  revert d. induction l as [|[f v] l IH]; intros d Hnd Hd.
  - simpl. rewrite (left_id_L ∅ (∪)). reflexivity.
  - simpl in Hnd. apply NoDup_cons in Hnd as [Hf Hnd].
    simpl. unfold dictAdd. rewrite (Hd f) by (simpl; apply elem_of_cons; auto).
    rewrite (IH _ Hnd).
    + f_equal. rewrite <- insert_union_l. symmetry.
      apply insert_union_r, not_elem_of_list_to_map_1, Hf.
    + intros g Hg. rewrite lookup_insert_ne by (intros ->; contradiction).
      apply Hd. simpl. apply elem_of_cons. auto.
Qed.

Lemma hashTypeConvert_spec (l : list (list Z * list Z)) :
  NoDup l.*1 →
  hashTypeConvert (Hash_ziplist (flat l)) = Some (Hash_ht (list_to_map l)).
Proof.
  intros Hnd. unfold hashTypeConvert.
  rewrite (proj2 (ziplist_pairs_flat (flat l) l) eq_refl).
  rewrite (convert_loop_spec l ∅ Hnd) by (intros; apply lookup_empty).
  rewrite (right_id_L ∅ (∪)). reflexivity.
Qed.

Lemma fmap_fst_update (l1 l2 : list (list Z * list Z)) (f v w : list Z) :
  (l1 ++ (f, v) :: l2).*1 = (l1 ++ (f, w) :: l2).*1.
Proof. rewrite !fmap_app. reflexivity. Qed.

Lemma list_to_map_update (l1 l2 : list (list Z * list Z)) (f v w : list Z) :
  f ∉ l1.*1 →
  (list_to_map (l1 ++ (f, v) :: l2) : gmap (list Z) (list Z))
  = <[f := v]> (list_to_map (l1 ++ (f, w) :: l2)).
Proof.
  intros Hf. rewrite !list_to_map_app. cbn [list_to_map foldr].
  change (foldr _ ∅ l2) with (list_to_map l2 : gmap (list Z) (list Z)).
  rewrite insert_union_r by apply not_elem_of_list_to_map_1, Hf.
  cbn [uncurry]. rewrite insert_insert_eq. reflexivity.
Qed.

Lemma list_to_map_snoc (l : list (list Z * list Z)) (f v : list Z) :
  f ∉ l.*1 →
  (list_to_map (l ++ [(f, v)]) : gmap (list Z) (list Z))
  = <[f := v]> (list_to_map l).
Proof.
  intros Hf. rewrite list_to_map_app. cbn [list_to_map foldr uncurry].
  rewrite insert_empty.
  symmetry. apply insert_union_singleton_r, not_elem_of_list_to_map_1, Hf.
Qed.

Lemma list_to_map_remove (l1 l2 : list (list Z * list Z)) (f v : list Z) :
  NoDup (l1 ++ (f, v) :: l2).*1 →
  (list_to_map (l1 ++ l2) : gmap (list Z) (list Z))
  = delete f (list_to_map (l1 ++ (f, v) :: l2)).
Proof.
  rewrite fmap_app. intros (Hl1 & Hdisj & Hl2)%NoDup_app.
  rewrite fmap_cons in Hl2. apply NoDup_cons in Hl2 as [Hf2 _].
  assert (f ∉ l1.*1) as Hf1.
  { intros Hin. apply (Hdisj f Hin). rewrite fmap_cons. apply elem_of_cons.
    auto. }
  rewrite !list_to_map_app. cbn [list_to_map foldr uncurry].
  change (foldr _ ∅ l2) with (list_to_map l2 : gmap (list Z) (list Z)).
  rewrite delete_union, delete_insert_eq.
  rewrite !delete_id by (apply not_elem_of_list_to_map_1; assumption).
  reflexivity.
Qed.

Lemma NoDup_remove_pair (l1 l2 : list (list Z * list Z)) (f v : list Z) :
  NoDup (l1 ++ (f, v) :: l2).*1 → NoDup (l1 ++ l2).*1.
Proof.
  rewrite !fmap_app, fmap_cons. intros H.
  apply NoDup_ListNoDup in H. apply NoDup_ListNoDup.
  apply NoDup_remove_1 in H. exact H.
Qed.

Lemma flat_split (l1 l2 : list (list Z * list Z)) (f v : list Z) :
  flat (l1 ++ (f, v) :: l2) = (flat l1 ++ [f]) ++ v :: flat l2.
Proof. rewrite flat_app, flat_cons, <- app_assoc. reflexivity. Qed.

Lemma ziplist_update (l1 l2 : list (list Z * list Z)) (f v w : list Z) :
  let vptr := S (0 + 2 * length l1) in
  ziplistInsert (ziplistDelete (flat (l1 ++ (f, w) :: l2)) vptr) vptr v
  = flat (l1 ++ (f, v) :: l2).
Proof.
  intros vptr. rewrite !flat_split.
  assert (vptr = length (flat l1 ++ [f])) as ->.
  { rewrite length_app, length_flat. unfold vptr. simpl. lia. }
  unfold ziplistInsert, ziplistDelete.
  rewrite delete_middle, take_app_length, drop_app_length. reflexivity.
Qed.

Lemma ziplist_remove (l1 l2 : list (list Z * list Z)) (f v : list Z) :
  let fptr := (0 + 2 * length l1)%nat in
  ziplistDelete (ziplistDelete (flat (l1 ++ (f, v) :: l2)) fptr) fptr
  = flat (l1 ++ l2).
Proof.
  intros fptr. rewrite !flat_app, flat_cons.
  assert (fptr = length (flat l1)) as ->.
  { rewrite length_flat. unfold fptr. lia. }
  unfold ziplistDelete. rewrite !delete_middle. reflexivity.
Qed.

Lemma hashTypeDelete_spec (o : hashobj) (f : list Z) :
  hash_wf o →
  ∃ o', hashTypeDelete o f
        = (match fields o !! f with Some _ => 1 | None => 0 end, o')
        ∧ hash_wf o' ∧ fields o' = delete f (fields o)
        ∧ is_ziplist o' = is_ziplist o.
Proof.
  destruct o as [zl|d].
  - intros (l & -> & Hnd)%hash_wf_ziplist. rewrite fields_flat.
    unfold hashTypeDelete.
    destruct (decide (f ∈ l.*1)) as [Hin|Hnot].
    + destruct (split_first l f Hin) as (l1 & v & l2 & -> & Hl1).
      rewrite (lookup_split l1 l2 f v Hl1).
      rewrite (find_flat_some l1 l2 0 f v Hl1).
      destruct (flat (l1 ++ (f, v) :: l2)) as [|e zl] eqn:Hzl.
      { apply (f_equal length) in Hzl. rewrite length_flat, length_app in Hzl.
        simpl in Hzl. lia. }
      rewrite <- Hzl, (ziplist_remove l1 l2 f v).
      exists (Hash_ziplist (flat (l1 ++ l2))). split; [reflexivity|].
      split; [|split; [|reflexivity]].
      * apply hash_wf_ziplist. exists (l1 ++ l2). split; [reflexivity|].
        apply (NoDup_remove_pair l1 l2 f v Hnd).
      * rewrite fields_flat. apply (list_to_map_remove l1 l2 f v Hnd).
    + rewrite (not_elem_of_list_to_map_1 _ _ Hnot).
      rewrite (find_flat_none l 0 f Hnot).
      exists (Hash_ziplist (flat l)).
      split; [destruct (flat l); reflexivity|].
      split; [apply hash_wf_ziplist; eauto|].
      split; [|reflexivity].
      rewrite fields_flat, delete_id; [reflexivity|].
      apply not_elem_of_list_to_map_1, Hnot.
  - intros _. unfold hashTypeDelete, dictDelete, fields.
    destruct (d !! f) as [v|] eqn:Hd.
    + exists (Hash_ht (delete f d)). repeat split; reflexivity.
    + exists (Hash_ht d). repeat split; try reflexivity.
      symmetry. apply delete_id, Hd.
Qed.

Lemma length_after_set (o o' : hashobj) (f v : list Z) :
  hash_wf o → hash_wf o' → fields o' = <[f := v]> (fields o) →
  hashTypeLength o'
  = hashTypeLength o + (1 - match fields o !! f with Some _ => 1 | None => 0 end).
Proof.
  intros Hwf Hwf' Hfields.
  rewrite (hashTypeLength_spec o Hwf), (hashTypeLength_spec o' Hwf'), Hfields.
  rewrite map_size_insert. destruct (fields o !! f); simpl; lia.
Qed.

Lemma read_after_set (o o' : hashobj) (f v g : list Z) :
  hash_wf o → hash_wf o' → fields o' = <[f := v]> (fields o) →
  hashTypeGetObject o' g
  = if bool_decide (g = f) then Some (Some v) else hashTypeGetObject o g.
Proof.
  intros Hwf Hwf' Hfields.
  rewrite (hashTypeGetObject_spec o' g Hwf'), Hfields.
  case_bool_decide as Hg.
  - subst g. rewrite lookup_insert_eq. reflexivity.
  - rewrite lookup_insert_ne by congruence.
    symmetry. apply hashTypeGetObject_spec, Hwf.
Qed.

Lemma addHashFieldToReply_spec (o : hashobj) (g : list Z) :
  hash_wf o →
  addHashFieldToReply (Some o) g
  = Some (match fields o !! g with
          | Some v => ReplyBulk v
          | None => shared_nullbulk
          end).
Proof.
  destruct o as [zl|d]; [|reflexivity].
  intros (l & -> & _)%hash_wf_ziplist.
  rewrite fields_flat. unfold addHashFieldToReply.
  rewrite from_ziplist_spec.
  destruct (list_to_map l !! g) as [v|]; [|reflexivity].
  pose proof (entry_bytes v) as Hv.
  destruct (isObjectRepresentableAsLongLong v); congruence.
Qed.

Lemma hgetCommand_spec (o : hashobj) (g : list Z) :
  hash_wf o →
  hgetCommand (Some (Hash_val o)) g
  = Some [match fields o !! g with
          | Some v => ReplyBulk v
          | None => shared_nullbulk
          end].
Proof.
  intros Hwf. unfold hgetCommand.
  rewrite (addHashFieldToReply_spec o g Hwf). reflexivity.
Qed.

(** *** Deleting fields *)

Lemma lookup_filter_not_listed (m : gmap (list Z) (list Z))
    (fs : list (list Z)) (g : list Z) :
  filter (λ kv : list Z * list Z, kv.1 ∉ fs) m !! g
  = if bool_decide (g ∈ fs) then None else m !! g.
Proof.
  apply option_eq. intros x. rewrite map_lookup_filter_Some. cbn [fst].
  case_bool_decide as Hg; split.
  - intros [_ H]. contradiction.
  - discriminate.
  - intros [H _]. exact H.
  - auto.
Qed.

Lemma size_listed_absent (D R : gset (list Z)) (g : list Z) :
  g ∉ D → size (D ∩ ({[g]} ∪ R)) = size (D ∩ R).
Proof.
  intros Hg. f_equal. apply set_eq. intros x.
  rewrite !elem_of_intersection, elem_of_union, elem_of_singleton.
  split; [|tauto]. intros [Hx [->|Hr]]; [contradiction | auto].
Qed.

Lemma size_listed_present (D R : gset (list Z)) (g : list Z) :
  g ∈ D → size (D ∩ ({[g]} ∪ R)) = S (size ((D ∖ {[g]}) ∩ R)).
Proof.
  intros Hg.
  assert (D ∩ ({[g]} ∪ R) = {[g]} ∪ (D ∖ {[g]}) ∩ R) as ->.
  { apply set_eq. intros x.
    rewrite elem_of_union, !elem_of_intersection, elem_of_difference,
      elem_of_union, elem_of_singleton.
    destruct (decide (x = g)) as [->|Hne]; tauto. }
  rewrite size_union, size_singleton; [reflexivity|].
  intros x Hx [[_ Hne]%elem_of_difference _]%elem_of_intersection.
  contradiction.
Qed.

Lemma hdel_loop_spec (o : hashobj) (fs : list (list Z)) (k : Z) :
  hash_wf o → fields o ≠ ∅ →
  ∃ o', hdel_loop o fs k
        = (o', k + Z.of_nat (size (dom (fields o) ∩ list_to_set fs)),
           bool_decide (fields o' = ∅))
        ∧ hash_wf o'
        ∧ fields o' = filter (λ kv : list Z * list Z, kv.1 ∉ fs) (fields o)
        ∧ is_ziplist o' = is_ziplist o.
Proof.
  revert o k. induction fs as [|g rest IH]; intros o k Hwf Hne.
  - exists o. cbn [hdel_loop list_to_set foldr].
    rewrite (right_absorb_L ∅ (∩)), size_empty, Z.add_0_r.
    rewrite bool_decide_eq_false_2 by exact Hne.
    split; [reflexivity|]. split; [exact Hwf|]. split; [|reflexivity].
    apply map_eq. intros g. rewrite lookup_filter_not_listed.
    rewrite bool_decide_eq_false_2 by apply not_elem_of_nil. reflexivity.
  - destruct (hashTypeDelete_spec o g Hwf) as (o1 & Hdel & Hwf1 & Hf1 & Hz1).
    cbn [hdel_loop]. rewrite Hdel, list_to_set_cons.
    destruct (fields o !! g) as [v|] eqn:Hg.
    + change (1 =? 0) with false. cbv iota.
      rewrite (size_listed_present _ _ g) by (apply elem_of_dom; eauto).
      rewrite (hashTypeLength_spec o1 Hwf1).
      destruct (Z.of_nat (size (fields o1)) =? 0) eqn:Hlen.
      * apply Z.eqb_eq in Hlen.
        assert (fields o1 = ∅) as Hempty
          by (apply map_size_empty_inv; lia).
        exists o1. rewrite bool_decide_eq_true_2 by exact Hempty.
        rewrite <- dom_delete_L, <- Hf1, Hempty, dom_empty_L.
        rewrite (left_absorb_L ∅ (∩)), size_empty.
        split; [reflexivity|]. split; [exact Hwf1|]. split; [|exact Hz1].
        symmetry. apply map_empty. intros h.
        rewrite lookup_filter_not_listed. case_bool_decide as Hh;
          [reflexivity|].
        assert (h ≠ g) as Hhg
          by (intros ->; apply Hh, elem_of_cons; auto).
        rewrite <- (lookup_delete_ne (fields o) g h) by congruence.
        rewrite <- Hf1, Hempty. apply lookup_empty.
      * apply Z.eqb_neq in Hlen.
        assert (fields o1 ≠ ∅) as Hne1.
        { intros Hempty. rewrite Hempty, map_size_empty in Hlen. lia. }
        destruct (IH o1 (k + 1) Hwf1 Hne1) as (o' & -> & Hwf' & Hf' & Hz').
        exists o'. rewrite Hf1, dom_delete_L.
        split; [do 2 f_equal; lia|]. split; [exact Hwf'|].
        split; [|congruence].
        rewrite Hf', Hf1. apply map_eq. intros h.
        rewrite !lookup_filter_not_listed.
        destruct (decide (h = g)) as [->|Hhg].
        -- rewrite lookup_delete_eq.
           rewrite (bool_decide_eq_true_2 (g ∈ g :: rest))
             by (apply elem_of_cons; auto).
           destruct (bool_decide (g ∈ rest)); reflexivity.
        -- rewrite lookup_delete_ne by congruence.
           apply (f_equal (λ b : bool, if b then None else fields o !! h)).
           apply bool_decide_ext. rewrite elem_of_cons. tauto.
    + change (0 =? 0) with true. cbv iota.
      rewrite (size_listed_absent _ _ g) by (apply not_elem_of_dom, Hg).
      assert (fields o1 = fields o) as Heq
        by (rewrite Hf1; apply delete_id, Hg).
      assert (fields o1 ≠ ∅) as Hne1 by congruence.
      destruct (IH o1 k Hwf1 Hne1) as (o' & -> & Hwf' & Hf' & Hz').
      exists o'. rewrite Heq.
      split; [reflexivity|]. split; [exact Hwf'|]. split; [|congruence].
      rewrite Hf', Heq. apply map_eq. intros h.
      rewrite !lookup_filter_not_listed.
      destruct (decide (h = g)) as [->|Hhg].
      * rewrite Hg. destruct (bool_decide _), (bool_decide _); reflexivity.
      * apply (f_equal (λ b : bool, if b then None else fields o !! h)).
        apply bool_decide_ext. rewrite elem_of_cons. tauto.
Qed.

Lemma set_dirty_same (server : redisServer) :
  set_dirty server (dirty server + 0) = server.
Proof. rewrite Z.add_0_r. destruct server. reflexivity. Qed.

(** X24. [HDEL] on a key that holds a hash with at least one field replies
    the number of distinct given fields the hash holds, and adds that
    number to [server.dirty].  Afterwards [HGET] replies the null bulk for
    every given field and what it replied before for every other; the key
    is removed exactly when every field of the hash was among those given,
    and otherwise holds a hash that is still not empty and has kept its
    encoding. *)
Theorem hdelCommand_deletes (server : redisServer) (o : hashobj)
    (fs : list (list Z)) :
  hash_wf o → hashTypeLength o ≠ 0 →
  ∃ held',
    hdelCommand server (Some (Hash_val o)) fs
    = (set_dirty server
         (dirty server + Z.of_nat (size (dom (fields o) ∩ list_to_set fs))),
       held',
       [ReplyLongLong (Z.of_nat (size (dom (fields o) ∩ list_to_set fs)))])
    ∧ (∀ g, hgetCommand held' g
            = if bool_decide (g ∈ fs) then Some [shared_nullbulk]
              else hgetCommand (Some (Hash_val o)) g)
    ∧ (held' = None ↔ ∀ g, hashTypeExists o g = Some 1 → g ∈ fs)
    ∧ (∀ o', held' = Some (Hash_val o') →
             hash_wf o' ∧ hashTypeLength o' ≠ 0
             ∧ is_ziplist o' = is_ziplist o).
Proof.
  intros Hwf Hlen.
  assert (fields o ≠ ∅) as Hne.
  { intros Hempty. apply Hlen.
    rewrite (hashTypeLength_spec o Hwf), Hempty, map_size_empty.
    reflexivity. }
  destruct (hdel_loop_spec o fs 0 Hwf Hne) as (o' & Hloop & Hwf' & Hf' & Hz').
  unfold hdelCommand. rewrite Hloop, Z.add_0_l.
  set (n := Z.of_nat (size (dom (fields o) ∩ list_to_set fs))).
  exists (if bool_decide (fields o' = ∅) then None else Some (Hash_val o')).
  split.
  { f_equal. f_equal. destruct (n =? 0) eqn:Hn; [|reflexivity].
    apply Z.eqb_eq in Hn. rewrite Hn. symmetry. apply set_dirty_same. }
  assert (∀ g, match fields o' !! g with
               | Some v => ReplyBulk v
               | None => shared_nullbulk
               end
               = if bool_decide (g ∈ fs) then shared_nullbulk
                 else match fields o !! g with
                      | Some v => ReplyBulk v
                      | None => shared_nullbulk
                      end) as Hread.
  { intros g. rewrite Hf', lookup_filter_not_listed.
    destruct (bool_decide (g ∈ fs)); reflexivity. }
  split.
  { intros g. rewrite (hgetCommand_spec o g Hwf).
    case_bool_decide as Hempty.
    - specialize (Hread g). rewrite Hempty, lookup_empty in Hread.
      cbn [hgetCommand].
      destruct (bool_decide (g ∈ fs)); congruence.
    - rewrite (hgetCommand_spec o' g Hwf'), Hread.
      destruct (bool_decide (g ∈ fs)); reflexivity. }
  split.
  { case_bool_decide as Hempty; split.
    - intros _ g Hg. rewrite (hashTypeExists_spec o g Hwf) in Hg.
      destruct (decide (g ∈ fs)) as [Hin|Hnot]; [exact Hin|].
      assert (fields o' !! g = None) as Hnone
        by (rewrite Hempty; apply lookup_empty).
      rewrite Hf', lookup_filter_not_listed in Hnone.
      rewrite bool_decide_eq_false_2 in Hnone by exact Hnot.
      rewrite Hnone in Hg. discriminate.
    - reflexivity.
    - discriminate.
    - intros Hall. exfalso. apply Hempty, map_empty. intros g.
      rewrite Hf', lookup_filter_not_listed.
      case_bool_decide as Hg; [reflexivity|].
      destruct (fields o !! g) as [v|] eqn:Hv; [|reflexivity].
      exfalso. apply Hg, Hall. rewrite (hashTypeExists_spec o g Hwf), Hv.
      reflexivity. }
  intros o2 Ho2. case_bool_decide as Hempty; [discriminate|].
  injection Ho2 as <-. split; [exact Hwf'|]. split; [|exact Hz'].
  rewrite (hashTypeLength_spec o' Hwf').
  intros Hzero. apply Hempty, map_size_empty_inv. lia.
Qed.

(** *** Writing *)

Section Config.

Variable hash_max_ziplist_entries : Z.
Variable hash_max_ziplist_value : Z.
Variable getLongLongFromObject : list Z → option Z.

Lemma convert_when_long (l : list (list Z * list Z)) (update : Z) :
  NoDup l.*1 →
  ∃ o', (if hash_max_ziplist_entries <? hashTypeLength (Hash_ziplist (flat l))
         then match hashTypeConvert (Hash_ziplist (flat l)) with
              | Some o' => Some (update, o')
              | None => None
              end
         else Some (update, Hash_ziplist (flat l))) = Some (update, o')
        ∧ hash_wf o' ∧ fields o' = list_to_map l
        ∧ is_ziplist o'
          = (Z.of_nat (size (list_to_map l : gmap (list Z) (list Z)))
             <=? hash_max_ziplist_entries).
Proof.
  intros Hnd.
  assert (hash_wf (Hash_ziplist (flat l))) as Hwf
    by (apply hash_wf_ziplist; eauto).
  rewrite (hashTypeLength_spec _ Hwf), fields_flat.
  destruct (hash_max_ziplist_entries <? _) eqn:Hlt.
  - rewrite (hashTypeConvert_spec l Hnd). eexists. split; [reflexivity|].
    split; [exact I|]. split; [reflexivity|].
    simpl. symmetry. apply Z.leb_gt, Z.ltb_lt, Hlt.
  - eexists. split; [reflexivity|]. split; [exact Hwf|].
    split; [apply fields_flat|].
    simpl. symmetry. apply Z.leb_le, Z.ltb_ge, Hlt.
Qed.

Lemma hashTypeSet_spec (o : hashobj) (f v : list Z) :
  hash_wf o →
  ∃ o', hashTypeSet hash_max_ziplist_entries o f v
        = Some (match fields o !! f with Some _ => 1 | None => 0 end, o')
        ∧ hash_wf o' ∧ fields o' = <[f := v]> (fields o)
        ∧ is_ziplist o'
          = is_ziplist o
            && (Z.of_nat (size (<[f := v]> (fields o)))
                <=? hash_max_ziplist_entries).
Proof.
  destruct o as [zl|d].
  - intros (l & -> & Hnd)%hash_wf_ziplist. rewrite fields_flat.
    unfold hashTypeSet. cbn [is_ziplist andb].
    destruct (decide (f ∈ l.*1)) as [Hin|Hnot].
    + destruct (split_first l f Hin) as (l1 & w & l2 & -> & Hl1).
      rewrite (lookup_split l1 l2 f w Hl1).
      rewrite (find_flat_some l1 l2 0 f w Hl1).
      destruct (flat (l1 ++ (f, w) :: l2)) as [|e zl] eqn:Hzl.
      { apply (f_equal length) in Hzl. rewrite length_flat, length_app in Hzl.
        simpl in Hzl. lia. }
      rewrite <- Hzl. unfold ziplistNext.
      rewrite bool_decide_eq_true_2
        by (rewrite length_flat, length_app; simpl; lia).
      cbv zeta. rewrite (ziplist_update l1 l2 f v w).
      rewrite (fmap_fst_update l1 l2 f w v) in Hnd.
      destruct (convert_when_long _ 1 Hnd) as (o' & -> & Hwf & Hfields & Hz).
      exists o'. split; [reflexivity|]. split; [exact Hwf|].
      rewrite <- (list_to_map_update l1 l2 f v w Hl1). auto.
    + rewrite (not_elem_of_list_to_map_1 _ _ Hnot).
      rewrite (find_flat_none l 0 f Hnot).
      assert (match flat l with [] | _ => Some (@None nat) end = Some None)
        as -> by (destruct (flat l); reflexivity).
      cbv zeta. unfold ziplistPush. rewrite <- app_assoc.
      change (flat l ++ [f] ++ [v]) with (flat l ++ flat [(f, v)]).
      rewrite <- flat_app.
      assert (NoDup (l ++ [(f, v)]).*1) as Hnd'.
      { rewrite fmap_app. apply NoDup_app. split; [exact Hnd|].
        split; [|apply NoDup_singleton].
        intros g Hg Hg'. apply list_elem_of_singleton in Hg'. simpl in Hg'.
        subst g. contradiction. }
      destruct (convert_when_long _ 0 Hnd') as (o' & -> & Hwf & Hfields & Hz).
      exists o'. split; [reflexivity|]. split; [exact Hwf|].
      rewrite <- (list_to_map_snoc l f v Hnot). auto.
  - intros _. unfold hashTypeSet, dictReplace, fields.
    exists (Hash_ht (<[f := v]> d)).
    split; [destruct (d !! f); reflexivity|].
    repeat split; reflexivity.
Qed.

Lemma hashTypeTryConversion_spec (o : hashobj) (argv : list (list Z)) :
  hash_wf o →
  ∃ o1, hashTypeTryConversion hash_max_ziplist_value o argv = Some o1
        ∧ hash_wf o1 ∧ fields o1 = fields o
        ∧ is_ziplist o1
          = is_ziplist o
            && forallb (λ a, Z.of_nat (length a) <=? hash_max_ziplist_value)
                 argv.
Proof.
  assert (∀ l : list (list Z),
            existsb (λ a, hash_max_ziplist_value <? Z.of_nat (length a)) l
            = negb (forallb
                      (λ a, Z.of_nat (length a) <=? hash_max_ziplist_value) l))
    as Hex.
  { induction l as [|a l IH]; [reflexivity|]. simpl. rewrite IH.
    rewrite negb_andb. f_equal. rewrite Z.leb_antisym, negb_involutive.
    reflexivity. }
  destruct o as [zl|d].
  - intros Hwf. pose proof Hwf as (l & -> & Hnd)%hash_wf_ziplist.
    unfold hashTypeTryConversion. rewrite Hex.
    destruct (forallb _ argv); cbn [negb is_ziplist andb].
    + exists (Hash_ziplist (flat l)). auto.
    + rewrite (hashTypeConvert_spec l Hnd). eexists. split; [reflexivity|].
      split; [exact I|]. split; [|reflexivity].
      rewrite fields_flat. reflexivity.
  - intros _. exists (Hash_ht d). repeat split; reflexivity.
Qed.

(** X25. On a hash that meets the invariant of its encoding, [hashTypeSet]
    succeeds and returns 1 exactly when the field was there
    ([hashTypeExists]); the length grows by one for a new field and is kept
    for an updated one; afterwards [hashTypeGetObject] gives the new value
    for this field and what it gave before for every other; a hash table
    stays a hash table, and a ziplist stays one exactly when the new
    length does not exceed [hash_max_ziplist_entries]. *)
Theorem hashTypeSet_then_read (o : hashobj) (field value : list Z) :
  hash_wf o →
  ∃ update o',
    hashTypeSet hash_max_ziplist_entries o field value = Some (update, o')
    ∧ hash_wf o'
    ∧ hashTypeExists o field = Some update
    ∧ hashTypeLength o' = hashTypeLength o + (1 - update)
    ∧ (∀ g, hashTypeGetObject o' g
            = if bool_decide (g = field) then Some (Some value)
              else hashTypeGetObject o g)
    ∧ is_ziplist o'
      = is_ziplist o && (hashTypeLength o' <=? hash_max_ziplist_entries).
Proof.
  intros Hwf.
  destruct (hashTypeSet_spec o field value Hwf)
    as (o' & Hset & Hwf' & Hfields & Hz).
  eexists _, o'. split; [exact Hset|]. split; [exact Hwf'|].
  split; [apply hashTypeExists_spec, Hwf|].
  split; [apply (length_after_set o o' field value Hwf Hwf' Hfields)|].
  split; [intros g; apply (read_after_set o o' field value g Hwf Hwf' Hfields)|].
  rewrite (hashTypeLength_spec o' Hwf'), Hfields. exact Hz.
Qed.

(** X26. [HSET] on a key that holds no value or a hash: the command
    succeeds, adds 1 to [server.dirty] and replies 1 for a new field and 0
    for one that was there; afterwards [HGET] replies the new value for this
    field and what it replied before for every other field.  The hash is
    left in the ziplist encoding exactly when it was in it (or is new),
    neither the field nor the value is longer than
    [hash_max_ziplist_value], and the new length does not exceed
    [hash_max_ziplist_entries]. *)
Theorem hsetCommand_then_hget (server : redisServer) (held : option keyval)
    (o : hashobj) (field value : list Z) :
  hashTypeLookupWriteOrCreate held = Some o → hash_wf o →
  ∃ update o',
    hsetCommand hash_max_ziplist_entries hash_max_ziplist_value server held
      field value
    = Some (set_dirty server (dirty server + 1), Some (Hash_val o'),
            [if update =? 0 then shared_cone else shared_czero])
    ∧ hash_wf o'
    ∧ hashTypeExists o field = Some update
    ∧ hlenCommand (Some (Hash_val o'))
      = [ReplyLongLong (hashTypeLength o + (1 - update))]
    ∧ (∀ g, hgetCommand (Some (Hash_val o')) g
            = if bool_decide (g = field) then Some [ReplyBulk value]
              else hgetCommand (Some (Hash_val o)) g)
    ∧ is_ziplist o'
      = is_ziplist o
        && (Z.of_nat (length field) <=? hash_max_ziplist_value)
        && (Z.of_nat (length value) <=? hash_max_ziplist_value)
        && (hashTypeLength o' <=? hash_max_ziplist_entries).
Proof.
  intros Hheld Hwf. unfold hsetCommand. rewrite Hheld.
  destruct (hashTypeTryConversion_spec o [field; value] Hwf)
    as (o1 & -> & Hwf1 & Hf1 & Hz1).
  destruct (hashTypeSet_spec o1 field value Hwf1)
    as (o' & -> & Hwf' & Hfields & Hz).
  rewrite Hf1 in Hfields, Hz.
  eexists _, o'. split; [rewrite Hf1; reflexivity|]. split; [exact Hwf'|].
  split; [apply hashTypeExists_spec, Hwf|].
  split.
  { unfold hlenCommand.
    rewrite (length_after_set o1 o' field value Hwf1 Hwf') by congruence.
    rewrite (hashTypeLength_spec o1 Hwf1), (hashTypeLength_spec o Hwf), Hf1.
    reflexivity. }
  split.
  { intros g. rewrite (hgetCommand_spec o' g Hwf'), Hfields.
    case_bool_decide as Hg.
    - subst g. rewrite lookup_insert_eq. reflexivity.
    - rewrite lookup_insert_ne by congruence.
      symmetry. apply hgetCommand_spec, Hwf. }
  rewrite (hashTypeLength_spec o' Hwf'), Hfields, Hz, Hz1.
  cbn [forallb]. rewrite andb_true_r, andb_assoc. reflexivity.
Qed.

(** *** Writing conditionally, in bulk and by increment *)

(** X27. [HSETNX] on a key that holds no value or a hash.  When the field
    is there, the reply is 0, [server.dirty] is as before and every [HGET]
    and [HLEN] replies what it replied before, though the hash has been
    converted to a hash table if the field or the value given is longer
    than [hash_max_ziplist_value].  When the field is not there, the
    command does what [HSET] does. *)
Theorem hsetnxCommand_keeps (server : redisServer) (held : option keyval)
    (o : hashobj) (field value : list Z) :
  hashTypeLookupWriteOrCreate held = Some o → hash_wf o →
  (hashTypeExists o field = Some 1 →
   ∃ o',
     hsetnxCommand hash_max_ziplist_entries hash_max_ziplist_value server
       held field value
     = Some (server, Some (Hash_val o'), [shared_czero])
     ∧ hash_wf o'
     ∧ (∀ g, hgetCommand (Some (Hash_val o')) g
             = hgetCommand (Some (Hash_val o)) g)
     ∧ hlenCommand (Some (Hash_val o')) = hlenCommand (Some (Hash_val o))
     ∧ is_ziplist o'
       = is_ziplist o
         && (Z.of_nat (length field) <=? hash_max_ziplist_value)
         && (Z.of_nat (length value) <=? hash_max_ziplist_value))
  ∧ (hashTypeExists o field = Some 0 →
     hsetnxCommand hash_max_ziplist_entries hash_max_ziplist_value server
       held field value
     = hsetCommand hash_max_ziplist_entries hash_max_ziplist_value server
         held field value).
Proof.
  intros Hheld Hwf.
  destruct (hashTypeTryConversion_spec o [field; value] Hwf)
    as (o1 & Hconv & Hwf1 & Hf1 & Hz1).
  rewrite (hashTypeExists_spec o field Hwf).
  unfold hsetnxCommand, hsetCommand. rewrite Hheld, Hconv.
  rewrite (hashTypeExists_spec o1 field Hwf1), Hf1.
  split; intros Hex.
  - destruct (fields o !! field) as [v|]; [|discriminate].
    exists o1. split; [reflexivity|]. split; [exact Hwf1|].
    split; [intros g; rewrite !hgetCommand_spec, Hf1 by assumption;
            reflexivity|].
    split.
    { unfold hlenCommand. rewrite !hashTypeLength_spec, Hf1 by assumption.
      reflexivity. }
    rewrite Hz1. cbn [forallb]. rewrite andb_true_r, andb_assoc.
    reflexivity.
  - destruct (hashTypeSet_spec o1 field value Hwf1)
      as (o' & -> & _). rewrite Hf1.
    destruct (fields o !! field) as [v|]; [discriminate|]. reflexivity.
Qed.

Lemma foldl_insert_lookup (pairs : list (list Z * list Z))
    (m : gmap (list Z) (list Z)) (g : list Z) :
  foldl (λ m p, <[p.1 := p.2]> m) m pairs !! g
  = match last (filter (λ p : list Z * list Z, p.1 = g) pairs) with
    | Some p => Some p.2
    | None => m !! g
    end.
Proof.
  revert m. induction pairs as [|[f v] rest IH]; intros m; [reflexivity|].
  cbn [foldl fst snd]. rewrite IH, filter_cons. cbn [fst].
  destruct (decide (f = g)) as [->|Hne].
  - destruct (filter _ rest) as [|q l] eqn:Hfl.
    + cbn [last]. apply lookup_insert_eq.
    + change (last ((g, v) :: q :: l)) with (last (q :: l)).
      destruct (last (q :: l)) as [p|] eqn:Hl; [reflexivity|].
      apply last_None in Hl. discriminate.
  - destruct (last (filter _ rest)); [reflexivity|].
    apply lookup_insert_ne, Hne.
Qed.

Lemma hmset_loop_spec (o : hashobj) (pairs : list (list Z * list Z)) :
  hash_wf o →
  ∃ o', hmset_loop hash_max_ziplist_entries o (flat pairs) = Some o'
        ∧ hash_wf o'
        ∧ fields o' = foldl (λ m p, <[p.1 := p.2]> m) (fields o) pairs
        ∧ hashTypeLength o <= hashTypeLength o'
        ∧ (pairs ≠ [] →
           is_ziplist o'
           = is_ziplist o
             && (hashTypeLength o' <=? hash_max_ziplist_entries)).
Proof.
  revert o. induction pairs as [|[f v] rest IH]; intros o Hwf.
  - exists o. split; [reflexivity|]. split; [exact Hwf|].
    split; [reflexivity|]. split; [lia|]. intros H. contradiction.
  - destruct (hashTypeSet_spec o f v Hwf) as (o1 & Hset & Hwf1 & Hf1 & Hz1).
    pose proof (length_after_set o o1 f v Hwf Hwf1 Hf1) as Hlen1.
    rewrite <- Hf1, <- (hashTypeLength_spec o1 Hwf1) in Hz1.
    destruct (IH o1 Hwf1) as (o' & Hloop & Hwf' & Hf' & Hlen' & Hz').
    exists o'. rewrite flat_cons. cbn [hmset_loop]. rewrite Hset.
    split; [exact Hloop|]. split; [exact Hwf'|].
    split; [cbn [foldl fst snd]; rewrite <- Hf1; exact Hf'|].
    split; [destruct (fields o !! f); lia|].
    intros _. destruct rest as [|q rest].
    + cbn in Hloop. injection Hloop as <-. exact Hz1.
    + rewrite Hz' by discriminate. rewrite Hz1.
      destruct (is_ziplist o); cbn [andb]; [|reflexivity].
      destruct (Z.leb_spec (hashTypeLength o') hash_max_ziplist_entries);
        [|apply andb_false_r].
      rewrite andb_true_r. apply Z.leb_le. lia.
Qed.

Lemma forallb_flat (P : list Z → bool) (pairs : list (list Z * list Z)) :
  forallb P (flat pairs) = forallb (λ p, P p.1 && P p.2) pairs.
Proof.
  induction pairs as [|[f v] rest IH]; [reflexivity|].
  rewrite flat_cons. cbn [forallb fst snd]. rewrite IH, andb_assoc.
  reflexivity.
Qed.

(** X28. [HMSET] with fields and values in pairs, on a key that holds no
    value or a hash: the command succeeds, replies OK and adds 1 to
    [server.dirty], whatever the number of pairs.  Afterwards [HGET]
    replies, for a field that was given, the value of the last pair that
    names it, and for every other field what it replied before.  With at
    least one pair, the hash is left in the ziplist encoding exactly when it
    was in it (or is new), no field or value given is longer than
    [hash_max_ziplist_value], and the new length does not exceed
    [hash_max_ziplist_entries]. *)
Theorem hmsetCommand_last_wins (server : redisServer) (held : option keyval)
    (o : hashobj) (pairs : list (list Z * list Z)) :
  hashTypeLookupWriteOrCreate held = Some o → hash_wf o →
  ∃ o',
    hmsetCommand hash_max_ziplist_entries hash_max_ziplist_value server held
      (pairs ≫= (λ p, [p.1; p.2]))
    = Some (set_dirty server (dirty server + 1), Some (Hash_val o'),
            [shared_ok])
    ∧ hash_wf o'
    ∧ (∀ g, hgetCommand (Some (Hash_val o')) g
            = match last (filter (λ p : list Z * list Z, p.1 = g) pairs) with
              | Some p => Some [ReplyBulk p.2]
              | None => hgetCommand (Some (Hash_val o)) g
              end)
    ∧ (pairs ≠ [] →
       is_ziplist o'
       = is_ziplist o
         && forallb
              (λ p, (Z.of_nat (length p.1) <=? hash_max_ziplist_value)
                    && (Z.of_nat (length p.2) <=? hash_max_ziplist_value))
              pairs
         && (hashTypeLength o' <=? hash_max_ziplist_entries)).
Proof.
  intros Hheld Hwf. unfold hmsetCommand.
  assert (((Z.of_nat (length (flat pairs)) + 2) mod 2 =? 1) = false) as ->.
  { rewrite length_flat.
    replace (Z.of_nat (2 * length pairs) + 2)
      with ((Z.of_nat (length pairs) + 1) * 2) by lia.
    rewrite Z_mod_mult. reflexivity. }
  rewrite Hheld.
  destruct (hashTypeTryConversion_spec o (flat pairs) Hwf)
    as (o1 & -> & Hwf1 & Hf1 & Hz1).
  destruct (hmset_loop_spec o1 pairs Hwf1)
    as (o' & -> & Hwf' & Hf' & _ & Hz').
  exists o'. split; [reflexivity|]. split; [exact Hwf'|].
  split.
  - intros g. rewrite (hgetCommand_spec o' g Hwf'), Hf', Hf1.
    rewrite foldl_insert_lookup, (hgetCommand_spec o g Hwf).
    destruct (last _); reflexivity.
  - intros Hpairs. rewrite (Hz' Hpairs), Hz1, forallb_flat. reflexivity.
Qed.

Lemma hincrby_guard (incr oldvalue : Z) :
  is_int64 incr → is_int64 oldvalue →
  (((incr <? 0) && (oldvalue <? 0) && (incr <? LLONG_MIN - oldvalue))
   || ((0 <? incr) && (0 <? oldvalue) && (LLONG_MAX - oldvalue <? incr)))
  = negb (bool_decide (is_int64 (oldvalue + incr))).
Proof.
  unfold is_int64, LLONG_MIN, LLONG_MAX. intros Hi Ho.
  case_bool_decide as Hsum; cbn [negb].
  - apply orb_false_iff. split; apply andb_false_iff.
    + destruct (Z.ltb_spec incr 0); [|auto].
      destruct (Z.ltb_spec oldvalue 0); [|auto].
      right. apply Z.ltb_ge. lia.
    + destruct (Z.ltb_spec 0 incr); [|auto].
      destruct (Z.ltb_spec 0 oldvalue); [|auto].
      right. apply Z.ltb_ge. lia.
  - apply orb_true_iff.
    destruct (Z.lt_ge_cases (oldvalue + incr) (-9223372036854775808))
      as [Hlow|Hhigh].
    + left. rewrite !andb_true_iff, !Z.ltb_lt. lia.
    + right. rewrite !andb_true_iff, !Z.ltb_lt. lia.
Qed.

(** X29. [HINCRBY] on a key that holds no value or a hash, with [oldvalue]
    the integer the field holds, or 0 when the field is not there.  When
    [oldvalue + incr] is a 64-bit signed integer, the command replies that
    sum and adds 1 to [server.dirty], and afterwards [HGET] replies the
    decimal form of the sum for this field and what it replied before for
    every other.  When it is not, the command replies the overflow error
    and leaves server and key as they were. *)
Theorem hincrbyCommand_guard (server : redisServer) (held : option keyval)
    (o : hashobj) (field : list Z) (current : option (list Z))
    (incr oldvalue : Z) :
  hashTypeLookupWriteOrCreate held = Some o → hash_wf o →
  is_int64 incr → is_int64 oldvalue →
  hashTypeGetObject o field = Some current →
  match current with
  | Some bytes => getLongLongFromObject bytes
  | None => Some 0
  end = Some oldvalue →
  (is_int64 (oldvalue + incr) →
   ∃ o',
     hincrbyCommand hash_max_ziplist_entries getLongLongFromObject server
       held field incr
     = Some (set_dirty server (dirty server + 1), Some (Hash_val o'),
             [ReplyLongLong (oldvalue + incr)])
     ∧ hash_wf o'
     ∧ (∀ g, hgetCommand (Some (Hash_val o')) g
             = if bool_decide (g = field)
               then Some [ReplyBulk (ll2string (oldvalue + incr))]
               else hgetCommand (Some (Hash_val o)) g))
  ∧ (¬ is_int64 (oldvalue + incr) →
     hincrbyCommand hash_max_ziplist_entries getLongLongFromObject server
       held field incr
     = Some (server, held, [ReplyError_overflow])).
Proof.
  intros Hheld Hwf Hincr Hold Hcur Hparse.
  unfold hincrbyCommand. rewrite Hheld, Hcur, Hparse.
  rewrite (hincrby_guard incr oldvalue Hincr Hold).
  split; intros Hsum.
  - rewrite bool_decide_eq_true_2 by exact Hsum. cbn [negb]. cbv zeta.
    change 18446744073709551616 with (2 ^ 64).
    rewrite (CodecExtras.to_signed_mod 64 (oldvalue + incr))
      by (unfold is_int64, LLONG_MIN, LLONG_MAX in Hsum;
          change (2 ^ (64 - 1)) with 9223372036854775808; lia).
    destruct (hashTypeSet_spec o field (ll2string (oldvalue + incr)) Hwf)
      as (o' & -> & Hwf' & Hf' & _).
    exists o'. split; [reflexivity|]. split; [exact Hwf'|].
    intros g. rewrite (hgetCommand_spec o' g Hwf'), Hf'.
    case_bool_decide as Hg.
    + subst g. rewrite lookup_insert_eq. reflexivity.
    + rewrite lookup_insert_ne by congruence.
      symmetry. apply hgetCommand_spec, Hwf.
  - rewrite bool_decide_eq_false_2 by exact Hsum. cbn [negb].
    destruct held as [[o0|]|]; cbn in Hheld; try discriminate.
    + injection Hheld as ->. reflexivity.
    + injection Hheld as <-. cbn in Hcur. injection Hcur as <-.
      injection Hparse as <-. exfalso. apply Hsum.
      rewrite Z.add_0_l. exact Hincr.
Qed.

End Config.

(** A hash of one field at the limit of one entry is converted by the
    second field. *)
Lemma hashTypeSet_then_read_witness :
  ∃ o', hashTypeSet 1 (Hash_ziplist [[102]; [49]]) [103] [120] = Some (0, o')
        ∧ hashTypeLength o' = 2
        ∧ hashTypeGetObject o' [103] = Some (Some [120])
        ∧ hashTypeGetObject o' [102] = Some (Some [49])
        ∧ is_ziplist o' = false.
Proof.
  assert (hash_wf (Hash_ziplist [[102]; [49]])) as Hwf.
  { exists [([102], [49])]. split; [reflexivity|].
    apply NoDup_singleton. }
  destruct (hashTypeSet_then_read 1 (Hash_ziplist [[102]; [49]]) [103] [120]
              Hwf)
    as (update & o' & Hset & _ & Hex & Hlen & Hget & Hz).
  injection Hex as <-.
  exists o'. split; [exact Hset|]. split; [exact Hlen|].
  split; [exact (Hget [103])|]. split; [exact (Hget [102])|].
  rewrite Hlen in Hz. exact Hz.
Defined.

Lemma hsetCommand_then_hget_witness :
  ∃ o', hsetCommand 512 64
          (mkServer [] 16 None true true 512 0 0 0 0 0 REDIS_OK (-1) (-1) 0 0)
          None [102] [49; 50]
        = Some (mkServer [] 16 None true true 512 0 1 0 0 0 REDIS_OK (-1) (-1)
                  0 0,
                Some (Hash_val o'), [shared_cone])
        ∧ hgetCommand (Some (Hash_val o')) [102] = Some [ReplyBulk [49; 50]]
        ∧ hlenCommand (Some (Hash_val o')) = [ReplyLongLong 1]
        ∧ is_ziplist o' = true.
Proof.
  assert (hash_wf createHashObject) as Hwf.
  { exists []. split; [reflexivity|]. apply NoDup_nil_2. }
  destruct (hsetCommand_then_hget 512 64
              (mkServer [] 16 None true true 512 0 0 0 0 0 REDIS_OK (-1) (-1)
                 0 0)
              None createHashObject [102] [49; 50] eq_refl Hwf)
    as (update & o' & Hcmd & _ & Hex & Hlen & Hget & Hz).
  injection Hex as <-.
  exists o'. split; [exact Hcmd|]. split; [exact (Hget [102])|].
  split; [exact Hlen|].
  assert (hashTypeLength o' = 1) as Hl.
  { unfold hlenCommand in Hlen. injection Hlen as ->. reflexivity. }
  rewrite Hl in Hz. exact Hz.
Defined.

(** Of the fields a, x and a again, the hash of a and b holds one. *)
Lemma hdelCommand_deletes_witness :
  ∃ held',
    hdelCommand
      (mkServer [] 16 None true true 512 0 0 0 0 0 REDIS_OK (-1) (-1) 0 0)
      (Some (Hash_val (Hash_ziplist [[97]; [49]; [98]; [50]])))
      [[97]; [120]; [97]]
    = (mkServer [] 16 None true true 512 0 1 0 0 0 REDIS_OK (-1) (-1) 0 0,
       held', [ReplyLongLong 1])
    ∧ hgetCommand held' [97] = Some [shared_nullbulk]
    ∧ hgetCommand held' [98] = Some [ReplyBulk [50]].
Proof.
  assert (hash_wf (Hash_ziplist [[97]; [49]; [98]; [50]])) as Hwf.
  { exists [([97], [49]); ([98], [50])]. split; [reflexivity|].
    apply NoDup_cons. split; [|apply NoDup_singleton].
    intros H. apply list_elem_of_singleton in H. discriminate H. }
  assert (hashTypeLength (Hash_ziplist [[97]; [49]; [98]; [50]]) ≠ 0) as Hlen
    by (intros H; discriminate H).
  destruct (hdelCommand_deletes
              (mkServer [] 16 None true true 512 0 0 0 0 0 REDIS_OK (-1) (-1)
                 0 0)
              (Hash_ziplist [[97]; [49]; [98]; [50]]) [[97]; [120]; [97]]
              Hwf Hlen)
    as (held' & Hcmd & Hget & _).
  assert (Z.of_nat
            (size (dom (fields (Hash_ziplist [[97]; [49]; [98]; [50]]))
                   ∩ list_to_set [[97]; [120]; [97]])) = 1) as Hn
    by (vm_compute; reflexivity).
  rewrite Hn in Hcmd.
  exists held'. split; [exact Hcmd|].
  split; [exact (Hget [97]) | exact (Hget [98])].
Defined.

(** The field a is there: the value is kept, and the long value given
    converts the hash. *)
Lemma hsetnxCommand_keeps_witness :
  ∃ o',
    hsetnxCommand 512 2
      (mkServer [] 16 None true true 512 0 0 0 0 0 REDIS_OK (-1) (-1) 0 0)
      (Some (Hash_val (Hash_ziplist [[97]; [49]]))) [97] [122; 122; 122]
    = Some (mkServer [] 16 None true true 512 0 0 0 0 0 REDIS_OK (-1) (-1) 0
              0,
            Some (Hash_val o'), [shared_czero])
    ∧ hgetCommand (Some (Hash_val o')) [97] = Some [ReplyBulk [49]]
    ∧ is_ziplist o' = false.
Proof.
  assert (hash_wf (Hash_ziplist [[97]; [49]])) as Hwf.
  { exists [([97], [49])]. split; [reflexivity|]. apply NoDup_singleton. }
  assert (hashTypeExists (Hash_ziplist [[97]; [49]]) [97] = Some 1) as Hex
    by (vm_compute; reflexivity).
  destruct (proj1 (hsetnxCommand_keeps 512 2
                     (mkServer [] 16 None true true 512 0 0 0 0 0 REDIS_OK
                        (-1) (-1) 0 0)
                     (Some (Hash_val (Hash_ziplist [[97]; [49]])))
                     (Hash_ziplist [[97]; [49]]) [97] [122; 122; 122]
                     eq_refl Hwf) Hex)
    as (o' & Hcmd & _ & Hget & _ & Hz).
  assert (hgetCommand (Some (Hash_val (Hash_ziplist [[97]; [49]]))) [97]
          = Some [ReplyBulk [49]]) as Hold by (vm_compute; reflexivity).
  exists o'. split; [exact Hcmd|].
  split; [rewrite (Hget [97]); exact Hold | exact Hz].
Defined.

(** The field a is given twice: the second value is the one read. *)
Lemma hmsetCommand_last_wins_witness :
  ∃ o',
    hmsetCommand 512 64
      (mkServer [] 16 None true true 512 0 0 0 0 0 REDIS_OK (-1) (-1) 0 0)
      None [[97]; [49]; [97]; [50]]
    = Some (mkServer [] 16 None true true 512 0 1 0 0 0 REDIS_OK (-1) (-1) 0
              0,
            Some (Hash_val o'), [shared_ok])
    ∧ hgetCommand (Some (Hash_val o')) [97] = Some [ReplyBulk [50]]
    ∧ hgetCommand (Some (Hash_val o')) [98] = Some [shared_nullbulk].
Proof.
  assert (hash_wf createHashObject) as Hwf.
  { exists []. split; [reflexivity|]. apply NoDup_nil_2. }
  destruct (hmsetCommand_last_wins 512 64
              (mkServer [] 16 None true true 512 0 0 0 0 0 REDIS_OK (-1) (-1)
                 0 0)
              None createHashObject [([97], [49]); ([97], [50])] eq_refl Hwf)
    as (o' & Hcmd & _ & Hget & _).
  exists o'. split; [exact Hcmd|].
  split; [exact (Hget [97]) | exact (Hget [98])].
Defined.

(** The field n holds 5: [HINCRBY] by 3 replies 8 and stores it. *)
Lemma hincrbyCommand_guard_witness :
  ∃ o',
    hincrbyCommand 512 isObjectRepresentableAsLongLong
      (mkServer [] 16 None true true 512 0 0 0 0 0 REDIS_OK (-1) (-1) 0 0)
      (Some (Hash_val (Hash_ziplist [[110]; [53]]))) [110] 3
    = Some (mkServer [] 16 None true true 512 0 1 0 0 0 REDIS_OK (-1) (-1) 0
              0,
            Some (Hash_val o'), [ReplyLongLong 8])
    ∧ hgetCommand (Some (Hash_val o')) [110] = Some [ReplyBulk [56]].
Proof.
  assert (hash_wf (Hash_ziplist [[110]; [53]])) as Hwf.
  { exists [([110], [53])]. split; [reflexivity|]. apply NoDup_singleton. }
  assert (hashTypeGetObject (Hash_ziplist [[110]; [53]]) [110]
          = Some (Some [53])) as Hcur by (vm_compute; reflexivity).
  assert (isObjectRepresentableAsLongLong [53] = Some 5) as Hparse
    by (vm_compute; reflexivity).
  assert (is_int64 3) as H3 by (unfold is_int64, LLONG_MIN, LLONG_MAX; lia).
  assert (is_int64 5) as H5 by (unfold is_int64, LLONG_MIN, LLONG_MAX; lia).
  assert (is_int64 (5 + 3)) as H8
    by (unfold is_int64, LLONG_MIN, LLONG_MAX; lia).
  destruct (proj1 (hincrbyCommand_guard 512 isObjectRepresentableAsLongLong
                     (mkServer [] 16 None true true 512 0 0 0 0 0 REDIS_OK
                        (-1) (-1) 0 0)
                     (Some (Hash_val (Hash_ziplist [[110]; [53]])))
                     (Hash_ziplist [[110]; [53]]) [110] (Some [53]) 3 5
                     eq_refl Hwf H3 H5 Hcur Hparse) H8)
    as (o' & Hcmd & _ & Hget).
  exists o'. split; [exact Hcmd|]. exact (Hget [110]).
Defined.

End HashFacts.
